(** * mini-cp (Python port): the reversible state managers, the sparse-set
    domains, the fix-point and the depth-first search, embedded shallowly.

    Every Python method becomes a function in a small state-and-exception
    monad [M S A := S -> outcome A * S]: the state a method mutates is
    threaded explicitly, [raise] stands for a Python [raise], and
    [try_except] for a [try: ... except E: ...] block.  Python objects are
    addressed by the index at which they were created ([ref] for the
    reversible cells, plain [nat] identifiers for variables and
    constraints), so that two holders of the same object see the same
    mutations. *)

From Stdlib Require Import ZArith Lia Floats.
From stdpp Require Import base tactics option list.

Local Open Scope Z_scope.

(* ================================================================== *)
(** ** Exceptions and the monad *)

(** Modelled from the spec: [mini_cp/engine/exceptions.py] is imported by
    every engine module but is not among the sources; section 4.9 of the
    specification names its two classes, [InconsistencyException]
    (propagation-time failure, no payload) and [StopSearchException]
    (raised by the search when its limit is reached).  The remaining
    constructors are Python built-in exceptions: those the sources raise,
    [AssertionError] for a failed [assert], [IndexError] and
    [ZeroDivisionError] for the operations that raise them, and
    [ReferenceError] for an identifier that names no object, which no
    state built by the constructors below contains. *)
Inductive exn : Set :=
  | InconsistencyException
  | StopSearchException
  | ValueError
  | NotImplementedError
  | IndexError
  | OverflowError
  | RuntimeError
  | AssertionError
  | ZeroDivisionError
  | ReferenceError.

#[global] Instance exn_eq_dec : EqDecision exn.
Proof. solve_decision. Defined.

(** The result of running a method: a value, a raised exception, or the
    exhaustion of the fuel given to a loop whose termination is not
    structural ([OutOfFuel] is never caught by [try_except]). *)
Inductive outcome (A : Type) : Type :=
  | Ret (a : A)
  | Raise (e : exn)
  | OutOfFuel.
Arguments Ret {A} a.
Arguments Raise {A} e.
Arguments OutOfFuel {A}.

Definition M (S A : Type) : Type := S -> outcome A * S.

Definition ret {S A} (a : A) : M S A := fun s => (Ret a, s).

Definition bind {S A B} (m : M S A) (k : A -> M S B) : M S B :=
  fun s =>
    match m s with
    | (Ret a, s') => k a s'
    | (Raise e, s') => (Raise e, s')
    | (OutOfFuel, s') => (OutOfFuel, s')
    end.

Definition raise {S A} (e : exn) : M S A := fun s => (Raise e, s).

Definition out_of_fuel {S A} : M S A := fun s => (OutOfFuel, s).

(** [try: m except e: h] *)
Definition try_except {S A} (m : M S A) (e : exn) (h : M S A) : M S A :=
  fun s =>
    match m s with
    | (Raise e', s') => if decide (e' = e) then h s' else (Raise e', s')
    | r => r
    end.

Definition gets {S A} (f : S -> A) : M S A := fun s => (Ret (f s), s).

Definition modify {S} (f : S -> S) : M S unit := fun s => (Ret tt, f s).

Notation "x <- m ;; k" := (bind m (fun x => k))
  (at level 100, m at next level, right associativity).
Notation "m ;; k" := (bind m (fun _ => k))
  (at level 100, right associativity).

(** [for x in l: body x] *)
Fixpoint for_each {S A} (l : list A) (body : A -> M S unit) : M S unit :=
  match l with
  | [] => ret tt
  | x :: l' => body x ;; for_each l' body
  end.

(** Python's [assert]-free list indexing [l[i]]: negative indices count
    from the end, anything else out of range raises [IndexError]. *)
Definition getitem {S A} (l : list A) (i : Z) : M S A :=
  let n := Z.of_nat (length l) in
  let j := if i <? 0 then i + n else i in
  if (0 <=? j) && (j <? n)
  then match l !! Z.to_nat j with
       | Some x => ret x
       | None => raise IndexError
       end
  else raise IndexError.

(** [l[i] = x] *)
Definition setitem {S A} (l : list A) (i : Z) (x : A) : M S (list A) :=
  let n := Z.of_nat (length l) in
  let j := if i <? 0 then i + n else i in
  if (0 <=? j) && (j <? n)
  then ret (<[Z.to_nat j := x]> l)
  else raise IndexError.

(* ================================================================== *)
(** ** state.py: the two state managers *)

(** A reversible cell is addressed by the index at which the manager
    created it.  The values held are Python integers; a reversible
    boolean (a constraint's [_active]) is the integer 1 or 0, as Python's
    [True == 1] and [False == 0]. *)
Abbreviation ref := nat (only parsing).

(** [_TrailStateEntry(v, trail)] and [_CopyStateEntry(v, copy)]: the value
    to write back and the cell to write it to. *)
Abbreviation StateEntry := (Z * nat)%type (only parsing).

Module Trail.

(** [class Trail]: [_v] and [_last_magic]. *)
Record Trail : Set := mkTrail { v : Z; last_magic : Z }.

(** [class Trailer].  The [Trail] objects created by the manager are
    kept in [cells]; [current] and each element of [prior] are
    [_BackupTrail] deques, written here with the most recently appended
    entry first; [prior] has the most recently appended trail first.
    [on_restore_listeners] holds the identifiers of the registered
    procedures and [notified] the calls made to them, latest first. *)
Record Trailer : Set := mkTrailer {
  cells : list Trail;
  prior : list (list StateEntry);
  current : list StateEntry;
  magic : Z;
  on_restore_listeners : list nat;
  notified : list nat
}.

(** [Trailer.__init__] *)
Definition init : Trailer := mkTrailer [] [] [] 0 [] [].

Definition with_cells (c : list Trail) (t : Trailer) : Trailer :=
  mkTrailer c (prior t) (current t) (magic t)
            (on_restore_listeners t) (notified t).

Definition get_magic (t : Trailer) : Z := magic t.

Definition get_level (t : Trailer) : Z := Z.of_nat (length (prior t)) - 1.

(** [Trailer.push_state]: [self._current.append(entry)] *)
Definition push_state (e : StateEntry) (t : Trailer) : Trailer :=
  mkTrailer (cells t) (prior t) (e :: current t) (magic t)
            (on_restore_listeners t) (notified t).

Definition on_restore (l : nat) (t : Trailer) : Trailer :=
  mkTrailer (cells t) (prior t) (current t) (magic t)
            (on_restore_listeners t ++ [l]) (notified t).

(** [Trailer._notify_restore]: every registered procedure is called, in
    registration order. *)
Definition notify_restore (t : Trailer) : Trailer :=
  mkTrailer (cells t) (prior t) (current t) (magic t)
            (on_restore_listeners t)
            (rev (on_restore_listeners t) ++ notified t).

(** [Trailer.save_state] *)
Definition save_state (t : Trailer) : Trailer :=
  mkTrailer (cells t) (current t :: prior t) [] (magic t + 1)
            (on_restore_listeners t) (notified t).

(** [_TrailStateEntry.restore]: [self._trail._v = self._v] *)
Definition entry_restore (e : StateEntry) (c : list Trail) : list Trail :=
  alter (fun x => mkTrail (fst e) (last_magic x)) (snd e) c.

(** [_BackupTrail.restore]: [while self: self.pop().restore()] *)
Fixpoint backup_restore (b : list StateEntry) (c : list Trail) : list Trail :=
  match b with
  | [] => c
  | e :: b' => backup_restore b' (entry_restore e c)
  end.

(** [Trailer.restore_state].  The current trail is emptied by its own
    [restore] before [self._prior.pop()] runs, and that [pop] raises
    [IndexError] on an empty deque. *)
Definition restore_state : M Trailer unit := fun t =>
  let c := backup_restore (current t) (cells t) in
  match prior t with
  | [] => (Raise IndexError,
           mkTrailer c [] [] (magic t) (on_restore_listeners t) (notified t))
  | cur :: pr =>
      (Ret tt,
       notify_restore
         (mkTrailer c pr cur (magic t + 1)
                    (on_restore_listeners t) (notified t)))
  end.

(** [Trailer.make_state_ref] / [make_state_int]: [Trail(self, init)] with
    [_last_magic = trail.get_magic() - 1]. *)
Definition make_state_ref (init_value : Z) : M Trailer ref := fun t =>
  (Ret (length (cells t)),
   with_cells (cells t ++ [mkTrail init_value (get_magic t - 1)]) t).

(** [Trail.value] *)
Definition value (r : ref) (t : Trailer) : Z :=
  match cells t !! r with Some c => v c | None => 0 end.

(** [Trail.trail] *)
Definition trail (r : ref) (t : Trailer) : Trailer :=
  match cells t !! r with
  | Some c =>
      let trail_magic := get_magic t in
      if decide (last_magic c <> trail_magic)
      then push_state (v c, r)
             (with_cells (<[r := mkTrail (v c) trail_magic]> (cells t)) t)
      else t
  | None => t
  end.

(** [Trail.set_value] *)
Definition set_value (r : ref) (x : Z) : M Trailer Z := fun t =>
  match cells t !! r with
  | Some c =>
      if decide (x <> v c)
      then let t1 := trail r t in
           (Ret x,
            with_cells (alter (fun c' => mkTrail x (last_magic c')) r
                              (cells t1)) t1)
      else (Ret (v c), t)
  | None => (Ret x, t)
  end.

End Trail.

Module Copy.

(** [class Copier].  [store] lists the [_v] field of the [Copy] objects
    in creation order (the [_store] deque); [prior] holds the [_Backup]
    deques, most recently appended first; a [_Backup] lists its entries
    in the order they were appended. *)
Record Copier : Set := mkCopier {
  store : list Z;
  prior : list (list StateEntry);
  on_restore_listeners : list nat;
  notified : list nat
}.

Definition init : Copier := mkCopier [] [] [] [].

Definition get_level (c : Copier) : Z := Z.of_nat (length (prior c)) - 1.

Definition store_size (c : Copier) : Z := Z.of_nat (length (store c)).

Definition on_restore (l : nat) (c : Copier) : Copier :=
  mkCopier (store c) (prior c) (on_restore_listeners c ++ [l]) (notified c).

Definition notify_restore (c : Copier) : Copier :=
  mkCopier (store c) (prior c) (on_restore_listeners c)
           (rev (on_restore_listeners c) ++ notified c).

(** [_Backup.__init__]: [for storage in copier._store:
    self.append(storage.save())] *)
Definition backup (c : Copier) : list StateEntry :=
  imap (fun i x => (x, i)) (store c).

(** [_CopyStateEntry.restore]: [self._copy._v = self._v] *)
Definition entry_restore (e : StateEntry) (s : list Z) : list Z :=
  <[snd e := fst e]> s.

(** [_Backup.restore]: [for state_entry in self: state_entry.restore()] *)
Fixpoint backup_restore (b : list StateEntry) (s : list Z) : list Z :=
  match b with
  | [] => s
  | e :: b' => backup_restore b' (entry_restore e s)
  end.

(** [Copier.save_state] *)
Definition save_state (c : Copier) : Copier :=
  mkCopier (store c) (backup c :: prior c)
           (on_restore_listeners c) (notified c).

(** [Copier.restore_state]: [self._prior.pop().restore()] raises
    [IndexError] on an empty deque, before anything is written. *)
Definition restore_state : M Copier unit := fun c =>
  match prior c with
  | [] => (Raise IndexError, c)
  | b :: pr =>
      (Ret tt,
       notify_restore
         (mkCopier (backup_restore b (store c)) pr
                   (on_restore_listeners c) (notified c)))
  end.

(** [Copier.make_state_ref] / [make_state_int] *)
Definition make_state_ref (init_value : Z) : M Copier ref := fun c =>
  (Ret (length (store c)),
   mkCopier (store c ++ [init_value]) (prior c)
            (on_restore_listeners c) (notified c)).

(** [Copy.value] *)
Definition value (r : ref) (c : Copier) : Z :=
  match store c !! r with Some x => x | None => 0 end.

(** [Copy.set_value] *)
Definition set_value (r : ref) (x : Z) : M Copier Z := fun c =>
  (Ret x,
   mkCopier (<[r := x]> (store c)) (prior c)
            (on_restore_listeners c) (notified c)).

End Copy.

(** [class StateManager]: the interface, implemented by [Trailer] and by
    [Copier]; a call on a manager dispatches on its class. *)
Inductive StateManager : Set :=
  | Trailer (t : Trail.Trailer)
  | Copier (c : Copy.Copier).

Definition on_trailer {A} (m : M Trail.Trailer A) (t : Trail.Trailer)
  : outcome A * StateManager :=
  let (o, t') := m t in (o, Trailer t').

Definition on_copier {A} (m : M Copy.Copier A) (c : Copy.Copier)
  : outcome A * StateManager :=
  let (o, c') := m c in (o, Copier c').

Definition get_level (sm : StateManager) : Z :=
  match sm with
  | Trailer t => Trail.get_level t
  | Copier c => Copy.get_level c
  end.

Definition save_state : M StateManager unit := fun sm =>
  match sm with
  | Trailer t => (Ret tt, Trailer (Trail.save_state t))
  | Copier c => (Ret tt, Copier (Copy.save_state c))
  end.

Definition restore_state : M StateManager unit := fun sm =>
  match sm with
  | Trailer t => on_trailer Trail.restore_state t
  | Copier c => on_copier Copy.restore_state c
  end.

(** [restore_state_until]: [while self.get_level() > level:
    self.restore_state()].  Every iteration that does not raise lowers the
    level by one, so [get_level() + 2] iterations are never exceeded. *)
Fixpoint restore_state_until_loop (n : nat) (level : Z) : M StateManager unit :=
  match n with
  | O => ret tt
  | S n' =>
      l <- gets get_level ;;
      if l >? level
      then restore_state ;; restore_state_until_loop n' level
      else ret tt
  end.

Definition restore_state_until (level : Z) : M StateManager unit := fun sm =>
  restore_state_until_loop (Z.to_nat (get_level sm + 2)) level sm.

Definition on_restore (l : nat) : M StateManager unit := fun sm =>
  match sm with
  | Trailer t => (Ret tt, Trailer (Trail.on_restore l t))
  | Copier c => (Ret tt, Copier (Copy.on_restore l c))
  end.

Definition make_state_ref (init_value : Z) : M StateManager ref := fun sm =>
  match sm with
  | Trailer t => on_trailer (Trail.make_state_ref init_value) t
  | Copier c => on_copier (Copy.make_state_ref init_value) c
  end.

Definition make_state_int (init_value : Z) : M StateManager ref :=
  make_state_ref init_value.

(** [make_state_map]: [TrailMap.__init__] and [CopyMap.__init__] both
    raise [NotImplementedError]. *)
Definition make_state_map : M StateManager ref := raise NotImplementedError.

(** [State.value] *)
Definition value (r : ref) (sm : StateManager) : Z :=
  match sm with
  | Trailer t => Trail.value r t
  | Copier c => Copy.value r c
  end.

(** [State.set_value] *)
Definition set_value (r : ref) (x : Z) : M StateManager Z := fun sm =>
  match sm with
  | Trailer t => on_trailer (Trail.set_value r x) t
  | Copier c => on_copier (Copy.set_value r x) c
  end.

(** [StateInt.increment] and [StateInt.decrement] *)
Definition increment (r : ref) : M StateManager Z :=
  x <- gets (value r) ;; set_value r (x + 1).

Definition decrement (r : ref) : M StateManager Z :=
  x <- gets (value r) ;; set_value r (x - 1).

(** The number of reversible cells the manager has created. *)
Definition n_cells (sm : StateManager) : nat :=
  match sm with
  | Trailer t => length (Trail.cells t)
  | Copier c => length (Copy.store c)
  end.

(** [factory.make_solver(by_copy)] chooses the manager. *)
Definition new_manager (by_copy : bool) : StateManager :=
  if by_copy then Copier Copy.init else Trailer Trail.init.

(** A state that holds the state manager: the manager itself, or the
    whole solver. *)
Class HasManager (S : Type) := {
  manager : S -> StateManager;
  set_manager : StateManager -> S -> S
}.

#[global] Instance manager_self : HasManager StateManager :=
  {| manager := fun sm => sm; set_manager := fun sm _ => sm |}.

Definition lift_sm {S} `{HasManager S} {A} (m : M StateManager A) : M S A :=
  fun s => let (o, sm') := m (manager s) in (o, set_manager sm' s).

(** [with_new_state(body)], the same four lines in [Trailer] and in
    [Copier]:
<<
      level = self.get_level()
      self.save_state()
      body()
      self.restore_state_until(level)
>> *)
Definition with_new_state {S} `{HasManager S} (body : M S unit) : M S unit :=
  level <- lift_sm (gets get_level) ;;
  lift_sm save_state ;;
  body ;;
  lift_sm (restore_state_until level).

(** *** Client programs of a state manager

    A [prog] is a piece of client code that uses nothing but a state
    manager and the cells it created: writes, cell creation, a
    [save_state(); p; restore_state()] bracket, [with_new_state], [raise]
    and [try/except]. *)
Inductive prog : Set :=
  | Skip
  | Seq (p q : prog)
  | SetValue (r : ref) (x : Z)
  | Increment (r : ref)
  | Decrement (r : ref)
  | MakeStateInt (x : Z)
  | Nested (p : prog)
  | WithNewState (p : prog)
  | RaiseExn (e : exn)
  | TryExcept (p : prog) (e : exn) (h : prog).

Fixpoint run (p : prog) : M StateManager unit :=
  match p with
  | Skip => ret tt
  | Seq p q => run p ;; run q
  | SetValue r x => set_value r x ;; ret tt
  | Increment r => increment r ;; ret tt
  | Decrement r => decrement r ;; ret tt
  | MakeStateInt x => make_state_int x ;; ret tt
  | Nested p => save_state ;; run p ;; restore_state
  | WithNewState p => with_new_state (run p)
  | RaiseExn e => raise e
  | TryExcept p e h => try_except (run p) e (run h)
  end.

(** Programs made of writes and properly nested save/restore pairs. *)
Fixpoint writes_and_pairs (p : prog) : bool :=
  match p with
  | Skip | SetValue _ _ | Increment _ | Decrement _ => true
  | Seq p q => writes_and_pairs p && writes_and_pairs q
  | Nested p => writes_and_pairs p
  | _ => false
  end.

(** Programs made of writes only. *)
Fixpoint writes_only (p : prog) : bool :=
  match p with
  | Skip | SetValue _ _ | Increment _ | Decrement _ => true
  | Seq p q => writes_only p && writes_only q
  | _ => false
  end.

(* ================================================================== *)
(** ** state.py: the reversible sparse set and the reversible stack *)

(** Running a method of a component on the component of a larger state. *)
Definition zoom {S T A} (get : S -> T) (put : T -> S -> S) (m : M T A)
  : M S A :=
  fun s => let (o, t') := m (get s) in (o, put t' s).

#[global] Instance manager_fst {X} : HasManager (StateManager * X) :=
  {| manager := fst; set_manager := fun sm s => (sm, snd s) |}.

(** [assert m] *)
Definition assert_ {S} (m : M S bool) : M S unit :=
  b <- m ;; if b then ret tt else raise AssertionError.

(** [range(a, b)] and [range(a, b, -1)] *)
Definition range (a b : Z) : list Z := seqZ a (b - a).
Definition range_down (a b : Z) : list Z :=
  (fun i => a - i) <$> seqZ 0 (a - b).

(** A [for] loop whose body may [return]: the body answers [true] to
    leave the loop. *)
Fixpoint for_until {S A} (l : list A) (body : A -> M S bool) : M S unit :=
  match l with
  | [] => ret tt
  | x :: l' => stop <- body x ;; if stop then ret tt else for_until l' body
  end.

Module SparseSet.

(** [class StateSparseSet].  [_size], [_min] and [_max] are reversible
    integers of the manager; [_values] and [_indices] are plain lists. *)
Record StateSparseSet : Set := mk {
  _n : Z;
  _ofs : Z;
  _size : ref;
  _min : ref;
  _max : ref;
  _values : list Z;
  _indices : list Z
}.

(** The state a method of the set runs on: the manager and the set. *)
Abbreviation St := (StateManager * StateSparseSet)%type.

Definition field {A} (f : StateSparseSet -> A) : M St A :=
  gets (fun s => f (snd s)).

Definition set_values (l : list Z) : M St unit :=
  modify (fun s => (fst s, mk (_n (snd s)) (_ofs (snd s)) (_size (snd s))
                              (_min (snd s)) (_max (snd s)) l
                              (_indices (snd s)))).

Definition set_indices (l : list Z) : M St unit :=
  modify (fun s => (fst s, mk (_n (snd s)) (_ofs (snd s)) (_size (snd s))
                              (_min (snd s)) (_max (snd s))
                              (_values (snd s)) l)).

(** [self._size.value()], [self._min.set_value(x)], ... *)
Definition get (f : StateSparseSet -> ref) : M St Z :=
  r <- field f ;; lift_sm (gets (value r)).

Definition set (f : StateSparseSet -> ref) (x : Z) : M St Z :=
  r <- field f ;; lift_sm (set_value r x).

(** [self._values[i]], [self._values[i] = x] and the same for
    [_indices] *)
Definition values_get (i : Z) : M St Z := l <- field _values ;; getitem l i.
Definition indices_get (i : Z) : M St Z := l <- field _indices ;; getitem l i.
Definition values_set (i x : Z) : M St unit :=
  l <- field _values ;; l' <- setitem l i x ;; set_values l'.
Definition indices_set (i x : Z) : M St unit :=
  l <- field _indices ;; l' <- setitem l i x ;; set_indices l'.

(** [StateSparseSet.__init__(sm, n, ofs)] *)
Definition init (n ofs : Z) : M StateManager StateSparseSet :=
  size <- make_state_int n ;;
  mn <- make_state_int 0 ;;
  mx <- make_state_int (n - 1) ;;
  ret (mk n ofs size mn mx (range 0 n) (range 0 n)).

Definition size : M St Z := get _size.

Definition is_empty : M St bool := s <- get _size ;; ret (s =? 0).

Definition min : M St Z :=
  e <- is_empty ;;
  if e then raise ValueError
  else m <- get _min ;; o <- field _ofs ;; ret (m + o).

Definition max : M St Z :=
  e <- is_empty ;;
  if e then raise ValueError
  else m <- get _max ;; o <- field _ofs ;; ret (m + o).

Definition check_val (val : Z) : M St bool :=
  l <- field _values ;;
  assert_ (ret (val <=? Z.of_nat (length l) - 1)) ;;
  ret true.

Definition exchange_positions (val1 val2 : Z) : M St unit :=
  assert_ (check_val val1) ;;
  assert_ (check_val val2) ;;
  let v1 := val1 in
  let v2 := val2 in
  i1 <- indices_get v1 ;;
  i2 <- indices_get v2 ;;
  values_set i1 v2 ;;
  values_set i2 v1 ;;
  indices_set v1 i2 ;;
  indices_set v2 i1.

Definition internal_contains (val : Z) : M St bool :=
  n <- field _n ;;
  if (val <? 0) || (val >=? n) then ret false
  else i <- indices_get val ;; s <- size ;; ret (i <? s).

Definition contains (val : Z) : M St bool :=
  o <- field _ofs ;;
  let val := val - o in
  n <- field _n ;;
  if (val <? 0) || (val >=? n) then ret false
  else i <- indices_get val ;; s <- size ;; ret (i <? s).

Definition update_max_val_removed (val : Z) : M St unit :=
  e <- is_empty ;;
  mx <- get _max ;;
  if negb e && (mx =? val) then
    assert_ (c <- internal_contains val ;; ret (negb c)) ;;
    mn <- get _min ;;
    for_until (range_down (val - 1) (mn - 1))
      (fun v => c <- internal_contains v ;;
                if c then set _max v ;; ret true else ret false)
  else ret tt.

Definition update_min_val_removed (val : Z) : M St unit :=
  e <- is_empty ;;
  mn <- get _min ;;
  if negb e && (mn =? val) then
    assert_ (c <- internal_contains val ;; ret (negb c)) ;;
    mx <- get _max ;;
    for_until (range (val + 1) (mx + 1))
      (fun v => c <- internal_contains v ;;
                if c then set _min v ;; ret true else ret false)
  else ret tt.

Definition update_bounds_val_removed (val : Z) : M St unit :=
  update_max_val_removed val ;;
  update_min_val_removed val.

Definition remove (val : Z) : M St bool :=
  c <- contains val ;;
  if negb c then ret false
  else
    o <- field _ofs ;;
    let val := val - o in
    assert_ (check_val val) ;;
    s <- size ;;
    last <- values_get (s - 1) ;;
    exchange_positions val last ;;
    (r <- field _size ;; lift_sm (decrement r)) ;;
    update_bounds_val_removed val ;;
    ret true.

Definition remove_all_but (v : Z) : M St unit :=
  assert_ (contains v) ;;
  o <- field _ofs ;;
  let v := v - o in
  assert_ (check_val v) ;;
  val <- values_get 0 ;;
  index <- indices_get v ;;
  indices_set v 0 ;;
  values_set 0 v ;;
  indices_set val index ;;
  values_set index val ;;
  set _min v ;;
  set _max v ;;
  set _size 1 ;;
  ret tt.

Definition remove_all : M St unit := set _size 0 ;; ret tt.

Definition remove_below (value : Z) : M St unit :=
  mx <- max ;;
  if mx <? value then remove_all
  else mn <- min ;; for_each (range mn value) (fun v => remove v ;; ret tt).

Definition remove_above (value : Z) : M St unit :=
  mn <- min ;;
  if mn >? value then remove_all
  else mx <- max ;;
       for_each (range_down mx value) (fun v => remove v ;; ret tt).

(** [fill_array(dest)]: the updated [dest] and the size of the set. *)
Fixpoint fill_loop (l : list Z) (dest : list Z) : M St (list Z) :=
  match l with
  | [] => ret dest
  | i :: l' =>
      x <- values_get i ;;
      o <- field _ofs ;;
      dest' <- setitem dest i (x + o) ;;
      fill_loop l' dest'
  end.

Definition fill_array (dest : list Z) : M St (list Z * Z) :=
  s <- get _size ;;
  dest' <- fill_loop (range 0 s) dest ;;
  ret (dest', s).

Definition to_array : M St (list Z) :=
  s <- size ;;
  r <- fill_array (replicate (Z.to_nat s) 0) ;;
  ret (fst r).

End SparseSet.

Module Stack.

(** [class StateStack]: a reversible size over a plain list. *)
Record StateStack : Set := mk { _size : ref; _stack : list nat }.

Abbreviation St := (StateManager * StateStack)%type.

(** [StateStack.__init__(sm)] *)
Definition init : M StateManager StateStack :=
  size <- make_state_int 0 ;; ret (mk size []).

Definition size : M St Z :=
  fun s => (Ret (value (_size (snd s)) (fst s)), s).

Definition push (elem : nat) : M St unit :=
  s <- size ;;
  st <- gets (fun s => snd s) ;;
  (if Z.of_nat (length (_stack st)) >? s
   then l <- setitem (_stack st) s elem ;;
        modify (fun s => (fst s, mk (_size st) l))
   else modify (fun s => (fst s, mk (_size st) (_stack st ++ [elem])))) ;;
  lift_sm (increment (_size st)) ;;
  ret tt.

Definition get (index : Z) : M St nat :=
  st <- gets (fun s => snd s) ;; getitem (_stack st) index.

End Stack.
(* ================================================================== *)
(** ** The objects of the engine *)

Definition MAX_VALUE : Z := 2147483647.
Definition MIN_VALUE : Z := -2147483648.

(** An integer variable: an [IntVarImpl] object, named by the index at
    which it was created, or a view on another variable.  Views hold no
    state of their own. *)
Inductive IntVar : Set :=
  | IntVarImpl (id : nat)
  | IntVarViewMul (x : IntVar) (a : Z)
  | IntVarViewOffset (x : IntVar) (o : Z)
  | IntVarViewOpposite (x : IntVar)
  | BoolVarImpl (binary_var : IntVar).

(** The closures that the engine stores in a [ConstraintClosure] or in
    the solver's list of fix-point listeners: the two inner functions of
    [IsLessOrEqual.post], the lambda of [Minimize.__init__], and closures
    written by the user of the library, named by a number. *)
Inductive Filter : Set :=
  | IsLessOrEqual_callback (b x : IntVar) (v : Z)
  | IsLessOrEqual_callback2 (b x : IntVar) (v : Z)
  | Minimize_cutoff (obj : nat)
  | UserFilter (n : nat).

(** The classes of constraints embedded here, with their fields other
    than those of [AbstractConstraint].  The [...Constraint] ones are the
    local classes of [factory.equal], [factory.not_equal],
    [factory.less_or_equal] and [factory.larger_or_equal] for a constant
    right-hand side. *)
(** The fields of [class Sum] other than those of [AbstractConstraint]. *)
Record SumFields : Set := mkSum {
  sum_x : list IntVar;
  sum_n : Z;
  sum_min : list Z;
  sum_max : list Z;
  sum_n_fixed : ref;
  sum_sum_fixed : ref;
  sum_fixed : list Z
}.

Inductive ConstraintClass : Set :=
  | ConstraintClosure (filtering : Filter)
  | EqualConstraint (x : IntVar) (v : Z)
  | NotEqualConstraint (x : IntVar) (v : Z)
  | LessOrEqualConstraint (x : IntVar) (v : Z)
  | LargerOrEqualConstraint (x : IntVar) (v : Z)
  | IsEqual (b x : IntVar) (v : Z)
  | IsLessOrEqual (b x : IntVar) (v : Z)
  | Sum (s : SumFields).

(** [class AbstractConstraint]: [_active] is a reversible boolean,
    [_scheduled] a plain one. *)
Record Constraint : Set := mkConstraint {
  class : ConstraintClass;
  _active : ref;
  _scheduled : bool
}.

(** [class IntVarImpl]: the sparse set of its [SparseSetDomain] and the
    three stacks of subscribed constraints. *)
Record IntVarObj : Set := mkIntVar {
  _domain : SparseSet.StateSparseSet;
  _on_domain : Stack.StateStack;
  _on_fix : Stack.StateStack;
  _on_bound : Stack.StateStack
}.

(** [class Minimize] *)
Record Minimize : Set := mkMinimize { _bound : Z; _x : IntVar }.

(** [class MiniCP], together with the objects created in it: the
    [IntVarImpl] objects, the constraints and the objectives, each list
    in creation order. *)
Record World : Set := mkWorld {
  _sm : StateManager;
  _vars : Stack.StateStack;
  _propagation_queue : list nat;
  _fix_point_listeners : list Filter;
  int_vars : list IntVarObj;
  constraints : list Constraint;
  objectives : list Minimize
}.

Definition with_sm (sm : StateManager) (w : World) : World :=
  mkWorld sm (_vars w) (_propagation_queue w) (_fix_point_listeners w)
          (int_vars w) (constraints w) (objectives w).

Definition with_queue (q : list nat) (w : World) : World :=
  mkWorld (_sm w) (_vars w) q (_fix_point_listeners w)
          (int_vars w) (constraints w) (objectives w).

Definition with_listeners (l : list Filter) (w : World) : World :=
  mkWorld (_sm w) (_vars w) (_propagation_queue w) l
          (int_vars w) (constraints w) (objectives w).

Definition with_int_vars (l : list IntVarObj) (w : World) : World :=
  mkWorld (_sm w) (_vars w) (_propagation_queue w) (_fix_point_listeners w)
          l (constraints w) (objectives w).

Definition with_constraints (l : list Constraint) (w : World) : World :=
  mkWorld (_sm w) (_vars w) (_propagation_queue w) (_fix_point_listeners w)
          (int_vars w) l (objectives w).

Definition with_objectives (l : list Minimize) (w : World) : World :=
  mkWorld (_sm w) (_vars w) (_propagation_queue w) (_fix_point_listeners w)
          (int_vars w) (constraints w) l.

#[global] Instance manager_world : HasManager World :=
  {| manager := _sm; set_manager := with_sm |}.

(** [MiniCP.__init__(sm)] and [factory.make_solver(by_copy)] *)
Definition MiniCP (sm : StateManager) : World :=
  let (o, sm') := Stack.init sm in
  match o with
  | Ret st => mkWorld sm' st [] [] [] [] []
  | _ => mkWorld sm' (Stack.mk 0%nat []) [] [] [] [] []
  end.

Definition make_solver (by_copy : bool) : World :=
  MiniCP (new_manager by_copy).

(** Looking an object up by its identifier. *)
Definition the {S A} (o : option A) : M S A :=
  match o with Some a => ret a | None => raise ReferenceError end.

Definition int_var (id : nat) : M World IntVarObj :=
  fun w => the (int_vars w !! id) w.

Definition constraint (c : nat) : M World Constraint :=
  fun w => the (constraints w !! c) w.

Definition objective (o : nat) : M World Minimize :=
  fun w => the (objectives w !! o) w.

(** Running a method of the sparse set of variable [id]. *)
Definition on_domain {A} (id : nat) (m : M SparseSet.St A) : M World A :=
  x <- int_var id ;;
  fun w =>
    let '(o, (sm', d')) := m (_sm w, _domain x) in
    (o, with_sm sm'
          (with_int_vars
             (<[id := mkIntVar d' (_on_domain x) (_on_fix x) (_on_bound x)]>
                (int_vars w)) w)).

(** The three stacks of a variable. *)
Inductive Event : Set := OnDomain | OnFix | OnBound.

Definition stack_of (e : Event) (x : IntVarObj) : Stack.StateStack :=
  match e with
  | OnDomain => _on_domain x
  | OnFix => _on_fix x
  | OnBound => _on_bound x
  end.

Definition set_stack (e : Event) (s : Stack.StateStack) (x : IntVarObj)
  : IntVarObj :=
  match e with
  | OnDomain => mkIntVar (_domain x) s (_on_fix x) (_on_bound x)
  | OnFix => mkIntVar (_domain x) (_on_domain x) s (_on_bound x)
  | OnBound => mkIntVar (_domain x) (_on_domain x) (_on_fix x) s
  end.

Definition on_stack {A} (id : nat) (e : Event) (m : M Stack.St A)
  : M World A :=
  x <- int_var id ;;
  fun w =>
    let '(o, (sm', s')) := m (_sm w, stack_of e x) in
    (o, with_sm sm' (with_int_vars (<[id := set_stack e s' x]> (int_vars w)) w)).

(* ------------------------------------------------------------------ *)
(** *** constraint.py: [AbstractConstraint] *)

(** [AbstractConstraint.__init__(cp)] *)
Definition new_constraint (k : ConstraintClass) : M World nat :=
  active <- lift_sm (make_state_ref 1) ;;
  fun w =>
    (Ret (length (constraints w)),
     with_constraints (constraints w ++ [mkConstraint k active false]) w).

Definition set_scheduled (c : nat) (scheduled : bool) : M World unit :=
  k <- constraint c ;;
  modify (fun w =>
            with_constraints
              (<[c := mkConstraint (class k) (_active k) scheduled]>
                 (constraints w)) w).

Definition is_scheduled (c : nat) : M World bool :=
  k <- constraint c ;; ret (_scheduled k).

Definition set_active (c : nat) (active : bool) : M World unit :=
  k <- constraint c ;;
  lift_sm (set_value (_active k) (if active then 1 else 0)) ;;
  ret tt.

Definition is_active (c : nat) : M World bool :=
  k <- constraint c ;;
  a <- lift_sm (gets (value (_active k))) ;;
  ret (negb (a =? 0)).

(* ------------------------------------------------------------------ *)
(** *** solver.py: [MiniCP.schedule] *)

Definition schedule (c : nat) : M World unit :=
  a <- is_active c ;;
  s <- is_scheduled c ;;
  if a && negb s
  then set_scheduled c true ;;
       modify (fun w => with_queue (_propagation_queue w ++ [c]) w)
  else ret tt.

Definition on_fix_point (listener : Filter) : M World unit :=
  modify (fun w => with_listeners (_fix_point_listeners w ++ [listener]) w).
(* ------------------------------------------------------------------ *)
(** *** Python arithmetic used by the views *)

Definition when_ {S} (b : bool) (m : M S unit) : M S unit :=
  if b then m else ret tt.

(** [a % b] on integers: the result has the sign of [b]. *)
Definition py_mod {S} (a b : Z) : M S Z :=
  if b =? 0 then raise ZeroDivisionError else ret (a mod b).

(** A Python [float] is an IEEE 754 binary64 number.  [float_of_int] is
    the conversion of an integer (rounded to nearest even when it has
    more than 53 significant bits), [truediv] is [a / b] on two integers,
    which is the division of the two converted operands as long as both
    are below 2^53 in magnitude, as every 32-bit value is. *)
Definition float_of_int (z : Z) : spec_float :=
  binary_normalize prec emax z 0 false.

Definition truediv {S} (a b : Z) : M S spec_float :=
  if b =? 0 then raise ZeroDivisionError
  else ret (SFdiv prec emax (float_of_int a) (float_of_int b)).

(** [int(f)]: truncation toward zero. *)
Definition int_of_float {S} (f : spec_float) : M S Z :=
  match f with
  | S754_zero _ => ret 0
  | S754_finite s m e =>
      let a := if e >=? 0 then Z.pos m * 2 ^ e else Z.pos m / 2 ^ (- e) in
      ret (if s then - a else a)
  | S754_infinity _ => raise OverflowError
  | S754_nan => raise ValueError
  end.

(** [f != a] for a float [f] and an integer [a]: Python compares the
    two exactly. *)
Definition float_ne_int (f : spec_float) (a : Z) : bool :=
  match f with
  | S754_zero _ => negb (a =? 0)
  | S754_finite s m e =>
      let sg (x : Z) := if s then - x else x in
      if e >=? 0 then negb (sg (Z.pos m * 2 ^ e) =? a)
      else negb ((Z.pos m mod 2 ^ (- e) =? 0) && (sg (Z.pos m / 2 ^ (- e)) =? a))
  | _ => true
  end.

Definition float_mul_int (f : spec_float) (b : Z) : spec_float :=
  SFmul prec emax f (float_of_int b).

Definition float_add_int (f : spec_float) (b : Z) : spec_float :=
  SFadd prec emax f (float_of_int b).

(** [IntVarViewMul._floor_div] and [IntVarViewMul._ceil_div]:
<<
      q = a / b
      if a < 0 and q * b != a: return int(q - 1)   # _floor_div
      if a > 0 and q * b != a: return int(q + 1)   # _ceil_div
      else: return int(q)
>> *)
Definition floor_div {S} (a b : Z) : M S Z :=
  q <- truediv a b ;;
  if (a <? 0) && float_ne_int (float_mul_int q b) a
  then int_of_float (float_add_int q (-1))
  else int_of_float q.

Definition ceil_div {S} (a b : Z) : M S Z :=
  q <- truediv a b ;;
  if (a >? 0) && float_ne_int (float_mul_int q b) a
  then int_of_float (float_add_int q 1)
  else int_of_float q.

(** [int(v / a)] *)
Definition int_truediv {S} (v a : Z) : M S Z :=
  q <- truediv v a ;; int_of_float q.

(* ------------------------------------------------------------------ *)
(** *** domain.py: [SparseSetDomain] and its listener *)

(** [class DomainListener] *)
Record DomainListener : Type := mkListener {
  empty_ : M World unit;
  fix_ : M World unit;
  change_ : M World unit;
  change_min_ : M World unit;
  change_max_ : M World unit
}.

Module Domain.

Definition min (id : nat) : M World Z := on_domain id SparseSet.min.
Definition max (id : nat) : M World Z := on_domain id SparseSet.max.
Definition size (id : nat) : M World Z := on_domain id SparseSet.size.
Definition contains (id : nat) (v : Z) : M World bool :=
  on_domain id (SparseSet.contains v).
Definition is_singleton (id : nat) : M World bool :=
  s <- on_domain id SparseSet.size ;; ret (s =? 1).
Definition fill_array (id : nat) (dest : list Z) : M World (list Z * Z) :=
  on_domain id (SparseSet.fill_array dest).

Definition remove (id : nat) (v : Z) (l : DomainListener) : M World unit :=
  c <- on_domain id (SparseSet.contains v) ;;
  if c then
    mx <- max id ;;
    let max_changed := mx =? v in
    mn <- min id ;;
    let min_changed := mn =? v in
    on_domain id (SparseSet.remove v) ;;
    s <- on_domain id SparseSet.size ;;
    when_ (s =? 0) (empty_ l) ;;
    change_ l ;;
    when_ max_changed (change_max_ l) ;;
    when_ min_changed (change_min_ l) ;;
    s <- on_domain id SparseSet.size ;;
    when_ (s =? 1) (fix_ l)
  else ret tt.

Definition remove_all_but (id : nat) (v : Z) (l : DomainListener)
  : M World unit :=
  c <- on_domain id (SparseSet.contains v) ;;
  if c then
    s <- on_domain id SparseSet.size ;;
    if negb (s =? 1) then
      mx <- max id ;;
      let max_changed := negb (mx =? v) in
      mn <- min id ;;
      let min_changed := negb (mn =? v) in
      on_domain id (SparseSet.remove_all_but v) ;;
      s <- on_domain id SparseSet.size ;;
      when_ (s =? 0) (empty_ l) ;;
      fix_ l ;;
      change_ l ;;
      when_ max_changed (change_max_ l) ;;
      when_ min_changed (change_min_ l)
    else ret tt
  else
    on_domain id SparseSet.remove_all ;;
    empty_ l.

Definition remove_below (id : nat) (value : Z) (l : DomainListener)
  : M World unit :=
  mn <- on_domain id SparseSet.min ;;
  if mn <? value then
    on_domain id (SparseSet.remove_below value) ;;
    s <- on_domain id SparseSet.size ;;
    if s =? 0 then empty_ l
    else if s =? 1 then fix_ l ;; change_min_ l ;; change_ l
    else change_min_ l ;; change_ l
  else ret tt.

Definition remove_above (id : nat) (value : Z) (l : DomainListener)
  : M World unit :=
  mx <- on_domain id SparseSet.max ;;
  if mx >? value then
    on_domain id (SparseSet.remove_above value) ;;
    s <- on_domain id SparseSet.size ;;
    if s =? 0 then empty_ l
    else if s =? 1 then fix_ l ;; change_max_ l ;; change_ l
    else change_max_ l ;; change_ l
  else ret tt.

End Domain.

(* ------------------------------------------------------------------ *)
(** *** int_var.py *)

(** [_DomainListener._schedule_all] *)
Definition schedule_all (id : nat) (e : Event) : M World unit :=
  n <- on_stack id e Stack.size ;;
  for_each (range 0 n)
    (fun i => c <- on_stack id e (Stack.get i) ;; schedule c).

(** [class _DomainListener] *)
Definition dom_listener (id : nat) : DomainListener := {|
  empty_ := raise InconsistencyException;
  fix_ := schedule_all id OnFix;
  change_ := schedule_all id OnDomain;
  change_min_ := schedule_all id OnBound;
  change_max_ := schedule_all id OnBound
|}.

(** [IntVarImpl.__init__(cp, min, max, n, values)] *)
Definition IntVarImpl_init (min max n : option Z) (values : option (list Z))
  : M World nat :=
  bounds <-
    match values, n, min, max with
    | Some _, None, None, None => raise NotImplementedError
    | None, Some n, None, None => ret (0, n - 1)
    | None, None, Some mn, Some mx => ret (mn, mx)
    | _, _, _, _ => raise ValueError
    end ;;
  let min := fst bounds in
  let max := snd bounds in
  if (min =? MIN_VALUE) || (max =? MAX_VALUE) then raise ValueError
  else if min >? max then raise ValueError
  else
    d <- lift_sm (SparseSet.init (max - min + 1) min) ;;
    on_dom <- lift_sm Stack.init ;;
    on_fx <- lift_sm Stack.init ;;
    on_bd <- lift_sm Stack.init ;;
    fun w =>
      (Ret (length (int_vars w)),
       with_int_vars (int_vars w ++ [mkIntVar d on_dom on_fx on_bd]) w).

(** [IntVarImpl._constraint_closure]: the [ConstraintClosure] is posted
    with [enforce_fix_point=False], and its [post] does nothing. *)
Definition constraint_closure (f : Filter) : M World nat :=
  new_constraint (ConstraintClosure f).

(** [dest[i] = g(dest[i])] for [i] in [range(s)] *)
Fixpoint update_each {S} (l : list Z) (g : Z -> Z) (dest : list Z)
  : M S (list Z) :=
  match l with
  | [] => ret dest
  | i :: l' =>
      x <- getitem dest i ;;
      dest' <- setitem dest i (g x) ;;
      update_each l' g dest'
  end.

Module Var.

(** The methods of [IntVar], dispatched on the class of the variable. *)

Fixpoint size (x : IntVar) : M World Z :=
  match x with
  | IntVarImpl id => Domain.size id
  | IntVarViewMul x _ | IntVarViewOffset x _
  | IntVarViewOpposite x | BoolVarImpl x => size x
  end.

Fixpoint is_fixed (x : IntVar) : M World bool :=
  match x with
  | IntVarImpl id => Domain.is_singleton id
  | IntVarViewMul x _ | IntVarViewOffset x _
  | IntVarViewOpposite x | BoolVarImpl x => is_fixed x
  end.

Fixpoint min (x : IntVar) : M World Z :=
  match x with
  | IntVarImpl id => Domain.min id
  | IntVarViewMul x a =>
      if a >=? 0 then m <- min x ;; ret (a * m)
      else m <- max x ;; ret (a * m)
  | IntVarViewOffset x o => m <- min x ;; ret (m + o)
  | IntVarViewOpposite x => m <- max x ;; ret (- m)
  | BoolVarImpl x => min x
  end
with max (x : IntVar) : M World Z :=
  match x with
  | IntVarImpl id => Domain.max id
  | IntVarViewMul x a =>
      if a >=? 0 then m <- max x ;; ret (a * m)
      else m <- min x ;; ret (a * m)
  | IntVarViewOffset x o => m <- max x ;; ret (m + o)
  | IntVarViewOpposite x => m <- min x ;; ret (- m)
  | BoolVarImpl x => max x
  end.

Fixpoint contains (x : IntVar) (v : Z) : M World bool :=
  match x with
  | IntVarImpl id => Domain.contains id v
  | IntVarViewMul x a =>
      r <- py_mod v a ;;
      if negb (r =? 0) then ret false
      else q <- int_truediv v a ;; contains x q
  | IntVarViewOffset x o => contains x (v - o)
  | IntVarViewOpposite x => contains x (- v)
  | BoolVarImpl x => contains x v
  end.

Fixpoint fill_array (x : IntVar) (dest : list Z) : M World (list Z * Z) :=
  match x with
  | IntVarImpl id => Domain.fill_array id dest
  | IntVarViewMul x a =>
      r <- fill_array x dest ;;
      d <- update_each (range 0 (snd r)) (fun y => y * a) (fst r) ;;
      ret (d, snd r)
  | IntVarViewOffset x o =>
      r <- fill_array x dest ;;
      d <- update_each (range 0 (snd r)) (fun y => y + o) (fst r) ;;
      ret (d, snd r)
  | IntVarViewOpposite x =>
      r <- fill_array x dest ;;
      d <- update_each (range 0 (snd r)) (fun y => - y) (fst r) ;;
      ret (d, snd r)
  | BoolVarImpl x => fill_array x dest
  end.

Fixpoint remove (x : IntVar) (v : Z) : M World unit :=
  match x with
  | IntVarImpl id => Domain.remove id v (dom_listener id)
  | IntVarViewMul x a =>
      r <- py_mod v a ;;
      if r =? 0 then q <- int_truediv v a ;; remove x q else ret tt
  | IntVarViewOffset x o => remove x (v - o)
  | IntVarViewOpposite x => remove x (- v)
  | BoolVarImpl x => remove x v
  end.

(** [x.fix(v)] with a positional argument.  [BoolVarImpl.fix(self,
    b=None, v=None)] receives it as [b] and fixes the variable to 1 or 0
    according to its truth value. *)
Fixpoint fix_ (x : IntVar) (v : Z) : M World unit :=
  match x with
  | IntVarImpl id => Domain.remove_all_but id v (dom_listener id)
  | IntVarViewMul x a =>
      r <- py_mod v a ;;
      if r =? 0 then q <- int_truediv v a ;; fix_ x q
      else raise InconsistencyException
  | IntVarViewOffset x o => fix_ x (v - o)
  | IntVarViewOpposite x => fix_ x (- v)
  | BoolVarImpl x => if negb (v =? 0) then fix_ x 1 else fix_ x 0
  end.

(** [b.fix(v=...)] with the keyword argument [v]. *)
Definition fix_v (x : IntVar) (v : Z) : M World unit :=
  match x with
  | BoolVarImpl y => fix_ y v
  | _ => fix_ x v
  end.

Fixpoint remove_below (x : IntVar) (v : Z) : M World unit :=
  match x with
  | IntVarImpl id => Domain.remove_below id v (dom_listener id)
  | IntVarViewMul x a => q <- ceil_div v a ;; remove_below x q
  | IntVarViewOffset x o => remove_below x (v - o)
  | IntVarViewOpposite x => remove_above x (- v)
  | BoolVarImpl x => remove_below x v
  end
with remove_above (x : IntVar) (v : Z) : M World unit :=
  match x with
  | IntVarImpl id => Domain.remove_above id v (dom_listener id)
  | IntVarViewMul x a => q <- floor_div v a ;; remove_above x q
  | IntVarViewOffset x o => remove_above x (v - o)
  | IntVarViewOpposite x => remove_below x (- v)
  | BoolVarImpl x => remove_above x v
  end.

(** [propagate_on_domain_change], [propagate_on_fix] and
    [propagate_on_bound_change]: every view forwards to its variable. *)
Fixpoint propagate_on (e : Event) (x : IntVar) (c : nat) : M World unit :=
  match x with
  | IntVarImpl id => on_stack id e (Stack.push c)
  | IntVarViewMul x _ | IntVarViewOffset x _
  | IntVarViewOpposite x | BoolVarImpl x => propagate_on e x c
  end.

Definition propagate_on_domain_change := propagate_on OnDomain.
Definition propagate_on_fix := propagate_on OnFix.
Definition propagate_on_bound_change := propagate_on OnBound.

(** [when_domain_change], [when_fixed] and [when_bound_change] *)
Fixpoint when_on (e : Event) (x : IntVar) (f : Filter) : M World unit :=
  match x with
  | IntVarImpl id => c <- constraint_closure f ;; on_stack id e (Stack.push c)
  | IntVarViewMul x _ | IntVarViewOffset x _
  | IntVarViewOpposite x | BoolVarImpl x => when_on e x f
  end.

Definition when_domain_change := when_on OnDomain.
Definition when_fixed := when_on OnFix.
Definition when_bound_change := when_on OnBound.

(** [BoolVar.is_true] and [BoolVar.is_false] *)
Definition is_true (b : IntVar) : M World bool := m <- min b ;; ret (m =? 1).
Definition is_false (b : IntVar) : M World bool := m <- max b ;; ret (m =? 0).

(** [b.fix(True)] and [b.fix(False)] *)
Definition fix_bool (b : IntVar) (value : bool) : M World unit :=
  fix_ b (if value then 1 else 0).

End Var.

(** [IntVarViewMul.__init__], [IntVarViewOffset.__init__] and
    [BoolVarImpl.__init__(binary_var)] *)
Definition IntVarViewMul_init (x : IntVar) (a : Z) : M World IntVar :=
  mn <- Var.min x ;;
  if (1 + mn) * a <=? MIN_VALUE then raise OverflowError
  else
    mx <- Var.max x ;;
    if (1 + mx) * a >=? MAX_VALUE then raise OverflowError
    else ret (IntVarViewMul x a).

Definition IntVarViewOffset_init (x : IntVar) (offset : Z) : M World IntVar :=
  mn <- Var.min x ;;
  if 0 + mn + offset <=? MIN_VALUE then raise OverflowError
  else
    mx <- Var.max x ;;
    if 0 + mx + offset >=? MAX_VALUE then raise OverflowError
    else ret (IntVarViewOffset x offset).

Definition BoolVarImpl_init (binary_var : IntVar) : M World IntVar :=
  mx <- Var.max binary_var ;;
  mn <- (if mx >? 1 then ret 0 else Var.min binary_var) ;;
  if (mx >? 1) || (mn <? 0) then raise ValueError
  else ret (BoolVarImpl binary_var).
(* ------------------------------------------------------------------ *)
(** *** constraint.py and solver.py *)

(** A loop that carries local variables. *)
Fixpoint fold_m {S A B} (l : list A) (acc : B) (body : B -> A -> M S B)
  : M S B :=
  match l with
  | [] => ret acc
  | x :: l' => acc' <- body acc x ;; fold_m l' acc' body
  end.

Section Engine.

(** The closures written by the user of the library, and the number of
    constraints one call of [fix_point] may propagate before the model
    gives up ([fix_point] need not terminate for arbitrary closures). *)
Variable user_filter : nat -> M World unit.
Variable fp_fuel : nat.

(** Calling a stored closure. *)
Definition call_filter (f : Filter) : M World unit :=
  match f with
  | IsLessOrEqual_callback b x v =>
      t <- Var.is_true b ;;
      if t then Var.remove_above x v else Var.remove_below x (v + 1)
  | IsLessOrEqual_callback2 b x v =>
      mx <- Var.max x ;;
      if mx <=? v then Var.fix_v b 1
      else mn <- Var.min x ;;
           if mn >? v then Var.fix_v b 0 else ret tt
  | Minimize_cutoff obj =>
      o <- objective obj ;; Var.remove_above (_x o) (_bound o)
  | UserFilter n => user_filter n
  end.

(** [IsEqual.propagate] *)
Definition IsEqual_propagate (c : nat) (b x : IntVar) (v : Z) : M World unit :=
  t <- Var.is_true b ;;
  if t then Var.fix_ x v ;; set_active c false
  else
    f <- Var.is_false b ;;
    if f then Var.remove x v ;; set_active c false
    else
      ct <- Var.contains x v ;;
      if negb ct then Var.fix_bool b false ;; set_active c false
      else
        fx <- Var.is_fixed x ;;
        if fx then Var.fix_bool b true ;; set_active c false
        else ret tt.

(** The fields of a [Sum] constraint. *)
Definition sum_fields (c : nat) : M World SumFields :=
  k <- constraint c ;;
  match class k with
  | Sum s => ret s
  | _ => raise ReferenceError
  end.

Definition set_sum_fields (c : nat) (s : SumFields) : M World unit :=
  k <- constraint c ;;
  modify (fun w =>
            with_constraints
              (<[c := mkConstraint (Sum s) (_active k) (_scheduled k)]>
                 (constraints w)) w).

(** [Sum.propagate] *)
Definition Sum_propagate (c : nat) : M World unit :=
  s0 <- sum_fields c ;;
  nf <- lift_sm (gets (value (sum_n_fixed s0))) ;;
  sf <- lift_sm (gets (value (sum_sum_fixed s0))) ;;
  acc <- fold_m (range nf (Z.of_nat (length (sum_x s0)))) (nf, sf, sf)
    (fun acc i =>
       let '(nf, smin, smax) := acc in
       s <- sum_fields c ;;
       idx <- getitem (sum_fixed s) i ;;
       xi <- getitem (sum_x s) idx ;;
       mn <- Var.min xi ;;
       mins <- setitem (sum_min s) idx mn ;;
       mx <- Var.max xi ;;
       maxs <- setitem (sum_max s) idx mx ;;
       set_sum_fields c
         (mkSum (sum_x s) (sum_n s) mins maxs (sum_n_fixed s)
                (sum_sum_fixed s) (sum_fixed s)) ;;
       let smin := smin + mn in
       let smax := smax + mx in
       fx <- Var.is_fixed xi ;;
       if fx then
         cur <- lift_sm (gets (value (sum_sum_fixed s))) ;;
         m <- Var.min xi ;;
         lift_sm (set_value (sum_sum_fixed s) (cur + m)) ;;
         f_nf <- getitem (sum_fixed s) nf ;;
         fixed1 <- setitem (sum_fixed s) i f_nf ;;
         fixed2 <- setitem fixed1 nf idx ;;
         set_sum_fields c
           (mkSum (sum_x s) (sum_n s) mins maxs (sum_n_fixed s)
                  (sum_sum_fixed s) fixed2) ;;
         ret (nf + 1, smin, smax)
       else ret (nf, smin, smax)) ;;
  let '(nf, smin, smax) := acc in
  lift_sm (set_value (sum_n_fixed s0) nf) ;;
  if (smin >? 0) || (smax <? 0) then raise InconsistencyException
  else
    for_each (range nf (Z.of_nat (length (sum_x s0))))
      (fun i =>
         s <- sum_fields c ;;
         idx <- getitem (sum_fixed s) i ;;
         xi <- getitem (sum_x s) idx ;;
         mn <- getitem (sum_min s) idx ;;
         Var.remove_above xi (- (smin - mn)) ;;
         mx <- getitem (sum_max s) idx ;;
         Var.remove_below xi (- (smax - mx))).

(** [Constraint.propagate], dispatched on the class;
    [AbstractConstraint.propagate] does nothing. *)
Definition propagate (c : nat) : M World unit :=
  k <- constraint c ;;
  match class k with
  | ConstraintClosure f => call_filter f
  | IsEqual b x v => IsEqual_propagate c b x v
  | Sum _ => Sum_propagate c
  | _ => ret tt
  end.

(** [IsLessOrEqual.post] *)
Definition IsLessOrEqual_post (b x : IntVar) (v : Z) : M World unit :=
  t <- Var.is_true b ;;
  if t then Var.remove_above x v
  else
    f <- Var.is_false b ;;
    if f then Var.remove_below x (v + 1)
    else
      mx <- Var.max x ;;
      if mx <=? v then Var.fix_v b 1
      else
        mn <- Var.min x ;;
        if mn >? v then Var.fix_v b 0
        else
          Var.when_fixed b (IsLessOrEqual_callback b x v) ;;
          Var.when_bound_change x (IsLessOrEqual_callback2 b x v).

(** [Constraint.post], dispatched on the class. *)
Definition post_constraint (c : nat) : M World unit :=
  k <- constraint c ;;
  match class k with
  | ConstraintClosure _ => ret tt
  | EqualConstraint x v => Var.fix_ x v
  | NotEqualConstraint x v => Var.remove x v
  | LessOrEqualConstraint x v => Var.remove_above x v
  | LargerOrEqualConstraint x v => Var.remove_below x v
  | IsEqual b x v =>
      propagate c ;;
      a <- is_active c ;;
      if a then Var.propagate_on_domain_change x c ;; Var.propagate_on_fix b c
      else ret tt
  | IsLessOrEqual b x v => IsLessOrEqual_post b x v
  | Sum s =>
      for_each (sum_x s) (fun var => Var.propagate_on_bound_change var c) ;;
      propagate c
  end.

(** [MiniCP._notify_fix_point] *)
Definition notify_fix_point : M World unit :=
  ls <- gets _fix_point_listeners ;; for_each ls call_filter.

(** [MiniCP._propagate] *)
Definition propagate_scheduled (c : nat) : M World unit :=
  set_scheduled c false ;;
  a <- is_active c ;;
  if a then propagate c else ret tt.

(** [while self._propagation_queue:
        self._propagate(self._propagation_queue.popleft())] *)
Fixpoint fix_point_loop (n : nat) : M World unit :=
  q <- gets _propagation_queue ;;
  match q with
  | [] => ret tt
  | c :: rest =>
      match n with
      | O => out_of_fuel
      | S n' =>
          modify (with_queue rest) ;;
          propagate_scheduled c ;;
          fix_point_loop n'
      end
  end.

(** [while self._propagation_queue:
        self._propagation_queue.popleft().set_scheduled(False)] *)
Fixpoint drain_loop (n : nat) : M World unit :=
  q <- gets _propagation_queue ;;
  match q, n with
  | c :: rest, S n' =>
      modify (with_queue rest) ;;
      set_scheduled c false ;;
      drain_loop n'
  | _, _ => ret tt
  end.

Definition drain : M World unit :=
  q <- gets _propagation_queue ;; drain_loop (length q).

(** The [try] block of [MiniCP.fix_point]. *)
Definition fix_point_body : M World unit :=
  notify_fix_point ;; fix_point_loop fp_fuel.

(** [MiniCP.fix_point] *)
Definition fix_point : M World unit :=
  try_except fix_point_body InconsistencyException
    (drain ;; raise InconsistencyException).

(** [MiniCP.post(c, enforce_fix_point)] and [MiniCP.post(b=...)] *)
Definition post (c : nat) (enforce_fix_point : bool) : M World unit :=
  post_constraint c ;;
  if enforce_fix_point then fix_point else ret tt.

Definition post_bool (b : IntVar) : M World unit :=
  Var.fix_bool b true ;; fix_point.

(* ------------------------------------------------------------------ *)
(** *** factory.py *)

Definition make_int_var (min max sz : option Z) (values : option (list Z))
  : M World IntVar :=
  id <- IntVarImpl_init min max sz values ;; ret (IntVarImpl id).

(** [make_bool_var]: [BoolVarImpl(cp=cp)] builds [IntVarImpl(cp, 0, 1)]. *)
Definition make_bool_var : M World IntVar :=
  x <- make_int_var (Some 0) (Some 1) None None ;; ret (BoolVarImpl x).

(** [make_int_var_array(cp, n, sz=sz)] and
    [make_int_var_array(cp, n, min=min, max=max)] *)
Fixpoint make_vars (n : nat) (min max sz : option Z) : M World (list IntVar) :=
  match n with
  | O => ret []
  | S n' =>
      x <- make_int_var min max sz None ;;
      xs <- make_vars n' min max sz ;;
      ret (x :: xs)
  end.

Definition make_int_var_array (n : Z) (sz min max : option Z)
  : M World (list IntVar) :=
  match sz, min, max with
  | Some _, None, None => make_vars (Z.to_nat n) None None sz
  | None, Some _, Some _ => make_vars (Z.to_nat n) min max None
  | _, _, _ => raise ValueError
  end.

Definition minus (x : IntVar) (v : option Z) : M World IntVar :=
  match v with
  | None => ret (IntVarViewOpposite x)
  | Some v => if v =? 0 then ret x else IntVarViewOffset_init x (- v)
  end.

Definition plus (x : IntVar) (v : Z) : M World IntVar :=
  if v =? 0 then ret x else IntVarViewOffset_init x v.

Definition mul (x : IntVar) (a : Z) : M World IntVar :=
  if a =? 0 then make_int_var (Some 0) (Some 0) None None
  else if a =? 1 then ret x
  else if a <? 0 then y <- IntVarViewMul_init x (- a) ;; minus y None
  else IntVarViewMul_init x a.

Definition Not (b : IntVar) : M World IntVar :=
  m <- minus b None ;; p <- plus m 1 ;; BoolVarImpl_init p.

(** [equal(x, v)], [not_equal(x, v=v)], [less_or_equal(x, v)] and
    [larger_or_equal(x, v)] *)
Definition equal (x : IntVar) (v : Z) : M World nat :=
  new_constraint (EqualConstraint x v).
Definition not_equal (x : IntVar) (v : Z) : M World nat :=
  new_constraint (NotEqualConstraint x v).
Definition less_or_equal (x : IntVar) (v : Z) : M World nat :=
  new_constraint (LessOrEqualConstraint x v).
Definition larger_or_equal (x : IntVar) (v : Z) : M World nat :=
  new_constraint (LargerOrEqualConstraint x v).

Definition is_equal (x : IntVar) (c : Z) : M World IntVar :=
  b <- make_bool_var ;;
  k <- new_constraint (IsEqual b x c) ;;
  post k true ;;
  ret b.

Definition is_less_or_equal (x : IntVar) (c : Z) : M World IntVar :=
  b <- make_bool_var ;;
  k <- new_constraint (IsLessOrEqual b x c) ;;
  post k true ;;
  ret b.

Definition is_less (x : IntVar) (c : Z) : M World IntVar :=
  is_less_or_equal x (c - 1).

Definition is_larger_or_equal (x : IntVar) (c : Z) : M World IntVar :=
  m <- minus x None ;; is_less_or_equal m (- c).

Definition is_larger (x : IntVar) (c : Z) : M World IntVar :=
  is_larger_or_equal x (c + 1).

(** [constraint.Sum.__init__(x, y, v)], which [factory.Sum(x, y, v)]
    calls with the same arguments. *)
Definition Sum_init (x : list IntVar) (y : option IntVar) (v : option Z)
  : M World nat :=
  _ <- getitem x 0 ;;
  c <- new_constraint (Sum (mkSum [] 0 [] [] 0%nat 0%nat [])) ;;
  xs <- match y, v with
        | Some y, None => m <- minus y None ;; ret (x ++ [m])
        | None, Some v =>
            m <- make_int_var (Some (- v)) (Some (- v)) None None ;;
            ret (x ++ [m])
        | _, _ => raise ValueError
        end ;;
  let n := Z.of_nat (length xs) in
  n_fixed <- lift_sm (make_state_int 0) ;;
  sum_fixed <- lift_sm (make_state_int 0) ;;
  set_sum_fields c
    (mkSum xs n (replicate (length xs) 0) (replicate (length xs) 0)
           n_fixed sum_fixed (range 0 n)) ;;
  ret c.

(** The first loop of [sum_var(x)]:
<<
      for i in range(len(x)):
          sum_min += x[i].min()
          sum_max += x[i].max()
>> *)
Definition sum_var_bounds (x : list IntVar) : M World (Z * Z) :=
  fold_m (range 0 (Z.of_nat (length x))) (0, 0)
    (fun acc i =>
       xi <- getitem x i ;;
       mn <- Var.min xi ;;
       mx <- Var.max xi ;;
       ret (fst acc + mn, snd acc + mx)).

(** [sum_var(x)] *)
Definition sum_var (x : list IntVar) : M World IntVar :=
  acc <- sum_var_bounds x ;;
  let '(smin, smax) := acc in
  if (smin <? MIN_VALUE) || (smax >? MAX_VALUE) then raise OverflowError
  else
    _ <- getitem x 0 ;;
    s <- make_int_var (Some smin) (Some smax) None None ;;
    c <- Sum_init x (Some s) None ;;
    post c true ;;
    ret s.

(* ------------------------------------------------------------------ *)
(** *** search.py: the objective *)

(** [Minimize.__init__(x)] *)
Definition Minimize_init (x : IntVar) : M World nat :=
  obj <- (fun w => (Ret (length (objectives w)),
                    with_objectives (objectives w ++ [mkMinimize MAX_VALUE x]) w)) ;;
  on_fix_point (Minimize_cutoff obj) ;;
  ret obj.

(** [Minimize.tighten] *)
Definition tighten (obj : nat) : M World unit :=
  o <- objective obj ;;
  fx <- Var.is_fixed (_x o) ;;
  if negb fx then raise RuntimeError
  else
    mx <- Var.max (_x o) ;;
    modify (fun w => with_objectives
                       (<[obj := mkMinimize (mx - 1) (_x o)]> (objectives w)) w).

(** [MiniCP.minimize] and [MiniCP.maximize] *)
Definition minimize (x : IntVar) : M World nat := Minimize_init x.
Definition maximize (x : IntVar) : M World nat :=
  m <- minus x None ;; minimize m.

(* ------------------------------------------------------------------ *)
(** *** search.py: statistics, listeners and the depth-first search *)

(** [class SearchStatistics] *)
Record SearchStatistics : Set := mkStats {
  _n_failures : Z;
  _n_nodes : Z;
  _n_solutions : Z;
  _completed : bool
}.

(** [SearchStatistics.__init__] *)
Definition new_statistics : SearchStatistics := mkStats 0 0 0 false.

Definition number_of_failures (s : SearchStatistics) : Z := _n_failures s.
Definition number_of_nodes (s : SearchStatistics) : Z := _n_nodes s.
Definition number_of_solutions (s : SearchStatistics) : Z := _n_solutions s.
Definition is_completed (s : SearchStatistics) : bool := _completed s.

(** The closures given to [on_solution] and [on_failure]: the lambda of
    [DFSearch.optimize], or a closure of the user. *)
Inductive Callback : Set :=
  | TightenCallback (obj : nat)
  | UserCallback (n : nat).

(** The listeners of a search: the local classes of [on_solution] and
    [on_failure], or a listener of the user given to [add_listener]. *)
Inductive DFSListener : Set :=
  | OnSolution (listener : Callback)
  | OnFailure (listener : Callback)
  | UserListener (n : nat).

(** What a listener is told. *)
Inductive DFSEvent : Set :=
  | EvSolution (p_id id position : Z)
  | EvFail (p_id id position : Z)
  | EvBranch (p_id id position n_childs : Z).

(** [class DFSearch]: [_sm] is the manager of the solver and
    [_branching] is passed to the methods below. *)
Record DFSearch : Set := mkDFS {
  _curr_node_id_id : Z;
  _dfs_listeners : list DFSListener
}.

(** The solver and a search on it. *)
Record Search : Set := mkSearch { world : World; search : DFSearch }.

#[global] Instance manager_search : HasManager Search :=
  {| manager := fun s => _sm (world s);
     set_manager := fun sm s => mkSearch (with_sm sm (world s)) (search s) |}.

#[global] Instance manager_snd {X S} `{HasManager S} : HasManager (X * S) :=
  {| manager := fun s => manager (snd s);
     set_manager := fun sm s => (fst s, set_manager sm (snd s)) |}.

(** [factory.make_dfs(cp, branching)] *)
Definition make_dfs (cp : World) : Search := mkSearch cp (mkDFS 0 []).

(** The state of a running search: the statistics object it updates, the
    solver and the search. *)
Abbreviation Running := (SearchStatistics * Search)%type.

Definition in_world {A} (m : M World A) : M Search A :=
  zoom world (fun w s => mkSearch w (search s)) m.

Definition in_search {A} (m : M Search A) : M Running A :=
  zoom snd (fun s r => (fst r, s)) m.

Definition update_statistics (f : SearchStatistics -> SearchStatistics)
  : M Running unit :=
  modify (fun r => (f (fst r), snd r)).

Definition incr_failures : M Running unit :=
  update_statistics (fun s => mkStats (_n_failures s + 1) (_n_nodes s)
                                      (_n_solutions s) (_completed s)).
Definition incr_nodes : M Running unit :=
  update_statistics (fun s => mkStats (_n_failures s) (_n_nodes s + 1)
                                      (_n_solutions s) (_completed s)).
Definition incr_solutions : M Running unit :=
  update_statistics (fun s => mkStats (_n_failures s) (_n_nodes s)
                                      (_n_solutions s + 1) (_completed s)).
Definition set_completed : M Running unit :=
  update_statistics (fun s => mkStats (_n_failures s) (_n_nodes s)
                                      (_n_solutions s) true).

Definition set_curr_node_id (i : Z) : M Search unit :=
  modify (fun s => mkSearch (world s) (mkDFS i (_dfs_listeners (search s)))).

Definition add_listener (l : DFSListener) : M Search unit :=
  modify (fun s => mkSearch (world s)
                     (mkDFS (_curr_node_id_id (search s))
                            (_dfs_listeners (search s) ++ [l]))).

Definition on_solution (listener : Callback) : M Search unit :=
  add_listener (OnSolution listener).

Definition on_failure (listener : Callback) : M Search unit :=
  add_listener (OnFailure listener).

(** The closures and listeners written by the user of the library. *)
Variable user_callback : nat -> M World unit.
Variable user_listener : nat -> DFSEvent -> M World unit.

Definition call_callback (f : Callback) : M World unit :=
  match f with
  | TightenCallback obj => tighten obj
  | UserCallback n => user_callback n
  end.

(** [DFSearch._notify_solution], [_notify_failure] and [_notify_branch] *)
Definition notify (ev : DFSEvent) : M Search unit :=
  ls <- gets (fun s => _dfs_listeners (search s)) ;;
  for_each ls
    (fun l =>
       match l, ev with
       | OnSolution f, EvSolution _ _ _ => in_world (call_callback f)
       | OnFailure f, EvFail _ _ _ => in_world (call_callback f)
       | UserListener n, _ => in_world (user_listener n ev)
       | _, _ => ret tt
       end).

(** A branching closure returns the list of its alternatives, each a
    closure on the solver; a limit is a predicate on the statistics. *)
Abbreviation Branching := (M World (list (M World unit))) (only parsing).
Abbreviation Limit := (SearchStatistics -> M World bool) (only parsing).

Section DFS.

Variable branching : Branching.

(** [DFSearch._dfs(statistics, limit, parent_id, position)].  The
    recursion of the search is bounded by [fuel]. *)
Fixpoint dfs (fuel : nat) (limit : Limit) (parent_id position : Z)
  : M Running unit :=
  match fuel with
  | O => out_of_fuel
  | S fuel' =>
      statistics <- gets fst ;;
      stop <- in_search (in_world (limit statistics)) ;;
      if stop : bool then raise StopSearchException
      else
        branches <- in_search (in_world branching) ;;
        node_id <- gets (fun r => _curr_node_id_id (search (snd r))) ;;
        in_search (set_curr_node_id (node_id + 1)) ;;
        if Z.of_nat (length branches) =? 0 then
          incr_solutions ;;
          in_search (notify (EvSolution parent_id node_id position))
        else
          in_search (notify (EvBranch parent_id node_id position
                                      (Z.of_nat (length branches)))) ;;
          for_each (imap (fun pos b => (Z.of_nat pos, b)) branches)
            (fun pb =>
               let p := fst pb in
               let b := snd pb in
               with_new_state
                 (try_except
                    (incr_nodes ;;
                     in_search (in_world b) ;;
                     dfs fuel' limit node_id p)
                    InconsistencyException
                    (id <- gets (fun r => _curr_node_id_id (search (snd r))) ;;
                     in_search (set_curr_node_id (id + 1)) ;;
                     incr_failures ;;
                     in_search (notify (EvFail parent_id node_id p)))))
  end.

(** [DFSearch._solve(statistics, limit)], on the statistics object of
    the running state. *)
Definition solve_on (fuel : nat) (limit : Limit) : M Running unit :=
  in_search (set_curr_node_id 0) ;;
  with_new_state
    (try_except
       (dfs fuel limit (-1) (-1) ;; set_completed)
       StopSearchException
       (ret tt)).

(** Running a method on a statistics object and returning the object. *)
Definition returning_statistics (statistics : SearchStatistics)
  (m : M Running unit) : M Search SearchStatistics :=
  fun s =>
    let '(o, (st, s')) := m (statistics, s) in
    (match o with
     | Ret _ => Ret st
     | Raise e => Raise e
     | OutOfFuel => OutOfFuel
     end, s').

Definition no_limit : Limit := fun _ => ret false.

(** [DFSearch.solve(limit)] *)
Definition solve (fuel : nat) (limit : option Limit)
  : M Search SearchStatistics :=
  let statistics := new_statistics in
  match limit with
  | Some limit => returning_statistics statistics (solve_on fuel limit)
  | None => returning_statistics statistics (solve_on fuel no_limit)
  end.

(** [DFSearch.solve_subject_to(limit, subject_to)]: [_solve] updates the
    statistics object that is returned. *)
Definition solve_subject_to (fuel : nat) (limit : Limit)
  (subject_to : M World unit) : M Search SearchStatistics :=
  let statistics := new_statistics in
  returning_statistics statistics
    (with_new_state
       (try_except
          (in_search (in_world subject_to) ;; solve_on fuel limit)
          InconsistencyException
          (ret tt))).

(** [DFSearch.optimize(obj, limit)] *)
Definition optimize (fuel : nat) (obj : nat) (limit : option Limit)
  : M Search SearchStatistics :=
  let statistics := new_statistics in
  on_solution (TightenCallback obj) ;;
  match limit with
  | Some limit => returning_statistics statistics (solve_on fuel limit)
  | None => returning_statistics statistics (solve_on fuel no_limit)
  end.

(** [DFSearch.optimize_subject_to(obj, limit, subject_to)]:
<<
      statistics = SearchStatistics()
      def callback():
          try:
              subject_to()
              statistics = self.optimize(obj, limit)
          except exceptions.InconsistencyException:
              pass
      self._sm.with_new_state(callback)
      return statistics
>>
    The assignment inside [callback] binds a variable local to
    [callback]. *)
Definition optimize_subject_to (fuel : nat) (obj : nat) (limit : Limit)
  (subject_to : M World unit) : M Search SearchStatistics :=
  let statistics := new_statistics in
  with_new_state
    (try_except
       (in_world subject_to ;;
        statistics_of_callback <- optimize fuel obj (Some limit) ;;
        ret tt)
       InconsistencyException
       (ret tt)) ;;
  ret statistics.

End DFS.

End Engine.

(* ------------------------------------------------------------------ *)
(** *** tests/engine/test_solver.py: the branching of [test_dfs]
<<
      def callback():
          sel = -1
          for i in range(len(values)):
              if values[i].size() > 1 and sel == -1:
                  sel = i
          if sel == -1:
              return []
          else:
              return [
                  lambda: cp.post(factory.equal(values[sel], 0)),
                  lambda: cp.post(factory.equal(values[sel], 1)),
              ]
>> *)
Definition fix_to (user_filter : nat -> M World unit) (fp_fuel : nat)
  (values : list IntVar) (sel v : Z) : M World unit :=
  x <- getitem values sel ;;
  c <- equal x v ;;
  post user_filter fp_fuel c true.

Definition test_dfs_callback (user_filter : nat -> M World unit)
  (fp_fuel : nat) (values : list IntVar) : M World (list (M World unit)) :=
  sel <- fold_m (range 0 (Z.of_nat (length values))) (-1)
           (fun sel i =>
              x <- getitem values i ;;
              s <- Var.size x ;;
              ret (if (s >? 1) && (sel =? -1) then i else sel)) ;;
  if sel =? -1 then ret []
  else ret [fix_to user_filter fp_fuel values sel 0;
            fix_to user_filter fp_fuel values sel 1].

(** A branching that picks its variable by the pattern of unfixed
    variables ([true] where the size is above 1): empty when every
    variable is fixed, otherwise the alternatives [fix(0)] and [fix(1)]
    on the variable chosen. *)
Definition unfixed_pattern (values : list IntVar) : M World (list bool) :=
  fold_m values []
    (fun pat x => s <- Var.size x ;; ret (pat ++ [s >? 1])).

Definition pick_branching (user_filter : nat -> M World unit)
  (fp_fuel : nat) (pick : list bool -> nat) (values : list IntVar)
  : M World (list (M World unit)) :=
  pat <- unfixed_pattern values ;;
  if forallb negb pat then ret []
  else
    let sel := Z.of_nat (pick pat) in
    ret [fix_to user_filter fp_fuel values sel 0;
         fix_to user_filter fp_fuel values sel 1].

(* ------------------------------------------------------------------ *)
(** *** branching_scheme.py: [select_min] and [first_fail] *)

(** [select_min(x, p, f)] with [p = lambda xi: xi.size() > 1] and
    [f = lambda xi: xi.size()] *)
Definition select_min_size (x : list IntVar) : M World (option IntVar) :=
  fold_m x None
    (fun sel xi =>
       s <- Var.size xi ;;
       if s >? 1 then
         match sel with
         | None => ret (Some xi)
         | Some y =>
             fxi <- Var.size xi ;;
             fy <- Var.size y ;;
             ret (if fxi - fy <? 0 then Some xi else sel)
         end
       else ret sel).

Definition first_fail (user_filter : nat -> M World unit) (fp_fuel : nat)
  (x : list IntVar) : M World (list (M World unit)) :=
  xs <- select_min_size x ;;
  match xs with
  | None => ret []
  | Some xs =>
      v <- Var.min xs ;;
      ret [(c <- equal xs v ;; post user_filter fp_fuel c true);
           (c <- not_equal xs v ;; post user_filter fp_fuel c true)]
  end.
(** *** Vocabulary for the properties of the state managers *)

(** The values of the cells, in creation order. *)
Definition cell_values (sm : StateManager) : list Z :=
  match sm with
  | Trailer t => Trail.v <$> Trail.cells t
  | Copier c => Copy.store c
  end.

(** Writing a list of entries back into a list of values, first entry
    first. *)
Fixpoint replay (b : list StateEntry) (s : list Z) : list Z :=
  match b with
  | [] => s
  | e :: b' => replay b' (<[snd e := fst e]> s)
  end.

Fixpoint undo_all (vals : list Z) (trails : list (list StateEntry))
  : list (list Z) :=
  match trails with
  | [] => []
  | tr :: rest => let vals' := replay tr vals in vals' :: undo_all vals' rest
  end.

(** The values that the successive [restore_state] calls will write back,
    innermost frame first: for the copy strategy the saved copies, for
    the trail strategy what undoing the trails yields. *)
Definition snapshots (sm : StateManager) : list (list Z) :=
  match sm with
  | Trailer t =>
      undo_all (Trail.v <$> Trail.cells t)
               (take (length (Trail.prior t)) (Trail.current t :: Trail.prior t))
  | Copier c => (fun b : list StateEntry => fst <$> b) <$> Copy.prior c
  end.

(** What every reachable manager satisfies.  Trail: no cell is ahead of
    the manager's magic, and inside a frame a cell stamped with the
    current magic has an entry in the current trail.  Copy: a backup
    lists the cells [0 .. k-1] in order, for some [k] not exceeding the
    size of the store. *)
Definition Trail_wf (t : Trail.Trailer) : Prop :=
  forall r c, Trail.cells t !! r = Some c ->
    Trail.last_magic c <= Trail.magic t /\
    (Trail.prior t <> [] -> Trail.last_magic c = Trail.magic t ->
     r ∈ (snd <$> Trail.current t)).

Definition Copy_wf (c : Copy.Copier) : Prop :=
  Forall (fun b : list StateEntry =>
            snd <$> b = seq 0 (length b) /\
            (length b <= length (Copy.store c))%nat)
         (Copy.prior c).

Definition wf (sm : StateManager) : Prop :=
  match sm with
  | Trailer t => Trail_wf t
  | Copier c => Copy_wf c
  end.

(** [sm'] still holds every frame of [sm], below zero or more newer
    ones. *)
Definition extends (sm sm' : StateManager) : Prop :=
  exists extra ss,
    snapshots sm' = extra ++ ss /\ Forall2 prefix (snapshots sm) ss.

(** A body that ends, leaves the manager as its methods keep it, and
    leaves in place every frame that was there when it started: it may
    save and restore frames of its own, but restores none of the earlier
    ones. *)
Definition keeps_frames (body : M StateManager unit) : Prop :=
  forall sm1 o2 sm2, wf sm1 -> body sm1 = (o2, sm2) ->
    wf sm2 /\ extends sm1 sm2 /\ o2 <> OutOfFuel.

(** The level is back to that of [sm], and so is every cell of [sm]. *)
Definition frame_restored (sm sm' : StateManager) : Prop :=
  get_level sm' = get_level sm /\
  forall r, (r < n_cells sm)%nat -> value r sm' = value r sm.

(** The current trail holds at most one entry per cell, and the value it
    holds for a cell is the one the cell had in [t0]. *)
Definition one_old_value (t0 t : Trail.Trailer) : Prop :=
  NoDup (snd <$> Trail.current t) /\
  forall e, e ∈ Trail.current t -> fst e = Trail.value (snd e) t0.

(** What holds of the current trail from a [save_state] up to the next
    [save_state] or [restore_state]: the cells stamped with the current
    magic are those with an entry, entries are unique and hold the values
    of [t0], and the cells without an entry still hold their value of
    [t0]. *)
Definition trail_frame_inv (t0 t : Trail.Trailer) : Prop :=
  Trail.magic t = Trail.magic t0 /\
  NoDup (snd <$> Trail.current t) /\
  (forall e, e ∈ Trail.current t -> fst e = Trail.value (snd e) t0) /\
  (forall r c, Trail.cells t !! r = Some c ->
     (r ∈ (snd <$> Trail.current t) <-> Trail.last_magic c = Trail.magic t) /\
     (r ∉ (snd <$> Trail.current t) -> Trail.v c = Trail.value r t0)).

(** *** Vocabulary for the properties of the engine *)

(** The ceiling and the floor of [v / a] for a positive [a], toward plus
    and minus infinity. *)
Definition ceil_toward_plus_infinity (v a : Z) : Z := - ((- v) / a).
Definition floor_toward_minus_infinity (v a : Z) : Z := v / a.

(** The sums of the bounds of the variables overflow the 32-bit signed
    range. *)
Definition bound_sum_overflows (x : list IntVar) (w : World) : bool :=
  match fst (sum_var_bounds x w) with
  | Ret (smin, smax) => (smin <? MIN_VALUE) || (smax >? MAX_VALUE)
  | _ => false
  end.

(** User closures that do nothing. *)
Definition no_filter : nat -> M World unit := fun _ => ret tt.
Definition no_callback : nat -> M World unit := fun _ => ret tt.
Definition no_listener : nat -> DFSEvent -> M World unit := fun _ _ => ret tt.

(** A choice of a variable by the pattern of unfixed variables, given as
    a table over the eight patterns of three variables. *)
Definition pattern_index (pat : list bool) : nat :=
  foldl (fun acc (b : bool) => (2 * acc + (if b then 1 else 0))%nat) 0%nat pat.

Definition patterns3 : list (list bool) :=
  [[false; false; false]; [false; false; true];
   [false; true; false]; [false; true; true];
   [true; false; false]; [true; false; true];
   [true; true; false]; [true; true; true]].

Definition tabulate (pick : list bool -> nat) : list nat := pick <$> patterns3.

Definition table_pick (t : list nat) (pat : list bool) : nat :=
  default 0%nat (t !! pattern_index pat).

(** The first unfixed variable of a pattern. *)
Fixpoint first_unfixed (pat : list bool) : nat :=
  match pat with
  | [] => 0%nat
  | true :: _ => 0%nat
  | false :: pat' => S (first_unfixed pat')
  end.

(** A constraint is marked scheduled exactly when it sits in the
    propagation queue, where it sits once. *)
Definition scheduled_in_queue (w : World) : Prop :=
  NoDup (_propagation_queue w) /\
  forall c, c ∈ _propagation_queue w <->
            exists k, constraints w !! c = Some k /\ _scheduled k = true.

Definition none_scheduled (w : World) : Prop :=
  forall c k, constraints w !! c = Some k -> _scheduled k = false.

(** A method keeps that invariant, however it ends. *)
Definition keeps {A} (m : M World A) : Prop :=
  forall w o w', scheduled_in_queue w -> m w = (o, w') -> scheduled_in_queue w'.

(** The queue and the flags of [w'] are those of [w]. *)
Definition same_schedule (w w' : World) : Prop :=
  _propagation_queue w' = _propagation_queue w /\
  _scheduled <$> constraints w' = _scheduled <$> constraints w.

(** A user closure that fails, and a solver whose queue holds the two
    closures registered on the bounds of a variable. *)
Definition failing_filter (n : nat) : M World unit :=
  match n with
  | O => raise InconsistencyException
  | _ => ret tt
  end.

(** A user closure that fails with another exception. *)
Definition value_error_filter (n : nat) : M World unit :=
  match n with
  | O => raise ValueError
  | _ => ret tt
  end.

Definition two_scheduled : M World unit :=
  x <- make_int_var (Some 0) (Some 5) None None ;;
  Var.when_bound_change x (UserFilter 0) ;;
  Var.when_bound_change x (UserFilter 1) ;;
  Var.remove_below x 2.

Definition two_scheduled_world (by_copy : bool) : World :=
  snd (two_scheduled (make_solver by_copy)).

(* ------------------------------------------------------------------ *)
(** *** More vocabulary for the state managers *)

(** Client code that creates one cell per element of [l], in order. *)
Definition create (l : list Z) : prog :=
  foldr (fun x p => Seq (MakeStateInt x) p) Skip l.

(** Programs that create no cell. *)
Fixpoint creates_nothing (p : prog) : bool :=
  match p with
  | Skip | SetValue _ _ | Increment _ | Decrement _ | RaiseExn _ => true
  | Seq p q => creates_nothing p && creates_nothing q
  | Nested p | WithNewState p => creates_nothing p
  | TryExcept p _ h => creates_nothing p && creates_nothing h
  | MakeStateInt _ => false
  end.

(** Two managers that hold the same values and will restore the same
    values. *)
Definition same_view (sm1 sm2 : StateManager) : Prop :=
  wf sm1 /\ wf sm2 /\
  cell_values sm1 = cell_values sm2 /\ snapshots sm1 = snapshots sm2.

(** The strategy of a manager. *)
Definition is_copier (sm : StateManager) : bool :=
  match sm with Copier _ => true | Trailer _ => false end.

(* ------------------------------------------------------------------ *)
(** *** Vocabulary for the reversible stack *)

(** The elements of the stack, bottom first: the first [size] elements
    of the list. *)
Definition stack_elems (s : Stack.St) : list nat :=
  take (Z.to_nat (value (Stack._size (snd s)) (fst s))) (Stack._stack (snd s)).

(** The size is a cell of the manager and lies within the list. *)
Definition stack_ok (s : Stack.St) : Prop :=
  wf (fst s) /\
  (Stack._size (snd s) < n_cells (fst s))%nat /\
  0 <= value (Stack._size (snd s)) (fst s)
    <= Z.of_nat (length (Stack._stack (snd s))).

(** [StateStack(sm)] followed by [push] of every element of [l]. *)
Definition stack_of_list (l : list nat) : M StateManager Stack.StateStack :=
  st <- Stack.init ;;
  fun sm => let '(o, s) := for_each l Stack.push (sm, st) in
            (match o with
             | Ret _ => Ret (snd s)
             | Raise e => Raise e
             | OutOfFuel => OutOfFuel
             end, fst s).

(* ------------------------------------------------------------------ *)
(** *** Vocabulary for the sparse set *)

(** The values of the set, as [to_array] lists them: the first [size]
    elements of [_values], shifted by the offset. *)
Definition ss_size (s : SparseSet.St) : Z :=
  value (SparseSet._size (snd s)) (fst s).

Definition ss_elems (s : SparseSet.St) : list Z :=
  (fun x => x + SparseSet._ofs (snd s))
    <$> take (Z.to_nat (ss_size s)) (SparseSet._values (snd s)).

(** The internal value [v] (a value of the set minus the offset) sits
    at a position below [k]. *)
Definition ss_below (d : SparseSet.StateSparseSet) (k : Z) (v : Z) : Prop :=
  0 <= v /\
  exists i, SparseSet._indices d !! Z.to_nat v = Some i /\ i < k.

(** [_values] and [_indices] are permutations of [0 .. n-1], inverse of
    each other. *)
Definition ss_perm (d : SparseSet.StateSparseSet) : Prop :=
  0 <= SparseSet._n d /\
  length (SparseSet._values d) = Z.to_nat (SparseSet._n d) /\
  length (SparseSet._indices d) = Z.to_nat (SparseSet._n d) /\
  (forall (i : nat) (v : Z),
      SparseSet._values d !! i = Some v ->
      0 <= v /\ SparseSet._indices d !! Z.to_nat v = Some (Z.of_nat i)) /\
  (forall (v : nat) (i : Z),
      SparseSet._indices d !! v = Some i ->
      0 <= i /\ SparseSet._values d !! Z.to_nat i = Some (Z.of_nat v)).

(** The three reversible integers are distinct cells of the manager. *)
Definition ss_refs (s : SparseSet.St) : Prop :=
  let d := snd s in
  (SparseSet._size d < n_cells (fst s))%nat /\
  (SparseSet._min d < n_cells (fst s))%nat /\
  (SparseSet._max d < n_cells (fst s))%nat /\
  SparseSet._size d <> SparseSet._min d /\
  SparseSet._size d <> SparseSet._max d /\
  SparseSet._min d <> SparseSet._max d.

(** What every set built by the constructor and changed by its methods
    satisfies: the size is within bounds and, when the set is not empty,
    the recorded bounds are members and bound every member. *)
Definition ss_ok (s : SparseSet.St) : Prop :=
  let d := snd s in
  let mn := value (SparseSet._min d) (fst s) in
  let mx := value (SparseSet._max d) (fst s) in
  wf (fst s) /\ ss_refs s /\ ss_perm d /\
  0 <= ss_size s <= SparseSet._n d /\
  (0 < ss_size s ->
   ss_below d (ss_size s) mn /\ ss_below d (ss_size s) mx /\
   forall v, ss_below d (ss_size s) v -> mn <= v <= mx).

(** The methods that change a set, and running a list of them. *)
Inductive ss_op : Set :=
  | SsRemove (v : Z)
  | SsRemoveAllBut (v : Z)
  | SsRemoveAll
  | SsRemoveBelow (v : Z)
  | SsRemoveAbove (v : Z).

Definition ss_do (op : ss_op) : M SparseSet.St unit :=
  match op with
  | SsRemove v => SparseSet.remove v ;; ret tt
  | SsRemoveAllBut v => SparseSet.remove_all_but v
  | SsRemoveAll => SparseSet.remove_all
  | SsRemoveBelow v => SparseSet.remove_below v
  | SsRemoveAbove v => SparseSet.remove_above v
  end.

(** What the methods do to the set of values. *)
Definition ss_op_keeps (op : ss_op) (u : Z) : bool :=
  match op with
  | SsRemove v => negb (u =? v)
  | SsRemoveAllBut v => u =? v
  | SsRemoveAll => false
  | SsRemoveBelow v => v <=? u
  | SsRemoveAbove v => u <=? v
  end.

(** The set after [_values] or [_indices] is assigned, and after
    [_exchange_positions(v1, v2)] with [v1] at position [i1] and [v2] at
    position [i2]. *)
Definition ss_with_values (l : list Z) (d : SparseSet.StateSparseSet)
  : SparseSet.StateSparseSet :=
  SparseSet.mk (SparseSet._n d) (SparseSet._ofs d) (SparseSet._size d)
    (SparseSet._min d) (SparseSet._max d) l (SparseSet._indices d).

Definition ss_with_indices (l : list Z) (d : SparseSet.StateSparseSet)
  : SparseSet.StateSparseSet :=
  SparseSet.mk (SparseSet._n d) (SparseSet._ofs d) (SparseSet._size d)
    (SparseSet._min d) (SparseSet._max d) (SparseSet._values d) l.

Definition ss_exchange (d : SparseSet.StateSparseSet) (v1 v2 i1 i2 : Z)
  : SparseSet.StateSparseSet :=
  SparseSet.mk (SparseSet._n d) (SparseSet._ofs d) (SparseSet._size d)
    (SparseSet._min d) (SparseSet._max d)
    (<[Z.to_nat i2 := v1]> (<[Z.to_nat i1 := v2]> (SparseSet._values d)))
    (<[Z.to_nat v2 := i1]> (<[Z.to_nat v1 := i2]> (SparseSet._indices d))).

(** From [s] to [s'] the set has the same fields and cells and the
    manager the same frames, the size has not grown, and the values
    sitting below any position at or above the old size are the same. *)
Definition ss_step (s s' : SparseSet.St) : Prop :=
  SparseSet._n (snd s') = SparseSet._n (snd s) /\
  SparseSet._ofs (snd s') = SparseSet._ofs (snd s) /\
  SparseSet._size (snd s') = SparseSet._size (snd s) /\
  SparseSet._min (snd s') = SparseSet._min (snd s) /\
  SparseSet._max (snd s') = SparseSet._max (snd s) /\
  snapshots (fst s') = snapshots (fst s) /\
  n_cells (fst s') = n_cells (fst s) /\
  ss_size s' <= ss_size s /\
  (forall k u, ss_size s <= k ->
               ss_below (snd s') k u <-> ss_below (snd s) k u) /\
  (forall r, r <> SparseSet._size (snd s) -> r <> SparseSet._min (snd s) ->
             r <> SparseSet._max (snd s) ->
             value r (fst s') = value r (fst s)).

(** The loops of [_update_max_val_removed] and [_update_min_val_removed]:
    the first value of [l] that is in the set becomes the bound [f]. *)
Definition ss_scan (f : SparseSet.StateSparseSet -> nat) (l : list Z)
  : M SparseSet.St unit :=
  for_until l
    (fun v => c <- SparseSet.internal_contains v ;;
              if c then SparseSet.set f v ;; ret true else ret false).

(** A set [{ofs, ..., ofs + n - 1}] created on a new manager, and the
    set after each method of a list has been called in turn, whatever
    its outcome (the caller catches the exceptions). *)
Definition ss_new (by_copy : bool) (n ofs : Z) : SparseSet.St :=
  let '(o, sm) := SparseSet.init n ofs (new_manager by_copy) in
  (sm, match o with
       | Ret d => d
       | _ => SparseSet.mk 0 0 0%nat 0%nat 0%nat [] []
       end).

Definition ss_after (ops : list ss_op) (s : SparseSet.St) : SparseSet.St :=
  foldl (fun s op => snd (ss_do op s)) s ops.

(** The methods on a plain list of values: what each one leaves, and
    how it ends. *)
Definition ss_model (op : ss_op) (l : list Z) : list Z :=
  match op with
  | SsRemoveAllBut v => if bool_decide (v ∈ l) then [v] else l
  | _ => filter (fun u => ss_op_keeps op u = true) l
  end.

Definition ss_outcome (op : ss_op) (l : list Z) : outcome unit :=
  match op with
  | SsRemoveAllBut v =>
      if bool_decide (v ∈ l) then Ret tt else Raise AssertionError
  | SsRemoveBelow _ | SsRemoveAbove _ =>
      if bool_decide (l = []) then Raise ValueError else Ret tt
  | _ => Ret tt
  end.

Definition ss_model_all (ops : list ss_op) (l : list Z) : list Z :=
  foldl (fun l op => ss_model op l) l ops.

(* ------------------------------------------------------------------ *)
(** *** state.py: [StateInterval] *)

Module Interval.

(** [class StateInterval]: two reversible integers. *)
Record StateInterval : Set := mk { _min : ref; _max : ref }.

Abbreviation St := (StateManager * StateInterval)%type.

(** [StateInterval.__init__(sm, min, max)] *)
Definition init (min max : Z) : M StateManager StateInterval :=
  mn <- make_state_int min ;;
  mx <- make_state_int max ;;
  ret (mk mn mx).

Definition get (f : StateInterval -> ref) : M St Z :=
  fun s => (Ret (value (f (snd s)) (fst s)), s).

Definition set (f : StateInterval -> ref) (x : Z) : M St Z :=
  fun s => let (o, sm') := set_value (f (snd s)) x (fst s) in (o, (sm', snd s)).

Definition is_empty : M St bool :=
  mn <- get _min ;; mx <- get _max ;; ret (mn >? mx).

(** [max(self._max.value() - self._min.value() + 1, 0)] *)
Definition size : M St Z :=
  mx <- get _max ;; mn <- get _min ;; ret (Z.max (mx - mn + 1) 0).

Definition min : M St Z := get _min.
Definition max : M St Z := get _max.

(** [self._min.value() <= val <= self._max.value()] *)
Definition contains (val : Z) : M St bool :=
  mn <- get _min ;;
  if mn <=? val then mx <- get _max ;; ret (val <=? mx) else ret false.

Fixpoint fill_loop (l : list Z) (from_val : Z) (dest : list Z)
  : M St (list Z) :=
  match l with
  | [] => ret dest
  | i :: l' =>
      dest' <- setitem dest i (from_val + i) ;;
      fill_loop l' from_val dest'
  end.

Definition fill_array (dest : list Z) : M St (list Z * Z) :=
  s <- size ;;
  from_val <- min ;;
  dest' <- fill_loop (range 0 s) from_val dest ;;
  ret (dest', s).

Definition remove_all_but (v : Z) : M St unit :=
  assert_ (contains v) ;;
  set _min v ;;
  set _max v ;;
  ret tt.

Definition remove_all : M St unit :=
  mx <- get _max ;; set _min (mx + 1) ;; ret tt.

Definition remove_below (value : Z) : M St unit := set _min value ;; ret tt.
Definition remove_above (value : Z) : M St unit := set _max value ;; ret tt.

End Interval.

(** An interval [min .. max] created on a new manager. *)
Definition interval_new (by_copy : bool) (min max : Z) : Interval.St :=
  let '(o, sm) := Interval.init min max (new_manager by_copy) in
  (sm, match o with Ret d => d | _ => Interval.mk 0%nat 0%nat end).

(* ------------------------------------------------------------------ *)
(** *** state.py: the bit sets *)

Module BitSet.

(** [_unsigned_right_bit_shift(val, n)]: [(val % 0x100000000) >> n] *)
Definition unsigned_right_bit_shift (val n : Z) : Z :=
  Z.shiftr (val mod 4294967296) n.

(** [1 << i]: a negative shift count raises [ValueError]. *)
Definition shift_one {S} (i : Z) : M S Z :=
  if i <? 0 then raise ValueError else ret (Z.shiftl 1 i).

(** [class _BitSet]: [_words], and the [_n_words] of the
    [StateSparseBitSet] it was created for. *)
Record Bits : Set := mkBits { _words : list Z; _n_words : Z }.

(** [_BitSet.__init__]: [[0] * n_words] *)
Definition init (n_words : Z) : Bits :=
  mkBits (replicate (Z.to_nat n_words) 0) n_words.

(** [_BitSet.set(i)]:
<<
      v = 1 << i
      self._words[_unsigned_right_bit_shift(i, 6)] |= v
>> *)
Definition set (i : Z) : M Bits unit :=
  v <- shift_one i ;;
  b <- gets (fun b => b) ;;
  let k := unsigned_right_bit_shift i 6 in
  w <- getitem (_words b) k ;;
  l <- setitem (_words b) k (Z.lor w v) ;;
  modify (fun b => mkBits l (_n_words b)).

(** [_BitSet.get(i)] *)
Definition get (i : Z) : M Bits bool :=
  b <- gets (fun b => b) ;;
  let word_index := unsigned_right_bit_shift i 6 in
  if word_index <? _n_words b then
    w <- getitem (_words b) word_index ;;
    v <- shift_one i ;;
    ret (negb (Z.land w v =? 0))
  else ret false.

(** [class StateSparseBitSet]: the words are reversible cells. *)
Record StateSparseBitSet : Set := mk {
  n_words : Z;
  words : list ref;
  non_zero_idx : list Z;
  non_zero_size : ref
}.

Abbreviation St := (StateManager * StateSparseBitSet)%type.

(** [[sm.make_state_ref(0xFFFFFFFFFFFFFFFF) for _ in range(n_words)]] *)
Fixpoint make_words (k : nat) : M StateManager (list ref) :=
  match k with
  | O => ret []
  | S k' =>
      r <- make_state_ref 18446744073709551615 ;;
      rs <- make_words k' ;;
      ret (r :: rs)
  end.

(** [StateSparseBitSet.__init__(sm, n)] *)
Definition sparse_init (n : Z) : M StateManager StateSparseBitSet :=
  let nw := unsigned_right_bit_shift (n + 63) 6 in
  ws <- make_words (Z.to_nat nw) ;;
  sz <- make_state_int nw ;;
  ret (mk nw ws (range 0 nw) sz).

Definition sparse_is_empty : M St bool :=
  fun s => (Ret (value (non_zero_size (snd s)) (fst s) =? 0), s).

(** [StateSparseBitSet.get(i)] *)
Definition sparse_get (i : Z) : M St bool :=
  s <- gets (fun s => s) ;;
  let word_index := unsigned_right_bit_shift i 6 in
  if word_index <? value (non_zero_size (snd s)) (fst s) then
    r <- getitem (words (snd s)) word_index ;;
    v <- shift_one i ;;
    ret (negb (Z.land (value r (fst s)) v =? 0))
  else ret false.

(** [intersects_residue_only] raises, and [intersects] calls it
    first. *)
Definition intersects_residue_only : M St bool := raise NotImplementedError.
Definition intersects : M St bool :=
  r <- intersects_residue_only ;; if r then ret true else ret false.

End BitSet.

(** The two cells of an interval are distinct cells of its manager. *)
Definition interval_ok (s : Interval.St) : Prop :=
  wf (fst s) /\
  (Interval._min (snd s) < n_cells (fst s))%nat /\
  (Interval._max (snd s) < n_cells (fst s))%nat /\
  Interval._min (snd s) <> Interval._max (snd s).

(** The values of an interval, in ascending order. *)
Definition interval_elems (s : Interval.St) : list Z :=
  range (value (Interval._min (snd s)) (fst s))
        (value (Interval._max (snd s)) (fst s) + 1).

(** A bit the bit set has a word for. *)
Definition bit_in_range (n_words i : Z) : Prop :=
  0 <= i /\ BitSet.unsigned_right_bit_shift i 6 < n_words.

(** The words of a bit set hold exactly the bits of [l]. *)
Definition bits_hold (b : BitSet.Bits) (l : list Z) : Prop :=
  length (BitSet._words b) = Z.to_nat (BitSet._n_words b) /\
  forall j w, 0 <= j ->
    BitSet._words b !! Z.to_nat (BitSet.unsigned_right_bit_shift j 6) = Some w ->
    Z.testbit w j = bool_decide (j ∈ l).

(* ------------------------------------------------------------------ *)
(** *** Vocabulary for the variables of a solver *)

(** The reversible cells of an [IntVarImpl]: the three of its sparse set
    and the sizes of its three stacks. *)
Definition domain_cells (x : IntVarObj) : list ref :=
  [SparseSet._size (_domain x); SparseSet._min (_domain x);
   SparseSet._max (_domain x)].

Definition var_cells (x : IntVarObj) : list ref :=
  domain_cells x
  ++ [Stack._size (_on_domain x); Stack._size (_on_fix x);
      Stack._size (_on_bound x)].

(** The sparse set of the variable is sound, and its stacks hold
    constraints of the solver. *)
Definition var_ok (w : World) (x : IntVarObj) : Prop :=
  ss_ok (_sm w, _domain x) /\
  forall e, stack_ok (_sm w, stack_of e x) /\
            Forall (fun c => (c < length (constraints w))%nat)
                   (stack_elems (_sm w, stack_of e x)).

(** What the variables of a solver satisfy: each is sound, and no cell
    belongs to two of them. *)
Definition world_ok (w : World) : Prop :=
  wf (_sm w) /\
  NoDup (mjoin (var_cells <$> int_vars w)) /\
  Forall (var_ok w) (int_vars w).

(** The values of the [IntVarImpl] number [id], as [fill_array] lists
    them. *)
Definition var_values (w : World) (id : nat) : list Z :=
  match int_vars w !! id with
  | Some x => ss_elems (_sm w, _domain x)
  | None => []
  end.

(** The values of a variable or of a view. *)
Fixpoint view_values (w : World) (x : IntVar) : list Z :=
  match x with
  | IntVarImpl id => var_values w id
  | IntVarViewMul x a => (fun u => u * a) <$> view_values w x
  | IntVarViewOffset x o => (fun u => u + o) <$> view_values w x
  | IntVarViewOpposite x => (fun u => - u) <$> view_values w x
  | BoolVarImpl x => view_values w x
  end.

(** The [IntVarImpl] under a view. *)
Fixpoint var_id (x : IntVar) : nat :=
  match x with
  | IntVarImpl id => id
  | IntVarViewMul x _ | IntVarViewOffset x _
  | IntVarViewOpposite x | BoolVarImpl x => var_id x
  end.

(** Variables and views made of offsets and opposites only. *)
Fixpoint affine (x : IntVar) : bool :=
  match x with
  | IntVarImpl _ => true
  | IntVarViewOffset x _ | IntVarViewOpposite x => affine x
  | IntVarViewMul _ _ | BoolVarImpl _ => false
  end.

(** The methods that change a variable, and what each keeps. *)
Inductive var_op : Set :=
  | VRemove (v : Z)
  | VFix (v : Z)
  | VRemoveBelow (v : Z)
  | VRemoveAbove (v : Z).

Definition var_do (x : IntVar) (op : var_op) : M World unit :=
  match op with
  | VRemove v => Var.remove x v
  | VFix v => Var.fix_ x v
  | VRemoveBelow v => Var.remove_below x v
  | VRemoveAbove v => Var.remove_above x v
  end.

Definition var_op_keeps (op : var_op) (u : Z) : bool :=
  match op with
  | VRemove v => negb (u =? v)
  | VFix v => u =? v
  | VRemoveBelow v => v <=? u
  | VRemoveAbove v => u <=? v
  end.

(** From [x] under [sm] to [x'] under [sm'] the variable has the same
    cells and stacks, its size has not grown, and the values sitting
    below any position at or above the old size are the same. *)
Definition var_step (sm sm' : StateManager) (x x' : IntVarObj) : Prop :=
  let d := _domain x in
  let d' := _domain x' in
  SparseSet._n d' = SparseSet._n d /\
  SparseSet._ofs d' = SparseSet._ofs d /\
  SparseSet._size d' = SparseSet._size d /\
  SparseSet._min d' = SparseSet._min d /\
  SparseSet._max d' = SparseSet._max d /\
  _on_domain x' = _on_domain x /\
  _on_fix x' = _on_fix x /\
  _on_bound x' = _on_bound x /\
  ss_size (sm', d') <= ss_size (sm, d) /\
  (forall k u, ss_size (sm, d) <= k -> ss_below d' k u <-> ss_below d k u).

(** From [w] to [w'] nothing but the domains of the variables and the
    schedule of the constraints has changed: no frame was saved or
    restored, no cell, variable or constraint created. *)
Definition world_step (w w' : World) : Prop :=
  snapshots (_sm w') = snapshots (_sm w) /\
  n_cells (_sm w') = n_cells (_sm w) /\
  length (constraints w') = length (constraints w) /\
  Forall2 (var_step (_sm w) (_sm w')) (int_vars w) (int_vars w') /\
  (forall r, r ∉ mjoin (domain_cells <$> int_vars w) ->
             value r (_sm w') = value r (_sm w)).

(** The manager and the variables of [w'] are those of [w]. *)
Definition same_vars (w w' : World) : Prop :=
  _sm w' = _sm w /\ int_vars w' = int_vars w /\
  length (constraints w') = length (constraints w).

(** Changes to variables in a row, up to the first one that fails. *)
Definition var_do_all (ops : list (IntVar * var_op)) : M World unit :=
  for_each ops (fun p => var_do (fst p) (snd p)).

#[global] Instance event_eq_dec : EqDecision Event.
Proof. solve_decision. Defined.

(** The constraint [c] is marked scheduled. *)
Definition is_scheduled_in (w : World) (c : nat) : Prop :=
  exists k, constraints w !! c = Some k /\ _scheduled k = true.

(** The constraint [c] is active and sits on the stack of the event [e]
    of the variable [id]. *)
Definition listening (w : World) (id : nat) (e : Event) (c : nat) : Prop :=
  exists x k, int_vars w !! id = Some x /\
    c ∈ stack_elems (_sm w, stack_of e x) /\
    constraints w !! c = Some k /\ value (_active k) (_sm w) <> 0.

(** The constraint [c] sits on the stack of the event [e] of the
    variable [id]. *)
Definition registered (w : World) (id : nat) (e : Event) (c : nat) : Prop :=
  exists x, int_vars w !! id = Some x /\
            c ∈ stack_elems (_sm w, stack_of e x).

(** Every constraint listening to an event of [E] is marked scheduled. *)
Definition fired (w : World) (id : nat) (E : list Event) : Prop :=
  forall e c, e ∈ E -> listening w id e c -> is_scheduled_in w c.

(** From [w] to [w'] the constraints are the same, and those that were
    marked scheduled still are. *)
Definition flags_grow (w w' : World) : Prop :=
  forall c k, constraints w !! c = Some k ->
    exists k', constraints w' !! c = Some k' /\ _active k' = _active k /\
               (_scheduled k = true -> _scheduled k' = true).

(** A method that returns, leaves the manager and the variables as they
    are and schedules the constraints listening to the events [E s],
    where [s] is the size of the variable [id]. *)
Definition fires {A} (id : nat) (E : Z -> list Event) (m : M World A) : Prop :=
  forall w x, world_ok w -> int_vars w !! id = Some x ->
    exists a w', m w = (Ret a, w') /\ same_vars w w' /\ flags_grow w w' /\
      forall E0, fired w id E0 ->
                 fired w' id (E0 ++ E (ss_size (_sm w, _domain x))).

(** A value of [l] that bounds [l] is not in [l']. *)
Definition bound_lost (l l' : list Z) : Prop :=
  exists m, m ∈ l /\ m ∉ l' /\
    ((forall u, u ∈ l -> m <= u) \/ (forall u, u ∈ l -> u <= m)).

(** What an update from [w] to [w'] of the variable [id] has scheduled:
    nothing when no value was removed; otherwise, unless the domain is
    empty, the constraints listening to a change of the domain, to a
    change of a bound when a bound was removed, and to fixing when one
    value is left. *)
Definition update_fired (w w' : World) (id : nat) : Prop :=
  let l := var_values w id in
  let l' := var_values w' id in
  flags_grow w w' /\
  (length l' = length l -> w' = w) /\
  (length l' <> length l -> l' <> [] ->
   fired w' id [OnDomain] /\
   (bound_lost l l' -> fired w' id [OnBound]) /\
   (length l' = 1%nat -> fired w' id [OnFix])).

(** The update of a view, as the update of the variable under it. *)
Definition op_offset (o : Z) (op : var_op) : var_op :=
  match op with
  | VRemove v => VRemove (v - o)
  | VFix v => VFix (v - o)
  | VRemoveBelow v => VRemoveBelow (v - o)
  | VRemoveAbove v => VRemoveAbove (v - o)
  end.

Definition op_opposite (op : var_op) : var_op :=
  match op with
  | VRemove v => VRemove (- v)
  | VFix v => VFix (- v)
  | VRemoveBelow v => VRemoveAbove (- v)
  | VRemoveAbove v => VRemoveBelow (- v)
  end.

(** What [x] shows on [w], in terms of the list [l]. *)
Definition shows (w : World) (x : IntVar) (l : list Z) : Prop :=
  (forall v, Var.contains x v w = (Ret (bool_decide (v ∈ l)), w)) /\
  Var.size x w = (Ret (Z.of_nat (length l)), w) /\
  Var.is_fixed x w = (Ret (Z.of_nat (length l) =? 1), w) /\
  (l = [] -> Var.min x w = (Raise ValueError, w) /\
             Var.max x w = (Raise ValueError, w)) /\
  (l <> [] -> exists mn mx,
     Var.min x w = (Ret mn, w) /\ Var.max x w = (Ret mx, w) /\
     mn ∈ l /\ mx ∈ l /\ forall u, u ∈ l -> mn <= u <= mx) /\
  (forall dest, (length l <= length dest)%nat ->
     Var.fill_array x dest w
     = (Ret (l ++ drop (length l) dest, Z.of_nat (length l)), w)).

(** Every variable of the solver has a value. *)
Definition live (w : World) : Prop :=
  forall id x, int_vars w !! id = Some x -> var_values w id <> [].

(** Updates of variables of the solver, or of views of them made of
    offsets and opposites. *)
Definition updates_of (w : World) (ops : list (IntVar * var_op)) : Prop :=
  Forall (fun p => affine (fst p) = true /\
                   is_Some (int_vars w !! var_id (fst p))) ops.

(** A solver with the variables [x0] in [0..5] and [x1] in [0..1]. *)
Definition two_vars_world (by_copy : bool) : World :=
  snd ((make_int_var (Some 0) (Some 5) None None ;;
        make_int_var (Some 0) (Some 1) None None) (make_solver by_copy)).

(** A solver with a variable [x0] in [0..5] and three closures, numbered
    0, 1 and 2, that listen to a change of its domain, to a change of its
    bounds and to its fixing. *)
Definition listening_world (by_copy : bool) : World :=
  snd ((x <- make_int_var (Some 0) (Some 5) None None ;;
        Var.when_domain_change x (UserFilter 0) ;;
        Var.when_bound_change x (UserFilter 1) ;;
        Var.when_fixed x (UserFilter 2)) (make_solver by_copy)).

(* ------------------------------------------------------------------ *)
(** *** Vocabulary for the branching schemes *)

(** The number of values of a variable or view. *)
Definition var_size (w : World) (x : IntVar) : Z :=
  Z.of_nat (length (view_values w x)).

(** Variables of the solver, or views of them made of offsets and
    opposites. *)
Definition vars_of (w : World) (xs : list IntVar) : Prop :=
  Forall (fun x => affine x = true /\ is_Some (int_vars w !! var_id x)) xs.

(** [y], at position [i], is the first of the variables of [xs] that
    are not fixed and have the fewest values. *)
Definition smallest_unfixed (w : World) (xs : list IntVar) (i : nat)
    (y : IntVar) : Prop :=
  xs !! i = Some y /\ 1 < var_size w y /\
  (forall j x, xs !! j = Some x -> 1 < var_size w x ->
               var_size w y <= var_size w x) /\
  (forall j x, (j < i)%nat -> xs !! j = Some x -> 1 < var_size w x ->
               var_size w y < var_size w x).

(** What [select_min] holds after the variables [pre]. *)
Definition selected (w : World) (pre : list IntVar) (sel : option IntVar)
  : Prop :=
  match sel with
  | None => forall x, x ∈ pre -> var_size w x <= 1
  | Some y => exists i, smallest_unfixed w pre i y
  end.

(* ------------------------------------------------------------------ *)
(** *** Vocabulary for the reified constraints *)

(** The values [bv] of [b] and [xv] of [x] satisfy [b <=> x <= v]. *)
Definition leq_pair (v bv xv : Z) : Prop := bv = 1 <-> xv <= v.

(** The domains [Db'] and [Dx'] hold the values of [Db] and [Dx] that
    have a support for [b <=> x <= v] in the other domain. *)
Definition leq_consistent (v : Z) (Db Dx Db' Dx' : list Z) : Prop :=
  (forall bv, bv ∈ Db' <-> bv ∈ Db /\ exists xv, xv ∈ Dx /\ leq_pair v bv xv) /\
  (forall xv, xv ∈ Dx' <-> xv ∈ Dx /\ exists bv, bv ∈ Db /\ leq_pair v bv xv).

(** The values [bv] of [b] and [xv] of [x] satisfy [b <=> x == v]. *)
Definition eq_pair (v bv xv : Z) : Prop := bv = 1 <-> xv = v.

(** The domains [Db'] and [Dx'] hold the values of [Db] and [Dx] that
    have a support for [b <=> x == v] in the other domain. *)
Definition eq_consistent (v : Z) (Db Dx Db' Dx' : list Z) : Prop :=
  (forall bv, bv ∈ Db' <-> bv ∈ Db /\ exists xv, xv ∈ Dx /\ eq_pair v bv xv) /\
  (forall xv, xv ∈ Dx' <-> xv ∈ Dx /\ exists bv, bv ∈ Db /\ eq_pair v bv xv).

(** The cell of the [_active] flag of the constraint [c] exists and is
    no cell of a variable. *)
Definition own_flag (w : World) (c : nat) : Prop :=
  exists k, constraints w !! c = Some k /\
    (_active k < n_cells (_sm w))%nat /\
    _active k ∉ mjoin (var_cells <$> int_vars w).

(* ------------------------------------------------------------------ *)
(** *** Vocabulary for the views of factory.py *)

(** Variables and views made of offsets, opposites and boolean views. *)
Fixpoint readable (x : IntVar) : bool :=
  match x with
  | IntVarImpl _ => true
  | IntVarViewOffset x _ | IntVarViewOpposite x | BoolVarImpl x => readable x
  | IntVarViewMul _ _ => false
  end.
(* ================================================================== *)
(** * Properties *)

(** ** The monad *)

Ltac invert H := inversion H; subst; clear H.

Lemma bind_ret_inv {S A B} (m : M S A) (k : A -> M S B) s o s' :
  bind m k s = (o, s') ->
  (exists a s1, m s = (Ret a, s1) /\ k a s1 = (o, s')) \/
  (exists e, m s = (Raise e, s') /\ o = Raise e) \/
  (m s = (OutOfFuel, s') /\ o = OutOfFuel).
Proof.
  unfold bind. destruct (m s) as [[a|e|] s1]; intros H.
  - left. eauto.
  - invert H. right. left. eauto.
  - invert H. right. right. eauto.
Qed.

Lemma lift_sm_self {A} (m : M StateManager A) sm : lift_sm m sm = m sm.
Proof. unfold lift_sm. simpl. by destruct (m sm). Qed.

(** ** Lists of values and entries *)

Lemma replay_app b1 b2 s : replay (b1 ++ b2) s = replay b2 (replay b1 s).
Proof. revert s. induction b1 as [|e b1 IH]; intros s; simpl; auto. Qed.

Lemma length_replay b s : length (replay b s) = length s.
Proof.
  revert s. induction b as [|e b IH]; intros s; simpl; auto.
  by rewrite IH, length_insert.
Qed.

Lemma insert_prefix (l l' : list Z) i x :
  l `prefix_of` l' -> <[i:=x]> l `prefix_of` <[i:=x]> l'.
Proof.
  intros [k ->]. destruct (decide (i < length l)%nat).
  - rewrite insert_app_l by done. by eexists.
  - rewrite (list_insert_ge l) by lia.
    replace i with (length l + (i - length l))%nat at 1 by lia.
    rewrite insert_app_r. by eexists.
Qed.

Lemma replay_prefix b (l l' : list Z) :
  l `prefix_of` l' -> replay b l `prefix_of` replay b l'.
Proof.
  revert l l'. induction b as [|e b IH]; intros l l' H; simpl; auto.
  apply IH. by apply insert_prefix.
Qed.

Lemma undo_all_prefix trs (l l' : list Z) :
  l `prefix_of` l' -> Forall2 prefix (undo_all l trs) (undo_all l' trs).
Proof.
  revert l l'. induction trs as [|tr trs IH]; intros l l' H; simpl.
  - constructor.
  - constructor; [by apply replay_prefix|].
    apply IH. by apply replay_prefix.
Qed.

Lemma length_undo_all vals trs : length (undo_all vals trs) = length trs.
Proof.
  revert vals. induction trs as [|tr trs IH]; intros; simpl; auto.
Qed.

(** An entry for [r] in the list makes the earlier value of [r]
    irrelevant. *)
Lemma replay_overwritten b (s : list Z) r x :
  r ∈ (snd <$> b) -> replay b (<[r:=x]> s) = replay b s.
Proof.
  revert s. induction b as [|[y j] b IH]; intros s Hin; simpl in *.
  - by apply elem_of_nil in Hin.
  - destruct (decide (j = r)) as [->|Hne].
    + by rewrite list_insert_insert_eq.
    + apply elem_of_cons in Hin as [Heq|Hin]; [congruence|].
      rewrite list_insert_insert_ne by done. by apply IH.
Qed.

(** Replaying a backup of the cells [0 .. k-1] overwrites exactly the
    first [k] values. *)
Lemma replay_seq b : forall (pre s : list Z),
  snd <$> b = seq (length pre) (length b) ->
  (length b <= length s)%nat ->
  replay b (pre ++ s) = pre ++ (fst <$> b) ++ drop (length b) s.
Proof.
  induction b as [|[x i] b IH]; intros pre s Hseq Hlen; simpl in *.
  - by rewrite drop_0.
  - invert Hseq. destruct s as [|y s]; simpl in *; [lia|].
    replace (length pre) with (length pre + 0)%nat at 1 by lia.
    rewrite insert_app_r. simpl.
    replace (pre ++ x :: s) with ((pre ++ [x]) ++ s) by by rewrite <- app_assoc.
    rewrite IH.
    + by rewrite <- app_assoc.
    + rewrite length_app. simpl.
      by replace (length pre + 1)%nat with (S (length pre)) by lia.
    + lia.
Qed.

Lemma trail_backup_restore_values b c :
  Trail.v <$> Trail.backup_restore b c = replay b (Trail.v <$> c).
Proof.
  revert c. induction b as [|e b IH]; intros c; simpl; auto.
  rewrite IH. f_equal. unfold Trail.entry_restore.
  rewrite list_insert_alter.
  apply list_fmap_alter. by apply Forall_forall.
Qed.

Lemma copy_backup_restore_replay b s : Copy.backup_restore b s = replay b s.
Proof. revert s. induction b as [|e b IH]; intros s; simpl; auto. Qed.

(** ** The managers seen through their snapshots *)

Lemma get_level_snapshots sm :
  get_level sm = Z.of_nat (length (snapshots sm)) - 1.
Proof.
  destruct sm as [t|c]; simpl.
  - unfold Trail.get_level. rewrite length_undo_all, length_take. simpl. lia.
  - unfold Copy.get_level. by rewrite length_fmap.
Qed.

Lemma n_cells_cell_values sm : n_cells sm = length (cell_values sm).
Proof. destruct sm; [symmetry; apply length_fmap|done]. Qed.

Lemma value_cell_values r sm : value r sm = default 0 (cell_values sm !! r).
Proof.
  destruct sm as [t|c]; simpl.
  - unfold Trail.value. rewrite list_lookup_fmap.
    destruct (Trail.cells t !! r) eqn:E; rewrite ?E; reflexivity.
  - unfold Copy.value. destruct (Copy.store c !! r); reflexivity.
Qed.

Lemma trail_snapshots_top (vals vals' : list Z) cur cur' (pr : list (list StateEntry)) :
  (pr <> [] -> replay cur' vals' = replay cur vals) ->
  undo_all vals' (take (length pr) (cur' :: pr)) =
  undo_all vals (take (length pr) (cur :: pr)).
Proof.
  destruct pr as [|p pr]; [done|]. intros H. simpl. by rewrite H.
Qed.

Lemma trail_set_values x r (c : list Trail.Trail) :
  Trail.v <$> alter (fun c' => Trail.mkTrail x (Trail.last_magic c')) r c
  = <[r:=x]> (Trail.v <$> c).
Proof.
  rewrite list_insert_alter. apply list_fmap_alter. by apply Forall_forall.
Qed.

Lemma set_value_spec r x sm :
  wf sm ->
  exists y sm', set_value r x sm = (Ret y, sm') /\ wf sm' /\
    snapshots sm' = snapshots sm /\
    cell_values sm' = <[r:=x]> (cell_values sm).
Proof.
  destruct sm as [t|c]; simpl; intros Hwf.
  - unfold on_trailer, Trail.set_value.
    destruct (Trail.cells t !! r) as [c|] eqn:Hc.
    + destruct (decide (x <> Trail.v c)) as [Hx|Hx].
      * unfold Trail.trail. rewrite Hc. unfold Trail.get_magic.
        destruct (decide (Trail.last_magic c <> Trail.magic t)) as [Hm|Hm];
          simpl; eexists _, _; (split; [reflexivity|]); simpl.
        -- split; [|split].
           ++ intros r' c' Hl. simpl in *.
              destruct (decide (r' = r)) as [->|Hne].
              ** rewrite list_lookup_alter_eq, list_lookup_insert_eq in Hl
                   by (by eapply lookup_lt_Some).
                 simpl in Hl. invert Hl. simpl. split; [lia|].
                 intros _ _. apply elem_of_cons. by left.
              ** rewrite list_lookup_alter_ne, list_lookup_insert_ne in Hl
                   by done.
                 destruct (Hwf _ _ Hl) as [H1 H2]. split; [done|].
                 intros Hp He. apply elem_of_cons. right. by apply H2.
           ++ apply trail_snapshots_top. intros _. simpl.
              rewrite trail_set_values, list_fmap_insert. simpl.
              rewrite !list_insert_insert_eq.
              rewrite (list_insert_id (Trail.v <$> Trail.cells t) r (Trail.v c)).
              ** done.
              ** by rewrite list_lookup_fmap, Hc.
           ++ rewrite trail_set_values, list_fmap_insert. simpl.
              by rewrite list_insert_insert_eq.
        -- assert (Hm' : Trail.last_magic c = Trail.magic t)
             by (destruct (decide (Trail.last_magic c = Trail.magic t)); tauto).
           pose proof (trail_set_values x r (Trail.cells t)) as Hv.
           split; [|split].
           ++ intros r' c' Hl. simpl in *.
              destruct (decide (r' = r)) as [->|Hne].
              ** rewrite list_lookup_alter_eq, Hc in Hl. simpl in Hl.
                 invert Hl. simpl. by apply Hwf.
              ** rewrite list_lookup_alter_ne in Hl by done. by apply Hwf.
           ++ apply trail_snapshots_top. intros Hp. rewrite Hv.
              apply replay_overwritten. by apply (Hwf r c).
           ++ done.
      * eexists _, _. split; [reflexivity|]. simpl. split; [done|].
        split; [done|].
        assert (x = Trail.v c) as -> by (destruct (decide (x = Trail.v c)); tauto).
        symmetry. apply list_insert_id. by rewrite list_lookup_fmap, Hc.
    + eexists _, _. split; [reflexivity|]. simpl. split; [done|].
      split; [done|]. symmetry. apply list_insert_ge.
      rewrite length_fmap. by apply lookup_ge_None.
  - unfold on_copier, Copy.set_value. eexists _, _.
    split; [reflexivity|]. simpl. split; [|done].
    unfold Copy_wf in *. simpl. eapply Forall_impl; [exact Hwf|].
    simpl. intros b [? ?]. by rewrite length_insert.
Qed.

Lemma make_state_ref_spec x sm :
  wf sm ->
  exists sm', make_state_ref x sm = (Ret (n_cells sm), sm') /\ wf sm' /\
    Forall2 prefix (snapshots sm) (snapshots sm') /\
    length (snapshots sm') = length (snapshots sm) /\
    cell_values sm' = cell_values sm ++ [x].
Proof.
  destruct sm as [t|c]; simpl; intros Hwf.
  - unfold on_trailer, Trail.make_state_ref. simpl. eexists.
    split; [reflexivity|]. simpl. split; [|split; [|split]].
    + intros r c Hl. simpl in *.
      apply lookup_app_Some in Hl as [Hl|[Hlen Hl]].
      * by apply Hwf.
      * destruct (r - length (Trail.cells t))%nat; [|done].
        simpl in Hl. invert Hl. simpl. unfold Trail.get_magic.
        split; [lia|]. intros _ ?. lia.
    + rewrite fmap_app. apply undo_all_prefix. by eexists.
    + by rewrite !length_undo_all.
    + by rewrite fmap_app.
  - unfold on_copier, Copy.make_state_ref. simpl. eexists.
    split; [reflexivity|]. simpl. split; [|split; [|done]].
    + unfold Copy_wf in *. simpl. eapply Forall_impl; [exact Hwf|].
      simpl. intros b [? ?]. rewrite length_app. simpl. split; [done|lia].
    + apply Forall2_same_length_lookup. split; [done|].
      intros i l l' H1 H2. by simplify_eq.
Qed.

Lemma save_state_spec sm :
  wf sm ->
  exists sm', save_state sm = (Ret tt, sm') /\ wf sm' /\
    snapshots sm' = cell_values sm :: snapshots sm /\
    cell_values sm' = cell_values sm.
Proof.
  destruct sm as [t|c]; simpl; intros Hwf.
  - eexists. split; [reflexivity|]. simpl. split; [|done].
    intros r c Hl. simpl in *. destruct (Hwf _ _ Hl) as [H1 _].
    split; [lia|]. intros _ ?. lia.
  - eexists. split; [reflexivity|]. simpl. split; [|split; [|done]].
    + unfold Copy_wf in *. simpl. constructor.
      * unfold Copy.backup. rewrite length_imap. split; [|done].
        rewrite fmap_imap. by rewrite (imap_seq_0 _ (fun i => i)), list_fmap_id.
      * done.
    + f_equal. unfold Copy.backup. rewrite fmap_imap.
      apply list_eq. intros i. rewrite list_lookup_imap.
      by destruct (Copy.store c !! i).
Qed.

Lemma trail_backup_restore_magic b : forall c r c',
  Trail.backup_restore b c !! r = Some c' ->
  exists c0, c !! r = Some c0 /\ Trail.last_magic c' = Trail.last_magic c0.
Proof.
  induction b as [|e b IH]; intros c r c' H; simpl in *; [by eauto|].
  apply IH in H as (c1 & H & ->). unfold Trail.entry_restore in H.
  destruct (decide (snd e = r)) as [<-|Hne].
  - rewrite list_lookup_alter_eq in H.
    destruct (c !! snd e) as [c0|]; simpl in H; [|done].
    invert H. by eauto.
  - rewrite list_lookup_alter_ne in H by done. by eauto.
Qed.

Lemma restore_state_spec sm s ss :
  wf sm -> snapshots sm = s :: ss ->
  exists sm', restore_state sm = (Ret tt, sm') /\ wf sm' /\
    snapshots sm' = ss /\
    cell_values sm' = s ++ drop (length s) (cell_values sm).
Proof.
  destruct sm as [t|c]; simpl; intros Hwf Hs.
  - unfold on_trailer, Trail.restore_state.
    destruct (Trail.prior t) as [|cur pr] eqn:Hp; [done|].
    eexists. split; [reflexivity|]. simpl in *.
    invert Hs. split; [|split].
    + intros r c Hl. simpl in *.
      apply trail_backup_restore_magic in Hl as (c0 & Hl & ->).
      destruct (Hwf _ _ Hl) as [H1 _]. split; [lia|]. intros _ ?. lia.
    + by rewrite trail_backup_restore_values.
    + rewrite trail_backup_restore_values.
      rewrite drop_ge; [by rewrite app_nil_r|].
      by rewrite length_replay.
  - unfold on_copier, Copy.restore_state.
    destruct (Copy.prior c) as [|b pr] eqn:Hp; [done|].
    eexists. split; [reflexivity|]. simpl in *.
    invert Hs. unfold Copy_wf in Hwf. rewrite Hp in Hwf.
    apply Forall_cons in Hwf as [[Hb1 Hb2] Hwf]. split; [|split; [done|]].
    + unfold Copy_wf. simpl. eapply Forall_impl; [exact Hwf|].
      simpl. intros b' [? ?]. split; [done|].
      by rewrite copy_backup_restore_replay, length_replay.
    + rewrite copy_backup_restore_replay.
      rewrite length_fmap.
      apply (replay_seq b [] (Copy.store c)); simpl; done.
Qed.

(** ** Frames are kept in a stack *)

Lemma extends_same sm sm' : snapshots sm' = snapshots sm -> extends sm sm'.
Proof.
  intros H. exists [], (snapshots sm). split; [done|].
  apply Forall2_same_length_lookup. split; [done|].
  intros i l l' H1 H2. by simplify_eq.
Qed.

Lemma extends_prefix sm sm' :
  Forall2 prefix (snapshots sm) (snapshots sm') -> extends sm sm'.
Proof. intros H. by exists [], (snapshots sm'). Qed.

Lemma extends_trans sm1 sm2 sm3 :
  extends sm1 sm2 -> extends sm2 sm3 -> extends sm1 sm3.
Proof.
  intros (e1 & s1 & H1 & P1) (e2 & s2 & H2 & P2).
  rewrite H1 in P2. apply Forall2_app_inv_l in P2 as (k1 & k2 & _ & P2 & ->).
  exists (e2 ++ k1), k2. split; [by rewrite <- app_assoc|].
  eapply Forall2_trans; [|exact P1|exact P2].
  intros x y z ? ?. by etrans.
Qed.

Lemma restore_state_until_loop_spec extra : forall sm ss n,
  wf sm -> snapshots sm = extra ++ ss -> (length extra < n)%nat ->
  exists sm',
    restore_state_until_loop n (Z.of_nat (length ss) - 1) sm = (Ret tt, sm') /\
    wf sm' /\ snapshots sm' = ss /\
    (extra = [] -> sm' = sm) /\
    (forall s0, last extra = Some s0 -> s0 `prefix_of` cell_values sm').
Proof.
  induction extra as [|e extra IH]; intros sm ss n Hwf Hs Hn;
    (destruct n as [|n]; [simpl in Hn; lia|]); simpl;
    unfold bind, gets; rewrite get_level_snapshots, Hs.
  - simpl. destruct (Z.gtb_spec (Z.of_nat (length ss) - 1)
                                (Z.of_nat (length ss) - 1)) as [?|_]; [lia|].
    exists sm. by repeat split.
  - rewrite length_app. simpl.
    destruct (Z.gtb_spec (Z.of_nat (S (length extra + length ss)) - 1)
                         (Z.of_nat (length ss) - 1)) as [_|?]; [|lia].
    destruct (restore_state_spec sm e (extra ++ ss) Hwf Hs)
      as (sm1 & -> & Hwf1 & Hs1 & Hv1).
    destruct (IH sm1 ss n Hwf1 Hs1 ltac:(simpl in Hn; lia))
      as (sm' & -> & Hwf' & Hs' & Hnil & Hlast).
    exists sm'. repeat split; try done.
    intros s0 Hl. destruct extra as [|e' extra].
    + simpl in Hl. invert Hl. rewrite (Hnil eq_refl), Hv1. by eexists.
    + by apply Hlast.
Qed.

Lemma restore_state_until_spec extra sm ss :
  wf sm -> snapshots sm = extra ++ ss ->
  exists sm',
    restore_state_until (Z.of_nat (length ss) - 1) sm = (Ret tt, sm') /\
    wf sm' /\ snapshots sm' = ss /\
    (forall s0, last extra = Some s0 -> s0 `prefix_of` cell_values sm').
Proof.
  intros Hwf Hs. unfold restore_state_until.
  destruct (restore_state_until_loop_spec extra sm ss
              (Z.to_nat (get_level sm + 2)) Hwf Hs)
    as (sm' & H & ? & ? & _ & ?).
  - rewrite get_level_snapshots, Hs, length_app. lia.
  - by exists sm'.
Qed.

Lemma prefix_value (l l' : list Z) r :
  l `prefix_of` l' -> (r < length l)%nat -> l' !! r = l !! r.
Proof. intros [k ->] H. by apply lookup_app_l. Qed.

(** What [with_new_state] does around a body that keeps the frames below
    its own. *)
Lemma with_new_state_spec (body : M StateManager unit) sm o sm' :
  wf sm ->
  (forall sm1 o2 sm2, wf sm1 -> body sm1 = (o2, sm2) ->
     wf sm2 /\ extends sm1 sm2 /\ o2 <> OutOfFuel) ->
  with_new_state body sm = (o, sm') ->
  wf sm' /\ extends sm sm' /\ o <> OutOfFuel /\
  (o = Ret tt -> frame_restored sm sm' /\
                 length (snapshots sm') = length (snapshots sm)) /\
  (forall e, o = Raise e ->
     body (snd (save_state sm)) = (Raise e, sm') /\
     get_level sm < get_level sm').
Proof.
  intros Hwf Hbody. unfold with_new_state, bind.
  rewrite !lift_sm_self. unfold gets at 1. rewrite lift_sm_self.
  destruct (save_state_spec sm Hwf) as (sm1 & E1 & Hwf1 & Hs1 & Hv1).
  rewrite E1. simpl.
  destruct (body sm1) as [o2 sm2] eqn:E2.
  destruct (Hbody _ _ _ Hwf1 E2) as (Hwf2 & (extra & ss & Hs2 & Hp) & Hfuel).
  rewrite Hs1 in Hp.
  apply Forall2_cons_inv_l in Hp as (s0 & ss0 & Hp0 & Hp & ->).
  assert (Hlen : length ss0 = length (snapshots sm))
    by (symmetry; by eapply Forall2_length).
  assert (Hext : extends sm sm2).
  { exists (extra ++ [s0]), ss0. by rewrite <- app_assoc. }
  destruct o2 as [[]|e|]; [|intros H; invert H|done].
  - rewrite lift_sm_self.
    destruct (restore_state_until_spec (extra ++ [s0]) sm2 ss0 Hwf2)
      as (sm3 & E3 & Hwf3 & Hs3 & Hlast).
    { by rewrite <- app_assoc. }
    rewrite get_level_snapshots, <- Hlen, E3. intros [= <- <-].
    split; [done|]. split; [by apply extends_prefix; rewrite Hs3|].
    split; [done|]. split; [|by intros e ?].
    intros _. split; [|by rewrite Hs3].
    split.
    + by rewrite !get_level_snapshots, Hs3, Hlen.
    + intros r Hr. rewrite !value_cell_values. f_equal.
      rewrite n_cells_cell_values in Hr.
      rewrite <- Hv1 in *.
      assert (Hpre : cell_values sm1 `prefix_of` cell_values sm3).
      { etrans; [exact Hp0|]. apply Hlast. by rewrite last_snoc. }
      by apply prefix_value.
  - split; [done|]. split; [done|]. split; [done|]. split; [done|].
    intros e' [= <-]. split; [done|].
    rewrite !get_level_snapshots, Hs2, !length_app. simpl. lia.
Qed.

Lemma run_extends p : forall sm o sm',
  wf sm -> run p sm = (o, sm') -> wf sm' /\ extends sm sm' /\ o <> OutOfFuel.
Proof.
  induction p as [|p IHp q IHq|r x|r|r|x|p IHp|p IHp|e|p IHp e h IHh];
    intros sm o sm' Hwf Hrun; simpl in Hrun.
  - invert Hrun. split; [done|]. split; [by apply extends_same|done].
  - apply bind_ret_inv in Hrun as [(a & s1 & H1 & H2)|[(e & H1 & ->)|[H1 ->]]].
    + destruct (IHp _ _ _ Hwf H1) as (Hwf1 & He1 & _).
      destruct (IHq _ _ _ Hwf1 H2) as (Hwf2 & He2 & ?).
      split; [done|]. split; [by eapply extends_trans|done].
    + destruct (IHp _ _ _ Hwf H1) as (? & ? & ?). by repeat split.
    + destruct (IHp _ _ _ Hwf H1) as (? & ? & ?). done.
  - destruct (set_value_spec r x sm Hwf) as (y & sm1 & E & Hwf1 & Hs & _).
    unfold bind in Hrun. rewrite E in Hrun. invert Hrun.
    split; [done|]. split; [by apply extends_same|done].
  - unfold increment, bind, gets in Hrun.
    destruct (set_value_spec r (value r sm + 1) sm Hwf)
      as (y & sm1 & E & Hwf1 & Hs & _).
    rewrite E in Hrun. invert Hrun.
    split; [done|]. split; [by apply extends_same|done].
  - unfold decrement, bind, gets in Hrun.
    destruct (set_value_spec r (value r sm - 1) sm Hwf)
      as (y & sm1 & E & Hwf1 & Hs & _).
    rewrite E in Hrun. invert Hrun.
    split; [done|]. split; [by apply extends_same|done].
  - destruct (make_state_ref_spec x sm Hwf) as (sm1 & E & Hwf1 & Hp & _).
    unfold make_state_int, bind in Hrun. rewrite E in Hrun. invert Hrun.
    split; [done|]. split; [by apply extends_prefix|done].
  - destruct (save_state_spec sm Hwf) as (sm1 & E1 & Hwf1 & Hs1 & Hv1).
    unfold bind in Hrun. rewrite E1 in Hrun.
    destruct (run p sm1) as [o2 sm2] eqn:E2.
    destruct (IHp _ _ _ Hwf1 E2) as (Hwf2 & (extra & ss & Hs2 & Hp) & Hfuel).
    rewrite Hs1 in Hp.
    apply Forall2_cons_inv_l in Hp as (s0 & ss0 & Hp0 & Hp & ->).
    destruct o2 as [[]|e|]; [|invert Hrun|done].
    + destruct extra as [|e extra]; simpl in Hs2.
      * destruct (restore_state_spec sm2 s0 ss0 Hwf2 Hs2)
          as (sm3 & E3 & Hwf3 & Hs3 & _).
        rewrite E3 in Hrun. injection Hrun as <- <-.
        split; [done|]. split; [|done]. apply extends_prefix. by rewrite Hs3.
      * destruct (restore_state_spec sm2 e (extra ++ s0 :: ss0) Hwf2 Hs2)
          as (sm3 & E3 & Hwf3 & Hs3 & _).
        rewrite E3 in Hrun. injection Hrun as <- <-.
        split; [done|]. split; [|done].
        exists (extra ++ [s0]), ss0. by rewrite <- app_assoc.
    + split; [done|]. split; [|done].
      exists (extra ++ [s0]), ss0. by rewrite <- app_assoc.
  - destruct (with_new_state_spec (run p) sm o sm' Hwf IHp Hrun)
      as (? & ? & ? & _). done.
  - invert Hrun. split; [done|]. split; [by apply extends_same|done].
  - unfold try_except in Hrun.
    destruct (run p sm) as [o1 sm1] eqn:E1.
    destruct (IHp _ _ _ Hwf E1) as (Hwf1 & He1 & Hf1).
    destruct o1 as [[]|e1|]; [by invert Hrun| |done].
    destruct (decide (e1 = e)) as [->|Hne]; [|by invert Hrun].
    destruct (IHh _ _ _ Hwf1 Hrun) as (Hwf2 & He2 & ?).
    split; [done|]. split; [by eapply extends_trans|done].
Qed.

Lemma wf_new_manager by_copy : wf (new_manager by_copy).
Proof.
  destruct by_copy; simpl.
  - constructor.
  - intros r c H. done.
Qed.

Lemma wf_reachable by_copy q : wf (snd (run q (new_manager by_copy))).
Proof.
  destruct (run q (new_manager by_copy)) as [o sm] eqn:E.
  by destruct (run_extends q _ _ _ (wf_new_manager by_copy) E).
Qed.

(** Writes and properly nested pairs leave the stack of frames as it
    was. *)
Lemma run_writes_and_pairs p : forall sm,
  writes_and_pairs p = true -> wf sm ->
  exists sm', run p sm = (Ret tt, sm') /\ wf sm' /\
              snapshots sm' = snapshots sm.
Proof.
  induction p as [|p IHp q IHq|r x|r|r|x|p IHp|p IHp|e|p IHp e h IHh];
    intros sm Hp Hwf; simpl in Hp; try done; simpl.
  - by exists sm.
  - apply andb_prop in Hp as [Hp Hq].
    destruct (IHp sm Hp Hwf) as (sm1 & E1 & Hwf1 & Hs1).
    destruct (IHq sm1 Hq Hwf1) as (sm2 & E2 & Hwf2 & Hs2).
    exists sm2. unfold bind. rewrite E1, E2. split; [done|].
    split; [done|congruence].
  - destruct (set_value_spec r x sm Hwf) as (y & sm1 & E & Hwf1 & Hs & _).
    exists sm1. unfold bind. by rewrite E.
  - destruct (set_value_spec r (value r sm + 1) sm Hwf)
      as (y & sm1 & E & Hwf1 & Hs & _).
    exists sm1. unfold increment, bind, gets. by rewrite E.
  - destruct (set_value_spec r (value r sm - 1) sm Hwf)
      as (y & sm1 & E & Hwf1 & Hs & _).
    exists sm1. unfold decrement, bind, gets. by rewrite E.
  - destruct (save_state_spec sm Hwf) as (sm1 & E1 & Hwf1 & Hs1 & Hv1).
    destruct (IHp sm1 Hp Hwf1) as (sm2 & E2 & Hwf2 & Hs2).
    rewrite Hs1 in Hs2.
    destruct (restore_state_spec sm2 _ _ Hwf2 Hs2) as (sm3 & E3 & Hwf3 & Hs3 & _).
    exists sm3. unfold bind. by rewrite E1, E2, E3.
Qed.

(** ** The current trail between a [save_state] and the next
    [save_state] or [restore_state] *)

Lemma trail_frame_inv_save t :
  Trail_wf t -> trail_frame_inv (Trail.save_state t) (Trail.save_state t).
Proof.
  intros Hwf. split; [done|]. split; [constructor|]. split.
  - intros e H. by apply elem_of_nil in H.
  - intros r c Hl. simpl in *. split.
    + split; [intros H; by apply elem_of_nil in H|].
      destruct (Hwf _ _ Hl) as [H1 _]. intros ?. lia.
    + intros _. unfold Trail.value. simpl. by rewrite Hl.
Qed.

Lemma trail_set_value_inv t0 t r x :
  trail_frame_inv t0 t ->
  exists y t', Trail.set_value r x t = (Ret y, t') /\ trail_frame_inv t0 t'.
Proof.
  intros (Hm & Hnd & Hent & Hcells). unfold Trail.set_value.
  destruct (Trail.cells t !! r) as [c|] eqn:Hc; [|by eexists _, _].
  destruct (decide (x <> Trail.v c)) as [Hx|Hx]; [|by eexists _, _].
  destruct (Hcells _ _ Hc) as [Hiff Hval].
  unfold Trail.trail. rewrite Hc. unfold Trail.get_magic.
  destruct (decide (Trail.last_magic c <> Trail.magic t)) as [Hne|He];
    eexists _, _; (split; [reflexivity|]); simpl.
  - assert (Hnot : r ∉ (snd <$> Trail.current t)) by tauto.
    split; [done|]. split; [by constructor|]. split.
    + intros e He. apply elem_of_cons in He as [->|He]; [|by apply Hent].
      simpl. by apply Hval.
    + intros r' c' Hl. simpl in *.
      destruct (decide (r' = r)) as [->|Hne'].
      * rewrite list_lookup_alter_eq, list_lookup_insert_eq in Hl
          by (by eapply lookup_lt_Some).
        simpl in Hl. invert Hl. simpl. split.
        -- split; [done|]. intros _. apply elem_of_cons. by left.
        -- intros H. exfalso. apply H. apply elem_of_cons. by left.
      * rewrite list_lookup_alter_ne, list_lookup_insert_ne in Hl by done.
        destruct (Hcells _ _ Hl) as [Hiff' Hval']. split.
        -- rewrite <- Hiff', elem_of_cons. split; [by intros [?|?]|by right].
        -- intros H. apply Hval'. intros ?. apply H. apply elem_of_cons. by right.
  - split; [done|]. split; [done|]. split; [done|].
    intros r' c' Hl. simpl in *.
    destruct (decide (r' = r)) as [->|Hne'].
    + rewrite list_lookup_alter_eq, Hc in Hl. simpl in Hl. invert Hl. simpl.
      split; [done|]. intros H. exfalso. apply H. apply Hiff.
      destruct (decide (Trail.last_magic c = Trail.magic t)); tauto.
    + rewrite list_lookup_alter_ne in Hl by done. by apply Hcells.
Qed.

Lemma run_writes_only_trail p : forall t0 t,
  writes_only p = true -> trail_frame_inv t0 t ->
  exists t', run p (Trailer t) = (Ret tt, Trailer t') /\ trail_frame_inv t0 t'.
Proof.
  induction p as [|p IHp q IHq|r x|r|r|x|p IHp|p IHp|e|p IHp e h IHh];
    intros t0 t Hp Hinv; simpl in Hp; try done; simpl.
  - by exists t.
  - apply andb_prop in Hp as [Hp Hq].
    destruct (IHp t0 t Hp Hinv) as (t1 & E1 & Hinv1).
    destruct (IHq t0 t1 Hq Hinv1) as (t2 & E2 & Hinv2).
    exists t2. unfold bind. by rewrite E1, E2.
  - destruct (trail_set_value_inv t0 t r x Hinv) as (y & t1 & E & Hinv1).
    exists t1. unfold bind. simpl. unfold on_trailer. by rewrite E.
  - destruct (trail_set_value_inv t0 t r (Trail.value r t + 1) Hinv)
      as (y & t1 & E & Hinv1).
    exists t1. unfold increment, bind, gets. simpl. unfold on_trailer.
    by rewrite E.
  - destruct (trail_set_value_inv t0 t r (Trail.value r t - 1) Hinv)
      as (y & t1 & E & Hinv1).
    exists t1. unfold decrement, bind, gets. simpl. unfold on_trailer.
    by rewrite E.
Qed.

Lemma writes_only_pairs p : writes_only p = true -> writes_and_pairs p = true.
Proof.
  induction p; simpl; try done.
  intros H. apply andb_prop in H as [? ?]. apply andb_true_intro. auto.
Qed.

(** ** [with_new_state] (C1) *)


(** Client code keeps the frames below its own. *)
Lemma run_keeps_frames (p : prog) : keeps_frames (run p).
Proof. intros sm1 o2 sm2. apply run_extends. Qed.



(** The condition on the body is needed: a body that restores two
    frames, its own and the one below, leaves [with_new_state] one level
    under the recorded one, with the older value in the cell.  Under both
    strategies, on a manager at level 0 whose cell [x] was set to 1 after
    the [save_state], [with_new_state(lambda: (restore_state(),
    restore_state()))] returns at level -1 with [x] holding 0. *)
Example with_new_state_unbalanced_body (by_copy : bool) :
  let sm := snd ((make_state_int 0 ;; save_state ;; set_value 0%nat 1)
                   (new_manager by_copy)) in
  let r := with_new_state (restore_state ;; restore_state) sm in
  fst r = Ret tt /\
  get_level sm = 0 /\ get_level (snd r) = -1 /\
  value 0%nat sm = 1 /\ value 0%nat (snd r) = 0 /\
  ~ frame_restored sm (snd r).
Proof.
  destruct by_copy; cbv zeta; (repeat split; try reflexivity);
    intros [H _]; vm_compute in H; discriminate.
Qed.

(** An enclosing [with_new_state] whose body catches the exception of an
    inner one, as [solve] does with [StopSearch], restores both frames. *)
Example with_new_state_enclosing :
  let sm := snd (run (MakeStateInt 0) (new_manager false)) in
  let inner := WithNewState (Seq (SetValue 0%nat 5)
                                 (RaiseExn StopSearchException)) in
  let r := with_new_state (run (TryExcept inner StopSearchException Skip)) sm in
  fst r = Ret tt /\ get_level (snd r) = -1 /\ value 0%nat (snd r) = 0.
Proof. by vm_compute. Qed.

(** ** [save_state] and [restore_state] (C2) *)

(** C2, as stated, fails in its last part: a frame that is resumed after
    a nested save/restore pair records a second old value for a cell it
    had already recorded.  With the trail strategy and one cell [x]
    holding 0, after [save_state(); x.set_value(1); save_state();
    restore_state(); x.set_value(2)] the current trail holds the two
    entries [(x, 1)] and [(x, 0)]. *)
Lemma trail_frame_two_old_values :
  let sm := snd (run (MakeStateInt 0) (new_manager false)) in
  let p := Seq (SetValue 0%nat 1) (Seq (Nested Skip) (SetValue 0%nat 2)) in
  writes_and_pairs p = true /\
  exists t0 t,
    snd (save_state sm) = Trailer t0 /\
    snd (run p (snd (save_state sm))) = Trailer t /\
    Trail.current t = [(1, 0%nat); (0, 0%nat)] /\
    ~ one_old_value t0 t.
Proof.
  split; [reflexivity|]. eexists _, _.
  split; [reflexivity|]. split; [reflexivity|]. split; [reflexivity|].
  intros [H _]. simpl in H. apply NoDup_cons in H as [H _].
  apply H. by left.
Qed.

(** C2, amended.  For either strategy and any manager reached from a
    fresh one: after [save_state] followed by any sequence of writes and
    properly nested save/restore pairs, [restore_state] returns, lowers
    the level by one, and leaves the level and every cell as they were
    at the [save_state].  For the trail strategy, as long as the frame
    has seen writes only (no nested pair yet), the current trail holds
    at most one entry per cell, and it holds the value the cell had at
    the [save_state]. *)
Theorem restore_state_matches_save (by_copy : bool) (q p : prog) :
  writes_and_pairs p = true ->
  let sm := snd (run q (new_manager by_copy)) in
  let sm1 := snd (save_state sm) in
  let r := run p sm1 in
  let r' := restore_state (snd r) in
  fst r = Ret tt /\ fst r' = Ret tt /\
  get_level (snd r') = get_level (snd r) - 1 /\
  frame_restored sm (snd r') /\
  (writes_only p = true ->
   forall t0 t, sm1 = Trailer t0 -> snd r = Trailer t -> one_old_value t0 t).
Proof.
  intros Hp sm sm1 r r'. subst r' r sm1.
  pose proof (wf_reachable by_copy q) as Hwf. fold sm in Hwf.
  destruct (save_state_spec sm Hwf) as (sm1 & E1 & Hwf1 & Hs1 & Hv1).
  rewrite E1. simpl.
  destruct (run_writes_and_pairs p sm1 Hp Hwf1) as (sm2 & E2 & Hwf2 & Hs2).
  rewrite E2. simpl. rewrite Hs1 in Hs2.
  destruct (restore_state_spec sm2 _ _ Hwf2 Hs2) as (sm3 & E3 & Hwf3 & Hs3 & Hv3).
  rewrite E3. simpl.
  split; [done|]. split; [done|]. split; [|split].
  - rewrite !get_level_snapshots, Hs2, Hs3. simpl length. lia.
  - split.
    + by rewrite !get_level_snapshots, Hs3.
    + intros x Hx. rewrite !value_cell_values, Hv3. f_equal.
      rewrite n_cells_cell_values in Hx. by apply lookup_app_l.
  - intros Hw t0 t -> Ht. subst sm2.
    destruct sm as [t'|c]; simpl in E1; [|done].
    injection E1 as <-.
    destruct (run_writes_only_trail p _ _ Hw (trail_frame_inv_save t' Hwf))
      as (t2 & E & _ & Hnd & Hent & _).
    rewrite E2 in E. injection E as <-. by split.
Qed.

Lemma restore_state_matches_save_witness :
  let p := Seq (SetValue 0%nat 1) (Seq (Nested (Increment 0%nat)) (Decrement 0%nat)) in
  let sm := snd (run (MakeStateInt 7) (new_manager true)) in
  let r := run p (snd (save_state sm)) in
  let r' := restore_state (snd r) in
  fst r = Ret tt /\ fst r' = Ret tt /\
  get_level (snd r') = get_level (snd r) - 1 /\
  frame_restored sm (snd r') /\
  (writes_only p = true ->
   forall t0 t, snd (save_state sm) = Trailer t0 -> snd r = Trailer t ->
                one_old_value t0 t).
Proof.
  exact (restore_state_matches_save true (MakeStateInt 7)
           (Seq (SetValue 0%nat 1) (Seq (Nested (Increment 0%nat)) (Decrement 0%nat)))
           eq_refl).
Defined.

(* ================================================================== *)
(** ** The sparse set (C10) *)

(** C10.  [StateSparseSet.min()] and [StateSparseSet.max()] raise
    [ValueError] whenever the set is empty (its reversible size is 0) and
    return normally on every non-empty set: the reversible bound shifted
    by the offset.  Neither changes the state. *)
Theorem sparse_set_min_max (sm : StateManager) (d : SparseSet.StateSparseSet) :
  let s := (sm, d) in
  let empty := value (SparseSet._size d) sm =? 0 in
  SparseSet.is_empty s = (Ret empty, s) /\
  SparseSet.min s =
    (if empty then Raise ValueError
     else Ret (value (SparseSet._min d) sm + SparseSet._ofs d), s) /\
  SparseSet.max s =
    (if empty then Raise ValueError
     else Ret (value (SparseSet._max d) sm + SparseSet._ofs d), s).
Proof.
  intros s empty. subst s empty.
  unfold SparseSet.min, SparseSet.max, SparseSet.is_empty, SparseSet.get,
    SparseSet.field, bind, gets, lift_sm.
  simpl. by destruct (value (SparseSet._size d) sm =? 0).
Qed.

(** An emptied domain is reachable: removing the only value of a
    variable raises [InconsistencyException] and leaves the set empty;
    [min()] and [max()] then raise [ValueError]. *)
Example min_max_after_emptying :
  let emptied by_copy :=
    snd ((x <- make_int_var (Some 5) (Some 5) None None ;; Var.remove x 5)
           (make_solver by_copy)) in
  forall by_copy,
    fst (Var.remove (IntVarImpl 0) 5
           (snd (make_int_var (Some 5) (Some 5) None None (make_solver by_copy))))
      = Raise InconsistencyException /\
    fst (Var.size (IntVarImpl 0) (emptied by_copy)) = Ret 0 /\
    fst (Var.min (IntVarImpl 0) (emptied by_copy)) = Raise ValueError /\
    fst (Var.max (IntVarImpl 0) (emptied by_copy)) = Raise ValueError.
Proof. intros emptied [|]; by vm_compute. Qed.

(* ================================================================== *)
(** ** [make_int_var] (C5) *)

(** The shapes of a call: which ones are rejected, and with what. *)
Lemma make_int_var_outcome (w : World) (min max sz : option Z)
    (values : option (list Z)) :
  let check a b :=
    if (a =? MIN_VALUE) || (b =? MAX_VALUE) || (a >? b)
    then Raise ValueError
    else Ret (IntVarImpl (length (int_vars w))) in
  fst (make_int_var min max sz values w) =
    match values, sz, min, max with
    | Some _, None, None, None => Raise NotImplementedError
    | None, Some n, None, None => check 0 (n - 1)
    | None, None, Some a, Some b => check a b
    | _, _, _, _ => Raise ValueError
    end.
Proof.
  intros check. subst check. unfold make_int_var, IntVarImpl_init, bind.
  destruct values as [vs|], sz as [n|], min as [a|], max as [b|];
    try reflexivity; simpl.
  - destruct (0 =? MIN_VALUE) eqn:E1; [done|].
    destruct (n - 1 =? MAX_VALUE); [done|]. simpl.
    destruct (0 >? n - 1); [done|].
    unfold lift_sm. simpl. destruct (_sm w); reflexivity.
  - destruct (a =? MIN_VALUE); [done|].
    destruct (b =? MAX_VALUE); [done|]. simpl.
    destruct (a >? b); [done|].
    unfold lift_sm. simpl. destruct (_sm w); reflexivity.
Qed.

(** C5 at the failing input: a call with only a set of values does not
    return a variable; it raises [NotImplementedError], whatever the
    values (those of the test suite included), and leaves the solver as
    it was.  The rest of C5 holds: the shapes [{min, max}] and [{size}]
    return a new variable unless the domain is empty or touches the
    bounds of the 32-bit range, and every other combination of
    parameters is rejected with [ValueError]. *)
Theorem make_int_var_values_only (w : World) (values : list Z)
    (min max sz : option Z) (vs : option (list Z)) :
  make_int_var None None None (Some values) w = (Raise NotImplementedError, w) /\
  fst (make_int_var None None None (Some [-7; -10; 6; 9; 10; 12])
         (make_solver false)) = Raise NotImplementedError /\
  fst (make_int_var min max sz vs w) =
    match vs, sz, min, max with
    | Some _, None, None, None => Raise NotImplementedError
    | None, Some n, None, None =>
        if (0 =? MIN_VALUE) || (n - 1 =? MAX_VALUE) || (0 >? n - 1)
        then Raise ValueError
        else Ret (IntVarImpl (length (int_vars w)))
    | None, None, Some a, Some b =>
        if (a =? MIN_VALUE) || (b =? MAX_VALUE) || (a >? b)
        then Raise ValueError
        else Ret (IntVarImpl (length (int_vars w)))
    | _, _, _, _ => Raise ValueError
    end.
Proof.
  split; [reflexivity|]. split; [reflexivity|].
  apply make_int_var_outcome.
Qed.

Example make_int_var_range_domain :
  forall by_copy,
    let r := make_int_var (Some (-2)) (Some 3) None None (make_solver by_copy) in
    fst r = Ret (IntVarImpl 0) /\
    fst (on_domain 0 SparseSet.to_array (snd r)) = Ret [-2; -1; 0; 1; 2; 3].
Proof. intros [|]; by vm_compute. Qed.

(* ================================================================== *)
(** ** The multiplication view (C6) *)

(** [_ceil_div] and [_floor_div] at failing inputs.  [q] is the float
    quotient, so [q * b] is [a] again (here exactly: 3.5 * 2 = 7.0) and
    the test [q * b != a], which is meant to detect a remainder, fails:
    the quotient is truncated toward zero. *)
Lemma ceil_div_7_2 (S : Type) (s : S) :
  ceil_div 7 2 s = (Ret 3, s) /\ ceil_toward_plus_infinity 7 2 = 4.
Proof. split; by vm_compute. Qed.

Lemma floor_div_m7_2 (S : Type) (s : S) :
  floor_div (-7) 2 s = (Ret (-3), s) /\ floor_toward_minus_infinity (-7) 2 = -4.
Proof. split; by vm_compute. Qed.

(** C6 at the failing inputs.  With [x] over [0..5] and [y = mul(x, 2)],
    [y.remove_below(7)] performs [x.remove_below(3)], not
    [x.remove_below(ceil(7/2))] = [x.remove_below(4)]: [y] keeps the
    value 6, below 7.  With [x] over [-5..0], [y.remove_above(-7)]
    performs [x.remove_above(-3)], not [x.remove_above(floor(-7/2))] =
    [x.remove_above(-4)]: [y] keeps the value -6, above -7. *)
Theorem view_mul_truncates :
  forall by_copy,
    (let r := (x <- make_int_var (Some 0) (Some 5) None None ;;
               y <- mul x 2 ;;
               Var.remove_below y 7 ;;
               a <- Var.min x ;; b <- Var.min y ;; ret (a, b))
                (make_solver by_copy) in
     fst r = Ret (3, 6) /\ ceil_toward_plus_infinity 7 2 = 4) /\
    (let r := (x <- make_int_var (Some (-5)) (Some 0) None None ;;
               y <- mul x 2 ;;
               Var.remove_above y (-7) ;;
               a <- Var.max x ;; b <- Var.max y ;; ret (a, b))
                (make_solver by_copy) in
     fst r = Ret (-3, -6) /\ floor_toward_minus_infinity (-7) 2 = -4).
Proof. intros [|]; by vm_compute. Qed.

(** The two functions on more inputs: right on exact multiples, right
    where truncation happens to round the wanted way, right where the
    float product differs from [a] ([1 / 49 * 49] is not [1.0]), wrong
    elsewhere ([1 / 3 * 3] is [1.0]). *)
Example ceil_floor_div_samples (S : Type) (s : S) :
  ceil_div 6 3 s = (Ret 2, s) /\ floor_div (-6) 3 s = (Ret (-2), s) /\
  ceil_div (-7) 2 s = (Ret (-3), s) /\ floor_div 7 2 s = (Ret 3, s) /\
  ceil_div 1 49 s = (Ret 1, s) /\
  ceil_div 1 3 s = (Ret 0, s) /\ floor_div (-1) 3 s = (Ret 0, s).
Proof. repeat split; by vm_compute. Qed.

(* ================================================================== *)
(** ** The [Sum] constraint (C4) *)

(** C4, as stated, fails: with [x0] and [x1] both fixed to 2147483646,
    the sum of the bounds is 4294967292, yet [Sum([x0, x1], v=5)] and
    [Sum([x0, x1], y)] are both constructed; [sum_var([x0, x1])] is what
    raises [OverflowError]. *)
Lemma sum_init_accepts_overflow :
  let setup :=
    x0 <- make_int_var (Some 2147483646) (Some 2147483646) None None ;;
    x1 <- make_int_var (Some 2147483646) (Some 2147483646) None None ;;
    y <- make_int_var (Some 0) (Some 1) None None ;;
    ret (x0, x1, y) in
  let w := snd (setup (make_solver false)) in
  let x := [IntVarImpl 0; IntVarImpl 1] in
  fst (setup (make_solver false)) = Ret (IntVarImpl 0, IntVarImpl 1, IntVarImpl 2) /\
  bound_sum_overflows x w = true /\
  fst (Sum_init x None (Some 5) w) = Ret 0%nat /\
  fst (Sum_init x (Some (IntVarImpl 2)) None w) = Ret 0%nat /\
  fst (sum_var no_filter 10 x w) = Raise OverflowError.
Proof. by vm_compute. Qed.

Lemma lookup_snoc_length {A} (l : list A) (a : A) :
  (l ++ [a]) !! length l = Some a.
Proof. by rewrite list_lookup_middle. Qed.

(** C4, amended.  Constructing a [Sum] constraint makes no check on the
    sums of the bounds.  The constructor rejects an empty [x]
    ([IndexError]), a call that gives both or neither of [y] and [v]
    ([ValueError]) and a constant [v] whose opposite is not a legal
    domain bound ([ValueError]); every other call returns the new
    constraint, whatever the domains.  The check that the sums of the
    bounds fit in the 32-bit signed range is made by [sum_var], which
    raises [OverflowError] before it creates anything. *)
Theorem sum_init_outcome (user_filter : nat -> M World unit) (fp_fuel : nat)
    (w : World) (x : list IntVar) (y : option IntVar) (v : option Z) :
  fst (Sum_init x y v w) =
    match x with
    | [] => Raise IndexError
    | _ :: _ =>
        match y, v with
        | Some _, None => Ret (length (constraints w))
        | None, Some v =>
            if (- v =? MIN_VALUE) || (- v =? MAX_VALUE)
            then Raise ValueError
            else Ret (length (constraints w))
        | _, _ => Raise ValueError
        end
    end /\
  match sum_var_bounds x w with
  | (Ret (smin, smax), w') =>
      if (smin <? MIN_VALUE) || (smax >? MAX_VALUE)
      then sum_var user_filter fp_fuel x w = (Raise OverflowError, w')
      else True
  | _ => True
  end.
Proof.
  split.
  - destruct x as [|x0 x]; [reflexivity|].
    unfold Sum_init, bind. simpl.
    unfold new_constraint, bind, lift_sm. simpl.
    destruct y as [y|], v as [v|]; simpl.
    + destruct (_sm w); reflexivity.
    + destruct (_sm w) as [t|c]; simpl; unfold set_sum_fields, bind, constraint;
        simpl; rewrite lookup_snoc_length; reflexivity.
    + unfold make_int_var, IntVarImpl_init, bind. simpl.
      destruct (_sm w) as [t|c]; simpl;
        (destruct (- v =? MIN_VALUE); [reflexivity|]);
        (destruct (- v =? MAX_VALUE); [reflexivity|]); simpl;
        rewrite Z.gtb_ltb, Z.ltb_irrefl; simpl;
        unfold set_sum_fields, bind, constraint; simpl;
        rewrite lookup_snoc_length; reflexivity.
    + destruct (_sm w); reflexivity.
  - destruct (sum_var_bounds x w) as [[[smin smax]|e|] w'] eqn:E; try done.
    destruct ((smin <? MIN_VALUE) || (smax >? MAX_VALUE)) eqn:Ho; [|done].
    unfold sum_var, bind. by rewrite E, Ho.
Qed.

(* ================================================================== *)
(** ** [IsLessOrEqual] (C7) *)

(** C7 at failing inputs, for either strategy, with [x] over [-4..7] and
    [v = 3].  [IsLessOrEqual(b, x, 3)] does enforce the inequality, but
    it never deactivates itself, and neither do the closure constraints
    it registers; its sibling [IsEqual(b, x, 3)] deactivates itself in
    the same situations.
    - posted with [b] free, then [b] fixed to true and the fix-point
      run: [x.max()] is 3, the constraint and its two closure
      constraints are still active; [IsEqual] has fixed [x] to 3 and is
      inactive;
    - posted with [b] already true: [x.max()] is 3, the constraint is
      active; [IsEqual] is inactive;
    - posted with [b] already false: [x.min()] is 4, the constraint is
      active; [IsEqual] is inactive;
    - posted when [x.max() <= 3] already: [b] is fixed to true, the
      constraint is active. *)
Theorem is_less_or_equal_stays_active :
  forall by_copy,
    let fresh :=
      x <- make_int_var (Some (-4)) (Some 7) None None ;;
      b <- make_bool_var ;;
      ret (x, b) in
    let run {A} (m : M World A) := fst (m (make_solver by_copy)) in
    run (xb <- fresh ;;
         let '(x, b) := xb in
         c <- new_constraint (IsLessOrEqual b x 3) ;;
         post no_filter 100 c true ;;
         post_bool no_filter 100 b ;;
         mx <- Var.max x ;;
         a <- is_active c ;;
         a1 <- is_active (c + 1) ;;
         a2 <- is_active (c + 2) ;;
         ret (mx, a, a1, a2)) = Ret (3, true, true, true) /\
    run (xb <- fresh ;;
         let '(x, b) := xb in
         c <- new_constraint (IsEqual b x 3) ;;
         post no_filter 100 c true ;;
         post_bool no_filter 100 b ;;
         mn <- Var.min x ;;
         mx <- Var.max x ;;
         a <- is_active c ;;
         ret (mn, mx, a)) = Ret (3, 3, false) /\
    run (xb <- fresh ;;
         let '(x, b) := xb in
         Var.fix_bool b true ;;
         c <- new_constraint (IsLessOrEqual b x 3) ;;
         post no_filter 100 c true ;;
         mx <- Var.max x ;;
         a <- is_active c ;;
         ret (mx, a)) = Ret (3, true) /\
    run (xb <- fresh ;;
         let '(x, b) := xb in
         Var.fix_bool b true ;;
         c <- new_constraint (IsEqual b x 3) ;;
         post no_filter 100 c true ;;
         a <- is_active c ;;
         ret a) = Ret false /\
    run (xb <- fresh ;;
         let '(x, b) := xb in
         Var.fix_bool b false ;;
         c <- new_constraint (IsLessOrEqual b x 3) ;;
         post no_filter 100 c true ;;
         mn <- Var.min x ;;
         a <- is_active c ;;
         ret (mn, a)) = Ret (4, true) /\
    run (xb <- fresh ;;
         let '(x, b) := xb in
         Var.fix_bool b false ;;
         c <- new_constraint (IsEqual b x 3) ;;
         post no_filter 100 c true ;;
         a <- is_active c ;;
         ret a) = Ret false /\
    run (xb <- fresh ;;
         let '(x, b) := xb in
         Var.remove_above x 2 ;;
         c <- new_constraint (IsLessOrEqual b x 3) ;;
         post no_filter 100 c true ;;
         t <- Var.is_true b ;;
         a <- is_active c ;;
         ret (t, a)) = Ret (true, true).
Proof. intros [|]; by vm_compute. Qed.

(** Scenario S6 of the specification: [x] over [-4..7] and
    [b <=> x <= 3], enumerated with [first_fail]: 12 solutions, no
    failure. *)
Example is_less_or_equal_enumeration :
  forall by_copy,
    let setup :=
      x <- make_int_var (Some (-4)) (Some 7) None None ;;
      b <- is_less_or_equal no_filter 100 x 3 ;;
      ret [x; b] in
    match setup (make_solver by_copy) with
    | (Ret xs, cp) =>
        fst (solve no_callback no_listener (first_fail no_filter 100 xs)
               50 None (make_dfs cp))
        = Ret (mkStats 0 22 12 true)
    | _ => False
    end.
Proof. intros [|]; by vm_compute. Qed.

(* ================================================================== *)
(** ** [optimize_subject_to] (C9) *)

(** C9.  Whenever [optimize_subject_to] returns, it returns statistics
    with no node, no failure, no solution and [completed] false,
    whatever the closures, the branching, the objective, the limit and
    the state: the statistics of the nested [optimize] are bound to a
    variable of the inner function and dropped.  And it does return them
    when the nested search runs and finds solutions: in scenario S3 of
    the specification, with [y] over [10..20] to maximize, [optimize]
    reports 11 solutions, while [optimize_subject_to] runs the same
    search (the bound of the objective, which is not reversible, ends at
    -21, below the opposite of the best value 20) and reports none. *)
Theorem optimize_subject_to_statistics
    (user_callback : nat -> M World unit)
    (user_listener : nat -> DFSEvent -> M World unit)
    (branching : M World (list (M World unit))) (fuel : nat) (obj : nat)
    (limit : SearchStatistics -> M World bool) (subject_to : M World unit)
    (s : Search) (by_copy : bool) :
  match fst (optimize_subject_to user_callback user_listener branching fuel
               obj limit subject_to s) with
  | Ret st =>
      number_of_nodes st = 0 /\ number_of_failures st = 0 /\
      number_of_solutions st = 0 /\ is_completed st = false
  | _ => True
  end /\
  let setup :=
    y <- make_int_var (Some 10) (Some 20) None None ;;
    obj <- maximize y ;;
    ret (y, obj) in
  match setup (make_solver by_copy) with
  | (Ret (y, obj), cp) =>
      let branching := first_fail no_filter 100 [y] in
      fst (optimize no_callback no_listener branching 50 obj None
             (make_dfs cp))
      = Ret (mkStats 0 20 11 true) /\
      let r := optimize_subject_to no_callback no_listener branching 50 obj
                 (fun _ => ret false) (ret tt) (make_dfs cp) in
      fst r = Ret (mkStats 0 0 0 false) /\
      _bound <$> objectives (world (snd r)) = [-21] /\
      get_level (_sm (world (snd r))) = -1
  | _ => False
  end.
Proof.
  split.
  - unfold optimize_subject_to, bind.
    by destruct (with_new_state _ s) as [[[]|e|] s'].
  - destruct by_copy; by vm_compute.
Qed.

(* ================================================================== *)
(** ** The depth-first search (C8) *)

(** Scenario S2 with the branching of [test_dfs], for either strategy,
    any positive fuel for the fix-point and any fuel of at least 4 for
    the search. *)
Lemma test_dfs_statistics (by_copy : bool) (fp_fuel k : nat)
    (user_filter user_callback : nat -> M World unit)
    (user_listener : nat -> DFSEvent -> M World unit) :
  match make_int_var_array 3 (Some 2) None None (make_solver by_copy) with
  | (Ret values, cp) =>
      let r := solve user_callback user_listener
                 (test_dfs_callback user_filter (S fp_fuel) values)
                 (4 + k) None (make_dfs cp) in
      fst r = Ret (mkStats 0 14 8 true) /\
      get_level (_sm (world (snd r))) = -1
  | _ => False
  end.
Proof. destruct by_copy; by vm_compute. Qed.

(** The search depends on its branching through the values it returns
    only. *)
Lemma bind_ext {S A B} (m m' : M S A) (k k' : A -> M S B) s :
  m s = m' s -> (forall a s1, k a s1 = k' a s1) -> bind m k s = bind m' k' s.
Proof.
  intros Hm Hk. unfold bind. rewrite Hm.
  by destruct (m' s) as [[a|e|] s1].
Qed.

Lemma for_each_ext {S A} (l : list A) (body body' : A -> M S unit) :
  (forall x s, body x s = body' x s) ->
  forall s, for_each l body s = for_each l body' s.
Proof.
  intros H. induction l as [|x l IH]; intros s; simpl; [done|].
  apply bind_ext; [by apply H|]. intros _ s1. by apply IH.
Qed.

Lemma try_except_ext {S A} (m m' : M S A) e (h h' : M S A) s :
  m s = m' s -> (forall s1, h s1 = h' s1) ->
  try_except m e h s = try_except m' e h' s.
Proof.
  intros Hm Hh. unfold try_except. rewrite Hm.
  destruct (m' s) as [[a|e'|] s1]; try done.
  by destruct (decide (e' = e)).
Qed.

Lemma with_new_state_ext {S} `{HasManager S} (body body' : M S unit) :
  (forall s, body s = body' s) ->
  forall s, with_new_state body s = with_new_state body' s.
Proof.
  intros Hb s. unfold with_new_state.
  apply bind_ext; [done|]. intros level s1.
  apply bind_ext; [done|]. intros _ s2.
  apply bind_ext; [by apply Hb|]. done.
Qed.

Section SearchExt.

Variable user_callback : nat -> M World unit.
Variable user_listener : nat -> DFSEvent -> M World unit.
Variables B B' : M World (list (M World unit)).
Hypothesis HB : forall w, B w = B' w.

Lemma dfs_ext : forall fuel limit p pos r,
  dfs user_callback user_listener B fuel limit p pos r =
  dfs user_callback user_listener B' fuel limit p pos r.
Proof.
  induction fuel as [|fuel IH]; intros limit p pos r; [done|].
  cbn [dfs].
  apply bind_ext; [done|]. intros statistics s1.
  apply bind_ext; [done|]. intros stop s2.
  destruct stop; [done|].
  apply bind_ext.
  { unfold in_search, in_world, zoom. simpl. by rewrite HB. }
  intros branches s3.
  apply bind_ext; [done|]. intros node_id s4.
  apply bind_ext; [done|]. intros _ s5.
  destruct (Z.of_nat (length branches) =? 0); [done|].
  apply bind_ext; [done|]. intros _ s6.
  apply for_each_ext. intros pb s7.
  apply with_new_state_ext. intros s8.
  apply try_except_ext; [|done].
  apply bind_ext; [done|]. intros _ s9.
  apply bind_ext; [done|]. intros _ s10.
  apply IH.
Qed.

Lemma solve_ext fuel limit s :
  solve user_callback user_listener B fuel limit s =
  solve user_callback user_listener B' fuel limit s.
Proof.
  assert (H : forall lim r,
             solve_on user_callback user_listener B fuel lim r =
             solve_on user_callback user_listener B' fuel lim r).
  { intros lim r. unfold solve_on.
    apply bind_ext; [done|]. intros _ s1.
    apply with_new_state_ext. intros s2.
    apply try_except_ext; [|done].
    apply bind_ext; [by apply dfs_ext|done]. }
  unfold solve, returning_statistics. destruct limit as [lim|]; by rewrite H.
Qed.

End SearchExt.

Lemma fold_pattern_length (values : list IntVar) : forall acc w pat w',
  fold_m values acc
    (fun pat x => s <- Var.size x ;; ret (pat ++ [s >? 1])) w = (Ret pat, w') ->
  length pat = (length acc + length values)%nat.
Proof.
  induction values as [|x values IH]; intros acc w pat w' H; simpl in H.
  - injection H as <- <-. simpl. lia.
  - apply bind_ret_inv in H as [(a & s1 & H1 & H2)|[(e & _ & ?)|[_ ?]]];
      [|done|done].
    apply bind_ret_inv in H1 as [(sz & s2 & _ & H1)|[(e & _ & ?)|[_ ?]]];
      [|done|done].
    injection H1 as <- <-. apply IH in H2. rewrite length_app in H2.
    simpl in *. lia.
Qed.

Lemma pick_branching_ext user_filter fp_fuel (pick pick' : list bool -> nat)
    (values : list IntVar) :
  (forall pat, length pat = length values -> pick pat = pick' pat) ->
  forall w, pick_branching user_filter fp_fuel pick values w =
            pick_branching user_filter fp_fuel pick' values w.
Proof.
  intros H w. unfold pick_branching, bind.
  destruct (unfixed_pattern values w) as [[pat|e|] w'] eqn:E; try done.
  destruct (forallb negb pat); [done|].
  rewrite H; [done|]. by apply fold_pattern_length in E.
Qed.

Lemma table_pick_tabulate (pick : list bool -> nat) (pat : list bool) :
  length pat = 3%nat -> table_pick (tabulate pick) pat = pick pat.
Proof.
  destruct pat as [|b0 [|b1 [|b2 [|b3 pat]]]]; try done. intros _.
  by destruct b0, b1, b2.
Qed.

(** C8.  For either strategy, three variables over [{0, 1}] and a
    branching that, at each node, picks by the pattern of unfixed
    variables some unfixed variable and returns the alternatives
    [fix(0)] and [fix(1)] (the empty list when all are fixed):
    [solve()] with no limit returns (any fuel of at least 4 suffices for
    the recursion, any positive fuel for the fix-points) with 8
    solutions, no failure, 14 nodes and [completed] true, at the level
    it started from. *)
Theorem dfs_three_binary_variables (by_copy : bool) (fp_fuel k : nat)
    (user_filter user_callback : nat -> M World unit)
    (user_listener : nat -> DFSEvent -> M World unit)
    (pick : list bool -> nat) :
  (forall pat, (exists i, pat !! i = Some true) -> pat !! pick pat = Some true) ->
  match make_int_var_array 3 (Some 2) None None (make_solver by_copy) with
  | (Ret values, cp) =>
      let r := solve user_callback user_listener
                 (pick_branching user_filter (S fp_fuel) pick values)
                 (4 + k) None (make_dfs cp) in
      fst r = Ret (mkStats 0 14 8 true) /\
      get_level (_sm (world (snd r))) = -1
  | _ => False
  end.
Proof.
  intros Hpick.
  destruct (make_int_var_array 3 (Some 2) None None (make_solver by_copy))
    as [o cp] eqn:E.
  destruct by_copy; vm_compute in E; injection E as <- <-; cbv zeta;
    (rewrite (solve_ext user_callback user_listener _ _
                (pick_branching_ext user_filter (S fp_fuel) pick
                   (table_pick (tabulate pick))
                   [IntVarImpl 0; IntVarImpl 1; IntVarImpl 2]
                   (fun pat H => eq_sym (table_pick_tabulate pick pat H))));
     unfold tabulate, patterns3; cbn [fmap list_fmap];
     generalize (pick [false; false; false]); intros n0;
     repeat match goal with
       | |- context [pick ?pat] =>
           let H := fresh "H" in
           assert (H : pat !! pick pat = Some true)
             by (apply Hpick;
                 first [by exists 0%nat | by exists 1%nat | by exists 2%nat]);
           destruct (pick pat) as [|[|[|?]]]; simpl in H; try discriminate H;
           clear H
       end;
     by vm_compute).
Qed.

Lemma first_unfixed_picks (pat : list bool) :
  (exists i, pat !! i = Some true) -> pat !! first_unfixed pat = Some true.
Proof.
  induction pat as [|b pat IH]; intros [i Hi]; [done|].
  destruct b; [done|]. simpl. apply IH.
  destruct i as [|i]; [done|]. by exists i.
Qed.

Lemma dfs_three_binary_variables_witness :
  match make_int_var_array 3 (Some 2) None None (make_solver false) with
  | (Ret values, cp) =>
      let r := solve no_callback no_listener
                 (pick_branching no_filter 10 first_unfixed values)
                 (4 + 0) None (make_dfs cp) in
      fst r = Ret (mkStats 0 14 8 true) /\
      get_level (_sm (world (snd r))) = -1
  | _ => False
  end.
Proof.
  exact (dfs_three_binary_variables false 9 0 no_filter no_callback no_listener
           first_unfixed first_unfixed_picks).
Defined.

(* ================================================================== *)
(** ** The fix-point (C3) *)

(** *** Methods that keep the invariant *)

Lemma same_schedule_inv w w' :
  same_schedule w w' -> scheduled_in_queue w -> scheduled_in_queue w'.
Proof.
  intros [Hq Hs] [Hnd Hiff]. split; rewrite Hq; [done|].
  intros c. rewrite Hiff. 
  assert (H : _scheduled <$> constraints w' !! c = _scheduled <$> constraints w !! c)
    by (by rewrite <- !list_lookup_fmap, Hs).
  split; intros (k & Hk & Hsch).
  - rewrite Hk in H. simpl in H.
    destruct (constraints w' !! c) as [k'|]; [|done].
    exists k'. split; [done|]. simpl in H. congruence.
  - rewrite Hk in H. simpl in H.
    destruct (constraints w !! c) as [k'|]; [|done].
    exists k'. split; [done|]. simpl in H. congruence.
Qed.

Lemma keeps_same {A} (m : M World A) :
  (forall w o w', m w = (o, w') -> same_schedule w w') -> keeps m.
Proof. intros H w o w' Hinv E. eapply same_schedule_inv; eauto. Qed.

Lemma keeps_ret {A} (a : A) : keeps (ret a).
Proof. intros w o w' H [= <- <-]. done. Qed.

Lemma keeps_raise {A} e : keeps (raise e : M World A).
Proof. intros w o w' H [= <- <-]. done. Qed.

Lemma keeps_out_of_fuel {A} : keeps (out_of_fuel : M World A).
Proof. intros w o w' H [= <- <-]. done. Qed.

Lemma keeps_gets {A} (f : World -> A) : keeps (gets f).
Proof. intros w o w' H [= <- <-]. done. Qed.

Lemma keeps_bind {A B} (m : M World A) (k : A -> M World B) :
  keeps m -> (forall a, keeps (k a)) -> keeps (bind m k).
Proof.
  intros Hm Hk w o w' Hinv E.
  apply bind_ret_inv in E as [(a & w1 & E1 & E2)|[(e & E1 & _)|[E1 _]]].
  - eapply Hk; [|exact E2]. eapply Hm; eauto.
  - eapply Hm; eauto.
  - eapply Hm; eauto.
Qed.

Lemma keeps_try_except {A} (m : M World A) e (h : M World A) :
  keeps m -> keeps h -> keeps (try_except m e h).
Proof.
  intros Hm Hh w o w' Hinv E. unfold try_except in E.
  destruct (m w) as [o1 w1] eqn:E1.
  assert (scheduled_in_queue w1) by (eapply Hm; eauto).
  destruct o1 as [a|e1|]; try (by injection E as <- <-).
  destruct (decide (e1 = e)); [by eapply Hh; eauto|by injection E as <- <-].
Qed.

Lemma keeps_for_each {A} (l : list A) (body : A -> M World unit) :
  (forall x, keeps (body x)) -> keeps (for_each l body).
Proof.
  intros H. induction l as [|x l IH]; simpl; [apply keeps_ret|].
  apply keeps_bind; [apply H|]. intros _. exact IH.
Qed.

Lemma keeps_fold_m {A B} (l : list A) (body : B -> A -> M World B) :
  (forall acc x, keeps (body acc x)) -> forall acc, keeps (fold_m l acc body).
Proof.
  intros H. induction l as [|x l IH]; intros acc; simpl; [apply keeps_ret|].
  apply keeps_bind; [apply H|]. intros acc'. apply IH.
Qed.

Lemma keeps_when (b : bool) (m : M World unit) : keeps m -> keeps (when_ b m).
Proof. intros H. destruct b; [done|apply keeps_ret]. Qed.

(** Methods that do not touch the state at all. *)
Lemma keeps_pure {A} (m : M World A) : (forall w, snd (m w) = w) -> keeps m.
Proof. intros H w o w' Hinv E. specialize (H w). rewrite E in H. by subst. Qed.

Lemma pure_getitem {S A} (l : list A) i (s : S) : snd (getitem l i s) = s.
Proof.
  unfold getitem. destruct (_ && _); [|done]. by destruct (l !! _).
Qed.

Lemma pure_setitem {S A} (l : list A) i x (s : S) : snd (setitem l i x s) = s.
Proof. unfold setitem. by destruct (_ && _). Qed.

Lemma pure_the {S A} (o : option A) (s : S) : snd (the o s) = s.
Proof. by destruct o. Qed.

Lemma pure_bind {S A B} (m : M S A) (k : A -> M S B) (s : S) :
  (forall s, snd (m s) = s) -> (forall a s, snd (k a s) = s) ->
  snd (bind m k s) = s.
Proof.
  intros Hm Hk. unfold bind. specialize (Hm s).
  destruct (m s) as [[a|e|] s1]; simpl in *; subst; [apply Hk|done|done].
Qed.

Lemma pure_py_mod {S} a b (s : S) : snd (py_mod a b s) = s.
Proof. unfold py_mod. by destruct (b =? 0). Qed.

Lemma pure_int_of_float {S} f (s : S) : snd (int_of_float f s) = s.
Proof. by destruct f. Qed.

Lemma pure_truediv {S} a b (s : S) : snd (truediv a b s) = s.
Proof. unfold truediv. by destruct (b =? 0). Qed.

Lemma pure_int_truediv {S} a b (s : S) : snd (int_truediv a b s) = s.
Proof.
  apply pure_bind; [apply pure_truediv|]. intros. apply pure_int_of_float.
Qed.

Lemma pure_ceil_div {S} a b (s : S) : snd (ceil_div a b s) = s.
Proof.
  apply pure_bind; [apply pure_truediv|]. intros q s'.
  destruct (_ && _); apply pure_int_of_float.
Qed.

Lemma pure_floor_div {S} a b (s : S) : snd (floor_div a b s) = s.
Proof.
  apply pure_bind; [apply pure_truediv|]. intros q s'.
  destruct (_ && _); apply pure_int_of_float.
Qed.

Lemma pure_update_each {S} l g dest (s : S) : snd (update_each l g dest s) = s.
Proof.
  revert dest s. induction l as [|i l IH]; intros dest s; simpl; [done|].
  apply pure_bind; [intros; apply pure_getitem|]. intros x s1.
  apply pure_bind; [intros; apply pure_setitem|]. intros d s2. apply IH.
Qed.

(** Methods of the manager, of a domain and of a stack. *)
Lemma keeps_lift_sm {A} (m : M StateManager A) : keeps (lift_sm m).
Proof.
  apply keeps_same. intros w o w'. unfold lift_sm. simpl.
  destruct (m (_sm w)) as [o1 sm']. by intros [= <- <-].
Qed.

Lemma keeps_the_int_var id : keeps (int_var id).
Proof. apply keeps_pure. intros w. apply pure_the. Qed.

Lemma keeps_constraint c : keeps (constraint c).
Proof. apply keeps_pure. intros w. apply pure_the. Qed.

Lemma keeps_objective o : keeps (objective o).
Proof. apply keeps_pure. intros w. apply pure_the. Qed.

Lemma keeps_on_domain {A} id (m : M SparseSet.St A) : keeps (on_domain id m).
Proof.
  unfold on_domain. apply keeps_bind; [apply keeps_the_int_var|]. intros x.
  apply keeps_same. intros w o w'.
  destruct (m (_sm w, _domain x)) as [o1 [sm' d']]. by intros [= <- <-].
Qed.

Lemma keeps_on_stack {A} id e (m : M Stack.St A) : keeps (on_stack id e m).
Proof.
  unfold on_stack. apply keeps_bind; [apply keeps_the_int_var|]. intros x.
  apply keeps_same. intros w o w'.
  destruct (m (_sm w, stack_of e x)) as [o1 [sm' s']]. by intros [= <- <-].
Qed.

Lemma keeps_is_scheduled c : keeps (is_scheduled c).
Proof.
  apply keeps_bind; [apply keeps_constraint|]. intros; apply keeps_ret.
Qed.

Lemma keeps_is_active c : keeps (is_active c).
Proof.
  apply keeps_bind; [apply keeps_constraint|]. intros k.
  apply keeps_bind; [apply keeps_lift_sm|]. intros; apply keeps_ret.
Qed.

Lemma keeps_set_active c a : keeps (set_active c a).
Proof.
  apply keeps_bind; [apply keeps_constraint|]. intros k.
  apply keeps_bind; [apply keeps_lift_sm|]. intros; apply keeps_ret.
Qed.

Lemma fmap_scheduled_insert (cs : list Constraint) c k k' :
  cs !! c = Some k -> _scheduled k' = _scheduled k ->
  _scheduled <$> <[c := k']> cs = _scheduled <$> cs.
Proof.
  intros Hk Hs. rewrite list_fmap_insert, Hs.
  apply list_insert_id. by rewrite list_lookup_fmap, Hk.
Qed.

Lemma keeps_set_sum_fields c s : keeps (set_sum_fields c s).
Proof.
  apply keeps_same. intros w o w'. unfold set_sum_fields, bind, constraint.
  destruct (constraints w !! c) as [k|] eqn:Hk; simpl.
  - intros [= <- <-]. split; [done|]. simpl. by eapply fmap_scheduled_insert.
  - by intros [= <- <-].
Qed.

Lemma keeps_new_constraint k : keeps (new_constraint k).
Proof.
  unfold new_constraint. apply keeps_bind; [apply keeps_lift_sm|]. intros a.
  intros w o w' [Hnd Hiff] [= <- <-]. split; [done|]. simpl.
  intros c. rewrite Hiff. split; intros (k' & Hk' & Hs).
  - exists k'. split; [|done]. by apply lookup_app_l_Some.
  - apply lookup_app_Some in Hk' as [Hk'|[_ Hk']]; [by exists k'|].
    destruct (c - length (constraints w))%nat; simpl in Hk'; [|done].
    injection Hk' as <-. done.
Qed.

Lemma keeps_on_fix_point f : keeps (on_fix_point f).
Proof. apply keeps_same. by intros w o w' [= <- <-]. Qed.

(** [schedule] puts in the queue a constraint that is active and not
    yet scheduled, and no other. *)
Lemma schedule_run c w :
  schedule c w =
  match constraints w !! c with
  | None => (Raise ReferenceError, w)
  | Some k =>
      if negb (value (_active k) (_sm w) =? 0) && negb (_scheduled k)
      then (Ret tt,
            with_queue (_propagation_queue w ++ [c])
              (with_constraints
                 (<[c := mkConstraint (class k) (_active k) true]>
                    (constraints w)) w))
      else (Ret tt, w)
  end.
Proof.
  unfold schedule, is_active, is_scheduled, set_scheduled, bind, constraint,
    lift_sm, gets, modify, ret.
  destruct (constraints w !! c) as [k|] eqn:Hk; simpl; [|done].
  destruct w as [sm vs q ls ivs cs os]; simpl in *. rewrite Hk. simpl.
  destruct (negb (value (_active k) sm =? 0) && negb (_scheduled k)); simpl;
    [|done].
  by rewrite Hk.
Qed.

Lemma keeps_schedule c : keeps (schedule c).
Proof.
  intros w o w' [Hnd Hiff] E. rewrite schedule_run in E.
  destruct (constraints w !! c) as [k|] eqn:Hk; [|by injection E as <- <-].
  destruct (negb (value (_active k) (_sm w) =? 0)); simpl in E;
    [|by injection E as <- <-].
  destruct (_scheduled k) eqn:Hs; simpl in E; injection E as <- <-; [done|].
  assert (Hc : c ∉ _propagation_queue w).
  { rewrite Hiff. intros (k' & Hk' & Hs'). congruence. }
  split; simpl.
  - apply NoDup_app. split; [done|]. split; [|apply NoDup_singleton].
    intros x Hx ->%list_elem_of_singleton. done.
  - intros c'. rewrite elem_of_app, list_elem_of_singleton, Hiff.
    destruct (decide (c' = c)) as [->|Hne].
    + split; [intros _|by right].
      exists (mkConstraint (class k) (_active k) true). split; [|done].
      apply list_lookup_insert_eq. by eapply lookup_lt_Some.
    + rewrite list_lookup_insert_ne by done. split; [intros [?|?]|by left]; done.
Qed.

Lemma keeps_schedule_all id e : keeps (schedule_all id e).
Proof.
  apply keeps_bind; [apply keeps_on_stack|]. intros n.
  apply keeps_for_each. intros i.
  apply keeps_bind; [apply keeps_on_stack|]. intros c. apply keeps_schedule.
Qed.

Create HintDb keeps.

#[local] Hint Resolve keeps_ret keeps_raise keeps_out_of_fuel keeps_gets
  keeps_lift_sm keeps_the_int_var keeps_constraint keeps_objective
  keeps_on_domain keeps_on_stack keeps_is_scheduled keeps_is_active
  keeps_set_active keeps_set_sum_fields keeps_new_constraint
  keeps_on_fix_point keeps_schedule keeps_schedule_all : keeps.

Ltac keeps_step :=
  lazymatch goal with
  | |- keeps (bind _ _) => apply keeps_bind; [|intros ?]
  | |- keeps (when_ _ _) => apply keeps_when
  | |- keeps (for_each _ _) => apply keeps_for_each; intros ?
  | |- keeps (fold_m _ _ _) => apply keeps_fold_m; intros ? ?
  | |- keeps (try_except _ _ _) => apply keeps_try_except
  | |- keeps (if ?b then _ else _) => destruct b
  | |- keeps (let '(_, _) := ?x in _) => destruct x
  | |- keeps (getitem _ _) => apply keeps_pure; intros; apply pure_getitem
  | |- keeps (setitem _ _ _) => apply keeps_pure; intros; apply pure_setitem
  | |- keeps (py_mod _ _) => apply keeps_pure; intros; apply pure_py_mod
  | |- keeps (int_truediv _ _) =>
      apply keeps_pure; intros; apply pure_int_truediv
  | |- keeps (ceil_div _ _) => apply keeps_pure; intros; apply pure_ceil_div
  | |- keeps (floor_div _ _) => apply keeps_pure; intros; apply pure_floor_div
  | |- keeps (update_each _ _ _) =>
      apply keeps_pure; intros; apply pure_update_each
  | |- keeps _ => solve [eauto with keeps]
  end.

Ltac keeps_auto := repeat keeps_step.

Lemma keeps_dom_listener id :
  let l := dom_listener id in
  keeps (empty_ l) /\ keeps (fix_ l) /\ keeps (change_ l) /\
  keeps (change_min_ l) /\ keeps (change_max_ l).
Proof. cbv zeta. simpl. repeat apply conj; keeps_auto. Qed.

Section DomainKeeps.

Variable id : nat.
Variable l : DomainListener.
Hypothesis Hempty : keeps (empty_ l).
Hypothesis Hfix : keeps (fix_ l).
Hypothesis Hchange : keeps (change_ l).
Hypothesis Hmin : keeps (change_min_ l).
Hypothesis Hmax : keeps (change_max_ l).

Lemma keeps_domain_remove v : keeps (Domain.remove id v l).
Proof. unfold Domain.remove, Domain.max, Domain.min. keeps_auto. Qed.

Lemma keeps_domain_remove_all_but v : keeps (Domain.remove_all_but id v l).
Proof. unfold Domain.remove_all_but, Domain.max, Domain.min. keeps_auto. Qed.

Lemma keeps_domain_remove_below v : keeps (Domain.remove_below id v l).
Proof. unfold Domain.remove_below. keeps_auto. Qed.

Lemma keeps_domain_remove_above v : keeps (Domain.remove_above id v l).
Proof. unfold Domain.remove_above. keeps_auto. Qed.

End DomainKeeps.

(** *** The methods of a variable *)

Ltac keeps_domain id :=
  destruct (keeps_dom_listener id) as (? & ? & ? & ? & ?);
  first [ by apply keeps_domain_remove
        | by apply keeps_domain_remove_all_but
        | by apply keeps_domain_remove_below
        | by apply keeps_domain_remove_above ].

Lemma keeps_var_size x : keeps (Var.size x).
Proof. induction x; simpl; try done. unfold Domain.size. keeps_auto. Qed.

Lemma keeps_var_is_fixed x : keeps (Var.is_fixed x).
Proof.
  induction x; simpl; try done. unfold Domain.is_singleton. keeps_auto.
Qed.

Lemma keeps_var_min_max x : keeps (Var.min x) /\ keeps (Var.max x).
Proof.
  induction x as [id|x [IH1 IH2] a|x [IH1 IH2] o|x [IH1 IH2]|x [IH1 IH2]];
    simpl; split; try done; unfold Domain.min, Domain.max; keeps_auto.
Qed.

Lemma keeps_var_min x : keeps (Var.min x).
Proof. apply keeps_var_min_max. Qed.

Lemma keeps_var_max x : keeps (Var.max x).
Proof. apply keeps_var_min_max. Qed.

Lemma keeps_var_contains x v : keeps (Var.contains x v).
Proof.
  revert v. induction x; intros v; simpl; try done;
    unfold Domain.contains; keeps_auto.
Qed.

Lemma keeps_var_fill_array x dest : keeps (Var.fill_array x dest).
Proof.
  revert dest. induction x; intros dest; simpl; try done;
    unfold Domain.fill_array; keeps_auto.
Qed.

Lemma keeps_var_remove x v : keeps (Var.remove x v).
Proof.
  revert v. induction x as [id| | | |]; intros v; simpl; try done;
    [keeps_domain id|keeps_auto].
Qed.

Lemma keeps_var_fix x v : keeps (Var.fix_ x v).
Proof.
  revert v. induction x as [id| | | |]; intros v; simpl; try done;
    [keeps_domain id|keeps_auto|keeps_auto].
Qed.

Lemma keeps_var_fix_v x v : keeps (Var.fix_v x v).
Proof. destruct x; apply keeps_var_fix. Qed.

Lemma keeps_var_fix_bool x b : keeps (Var.fix_bool x b).
Proof. apply keeps_var_fix. Qed.

Lemma keeps_var_remove_below_above x :
  (forall v, keeps (Var.remove_below x v)) /\
  (forall v, keeps (Var.remove_above x v)).
Proof.
  induction x as [id|x [IH1 IH2] a|x [IH1 IH2] o|x [IH1 IH2]|x [IH1 IH2]];
    simpl; split; intros v; try done; try keeps_domain id; keeps_auto.
Qed.

Lemma keeps_var_remove_below x v : keeps (Var.remove_below x v).
Proof. apply keeps_var_remove_below_above. Qed.

Lemma keeps_var_remove_above x v : keeps (Var.remove_above x v).
Proof. apply keeps_var_remove_below_above. Qed.

Lemma keeps_var_propagate_on e x c : keeps (Var.propagate_on e x c).
Proof. induction x; simpl; try done. keeps_auto. Qed.

Lemma keeps_var_when_on e x f : keeps (Var.when_on e x f).
Proof.
  induction x; simpl; try done. unfold constraint_closure. keeps_auto.
Qed.

Lemma keeps_var_is_true b : keeps (Var.is_true b).
Proof.
  apply keeps_bind; [apply keeps_var_min|]. intros; apply keeps_ret.
Qed.

Lemma keeps_var_is_false b : keeps (Var.is_false b).
Proof.
  apply keeps_bind; [apply keeps_var_max|]. intros; apply keeps_ret.
Qed.

#[local] Hint Resolve keeps_var_size keeps_var_is_fixed keeps_var_min
  keeps_var_max keeps_var_contains keeps_var_fill_array keeps_var_remove
  keeps_var_fix keeps_var_fix_v keeps_var_fix_bool keeps_var_remove_below
  keeps_var_remove_above keeps_var_propagate_on keeps_var_when_on
  keeps_var_is_true keeps_var_is_false : keeps.

Lemma keeps_sum_fields c : keeps (sum_fields c).
Proof. unfold sum_fields. keeps_step; [keeps_auto|]. destruct (class _); keeps_auto. Qed.

#[local] Hint Resolve keeps_sum_fields : keeps.

(** *** The solver *)

Section FixPoint.

Variable user_filter : nat -> M World unit.
Variable fp_fuel : nat.
Hypothesis user_filter_keeps : forall n, keeps (user_filter n).

Lemma keeps_call_filter f : keeps (call_filter user_filter f).
Proof. destruct f; simpl; keeps_auto. Qed.

Lemma keeps_IsEqual_propagate c b x v : keeps (IsEqual_propagate c b x v).
Proof. unfold IsEqual_propagate. keeps_auto. Qed.

Lemma keeps_Sum_propagate c : keeps (Sum_propagate c).
Proof.
  unfold Sum_propagate. keeps_step; [keeps_auto|]. keeps_step; [keeps_auto|].
  keeps_step; [keeps_auto|]. keeps_step.
  - keeps_step. destruct acc as [[nf smin] smax]. keeps_auto.
  - destruct a2 as [[nf smin] smax]. keeps_auto.
Qed.

Lemma keeps_propagate c : keeps (propagate user_filter c).
Proof.
  unfold propagate. keeps_step; [keeps_auto|].
  destruct (class _); auto using keeps_ret, keeps_call_filter,
    keeps_IsEqual_propagate, keeps_Sum_propagate.
Qed.

Lemma keeps_notify_fix_point : keeps (notify_fix_point user_filter).
Proof.
  unfold notify_fix_point. keeps_step; [keeps_auto|].
  apply keeps_for_each, keeps_call_filter.
Qed.

(** Taking the head of the queue and clearing its flag. *)
Lemma dequeue w c rest :
  scheduled_in_queue w -> _propagation_queue w = c :: rest ->
  exists w1,
    (modify (with_queue rest) ;; set_scheduled c false) w = (Ret tt, w1) /\
    scheduled_in_queue w1 /\ _propagation_queue w1 = rest /\
    _sm w1 = _sm w /\
    (exists k, constraints w !! c = Some k /\
               constraints w1 !! c
               = Some (mkConstraint (class k) (_active k) false)).
Proof.
  intros [Hnd Hiff] Hq.
  destruct (proj1 (Hiff c)) as (k & Hk & Hs); [rewrite Hq; left|].
  rewrite Hq in Hnd. apply NoDup_cons in Hnd as [Hc Hnd].
  exists (with_constraints
            (<[c := mkConstraint (class k) (_active k) false]> (constraints w))
            (with_queue rest w)).
  split; [|split; [|split; [done|split; [done|]]]].
  - unfold set_scheduled, constraint, bind, modify. simpl. by rewrite Hk.
  - split; simpl; [done|]. intros c'.
    destruct (decide (c' = c)) as [->|Hne].
    + split; [done|]. intros (k' & Hk' & Hs').
      rewrite list_lookup_insert_eq in Hk' by (by eapply lookup_lt_Some).
      by injection Hk' as <-.
    + rewrite list_lookup_insert_ne by done. rewrite <- Hiff, Hq.
      rewrite elem_of_cons. split; [by right|by intros [?|?]].
  - exists k. split; [done|]. simpl.
    apply list_lookup_insert_eq. by eapply lookup_lt_Some.
Qed.

Lemma fix_point_loop_spec n w o w' :
  scheduled_in_queue w ->
  fix_point_loop user_filter n w = (o, w') ->
  scheduled_in_queue w' /\ (o = Ret tt -> _propagation_queue w' = []).
Proof.
  revert w. induction n as [|n IH]; intros w Hinv E.
  - simpl in E. unfold bind, gets in E. simpl in E.
    destruct (_propagation_queue w) eqn:Hq; injection E as <- <-; done.
  - simpl in E. unfold bind at 1, gets at 1 in E. simpl in E.
    destruct (_propagation_queue w) as [|c rest] eqn:Hq;
      [by injection E as <- <-|].
    destruct (dequeue w c rest Hinv Hq) as (w1 & E1 & Hinv1 & _).
    unfold propagate_scheduled in E.
    unfold bind in E, E1. simpl in E, E1.
    destruct (set_scheduled c false (with_queue rest w)) as [o1 w1'] eqn:E2.
    destruct o1 as [[]| |]; try done. injection E1 as ->.
    fold (@bind World) in E.
    change (bind (bind (is_active c)
                    (fun a => if a then propagate user_filter c else ret tt))
                 (fun _ => fix_point_loop user_filter n) w1 = (o, w')) in E.
    apply bind_ret_inv in E as [(a & w2 & E3 & E4)|[(e & E3 & ->)|[E3 ->]]].
    + eapply IH; [|exact E4].
      eapply (keeps_bind (is_active c)); [apply keeps_is_active| |done|exact E3].
      intros []; [apply keeps_propagate|apply keeps_ret].
    + split; [|done].
      eapply (keeps_bind (is_active c)); [apply keeps_is_active| |done|exact E3].
      intros []; [apply keeps_propagate|apply keeps_ret].
    + split; [|done].
      eapply (keeps_bind (is_active c)); [apply keeps_is_active| |done|exact E3].
      intros []; [apply keeps_propagate|apply keeps_ret].
Qed.

Lemma drain_loop_spec n w :
  scheduled_in_queue w -> (length (_propagation_queue w) <= n)%nat ->
  exists w', drain_loop n w = (Ret tt, w') /\ scheduled_in_queue w' /\
             _propagation_queue w' = [] /\ _sm w' = _sm w.
Proof.
  revert w. induction n as [|n IH]; intros w Hinv Hlen.
  - destruct (_propagation_queue w) eqn:Hq; simpl in Hlen; [|lia].
    exists w. unfold drain_loop, bind, gets. simpl. by rewrite Hq.
  - destruct (_propagation_queue w) as [|c rest] eqn:Hq.
    + exists w. simpl. unfold bind, gets. simpl. by rewrite Hq.
    + destruct (dequeue w c rest Hinv Hq) as (w1 & E1 & Hinv1 & Hq1 & Hsm & _).
      destruct (IH w1 Hinv1) as (w' & E & Hinv' & Hq' & Hsm');
        [rewrite Hq1; simpl in Hlen; lia|].
      exists w'. split; [|by rewrite Hsm', Hsm].
      simpl. unfold bind at 1, gets at 1. simpl. rewrite Hq.
      unfold bind in E1 |- *. simpl in E1 |- *.
      destruct (set_scheduled c false (with_queue rest w)) as [o1 w1'].
      destruct o1 as [[]| |]; try done. by injection E1 as ->.
Qed.

Lemma drain_spec w :
  scheduled_in_queue w ->
  exists w', drain w = (Ret tt, w') /\ scheduled_in_queue w' /\
             _propagation_queue w' = [] /\ _sm w' = _sm w.
Proof.
  intros Hinv. unfold drain, bind, gets. simpl. by apply drain_loop_spec.
Qed.

Lemma empty_queue_none_scheduled w :
  scheduled_in_queue w -> _propagation_queue w = [] -> none_scheduled w.
Proof.
  intros [_ Hiff] Hq c k Hk. destruct (_scheduled k) eqn:Hs; [|done].
  assert (Hc : c ∈ _propagation_queue w) by (apply Hiff; eauto).
  rewrite Hq in Hc. by apply elem_of_nil in Hc.
Qed.

Lemma keeps_fix_point_body : keeps (fix_point_body user_filter fp_fuel).
Proof.
  apply keeps_bind; [apply keeps_notify_fix_point|]. intros _.
  intros w o w' Hinv E. by destruct (fix_point_loop_spec _ _ _ _ Hinv E).
Qed.

Lemma fix_point_spec w o w' :
  scheduled_in_queue w ->
  fix_point user_filter fp_fuel w = (o, w') ->
  scheduled_in_queue w' /\
  (o = Ret tt \/ o = Raise InconsistencyException ->
   _propagation_queue w' = [] /\ none_scheduled w') /\
  (forall w1, fix_point_body user_filter fp_fuel w
              = (Raise InconsistencyException, w1) ->
              o = Raise InconsistencyException /\ _sm w' = _sm w1).
Proof.
  intros Hinv E. unfold fix_point, try_except in E.
  destruct (fix_point_body user_filter fp_fuel w) as [o1 w1] eqn:E1.
  assert (Hinv1 : scheduled_in_queue w1) by (by eapply keeps_fix_point_body).
  destruct o1 as [[]|e|].
  - injection E as <- <-. split; [done|]. split; [|done]. intros _.
    unfold fix_point_body in E1.
    apply bind_ret_inv in E1 as [(a & w2 & E2 & E3)|[(e & _ & ?)|[_ ?]]];
      try done.
    assert (Hinv2 : scheduled_in_queue w2)
      by (eapply keeps_notify_fix_point; [exact Hinv|exact E2]).
    destruct (fix_point_loop_spec _ _ _ _ Hinv2 E3) as [_ Hq].
    split; [by apply Hq|]. apply empty_queue_none_scheduled; [done|by apply Hq].
  - destruct (decide (e = InconsistencyException)) as [->|Hne].
    + destruct (drain_spec w1 Hinv1) as (w2 & E2 & Hinv2 & Hq2 & Hsm2).
      unfold bind in E. rewrite E2 in E. injection E as <- <-.
      split; [done|]. split.
      * intros _. split; [done|]. by apply empty_queue_none_scheduled.
      * by intros ? [= <-].
    + injection E as <- <-. split; [done|]. split.
      * intros [?|[= ?]]; done.
      * intros ? [= ? ?]. done.
  - injection E as <- <-. split; [done|]. split; [|done].
    by intros [?|?].
Qed.

End FixPoint.

(** *** Building a model *)

Lemma scheduled_in_queue_make_solver by_copy :
  scheduled_in_queue (make_solver by_copy).
Proof.
  unfold make_solver, MiniCP.
  destruct (Stack.init (new_manager by_copy)) as [[st|e|] sm']; simpl;
    (split; simpl; [apply NoDup_nil_2|]); intros c; split;
    try (by intros ?%elem_of_nil); by intros (k & ? & _).
Qed.

Lemma keeps_IntVarImpl_init mn mx n values :
  keeps (IntVarImpl_init mn mx n values).
Proof.
  unfold IntVarImpl_init. keeps_step.
  - destruct values, n, mn, mx; keeps_auto.
  - do 2 keeps_step; [keeps_auto..|]. do 4 (keeps_step; [keeps_auto|]).
    apply keeps_same. by intros w o w' [= <- <-].
Qed.

Lemma keeps_make_int_var mn mx n values : keeps (make_int_var mn mx n values).
Proof.
  unfold make_int_var. keeps_step; [apply keeps_IntVarImpl_init|keeps_auto].
Qed.

Lemma keeps_two_scheduled : keeps two_scheduled.
Proof.
  unfold two_scheduled, Var.when_bound_change.
  keeps_step; [apply keeps_make_int_var|]. keeps_auto.
Qed.

Lemma scheduled_in_queue_two_scheduled by_copy :
  scheduled_in_queue (two_scheduled_world by_copy).
Proof.
  unfold two_scheduled_world.
  destruct (two_scheduled (make_solver by_copy)) as [o w] eqn:E.
  eapply keeps_two_scheduled; [apply scheduled_in_queue_make_solver|exact E].
Qed.

Lemma keeps_failing_filter n : keeps (failing_filter n).
Proof. destruct n; [apply keeps_raise|apply keeps_ret]. Qed.

Lemma keeps_post user_filter fp_fuel c enforce_fix_point :
  (forall n, keeps (user_filter n)) ->
  keeps (post user_filter fp_fuel c enforce_fix_point).
Proof.
  intros Huser. unfold post. keeps_step.
  - unfold post_constraint. keeps_step; [keeps_auto|].
    destruct (class _); unfold IsLessOrEqual_post, Var.propagate_on_fix,
      Var.propagate_on_domain_change, Var.propagate_on_bound_change,
      Var.when_fixed, Var.when_bound_change;
      keeps_auto; by apply keeps_propagate.
  - destruct enforce_fix_point; [|apply keeps_ret].
    intros w o w' Hinv E. by eapply fix_point_spec.
Qed.

Lemma keeps_value_error_filter n : keeps (value_error_filter n).
Proof. destruct n; [apply keeps_raise|apply keeps_ret]. Qed.

(** C3, as stated, fails in its last part: [fix_point] catches
    InconsistencyException only, so a propagation step that raises
    anything else leaves the constraints behind it in the queue, marked
    scheduled.  Under both strategies, with the two closures registered
    on the bounds of a variable both scheduled and the first one raising
    ValueError, [fix_point] raises ValueError, the second closure is
    still in the queue and still marked scheduled. *)
Lemma fix_point_other_exception_keeps_flags :
  (let w := two_scheduled_world false in
   let r := fix_point value_error_filter 5 w in
   (forall n, keeps (value_error_filter n)) /\ scheduled_in_queue w /\
   _propagation_queue w = [0; 1]%nat /\
   fst r = Raise ValueError /\
   _propagation_queue (snd r) = [1%nat] /\
   _scheduled <$> constraints (snd r) = [false; true] /\
   ~ none_scheduled (snd r)) /\
  (let w := two_scheduled_world true in
   let r := fix_point value_error_filter 5 w in
   (forall n, keeps (value_error_filter n)) /\ scheduled_in_queue w /\
   _propagation_queue w = [0; 1]%nat /\
   fst r = Raise ValueError /\
   _propagation_queue (snd r) = [1%nat] /\
   _scheduled <$> constraints (snd r) = [false; true] /\
   ~ none_scheduled (snd r)).
Proof.
  split; cbv zeta.
  all: split; [apply keeps_value_error_filter|].
  all: split; [apply scheduled_in_queue_two_scheduled|].
  all: do 4 (split; [by vm_compute|]).
  all: intros H.
  - assert (E : _scheduled <$> (constraints
                  (snd (fix_point value_error_filter 5
                          (two_scheduled_world false))) !! 1%nat)
                = Some true) by (by vm_compute).
    destruct (constraints _ !! 1%nat) as [k|] eqn:Ek; [|done].
    specialize (H 1%nat k Ek). simpl in E. congruence.
  - assert (E : _scheduled <$> (constraints
                  (snd (fix_point value_error_filter 5
                          (two_scheduled_world true))) !! 1%nat)
                = Some true) by (by vm_compute).
    destruct (constraints _ !! 1%nat) as [k|] eqn:Ek; [|done].
    specialize (H 1%nat k Ek). simpl in E. congruence.
Qed.

(** C3, amended.  Whatever the closures of the user are, as long as they
    keep the queue and the flags in step (every method of the library
    does): [schedule] enqueues a constraint exactly when it is active and
    not yet scheduled, and keeps the invariant that a constraint is
    marked scheduled exactly when it sits in the queue; [fix_point] keeps
    that invariant, however it ends; when a propagation step of
    [fix_point] raises InconsistencyException, [fix_point] raises it
    again; once [fix_point] has returned or raised
    InconsistencyException the queue is empty and no constraint is marked
    scheduled; and when a step raises any other exception, [fix_point]
    ends there: the exception leaves it with the solver as the step left
    it, nothing drained. *)
Theorem fix_point_leaves_none_scheduled
    (user_filter : nat -> M World unit) (fp_fuel : nat) (w : World) :
  (forall n, keeps (user_filter n)) ->
  scheduled_in_queue w ->
  let r := fix_point user_filter fp_fuel w in
  (forall c k,
      constraints w !! c = Some k ->
      scheduled_in_queue (snd (schedule c w)) /\
      _propagation_queue (snd (schedule c w))
      = if negb (value (_active k) (_sm w) =? 0) && negb (_scheduled k)
        then _propagation_queue w ++ [c]
        else _propagation_queue w) /\
  scheduled_in_queue (snd r) /\
  (fst (fix_point_body user_filter fp_fuel w) = Raise InconsistencyException ->
   fst r = Raise InconsistencyException) /\
  (fst r = Ret tt \/ fst r = Raise InconsistencyException ->
   _propagation_queue (snd r) = [] /\ none_scheduled (snd r)) /\
  (forall e, e <> InconsistencyException ->
     fst (fix_point_body user_filter fp_fuel w) = Raise e ->
     r = fix_point_body user_filter fp_fuel w).
Proof.
  intros Huser Hinv r. split.
  { intros c k Hk. split.
    - destruct (schedule c w) as [o w'] eqn:E. by eapply keeps_schedule.
    - rewrite schedule_run, Hk. by destruct (_ && _). }
  assert (Hother : forall e, e <> InconsistencyException ->
            fst (fix_point_body user_filter fp_fuel w) = Raise e ->
            r = fix_point_body user_filter fp_fuel w).
  { intros e He Hr. unfold r, fix_point, try_except.
    destruct (fix_point_body user_filter fp_fuel w) as [o1 w1].
    simpl in Hr. subst o1. by rewrite decide_False. }
  subst r. revert Hother.
  destruct (fix_point user_filter fp_fuel w) as [o w'] eqn:E.
  destruct (fix_point_spec user_filter fp_fuel Huser w o w' Hinv E)
    as (Hinv' & Hend & Hraise).
  intros Hother.
  simpl. split; [done|]. split; [|split; [done|done]].
  destruct (fix_point_body user_filter fp_fuel w) as [o1 w1] eqn:E1.
  simpl. intros ->. by destruct (Hraise w1 eq_refl).
Qed.

Lemma fix_point_leaves_none_scheduled_witness :
  let w := two_scheduled_world false in
  let r := fix_point failing_filter 5 w in
  _propagation_queue w = [0; 1]%nat /\
  fst r = Raise InconsistencyException /\
  _propagation_queue (snd r) = [] /\ none_scheduled (snd r).
Proof.
  intros w r.
  destruct (fix_point_leaves_none_scheduled failing_filter 5 w
              keeps_failing_filter (scheduled_in_queue_two_scheduled false))
    as (_ & _ & Hraise & Hend & _).
  split; [by vm_compute|].
  split; [apply Hraise; by vm_compute|].
  apply Hend. right. apply Hraise. by vm_compute.
Defined.

(** The two closures registered on the bounds of a variable are both
    scheduled when its minimum moves; the first one fails, and
    [fix_point] takes the second one out of the queue before it raises
    the exception again.  Without a failure both are propagated. *)
Example fix_point_drains_queue (by_copy : bool) :
  let w := two_scheduled_world by_copy in
  _propagation_queue w = [0; 1]%nat /\
  _scheduled <$> constraints w = [true; true] /\
  fst (fix_point failing_filter 5 w) = Raise InconsistencyException /\
  _propagation_queue (snd (fix_point failing_filter 5 w)) = [] /\
  _scheduled <$> constraints (snd (fix_point failing_filter 5 w))
  = [false; false] /\
  fst (fix_point no_filter 5 w) = Ret tt /\
  _propagation_queue (snd (fix_point no_filter 5 w)) = [] /\
  _scheduled <$> constraints (snd (fix_point no_filter 5 w)) = [false; false].
Proof. destruct by_copy; vm_compute; repeat split. Qed.

(* ================================================================== *)
(** ** More on the state managers *)

Lemma set_value_returns r x sm : fst (set_value r x sm) = Ret x.
Proof.
  destruct sm as [t|c]; simpl; [|done].
  unfold on_trailer, Trail.set_value.
  destruct (Trail.cells t !! r) as [c|]; [|done].
  destruct (decide (x <> Trail.v c)) as [?|Heq]; [done|].
  simpl. f_equal. destruct (decide (x = Trail.v c)); [done|]. by destruct Heq.
Qed.

Lemma set_value_run r x sm :
  wf sm ->
  exists sm', set_value r x sm = (Ret x, sm') /\ wf sm' /\
    snapshots sm' = snapshots sm /\
    cell_values sm' = <[r:=x]> (cell_values sm).
Proof.
  intros Hwf. destruct (set_value_spec r x sm Hwf) as (y & sm' & E & H).
  exists sm'. split; [|done].
  pose proof (set_value_returns r x sm) as Hr. rewrite E in Hr. simpl in Hr.
  by injection Hr as ->.
Qed.

Lemma same_view_sym sm1 sm2 : same_view sm1 sm2 -> same_view sm2 sm1.
Proof. intros (? & ? & ? & ?). by repeat split. Qed.

Lemma same_view_level sm1 sm2 :
  same_view sm1 sm2 -> get_level sm1 = get_level sm2.
Proof. intros (_ & _ & _ & Hs). by rewrite !get_level_snapshots, Hs. Qed.

Lemma same_view_value sm1 sm2 r :
  same_view sm1 sm2 -> value r sm1 = value r sm2.
Proof. intros (_ & _ & Hv & _). by rewrite !value_cell_values, Hv. Qed.

Lemma same_view_set_value r x sm1 sm2 :
  same_view sm1 sm2 ->
  fst (set_value r x sm1) = fst (set_value r x sm2) /\
  same_view (snd (set_value r x sm1)) (snd (set_value r x sm2)).
Proof.
  intros (Hwf1 & Hwf2 & Hv & Hs).
  destruct (set_value_run r x sm1 Hwf1) as (s1 & -> & ? & Hs1 & Hv1).
  destruct (set_value_run r x sm2 Hwf2) as (s2 & -> & ? & Hs2 & Hv2).
  simpl. split; [done|]. repeat split; try done; congruence.
Qed.

Lemma same_view_save_state sm1 sm2 :
  same_view sm1 sm2 ->
  fst (save_state sm1) = Ret tt /\ fst (save_state sm2) = Ret tt /\
  same_view (snd (save_state sm1)) (snd (save_state sm2)).
Proof.
  intros (Hwf1 & Hwf2 & Hv & Hs).
  destruct (save_state_spec sm1 Hwf1) as (s1 & -> & ? & Hs1 & Hv1).
  destruct (save_state_spec sm2 Hwf2) as (s2 & -> & ? & Hs2 & Hv2).
  simpl. do 2 (split; [done|]). repeat split; try done; congruence.
Qed.

Lemma same_view_restore_state sm1 sm2 :
  same_view sm1 sm2 -> snapshots sm1 <> [] ->
  fst (restore_state sm1) = Ret tt /\ fst (restore_state sm2) = Ret tt /\
  same_view (snd (restore_state sm1)) (snd (restore_state sm2)).
Proof.
  intros (Hwf1 & Hwf2 & Hv & Hs) Hne.
  destruct (snapshots sm1) as [|s ss] eqn:E1; [done|]. symmetry in Hs.
  destruct (restore_state_spec sm1 s ss Hwf1 E1) as (s1 & -> & ? & Hs1 & Hv1).
  destruct (restore_state_spec sm2 s ss Hwf2 Hs) as (s2 & -> & ? & Hs2 & Hv2).
  simpl. do 2 (split; [done|]). repeat split; try done; congruence.
Qed.

Lemma same_view_restore_state_until_loop n level : forall sm1 sm2,
  same_view sm1 sm2 -> -1 <= level ->
  fst (restore_state_until_loop n level sm1)
  = fst (restore_state_until_loop n level sm2) /\
  same_view (snd (restore_state_until_loop n level sm1))
            (snd (restore_state_until_loop n level sm2)).
Proof.
  induction n as [|n IH]; intros sm1 sm2 Hv Hl; simpl; [done|].
  unfold bind at 1 3 5 7, gets. simpl.
  rewrite <- (same_view_level _ _ Hv).
  destruct (get_level sm1 >? level) eqn:Hgt; [|done].
  assert (Hne : snapshots sm1 <> []).
  { intros E. rewrite get_level_snapshots, E, Z.gtb_ltb in Hgt.
    apply Z.ltb_lt in Hgt. simpl in Hgt. lia. }
  destruct (same_view_restore_state _ _ Hv Hne) as (E1 & E2 & Hv').
  unfold bind.
  destruct (restore_state sm1) as [o1 s1], (restore_state sm2) as [o2 s2].
  simpl in *. subst. by apply IH.
Qed.

Lemma same_view_restore_state_until level sm1 sm2 :
  same_view sm1 sm2 -> -1 <= level ->
  fst (restore_state_until level sm1) = fst (restore_state_until level sm2) /\
  same_view (snd (restore_state_until level sm1))
            (snd (restore_state_until level sm2)).
Proof.
  intros Hv Hl. unfold restore_state_until.
  rewrite <- (same_view_level _ _ Hv).
  by apply same_view_restore_state_until_loop.
Qed.

Lemma get_level_ge sm : -1 <= get_level sm.
Proof. rewrite get_level_snapshots. lia. Qed.

Lemma extends_nonempty sm sm' :
  extends sm sm' -> snapshots sm <> [] -> snapshots sm' <> [].
Proof.
  intros (extra & ss & E & HF) Hne Hnil. rewrite Hnil in E.
  symmetry in E. apply app_eq_nil in E as [_ ->].
  apply Forall2_nil_inv_r in HF. done.
Qed.

Lemma with_new_state_unfold (body : M StateManager unit) sm :
  with_new_state body sm =
  match save_state sm with
  | (Ret _, s1) =>
      match body s1 with
      | (Ret _, s2) => restore_state_until (get_level sm) s2
      | (Raise e, s2) => (Raise e, s2)
      | (OutOfFuel, s2) => (OutOfFuel, s2)
      end
  | (Raise e, s1) => (Raise e, s1)
  | (OutOfFuel, s1) => (OutOfFuel, s1)
  end.
Proof.
  unfold with_new_state, bind, lift_sm, gets. simpl.
  destruct (save_state sm) as [[[]|e|] s1]; try done.
  destruct (body s1) as [[[]|e|] s2]; try done.
  by destruct (restore_state_until (get_level sm) s2).
Qed.

(** Code that creates no cell cannot tell the strategies apart. *)
Lemma run_same_view p : creates_nothing p = true -> forall sm1 sm2,
  same_view sm1 sm2 ->
  fst (run p sm1) = fst (run p sm2) /\
  same_view (snd (run p sm1)) (snd (run p sm2)).
Proof.
  induction p as [|p IHp q IHq|r x|r|r|x|p IHp|p IHp|e|p IHp e h IHh];
    intros Hp sm1 sm2 Hv; simpl in Hp; try done; simpl.
  - apply andb_prop in Hp as [Hp Hq].
    destruct (IHp Hp _ _ Hv) as [Ho Hv1]. unfold bind.
    destruct (run p sm1) as [o1 s1], (run p sm2) as [o2 s2]. simpl in *.
    subst o2. destruct o1 as [[]|e|]; [by apply IHq|done|done].
  - destruct (same_view_set_value r x _ _ Hv) as [Ho Hv1]. unfold bind.
    pose proof (set_value_returns r x sm1) as R1.
    pose proof (set_value_returns r x sm2) as R2.
    destruct (set_value r x sm1) as [o1 s1], (set_value r x sm2) as [o2 s2].
    simpl in *. by subst.
  - unfold increment, bind, gets. simpl.
    rewrite <- (same_view_value _ _ r Hv).
    destruct (same_view_set_value r (value r sm1 + 1) _ _ Hv) as [Ho Hv1].
    pose proof (set_value_returns r (value r sm1 + 1) sm1) as R1.
    pose proof (set_value_returns r (value r sm1 + 1) sm2) as R2.
    destruct (set_value r _ sm1) as [o1 s1], (set_value r _ sm2) as [o2 s2].
    simpl in *. by subst.
  - unfold decrement, bind, gets. simpl.
    rewrite <- (same_view_value _ _ r Hv).
    destruct (same_view_set_value r (value r sm1 - 1) _ _ Hv) as [Ho Hv1].
    pose proof (set_value_returns r (value r sm1 - 1) sm1) as R1.
    pose proof (set_value_returns r (value r sm1 - 1) sm2) as R2.
    destruct (set_value r _ sm1) as [o1 s1], (set_value r _ sm2) as [o2 s2].
    simpl in *. by subst.
  - destruct (same_view_save_state _ _ Hv) as (E1 & E2 & Hv1).
    pose proof (save_state_spec sm1 (proj1 Hv)) as (s1' & Es & _ & Hsn & _).
    unfold bind.
    destruct (save_state sm1) as [o1 s1], (save_state sm2) as [o2 s2].
    simpl in *. subst. injection Es as <-.
    destruct (IHp Hp _ _ Hv1) as [Ho Hv2].
    destruct (run p s1) as [o1 t1] eqn:R1, (run p s2) as [o2 t2] eqn:R2.
    simpl in *. subst o2. destruct o1 as [[]|e|]; [|done|done].
    destruct (run_extends p _ _ _ (proj1 Hv1) R1) as (_ & Hext & _).
    destruct (same_view_restore_state _ _ Hv2) as (F1 & F2 & Hv3).
    { eapply extends_nonempty; [exact Hext|]. by rewrite Hsn. }
    split; [congruence|done].
  - rewrite !with_new_state_unfold.
    rewrite <- (same_view_level _ _ Hv).
    destruct (same_view_save_state _ _ Hv) as (E1 & E2 & Hv1).
    destruct (save_state sm1) as [o1 s1], (save_state sm2) as [o2 s2].
    simpl in *. subst.
    destruct (IHp Hp _ _ Hv1) as [Ho Hv2].
    destruct (run p s1) as [o1 t1], (run p s2) as [o2 t2].
    simpl in *. subst o2. destruct o1 as [[]|e|]; [|done|done].
    apply same_view_restore_state_until; [done|apply get_level_ge].
  - apply andb_prop in Hp as [Hp Hh].
    destruct (IHp Hp _ _ Hv) as [Ho Hv1]. unfold try_except.
    destruct (run p sm1) as [o1 s1], (run p sm2) as [o2 s2]. simpl in *.
    subst o2. destruct o1 as [[]|e'|]; [done| |done].
    destruct (decide (e' = e)); [by apply IHh|done].
Qed.

Lemma run_create l : forall sm,
  wf sm -> snapshots sm = [] ->
  exists sm', run (create l) sm = (Ret tt, sm') /\ wf sm' /\
              snapshots sm' = [] /\ cell_values sm' = cell_values sm ++ l.
Proof.
  induction l as [|x l IH]; intros sm Hwf Hs; simpl.
  - exists sm. by rewrite app_nil_r.
  - destruct (make_state_ref_spec x sm Hwf) as (s1 & E & Hwf1 & _ & Hlen & Hv).
    rewrite Hs in Hlen. apply nil_length_inv in Hlen.
    destruct (IH s1 Hwf1 Hlen) as (s2 & E2 & Hwf2 & Hs2 & Hv2).
    exists s2. unfold make_state_int, bind. rewrite E. simpl.
    rewrite E2. split; [done|]. split; [done|]. split; [done|].
    by rewrite Hv2, Hv, <- app_assoc.
Qed.

Lemma same_view_create l :
  same_view (snd (run (create l) (new_manager false)))
            (snd (run (create l) (new_manager true))).
Proof.
  destruct (run_create l (new_manager false)) as (s1 & -> & ? & ? & ?);
    [apply wf_new_manager|done|].
  destruct (run_create l (new_manager true)) as (s2 & -> & ? & ? & ?);
    [apply wf_new_manager|done|].
  simpl in *. repeat split; try done; congruence.
Qed.

(** X1.  The two strategies are interchangeable for code that creates
    its cells first: after creating one cell per element of [l] at the
    initial level, any code that creates no further cell (writes, nested
    save/restore pairs, [with_new_state], exceptions raised and caught)
    ends in the same way under the trail and the copy strategy, at the
    same level and with the same value in every cell. *)
Theorem strategies_agree (l : list Z) (p : prog) :
  creates_nothing p = true ->
  let rt := run (Seq (create l) p) (new_manager false) in
  let rc := run (Seq (create l) p) (new_manager true) in
  fst rt = fst rc /\
  get_level (snd rt) = get_level (snd rc) /\
  forall r, value r (snd rt) = value r (snd rc).
Proof.
  intros Hp. cbv zeta. cbn [run]. unfold bind.
  pose proof (same_view_create l) as Hv.
  destruct (run_create l (new_manager false)) as (s1 & E1 & _);
    [apply wf_new_manager|done|].
  destruct (run_create l (new_manager true)) as (s2 & E2 & _);
    [apply wf_new_manager|done|].
  rewrite E1, E2 in *. simpl in Hv.
  destruct (run_same_view p Hp _ _ Hv) as [Ho Hv'].
  split; [done|]. split; [by apply same_view_level|].
  intros r. by apply same_view_value.
Qed.

Lemma strategies_agree_witness :
  let p := Seq (SetValue 0%nat 3)
             (TryExcept
                (WithNewState (Seq (Increment 1%nat) (RaiseExn StopSearchException)))
                StopSearchException (Nested (Decrement 0%nat))) in
  let rt := run (Seq (create [7; 8]) p) (new_manager false) in
  let rc := run (Seq (create [7; 8]) p) (new_manager true) in
  fst rt = fst rc /\
  get_level (snd rt) = get_level (snd rc) /\
  forall r, value r (snd rt) = value r (snd rc).
Proof. apply strategies_agree. reflexivity. Defined.

(** X2.  A cell created inside a frame is where the strategies differ.
    From any manager, [save_state(); x = make_state_int(a);
    x.set_value(b); restore_state()] returns; with the trail strategy
    [x] is back to its initial value [a], with the copy strategy, whose
    backup was taken before [x] existed, [x] keeps [b]. *)
Theorem cell_created_in_frame (sm : StateManager) (a b : Z) :
  let x := n_cells sm in
  let r := run (Nested (Seq (MakeStateInt a) (SetValue x b))) sm in
  fst r = Ret tt /\
  get_level (snd r) = get_level sm /\
  value x (snd r) = match sm with Trailer _ => a | Copier _ => b end.
Proof.
  destruct sm as [t|c]; cbv zeta; simpl.
  - unfold bind, make_state_int, make_state_ref, set_value, restore_state,
      on_trailer. simpl.
    unfold Trail.set_value. simpl. rewrite lookup_snoc_length. simpl.
    destruct (decide (b <> a)) as [Hne|Heq]; simpl.
    + unfold Trail.trail, Trail.get_magic. simpl. rewrite lookup_snoc_length.
      simpl. destruct (decide (Trail.magic t + 1 - 1 <> Trail.magic t + 1));
        [|lia].
      simpl. split; [done|]. split; [done|].
      unfold Trail.value, Trail.entry_restore. simpl.
      rewrite list_lookup_alter_eq, list_lookup_alter_eq.
      rewrite list_lookup_insert_eq by (rewrite length_app; simpl; lia).
      done.
    + split; [done|]. split; [done|].
      unfold Trail.value. simpl. by rewrite lookup_snoc_length.
  - unfold bind, make_state_int, make_state_ref, set_value, restore_state,
      on_copier. simpl. split; [done|]. split; [done|].
    unfold Copy.value. simpl.
    rewrite copy_backup_restore_replay.
    pose proof (replay_seq (Copy.backup c) []
                  (<[length (Copy.store c):=b]> (Copy.store c ++ [a]))) as H.
    simpl in H. rewrite H; clear H.
    + unfold Copy.backup. rewrite length_imap.
      rewrite lookup_app_r by (rewrite length_fmap, length_imap; lia).
      rewrite length_fmap, length_imap, Nat.sub_diag.
      rewrite lookup_drop, Nat.add_0_r.
      rewrite list_lookup_insert_eq by (rewrite length_app; simpl; lia).
      done.
    + unfold Copy.backup. rewrite length_imap, fmap_imap.
      by rewrite (imap_seq_0 _ (fun i => i)), list_fmap_id.
    + unfold Copy.backup.
      rewrite length_imap, length_insert, length_app. lia.
Qed.

(** *** [restore_state] with no saved state *)

(** A manager never changes strategy. *)
Lemma set_value_is_copier r x sm :
  is_copier (snd (set_value r x sm)) = is_copier sm.
Proof.
  destruct sm as [t|c]; simpl; [|done]. unfold on_trailer.
  by destruct (Trail.set_value r x t).
Qed.

Lemma restore_state_is_copier sm :
  is_copier (snd (restore_state sm)) = is_copier sm.
Proof.
  destruct sm as [t|c]; simpl.
  - unfold on_trailer. by destruct (Trail.restore_state t).
  - unfold on_copier. by destruct (Copy.restore_state c).
Qed.

Lemma restore_state_until_loop_is_copier n level : forall sm,
  is_copier (snd (restore_state_until_loop n level sm)) = is_copier sm.
Proof.
  induction n as [|n IH]; intros sm; simpl; [done|].
  unfold bind at 1, gets. simpl. destruct (get_level sm >? level); [|done].
  unfold bind. pose proof (restore_state_is_copier sm) as H.
  destruct (restore_state sm) as [[[]|e|] s1]; simpl in *; try done.
  by rewrite IH.
Qed.

Lemma run_is_copier p : forall sm, is_copier (snd (run p sm)) = is_copier sm.
Proof.
  induction p as [|p IHp q IHq|r x|r|r|x|p IHp|p IHp|e|p IHp e h IHh];
    intros sm; simpl; try done.
  - unfold bind. specialize (IHp sm).
    destruct (run p sm) as [[[]|e|] s1]; simpl in *; try done.
    by rewrite IHq.
  - unfold bind. pose proof (set_value_is_copier r x sm) as H.
    by destruct (set_value r x sm) as [[y|e|] s1].
  - unfold increment, bind, gets. simpl.
    pose proof (set_value_is_copier r (value r sm + 1) sm) as H.
    by destruct (set_value r _ sm) as [[y|e|] s1].
  - unfold decrement, bind, gets. simpl.
    pose proof (set_value_is_copier r (value r sm - 1) sm) as H.
    by destruct (set_value r _ sm) as [[y|e|] s1].
  - by destruct sm.
  - unfold bind. destruct sm as [t|c]; simpl.
    + specialize (IHp (Trailer (Trail.save_state t))).
      destruct (run p _) as [[[]|e|] s1]; simpl in *; try done.
      by rewrite restore_state_is_copier.
    + specialize (IHp (Copier (Copy.save_state c))).
      destruct (run p _) as [[[]|e|] s1]; simpl in *; try done.
      by rewrite restore_state_is_copier.
  - rewrite with_new_state_unfold.
    assert (Hs : is_copier (snd (save_state sm)) = is_copier sm)
      by (by destruct sm).
    destruct (save_state sm) as [[[]|e|] s1]; simpl in *; try done.
    specialize (IHp s1).
    destruct (run p s1) as [[[]|e|] s2]; simpl in *; try congruence.
    unfold restore_state_until.
    rewrite restore_state_until_loop_is_copier. congruence.
  - unfold try_except. specialize (IHp sm).
    destruct (run p sm) as [[[]|e'|] s1]; simpl in *; try done.
    destruct (decide (e' = e)); [|done]. by rewrite IHh.
Qed.

Lemma replay_lookup_other b : forall (s : list Z) r,
  r ∉ (snd <$> b) -> replay b s !! r = s !! r.
Proof.
  induction b as [|[y j] b IH]; intros s r Hr; simpl in *; [done|].
  apply not_elem_of_cons in Hr as [Hne Hr].
  rewrite IH by done. by rewrite list_lookup_insert_ne.
Qed.

Lemma replay_lookup_entry b : forall (s : list Z) r x,
  NoDup (snd <$> b) -> (x, r) ∈ b -> (r < length s)%nat ->
  replay b s !! r = Some x.
Proof.
  induction b as [|[y j] b IH]; intros s r x Hnd Hin Hr; simpl in *.
  - by apply elem_of_nil in Hin.
  - apply NoDup_cons in Hnd as [Hj Hnd].
    apply elem_of_cons in Hin as [[= -> ->]|Hin].
    + rewrite replay_lookup_other by done. by apply list_lookup_insert_eq.
    + apply IH; [done|done|]. by rewrite length_insert.
Qed.

(** A trailer on which nothing was saved and nothing written yet. *)
Lemma trail_frame_inv_top t :
  Trail.current t = [] ->
  (forall r c, Trail.cells t !! r = Some c -> Trail.last_magic c < Trail.magic t) ->
  trail_frame_inv t t.
Proof.
  intros Hcur Hm. split; [done|]. rewrite Hcur. split; [constructor|]. split.
  - intros e H. by apply elem_of_nil in H.
  - intros r c Hl. split.
    + split; [intros H; by apply elem_of_nil in H|].
      specialize (Hm _ _ Hl). lia.
    + intros _. unfold Trail.value. by rewrite Hl.
Qed.

Lemma run_create_trail l : forall t,
  Trail.prior t = [] -> Trail.current t = [] ->
  (forall r c, Trail.cells t !! r = Some c -> Trail.last_magic c < Trail.magic t) ->
  exists t', run (create l) (Trailer t) = (Ret tt, Trailer t') /\
    Trail.prior t' = [] /\ Trail.current t' = [] /\
    (forall r c, Trail.cells t' !! r = Some c ->
                 Trail.last_magic c < Trail.magic t').
Proof.
  induction l as [|x l IH]; intros t Hp Hc Hm; simpl; [by exists t|].
  unfold bind, make_state_int. simpl.
  apply IH; simpl; [done|done|].
  intros r c [H|[_ H]]%lookup_app_Some; [by eapply Hm|].
  destruct (r - length (Trail.cells t))%nat; simpl in H; [|done].
  injection H as <-. simpl. unfold Trail.get_magic. lia.
Qed.

Lemma writes_only_length p : forall sm,
  writes_only p = true -> wf sm ->
  length (cell_values (snd (run p sm))) = length (cell_values sm) /\
  wf (snd (run p sm)) /\ fst (run p sm) = Ret tt.
Proof.
  induction p as [|p IHp q IHq|r x|r|r|x|p IHp|p IHp|e|p IHp e h IHh];
    intros sm Hp Hwf; simpl in Hp; try done; simpl.
  - apply andb_prop in Hp as [Hp Hq].
    destruct (IHp sm Hp Hwf) as (H1 & Hwf1 & Ho). unfold bind.
    destruct (run p sm) as [o s1]. simpl in *. subst o.
    destruct (IHq s1 Hq Hwf1) as (H2 & Hwf2 & Ho2).
    split; [congruence|done].
  - destruct (set_value_run r x sm Hwf) as (s1 & E & ? & _ & Hv).
    unfold bind. rewrite E. simpl. by rewrite Hv, length_insert.
  - unfold increment, bind, gets. simpl.
    destruct (set_value_run r (value r sm + 1) sm Hwf) as (s1 & E & ? & _ & Hv).
    rewrite E. simpl. by rewrite Hv, length_insert.
  - unfold decrement, bind, gets. simpl.
    destruct (set_value_run r (value r sm - 1) sm Hwf) as (s1 & E & ? & _ & Hv).
    rewrite E. simpl. by rewrite Hv, length_insert.
Qed.

(** X3.  [restore_state] with no saved state raises [IndexError] under
    both strategies, but not in the same state: the trailer has by then
    undone its current trail, so every cell is back to the value it was
    created with, whatever was written since; the copier has changed
    nothing. *)
Theorem restore_state_without_save (l : list Z) (p : prog) :
  writes_only p = true ->
  let t := snd (run (Seq (create l) p) (new_manager false)) in
  let c := snd (run (Seq (create l) p) (new_manager true)) in
  get_level t = -1 /\ get_level c = -1 /\
  fst (restore_state t) = Raise IndexError /\
  (forall r x, l !! r = Some x -> value r (snd (restore_state t)) = x) /\
  restore_state c = (Raise IndexError, c).
Proof.
  intros Hp. cbv zeta. cbn [run]. unfold bind.
  destruct (run_create l (new_manager false)) as (s1 & E1 & Hwf1 & Hs1 & Hv1);
    [apply wf_new_manager|done|].
  destruct (run_create l (new_manager true)) as (s2 & E2 & Hwf2 & Hs2 & Hv2);
    [apply wf_new_manager|done|].
  rewrite E1, E2.
  destruct (run_writes_and_pairs p s1 (writes_only_pairs p Hp) Hwf1)
    as (s1' & R1 & Hwf1' & Hs1').
  destruct (run_writes_and_pairs p s2 (writes_only_pairs p Hp) Hwf2)
    as (s2' & R2 & Hwf2' & Hs2').
  rewrite R1, R2. simpl.
  split; [by rewrite get_level_snapshots, Hs1', Hs1|].
  split; [by rewrite get_level_snapshots, Hs2', Hs2|].
  destruct (run_create_trail l Trail.init) as (t0 & E0 & Hp0 & Hc0 & Hm0);
    [done|done|done|].
  change (Trailer Trail.init) with (new_manager false) in E0.
  rewrite E1 in E0. injection E0 as ->.
  destruct (run_writes_only_trail p t0 t0 Hp (trail_frame_inv_top t0 Hc0 Hm0))
    as (t' & R' & Hm & Hnd & Hent & Hcells).
  rewrite R1 in R'. injection R' as ->.
  assert (Hprior : Trail.prior t' = []).
  { apply nil_length_inv. pose proof (get_level_snapshots (Trailer t')) as H.
    rewrite Hs1', Hs1 in H. simpl in H. unfold Trail.get_level in H. lia. }
  split; [|split].
  - simpl. unfold on_trailer, Trail.restore_state. by rewrite Hprior.
  - intros r x Hl. simpl. unfold on_trailer, Trail.restore_state.
    rewrite Hprior. simpl. unfold Trail.value. simpl.
    pose proof (f_equal (fun vs => vs !! r)
                  (trail_backup_restore_values (Trail.current t') (Trail.cells t')))
      as Hlook.
    simpl in Hlook. rewrite list_lookup_fmap in Hlook.
    assert (Hx : Trail.value r t0 = x).
    { simpl in Hv1. unfold Trail.value.
      pose proof (f_equal (fun vs => vs !! r) Hv1) as H. simpl in H.
      rewrite list_lookup_fmap, Hl in H.
      by destruct (Trail.cells t0 !! r); simplify_eq/=. }
    assert (Hlen : (r < length (Trail.cells t'))%nat).
    { destruct (writes_only_length p (Trailer t0) Hp Hwf1) as (Hlen & _).
      rewrite R1 in Hlen. simpl in Hlen. rewrite !length_fmap in Hlen.
      rewrite Hlen. apply lookup_lt_Some in Hl.
      pose proof (f_equal length Hv1) as H. simpl in H.
      rewrite length_fmap in H. rewrite H. done. }
    destruct (lookup_lt_is_Some_2 _ _ Hlen) as [c' Hc'].
    destruct (Hcells _ _ Hc') as [Hiff Hval].
    destruct (decide (r ∈ snd <$> Trail.current t')) as [Hin|Hnin].
    + apply list_elem_of_fmap in Hin as ([y j] & -> & Hin). simpl in *.
      rewrite (replay_lookup_entry _ _ j y Hnd Hin) in Hlook
        by (by rewrite length_fmap).
      specialize (Hent _ Hin). simpl in Hent.
      destruct (Trail.backup_restore _ _ !! j) as [c''|]; simpl in Hlook;
        [|done].
      injection Hlook as Hlook. congruence.
    + rewrite replay_lookup_other in Hlook by done.
      rewrite list_lookup_fmap, Hc' in Hlook. simpl in Hlook.
      specialize (Hval Hnin).
      destruct (Trail.backup_restore _ _ !! r) as [c''|]; simpl in Hlook;
        [|done].
      injection Hlook as Hlook. congruence.
  - pose proof (run_is_copier p s2) as Hk2.
    pose proof (run_is_copier (create l) (new_manager true)) as Hk1.
    rewrite E2 in Hk1. rewrite R2 in Hk2. simpl in Hk1, Hk2.
    rewrite Hk1 in Hk2.
    destruct s2' as [t2|c2]; simpl; [done|].
    unfold on_copier, Copy.restore_state.
      assert (Copy.prior c2 = []) as ->; [|done].
      apply nil_length_inv. pose proof (get_level_snapshots (Copier c2)) as H.
      rewrite Hs2', Hs2 in H. simpl in H. unfold Copy.get_level in H. lia.
Qed.

Lemma restore_state_without_save_witness :
  let l := [4; 5] in
  let p := Seq (SetValue 0%nat 9) (Increment 1%nat) in
  let t := snd (run (Seq (create l) p) (new_manager false)) in
  let c := snd (run (Seq (create l) p) (new_manager true)) in
  (value 0%nat t = 9 /\ value 1%nat t = 6) /\
  get_level t = -1 /\ get_level c = -1 /\
  fst (restore_state t) = Raise IndexError /\
  (forall r x, l !! r = Some x -> value r (snd (restore_state t)) = x) /\
  restore_state c = (Raise IndexError, c).
Proof.
  split; [by vm_compute|].
  apply (restore_state_without_save [4; 5]
           (Seq (SetValue 0%nat 9) (Increment 1%nat))).
  reflexivity.
Defined.

(** *** [restore_state_until] *)

Lemma restore_state_empty sm :
  snapshots sm = [] ->
  fst (restore_state sm) = Raise IndexError /\
  get_level (snd (restore_state sm)) = -1.
Proof.
  intros Hs. pose proof (get_level_snapshots sm) as Hl. rewrite Hs in Hl.
  destruct sm as [t|c]; simpl in *.
  - unfold on_trailer, Trail.restore_state. unfold Trail.get_level in Hl.
    destruct (Trail.prior t) eqn:E; [by split|]. simpl length in Hl. lia.
  - unfold on_copier, Copy.restore_state. unfold Copy.get_level in Hl.
    destruct (Copy.prior c) eqn:E; [|simpl length in Hl; lia].
    split; [done|]. simpl. unfold Copy.get_level. by rewrite E.
Qed.

Lemma restore_state_until_loop_level level k : forall sm n,
  wf sm -> length (snapshots sm) = k -> (k < n)%nat ->
  let r := restore_state_until_loop n level sm in
  (level < -1 -> fst r = Raise IndexError /\ get_level (snd r) = -1) /\
  (-1 <= level ->
   fst r = Ret tt /\ get_level (snd r) = Z.min (get_level sm) level /\
   wf (snd r)) /\
  (get_level sm <= level -> snd r = sm).
Proof.
  induction k as [|k IH]; intros sm n Hwf Hk Hn; (destruct n as [|n]; [lia|]);
    cbv zeta; simpl; unfold bind at 1 3 5 7 9 11, gets; simpl;
    pose proof (get_level_snapshots sm) as Hl; rewrite Hk in Hl;
    destruct (get_level sm >? level) eqn:Hgt;
    rewrite Z.gtb_ltb in Hgt;
    try (apply Z.ltb_ge in Hgt; simpl;
         repeat split; try done; lia).
  - apply Z.ltb_lt in Hgt. apply nil_length_inv in Hk.
    destruct (restore_state_empty sm Hk) as [E1 E2]. unfold bind.
    destruct (restore_state sm) as [o s1]. simpl in *. subst o. simpl.
    split; [done|]. split; lia.
  - apply Z.ltb_lt in Hgt.
    destruct (snapshots sm) as [|s ss] eqn:Hs; [done|].
    destruct (restore_state_spec sm s ss Hwf Hs) as (s1 & E & Hwf1 & Hs1 & _).
    unfold bind. rewrite E.
    assert (Hk1 : length (snapshots s1) = k) by (rewrite Hs1; simpl in Hk; lia).
    destruct (IH s1 n Hwf1 Hk1 ltac:(lia)) as (H1 & H2 & H3).
    pose proof (get_level_snapshots s1) as Hl1. rewrite Hk1 in Hl1.
    split; [done|]. split; [|lia].
    intros Hge. destruct (H2 Hge) as (? & ? & ?).
    split; [done|]. split; [lia|done].
Qed.

(** X4.  [restore_state_until(level)] on any manager reached by client
    code: for a level of at least -1 it returns with the manager at the
    lower of its level and [level], changing nothing when the manager is
    already at or below [level]; for a level below -1 it pops every
    frame and then raises [IndexError], leaving the manager at level
    -1. *)
Theorem restore_state_until_level (by_copy : bool) (q : prog) (level : Z) :
  let sm := snd (run q (new_manager by_copy)) in
  let r := restore_state_until level sm in
  (if level <? -1
   then fst r = Raise IndexError /\ get_level (snd r) = -1
   else fst r = Ret tt /\ get_level (snd r) = Z.min (get_level sm) level) /\
  (get_level sm <= level -> snd r = sm).
Proof.
  intros sm r. subst r. unfold restore_state_until.
  pose proof (get_level_snapshots sm) as Hl.
  destruct (restore_state_until_loop_level level (length (snapshots sm)) sm
              (Z.to_nat (get_level sm + 2)) (wf_reachable by_copy q) eq_refl
              ltac:(lia)) as (H1 & H2 & H3).
  split; [|done].
  destruct (level <? -1) eqn:E.
  - apply Z.ltb_lt in E. by apply H1.
  - apply Z.ltb_ge in E. destruct (H2 E) as (? & ? & _). done.
Qed.

(** Three frames deep, back to level 0, and below the initial level. *)
Example restore_state_until_samples (by_copy : bool) :
  let sm := snd (run (Seq (MakeStateInt 1) (SetValue 0%nat 2))
                   (snd (save_state (snd (save_state (snd (save_state
                      (new_manager by_copy)))))))) in
  get_level sm = 2 /\
  get_level (snd (restore_state_until 0 sm)) = 0 /\
  fst (restore_state_until (-2) sm) = Raise IndexError /\
  get_level (snd (restore_state_until (-2) sm)) = -1.
Proof. destruct by_copy; by vm_compute. Qed.

(* ================================================================== *)
(** ** The reversible stack *)

Lemma value_after_set r x sm sm' :
  (r < n_cells sm)%nat ->
  cell_values sm' = <[r:=x]> (cell_values sm) -> value r sm' = x.
Proof.
  intros Hr Hv. rewrite value_cell_values, Hv.
  rewrite list_lookup_insert_eq; [done|]. by rewrite <- n_cells_cell_values.
Qed.

Lemma value_after_set_other r r' x sm sm' :
  r <> r' ->
  cell_values sm' = <[r:=x]> (cell_values sm) -> value r' sm' = value r' sm.
Proof.
  intros Hr Hv. rewrite !value_cell_values, Hv.
  by rewrite list_lookup_insert_ne.
Qed.

Lemma n_cells_after_set r x sm sm' :
  cell_values sm' = <[r:=x]> (cell_values sm) -> n_cells sm' = n_cells sm.
Proof.
  intros Hv. by rewrite !n_cells_cell_values, Hv, length_insert.
Qed.

(** What [push] does. *)
Lemma stack_push_spec (e : nat) (s : Stack.St) :
  stack_ok s ->
  exists s', Stack.push e s = (Ret tt, s') /\ stack_ok s' /\
    stack_elems s' = stack_elems s ++ [e] /\
    Stack._size (snd s') = Stack._size (snd s) /\
    snapshots (fst s') = snapshots (fst s) /\
    cell_values (fst s')
    = <[Stack._size (snd s) := value (Stack._size (snd s)) (fst s) + 1]>
        (cell_values (fst s)).
Proof.
  destruct s as [sm [r l]]. intros (Hwf & Hr & Hlo & Hhi). simpl in *.
  set (v := value r sm) in *.
  destruct (set_value_run r (v + 1) sm Hwf) as (sm' & E & Hwf' & Hs' & Hv').
  assert (Hval : value r sm' = v + 1) by (by eapply value_after_set).
  unfold Stack.push, Stack.size, increment, lift_sm, bind, gets, modify.
  simpl. fold v.
  destruct (Z.of_nat (length l) >? v) eqn:Hgt; rewrite Z.gtb_ltb in Hgt.
  - apply Z.ltb_lt in Hgt. unfold setitem.
    replace (v <? 0) with false by (symmetry; apply Z.ltb_ge; lia).
    replace ((0 <=? v) && (v <? Z.of_nat (length l))) with true
      by (symmetry; apply andb_true_intro; split;
          [apply Z.leb_le|apply Z.ltb_lt]; lia).
    simpl. fold v. rewrite E. simpl.
    eexists. split; [reflexivity|]. unfold stack_ok, stack_elems. simpl.
    rewrite Hval, length_insert, (n_cells_after_set _ _ _ _ Hv').
    split; [repeat split; try done; lia|]. split; [|done].
    replace (Z.to_nat (v + 1)) with (S (Z.to_nat v)) by lia.
    assert (Hlt : (Z.to_nat v < length l)%nat) by lia.
    rewrite (take_S_r _ _ e) by (by apply list_lookup_insert_eq).
    by rewrite take_insert_ge by lia.
  - apply Z.ltb_ge in Hgt. assert (Hv : v = Z.of_nat (length l)) by lia.
    simpl. fold v. rewrite E. simpl.
    eexists. split; [reflexivity|]. unfold stack_ok, stack_elems. simpl.
    rewrite Hval, length_app, (n_cells_after_set _ _ _ _ Hv'). simpl.
    split; [repeat split; try done; lia|]. split; [|done].
    replace (Z.to_nat (v + 1)) with (S (length l)) by lia.
    replace (Z.to_nat v) with (length l) by lia.
    rewrite take_ge by (rewrite length_app; simpl; lia).
    by rewrite take_ge by lia.
Qed.

(** What [get] does within the size. *)
Lemma stack_get_spec (i : Z) (s : Stack.St) (x : nat) :
  stack_ok s -> 0 <= i -> stack_elems s !! Z.to_nat i = Some x ->
  Stack.get i s = (Ret x, s).
Proof.
  destruct s as [sm [r l]]. intros (Hwf & Hr & Hlo & Hhi) Hi Hx.
  unfold stack_elems in Hx. simpl in *.
  apply lookup_take_Some in Hx as [Hx Hlt].
  unfold Stack.get, bind, gets, getitem. simpl.
  replace (i <? 0) with false by (symmetry; apply Z.ltb_ge; lia).
  replace ((0 <=? i) && (i <? Z.of_nat (length l))) with true
    by (symmetry; apply andb_true_intro; split;
        [apply Z.leb_le|apply Z.ltb_lt]; lia).
  by rewrite Hx.
Qed.

Lemma stack_ok_init sm :
  wf sm ->
  exists sm' st, Stack.init sm = (Ret st, sm') /\ stack_ok (sm', st) /\
    stack_elems (sm', st) = [] /\
    Forall2 prefix (snapshots sm) (snapshots sm').
Proof.
  intros Hwf.
  destruct (make_state_ref_spec 0 sm Hwf) as (sm' & E & Hwf' & Hpre & _ & Hv).
  unfold Stack.init, bind, make_state_int. rewrite E. simpl.
  eexists _, _. split; [reflexivity|]. unfold stack_ok, stack_elems. simpl.
  assert (Hval : value (n_cells sm) sm' = 0).
  { rewrite value_cell_values, Hv, n_cells_cell_values.
    by rewrite list_lookup_middle. }
  rewrite Hval. split; [|done]. split; [done|]. split; [|done].
  rewrite (n_cells_cell_values sm'), Hv, length_app, <- n_cells_cell_values.
  simpl. lia.
Qed.

Lemma stack_pushes_spec (es : list nat) : forall s : Stack.St,
  stack_ok s ->
  exists s', for_each es Stack.push s = (Ret tt, s') /\ stack_ok s' /\
    stack_elems s' = stack_elems s ++ es /\
    Stack._size (snd s') = Stack._size (snd s) /\
    snapshots (fst s') = snapshots (fst s) /\
    n_cells (fst s') = n_cells (fst s).
Proof.
  induction es as [|e es IH]; intros s Hok; simpl.
  - exists s. by rewrite app_nil_r.
  - destruct (stack_push_spec e s Hok) as (s1 & E1 & Hok1 & He1 & Hr1 & Hs1 & Hv1).
    destruct (IH s1 Hok1) as (s2 & E2 & Hok2 & He2 & Hr2 & Hs2 & Hn2).
    exists s2. unfold bind. rewrite E1, E2.
    split; [done|]. split; [done|].
    split; [by rewrite He2, He1, <- app_assoc|].
    split; [congruence|]. split; [congruence|].
    rewrite Hn2. by eapply n_cells_after_set.
Qed.

(** X5.  The stack is last-in first-out over its reversible size: on a
    stack whose size lies within its list, [push(e)] returns, adds [e]
    on top of the elements already there and changes none of them, so
    that [size()] is one more and [get(size() - 1)] is [e], while
    [get(i)] is unchanged for every [i] below the old size. *)
Theorem stack_push_get (e : nat) (s : Stack.St) :
  stack_ok s ->
  let n := value (Stack._size (snd s)) (fst s) in
  exists s',
    Stack.push e s = (Ret tt, s') /\ stack_ok s' /\
    Stack.size s' = (Ret (n + 1), s') /\
    Stack.get n s' = (Ret e, s') /\
    (forall i x, 0 <= i < n -> Stack.get i s = (Ret x, s) ->
                 Stack.get i s' = (Ret x, s')).
Proof.
  intros Hok n.
  destruct (stack_push_spec e s Hok) as (s' & E & Hok' & He & Hr & Hs & Hv).
  destruct Hok as (Hwf & Hlt & Hlo & Hhi).
  assert (Hlen : length (stack_elems s) = Z.to_nat n).
  { unfold stack_elems. rewrite length_take. fold n. lia. }
  exists s'. split; [done|]. split; [done|]. split; [|split].
  - unfold Stack.size. rewrite Hr. f_equal. f_equal.
    by eapply value_after_set.
  - apply stack_get_spec; [done|fold n in Hlo; lia|].
    rewrite He, <- Hlen. by rewrite list_lookup_middle.
  - intros i x Hi Hget. apply stack_get_spec; [done|lia|].
    rewrite He, lookup_app_l by lia.
    destruct (lookup_lt_is_Some_2 (stack_elems s) (Z.to_nat i)) as [y Hy];
      [lia|].
    rewrite (stack_get_spec i s y) in Hget by (done || lia).
    by injection Hget as ->.
Qed.

Lemma stack_push_get_witness :
  let sm := snd (save_state (new_manager true)) in
  let s := (snd (stack_of_list [3; 5]%nat sm),
            match fst (stack_of_list [3; 5]%nat sm) with
            | Ret st => st
            | _ => Stack.mk 0%nat []
            end) in
  Stack.size s = (Ret 2, s) /\
  exists s',
    Stack.push 8%nat s = (Ret tt, s') /\ stack_ok s' /\
    Stack.size s' = (Ret 3, s') /\
    Stack.get 2 s' = (Ret 8%nat, s') /\
    (forall i x, 0 <= i < 2 -> Stack.get i s = (Ret x, s) ->
                 Stack.get i s' = (Ret x, s')).
Proof.
  split; [reflexivity|].
  apply (stack_push_get 8%nat).
  split; [|split; [|split]]; simpl; try lia; try (by vm_compute).
  repeat constructor.
Defined.

(** X6.  Backtracking pops what was pushed since the save and nothing
    else: after [save_state()], any number of pushes and
    [restore_state()], the stack has the size and the elements it had at
    the save. *)
Theorem stack_restored (es : list nat) (s : Stack.St) :
  stack_ok s ->
  exists s',
    (lift_sm save_state ;; for_each es Stack.push ;; lift_sm restore_state) s
    = (Ret tt, s') /\
    stack_ok s' /\ stack_elems s' = stack_elems s /\
    get_level (fst s') = get_level (fst s).
Proof.
  intros Hok. destruct s as [sm st].
  destruct Hok as (Hwf & Hr & Hlo & Hhi). simpl in *.
  destruct (save_state_spec sm Hwf) as (sm1 & E1 & Hwf1 & Hs1 & Hv1).
  assert (Hok1 : stack_ok (sm1, st)).
  { unfold stack_ok. simpl.
    rewrite n_cells_cell_values, value_cell_values, Hv1,
      <- n_cells_cell_values, <- value_cell_values. done. }
  destruct (stack_pushes_spec es (sm1, st) Hok1)
    as ([sm2 st2] & E2 & Hok2 & He2 & Hr2 & Hs2 & Hn2). simpl in *.
  rewrite Hs1 in Hs2.
  destruct (restore_state_spec sm2 _ _ (proj1 Hok2) Hs2)
    as (sm3 & E3 & Hwf3 & Hs3 & Hv3).
  exists (sm3, st2). unfold bind, lift_sm. simpl.
  rewrite E1. simpl. rewrite E2. simpl. rewrite E3.
  split; [done|].
  assert (Hdrop : drop (length (cell_values sm)) (cell_values sm2) = []).
  { apply drop_ge. rewrite <- !n_cells_cell_values, Hn2.
    rewrite !n_cells_cell_values, Hv1. done. }
  rewrite Hdrop, app_nil_r in Hv3.
  assert (Hval : value (Stack._size st2) sm3 = value (Stack._size st) sm).
  { by rewrite Hr2, !value_cell_values, Hv3. }
  assert (Htake : take (Z.to_nat (value (Stack._size st) sm)) (Stack._stack st2)
                  = take (Z.to_nat (value (Stack._size st) sm)) (Stack._stack st)).
  { unfold stack_elems in He2. simpl in He2.
    assert (Hsm1 : value (Stack._size st) sm1 = value (Stack._size st) sm)
      by (by rewrite !value_cell_values, Hv1).
    rewrite Hsm1 in He2. set (n := Z.to_nat (value (Stack._size st) sm)) in *.
    assert (Hn : (n <= length (Stack._stack st))%nat) by lia.
    pose proof (f_equal (take n) He2) as H.
    rewrite take_app_le in H by (rewrite length_take; lia).
    rewrite !take_take, Nat.min_id in H.
    pose proof (f_equal length He2) as HL.
    rewrite length_app, !length_take in HL.
    rewrite Nat.min_l in H by lia. done. }
  split; [|split].
  - unfold stack_ok. simpl. split; [done|]. rewrite Hval, Hr2.
    split; [by rewrite n_cells_cell_values, Hv3, <- n_cells_cell_values|].
    split; [done|].
    pose proof (f_equal length Htake) as HL. rewrite !length_take in HL. lia.
  - unfold stack_elems. simpl. by rewrite Hval.
  - by rewrite !get_level_snapshots, Hs3.
Qed.

Lemma stack_restored_witness :
  let sm := new_manager false in
  let s := (snd (stack_of_list [3; 5]%nat sm),
            match fst (stack_of_list [3; 5]%nat sm) with
            | Ret st => st
            | _ => Stack.mk 0%nat []
            end) in
  stack_elems s = [3; 5]%nat /\
  exists s',
    (lift_sm save_state ;; for_each [7; 9; 11]%nat Stack.push ;;
     lift_sm restore_state) s = (Ret tt, s') /\
    stack_ok s' /\ stack_elems s' = stack_elems s /\
    get_level (fst s') = get_level (fst s).
Proof.
  split; [reflexivity|].
  apply (stack_restored [7; 9; 11]%nat).
  split; [|split; [|split]]; simpl; try lia; try (by vm_compute).
  intros r c H. destruct r as [|r]; simpl in H; [|done].
  injection H as <-. simpl. split; [lia|]. intros Hp. done.
Defined.

(* ================================================================== *)
(** ** The sparse set *)

(** *** Running the accessors *)

Lemma ss_get_run (f : SparseSet.StateSparseSet -> nat) (s : SparseSet.St) :
  SparseSet.get f s = (Ret (value (f (snd s)) (fst s)), s).
Proof. destruct s as [sm d]. reflexivity. Qed.

Lemma ss_set_run (f : SparseSet.StateSparseSet -> nat) (x : Z)
    (s : SparseSet.St) :
  wf (fst s) ->
  exists sm', SparseSet.set f x s = (Ret x, (sm', snd s)) /\ wf sm' /\
    snapshots sm' = snapshots (fst s) /\
    cell_values sm' = <[f (snd s) := x]> (cell_values (fst s)).
Proof.
  destruct s as [sm d]. simpl. intros Hwf.
  destruct (set_value_run (f d) x sm Hwf) as (sm' & E & H).
  exists sm'. split; [|done].
  unfold SparseSet.set, SparseSet.field, bind, gets, lift_sm. simpl.
  by rewrite E.
Qed.

Lemma getitem_run {S A} (l : list A) (i : Z) (x : A) (s : S) :
  0 <= i -> l !! Z.to_nat i = Some x -> getitem l i s = (Ret x, s).
Proof.
  intros Hi Hx. unfold getitem. apply lookup_lt_Some in Hx as Hlt.
  replace (i <? 0) with false by (symmetry; apply Z.ltb_ge; lia).
  replace ((0 <=? i) && (i <? Z.of_nat (length l))) with true
    by (symmetry; apply andb_true_intro; split;
        [apply Z.leb_le|apply Z.ltb_lt]; lia).
  by rewrite Hx.
Qed.

Lemma setitem_run {S A} (l : list A) (i : Z) (x : A) (s : S) :
  0 <= i < Z.of_nat (length l) ->
  setitem l i x s = (Ret (<[Z.to_nat i := x]> l), s).
Proof.
  intros Hi. unfold setitem.
  replace (i <? 0) with false by (symmetry; apply Z.ltb_ge; lia).
  replace ((0 <=? i) && (i <? Z.of_nat (length l))) with true
    by (symmetry; apply andb_true_intro; split;
        [apply Z.leb_le|apply Z.ltb_lt]; lia).
  done.
Qed.

(** *** Positions *)

Lemma ss_perm_index d (v : Z) :
  ss_perm d -> 0 <= v < SparseSet._n d ->
  exists i, SparseSet._indices d !! Z.to_nat v = Some i /\
            0 <= i < SparseSet._n d /\
            SparseSet._values d !! Z.to_nat i = Some v.
Proof.
  intros (Hn & Hlv & Hli & Hvi & Hiv) Hv.
  destruct (lookup_lt_is_Some_2 (SparseSet._indices d) (Z.to_nat v)) as [i Hi];
    [lia|].
  destruct (Hiv _ _ Hi) as [Hi0 Hval]. exists i. split; [done|].
  rewrite Z2Nat.id in Hval by lia. split; [|done].
  apply lookup_lt_Some in Hval. lia.
Qed.

Lemma ss_perm_value d (i : Z) :
  ss_perm d -> 0 <= i < SparseSet._n d ->
  exists v, SparseSet._values d !! Z.to_nat i = Some v /\
            0 <= v < SparseSet._n d /\
            SparseSet._indices d !! Z.to_nat v = Some i.
Proof.
  intros (Hn & Hlv & Hli & Hvi & Hiv) Hi.
  destruct (lookup_lt_is_Some_2 (SparseSet._values d) (Z.to_nat i)) as [v Hv];
    [lia|].
  destruct (Hvi _ _ Hv) as [Hv0 Hidx]. exists v. split; [done|].
  rewrite Z2Nat.id in Hidx by lia. split; [|done].
  apply lookup_lt_Some in Hidx. lia.
Qed.

Lemma ss_below_range d k v :
  ss_perm d -> ss_below d k v -> 0 <= v < SparseSet._n d.
Proof.
  intros (Hn & Hlv & Hli & Hvi & Hiv) (Hv & i & Hi & _).
  apply lookup_lt_Some in Hi. lia.
Qed.

(** The values listed by [to_array] are those at a position below the
    size. *)
Lemma ss_elems_below (s : SparseSet.St) (u : Z) :
  ss_perm (snd s) -> 0 <= ss_size s ->
  u ∈ ss_elems s <->
  ss_below (snd s) (ss_size s) (u - SparseSet._ofs (snd s)).
Proof.
  intros Hperm Hsz. pose proof Hperm as (Hn & Hlv & Hli & Hvi & Hiv).
  unfold ss_elems. rewrite list_elem_of_fmap. split.
  - intros (v & -> & Hin). apply list_elem_of_lookup in Hin as [i Hi].
    apply lookup_take_Some in Hi as [Hi Hlt].
    destruct (Hvi _ _ Hi) as [Hv0 Hidx].
    replace (v + SparseSet._ofs s.2 - SparseSet._ofs s.2) with v by lia.
    split; [done|]. exists (Z.of_nat i). split; [done|lia].
  - intros (Hv & i & Hi & Hlt). exists (u - SparseSet._ofs s.2).
    split; [lia|]. destruct (Hiv _ _ Hi) as [Hi0 Hval].
    rewrite Z2Nat.id in Hval by lia.
    apply list_elem_of_lookup. exists (Z.to_nat i).
    apply lookup_take_Some. split; [done|lia].
Qed.

Lemma ss_elems_NoDup (s : SparseSet.St) :
  ss_perm (snd s) -> NoDup (ss_elems s).
Proof.
  intros (Hn & Hlv & Hli & Hvi & Hiv). unfold ss_elems.
  apply NoDup_fmap_2; [intros x y ?; lia|].
  apply NoDup_alt. intros i j v Hi Hj.
  apply lookup_take_Some in Hi as [Hi _], Hj as [Hj _].
  destruct (Hvi _ _ Hi) as [_ H1], (Hvi _ _ Hj) as [_ H2].
  rewrite H1 in H2. injection H2. lia.
Qed.

Lemma ss_elems_length (s : SparseSet.St) :
  ss_ok s -> Z.of_nat (length (ss_elems s)) = ss_size s.
Proof.
  intros (_ & _ & (Hn & Hlv & _) & Hsz & _). unfold ss_elems.
  rewrite length_fmap, length_take. lia.
Qed.

Lemma bind_run {S A B} (m : M S A) (k : A -> M S B) s a s' :
  m s = (Ret a, s') -> bind m k s = k a s'.
Proof. intros H. unfold bind. by rewrite H. Qed.

Lemma ss_indices_get_run (v i : Z) (s : SparseSet.St) :
  0 <= v -> SparseSet._indices (snd s) !! Z.to_nat v = Some i ->
  SparseSet.indices_get v s = (Ret i, s).
Proof.
  intros Hv Hi. unfold SparseSet.indices_get, SparseSet.field, bind, gets.
  simpl. by apply getitem_run.
Qed.

Lemma ss_values_get_run (i v : Z) (s : SparseSet.St) :
  0 <= i -> SparseSet._values (snd s) !! Z.to_nat i = Some v ->
  SparseSet.values_get i s = (Ret v, s).
Proof.
  intros Hv Hi. unfold SparseSet.values_get, SparseSet.field, bind, gets.
  simpl. by apply getitem_run.
Qed.

Lemma ss_internal_contains_run (v : Z) (s : SparseSet.St) :
  ss_perm (snd s) ->
  exists b, SparseSet.internal_contains v s = (Ret b, s) /\
            (b = true <-> ss_below (snd s) (ss_size s) v).
Proof.
  intros Hperm. unfold SparseSet.internal_contains, SparseSet.field.
  unfold bind at 1, gets. simpl.
  destruct ((v <? 0) || (v >=? SparseSet._n s.2)) eqn:E.
  - exists false. split; [done|]. split; [done|]. intros Hb.
    apply (ss_below_range _ _ _ Hperm) in Hb.
    apply orb_prop in E as [E|E]; [apply Z.ltb_lt in E|apply Z.geb_le in E];
      lia.
  - apply orb_false_elim in E as [E1 E2].
    apply Z.ltb_ge in E1. rewrite Z.geb_leb in E2. apply Z.leb_gt in E2.
    destruct (ss_perm_index _ v Hperm ltac:(lia)) as (i & Hi & Hir & Hval).
    rewrite (bind_run _ _ _ _ _ (ss_indices_get_run v i s E1 Hi)).
    unfold SparseSet.size. rewrite (bind_run _ _ _ _ _ (ss_get_run _ s)).
    exists (i <? ss_size s). split; [done|]. rewrite Z.ltb_lt. split.
    + intros Hlt. split; [done|]. by exists i.
    + intros (_ & j & Hj & Hlt). congruence.
Qed.

Lemma ss_contains_run (v : Z) (s : SparseSet.St) :
  ss_perm (snd s) -> 0 <= ss_size s ->
  exists b, SparseSet.contains v s = (Ret b, s) /\
            (b = true <-> v ∈ ss_elems s).
Proof.
  intros Hperm Hsz.
  destruct (ss_internal_contains_run (v - SparseSet._ofs s.2) s Hperm)
    as (b & E & Hb).
  exists b. split; [|by rewrite (ss_elems_below s v Hperm Hsz)]. rewrite <- E.
  unfold SparseSet.contains, SparseSet.internal_contains, SparseSet.field.
  unfold bind at 1, gets. by simpl.
Qed.

(** *** Exchanging two positions *)

Lemma ss_check_val_run (v : Z) (s : SparseSet.St) :
  v <= Z.of_nat (length (SparseSet._values (snd s))) - 1 ->
  assert_ (SparseSet.check_val v) s = (Ret tt, s).
Proof.
  intros Hv. unfold assert_, SparseSet.check_val, assert_, SparseSet.field,
    bind, gets, ret. simpl.
  replace (v <=? Z.of_nat (length (SparseSet._values s.2)) - 1) with true
    by (symmetry; apply Z.leb_le; lia).
  done.
Qed.

Lemma ss_values_set_run (i x : Z) sm d :
  0 <= i < Z.of_nat (length (SparseSet._values d)) ->
  SparseSet.values_set i x (sm, d)
  = (Ret tt, (sm, ss_with_values (<[Z.to_nat i := x]> (SparseSet._values d)) d)).
Proof.
  intros Hi. unfold SparseSet.values_set, SparseSet.field, bind, gets. simpl.
  by rewrite setitem_run.
Qed.

Lemma ss_indices_set_run (i x : Z) sm d :
  0 <= i < Z.of_nat (length (SparseSet._indices d)) ->
  SparseSet.indices_set i x (sm, d)
  = (Ret tt, (sm, ss_with_indices (<[Z.to_nat i := x]> (SparseSet._indices d)) d)).
Proof.
  intros Hi. unfold SparseSet.indices_set, SparseSet.field, bind, gets. simpl.
  by rewrite setitem_run.
Qed.

Lemma ss_exchange_run sm d (v1 v2 i1 i2 : Z) :
  ss_perm d ->
  0 <= v1 < SparseSet._n d -> 0 <= v2 < SparseSet._n d ->
  SparseSet._indices d !! Z.to_nat v1 = Some i1 ->
  SparseSet._indices d !! Z.to_nat v2 = Some i2 ->
  SparseSet.exchange_positions v1 v2 (sm, d)
  = (Ret tt, (sm, ss_exchange d v1 v2 i1 i2)).
Proof.
  intros Hperm Hv1 Hv2 Hi1 Hi2.
  pose proof Hperm as (Hn & Hlv & Hli & Hvi & Hiv).
  destruct (Hiv _ _ Hi1) as [Hi10 Hval1], (Hiv _ _ Hi2) as [Hi20 Hval2].
  apply lookup_lt_Some in Hval1 as Hlt1. apply lookup_lt_Some in Hval2 as Hlt2.
  unfold SparseSet.exchange_positions.
  erewrite bind_run by (apply ss_check_val_run; simpl; lia).
  erewrite bind_run by (apply ss_check_val_run; simpl; lia).
  erewrite bind_run by (apply ss_indices_get_run; [lia|exact Hi1]).
  erewrite bind_run by (apply ss_indices_get_run; [lia|exact Hi2]).
  erewrite bind_run by (apply ss_values_set_run; lia).
  erewrite bind_run
    by (apply ss_values_set_run; simpl; rewrite length_insert; lia).
  erewrite bind_run by (apply ss_indices_set_run; simpl; lia).
  rewrite ss_indices_set_run by (simpl; rewrite length_insert; lia).
  reflexivity.
Qed.

(** Exchanging keeps the two lists inverse of each other, and moves
    only the two values. *)
Lemma ss_exchange_perm d (v1 v2 i1 i2 : Z) :
  ss_perm d ->
  0 <= v1 < SparseSet._n d -> 0 <= v2 < SparseSet._n d ->
  SparseSet._indices d !! Z.to_nat v1 = Some i1 ->
  SparseSet._indices d !! Z.to_nat v2 = Some i2 ->
  ss_perm (ss_exchange d v1 v2 i1 i2).
Proof.
  intros Hperm Hv1 Hv2 Hi1 Hi2.
  pose proof Hperm as (Hn & Hlv & Hli & Hvi & Hiv).
  destruct (Hiv _ _ Hi1) as [Hi10 Hval1], (Hiv _ _ Hi2) as [Hi20 Hval2].
  rewrite Z2Nat.id in Hval1, Hval2 by lia.
  apply lookup_lt_Some in Hval1 as Hlt1. apply lookup_lt_Some in Hval2 as Hlt2.
  unfold ss_perm, ss_exchange. simpl. rewrite !length_insert.
  split; [done|]. split; [done|]. split; [done|]. split.
  - intros i v Hl.
    destruct (decide (i = Z.to_nat i2)) as [->|Hne2].
    + rewrite list_lookup_insert_eq in Hl by (rewrite length_insert; lia).
      injection Hl as <-. split; [lia|]. rewrite Z2Nat.id by lia.
      destruct (decide (v1 = v2)) as [->|Hne].
      * rewrite list_lookup_insert_eq by (rewrite length_insert; lia).
        congruence.
      * rewrite list_lookup_insert_ne by lia.
        by rewrite list_lookup_insert_eq by lia.
    + rewrite list_lookup_insert_ne in Hl by done.
      destruct (decide (i = Z.to_nat i1)) as [->|Hne1].
      * rewrite list_lookup_insert_eq in Hl by lia.
        injection Hl as <-. split; [lia|]. rewrite Z2Nat.id by lia.
        by rewrite list_lookup_insert_eq by (rewrite length_insert; lia).
      * rewrite list_lookup_insert_ne in Hl by done.
        destruct (Hvi _ _ Hl) as [Hv0 Hidx]. split; [done|].
        assert (v <> v1).
        { intros ->. rewrite Hi1 in Hidx. injection Hidx as ->. lia. }
        assert (v <> v2).
        { intros ->. rewrite Hi2 in Hidx. injection Hidx as ->. lia. }
        rewrite !list_lookup_insert_ne by lia. done.
  - intros v i Hl.
    destruct (decide (v = Z.to_nat v2)) as [->|Hne2].
    + rewrite list_lookup_insert_eq in Hl by (rewrite length_insert; lia).
      injection Hl as <-. split; [lia|]. rewrite Z2Nat.id by lia.
      destruct (decide (i1 = i2)) as [->|Hne].
      * rewrite list_lookup_insert_eq by (rewrite length_insert; lia).
        congruence.
      * rewrite list_lookup_insert_ne by lia.
        by rewrite list_lookup_insert_eq by lia.
    + rewrite list_lookup_insert_ne in Hl by done.
      destruct (decide (v = Z.to_nat v1)) as [->|Hne1].
      * rewrite list_lookup_insert_eq in Hl by lia.
        injection Hl as <-. split; [lia|]. rewrite Z2Nat.id by lia.
        by rewrite list_lookup_insert_eq by (rewrite length_insert; lia).
      * rewrite list_lookup_insert_ne in Hl by done.
        destruct (Hiv _ _ Hl) as [Hi0 Hval]. split; [done|].
        assert (i <> i1).
        { intros ->. rewrite Hval1 in Hval. injection Hval. lia. }
        assert (i <> i2).
        { intros ->. rewrite Hval2 in Hval. injection Hval. lia. }
        rewrite !list_lookup_insert_ne by lia. done.
Qed.

Lemma ss_exchange_index d (v1 v2 i1 i2 v : Z) :
  0 <= v -> 0 <= v1 -> 0 <= v2 ->
  SparseSet._indices d !! Z.to_nat v1 = Some i1 ->
  SparseSet._indices d !! Z.to_nat v2 = Some i2 ->
  SparseSet._indices (ss_exchange d v1 v2 i1 i2) !! Z.to_nat v =
  if decide (v = v2) then Some i1
  else if decide (v = v1) then Some i2
  else SparseSet._indices d !! Z.to_nat v.
Proof.
  intros Hv Hv1 Hv2 Hi1 Hi2. simpl.
  apply lookup_lt_Some in Hi1 as Hlt1. apply lookup_lt_Some in Hi2 as Hlt2.
  destruct (decide (v = v2)) as [->|Hne2].
  - by rewrite list_lookup_insert_eq by (rewrite length_insert; lia).
  - rewrite list_lookup_insert_ne by lia.
    destruct (decide (v = v1)) as [->|Hne1].
    + by rewrite list_lookup_insert_eq by lia.
    + by rewrite list_lookup_insert_ne by lia.
Qed.

(** *** The scans for a new bound *)

Lemma ss_scan_cons f (v : Z) (l : list Z) (s : SparseSet.St) (b : bool) :
  SparseSet.internal_contains v s = (Ret b, s) ->
  ss_scan f (v :: l) s
  = if b then (SparseSet.set f v ;; ret tt) s else ss_scan f l s.
Proof.
  intros E. unfold ss_scan. simpl. unfold bind at 1.
  rewrite (bind_run _ _ _ _ _ E). destruct b; [|done].
  unfold bind. by destruct (SparseSet.set f v s) as [[x|e|] s1].
Qed.

Lemma ss_scan_run f (l : list Z) (s : SparseSet.St) :
  ss_perm (snd s) -> wf (fst s) ->
  (Forall (fun u => ~ ss_below (snd s) (ss_size s) u) l /\
   ss_scan f l s = (Ret tt, s)) \/
  (exists l1 v l2 sm',
      l = l1 ++ v :: l2 /\
      Forall (fun u => ~ ss_below (snd s) (ss_size s) u) l1 /\
      ss_below (snd s) (ss_size s) v /\
      ss_scan f l s = (Ret tt, (sm', snd s)) /\
      wf sm' /\ snapshots sm' = snapshots (fst s) /\
      cell_values sm' = <[f (snd s) := v]> (cell_values (fst s))).
Proof.
  intros Hperm Hwf. induction l as [|v l IH]; [left; by split|].
  destruct (ss_internal_contains_run v s Hperm) as (b & E & Hb).
  rewrite (ss_scan_cons f v l s b E).
  destruct b.
  - right. destruct (ss_set_run f v s Hwf) as (sm' & E' & Hwf' & Hs' & Hv').
    rewrite (bind_run _ _ _ _ _ E').
    exists [], v, l, sm'. split; [done|]. split; [constructor|].
    split; [by apply Hb|]. done.
  - assert (Hnb : ~ ss_below (snd s) (ss_size s) v).
    { intros H. apply Hb in H. done. }
    destruct IH as [[Hall E']|(l1 & u & l2 & sm' & -> & Hall & Hu & E' & H)].
    + left. split; [by constructor|]. done.
    + right. exists (v :: l1), u, l2, sm'. split; [done|].
      split; [by constructor|]. done.
Qed.

Lemma elem_of_range a b u : u ∈ range a b <-> a <= u < b.
Proof. unfold range. rewrite elem_of_seqZ. lia. Qed.

Lemma elem_of_range_down a b u : u ∈ range_down a b <-> b < u <= a.
Proof.
  unfold range_down. rewrite list_elem_of_fmap. split.
  - intros (i & -> & Hi). apply elem_of_seqZ in Hi. lia.
  - intros Hu. exists (a - u). split; [lia|]. apply elem_of_seqZ. lia.
Qed.

(** In [range a b] the elements before [v] are below [v]; in
    [range_down a b] they are above [v]. *)
Lemma range_split a b l1 v l2 :
  range a b = l1 ++ v :: l2 -> forall u, u ∈ l1 <-> a <= u < v.
Proof.
  unfold range. intros H u.
  assert (Hlen : Z.of_nat (length l1) < b - a).
  { pose proof (f_equal length H) as HL.
    rewrite length_seqZ, length_app in HL. simpl in HL. lia. }
  assert (Hv : v = a + Z.of_nat (length l1)).
  { pose proof (f_equal (fun l => l !! length l1) H) as HL. simpl in HL.
    rewrite list_lookup_middle in HL by done.
    apply lookup_seqZ in HL. lia. }
  assert (Hl1 : l1 = seqZ a (Z.of_nat (length l1))).
  { replace (b - a)
      with (Z.of_nat (length l1) + (b - a - Z.of_nat (length l1))) in H by lia.
    rewrite seqZ_app in H by lia.
    apply app_inj_1 in H as [H1 _]; [done|]. rewrite length_seqZ. lia. }
  rewrite Hl1, elem_of_seqZ. lia.
Qed.

Lemma range_down_split a b l1 v l2 :
  range_down a b = l1 ++ v :: l2 -> forall u, u ∈ l1 <-> v < u <= a.
Proof.
  unfold range_down. intros H u.
  apply fmap_app_inv in H as (k1 & k2' & -> & H & Hk). symmetry in H.
  apply fmap_cons_inv in H as (i & k2 & -> & -> & ->).
  rewrite list_elem_of_fmap.
  pose proof (range_split 0 (a - b) k1 i k2) as Hr. unfold range in Hr.
  rewrite Z.sub_0_r in Hr. specialize (Hr Hk).
  split.
  - intros (j & -> & Hj). apply Hr in Hj. lia.
  - intros Hu. exists (a - u). split; [lia|]. apply Hr. lia.
Qed.

(** *** Removing a value *)

Lemma ss_nonempty_member d (k : Z) :
  ss_perm d -> 0 < k <= SparseSet._n d -> exists u, ss_below d k u.
Proof.
  intros Hperm Hk.
  destruct (ss_perm_value d 0 Hperm ltac:(lia)) as (u & Hu & Hur & Hidx).
  exists u. split; [lia|]. exists 0. split; [done|lia].
Qed.

Lemma ss_is_empty_run (s : SparseSet.St) :
  SparseSet.is_empty s = (Ret (ss_size s =? 0), s).
Proof. destruct s as [sm d]. reflexivity. Qed.

Lemma ss_internal_contains_pure (v : Z) (s : SparseSet.St) :
  snd (SparseSet.internal_contains v s) = s.
Proof.
  unfold SparseSet.internal_contains. apply pure_bind; [done|].
  intros n s1. destruct (_ || _); [done|].
  apply pure_bind.
  - intros s2. unfold SparseSet.indices_get. apply pure_bind; [done|].
    intros l s3. apply pure_getitem.
  - intros i s2. apply pure_bind; [by intros []|done].
Qed.

Lemma ss_assert_absent_pure (v : Z) (s : SparseSet.St) :
  snd (assert_ (c <- SparseSet.internal_contains v;; ret (negb c)) s) = s.
Proof.
  unfold assert_. apply pure_bind.
  - intros s1. apply pure_bind; [apply ss_internal_contains_pure|done].
  - intros b s1. by destruct b.
Qed.

Lemma ss_update_max_eq (val : Z) (s : SparseSet.St) :
  SparseSet.update_max_val_removed val s =
  if negb (ss_size s =? 0) && (value (SparseSet._max (snd s)) (fst s) =? val)
  then (assert_ (c <- SparseSet.internal_contains val;; ret (negb c)) ;;
        ss_scan SparseSet._max
          (range_down (val - 1) (value (SparseSet._min (snd s)) (fst s) - 1))) s
  else (Ret tt, s).
Proof.
  unfold SparseSet.update_max_val_removed.
  rewrite (bind_run _ _ _ _ _ (ss_is_empty_run s)).
  rewrite (bind_run _ _ _ _ _ (ss_get_run _ s)).
  destruct (negb _ && _); [|done].
  pose proof (ss_assert_absent_pure val s) as P. unfold bind in *.
  destruct (assert_ _ s) as [[[]|e|] s1]; simpl in P; subst; try done.
  by rewrite ss_get_run.
Qed.

Lemma ss_update_min_eq (val : Z) (s : SparseSet.St) :
  SparseSet.update_min_val_removed val s =
  if negb (ss_size s =? 0) && (value (SparseSet._min (snd s)) (fst s) =? val)
  then (assert_ (c <- SparseSet.internal_contains val;; ret (negb c)) ;;
        ss_scan SparseSet._min
          (range (val + 1) (value (SparseSet._max (snd s)) (fst s) + 1))) s
  else (Ret tt, s).
Proof.
  unfold SparseSet.update_min_val_removed.
  rewrite (bind_run _ _ _ _ _ (ss_is_empty_run s)).
  rewrite (bind_run _ _ _ _ _ (ss_get_run _ s)).
  destruct (negb _ && _); [|done].
  pose proof (ss_assert_absent_pure val s) as P. unfold bind in *.
  destruct (assert_ _ s) as [[[]|e|] s1]; simpl in P; subst; try done.
  by rewrite ss_get_run.
Qed.

Lemma ss_update_max_run (val : Z) sm d :
  let sz := ss_size (sm, d) in
  let mn := value (SparseSet._min d) sm in
  let mx := value (SparseSet._max d) sm in
  wf sm -> ss_refs (sm, d) -> ss_perm d -> 0 <= sz <= SparseSet._n d ->
  ~ ss_below d sz val ->
  (forall u, ss_below d sz u -> mn <= u <= mx) ->
  (0 < sz -> mx <> val -> ss_below d sz mx) ->
  exists sm',
    SparseSet.update_max_val_removed val (sm, d) = (Ret tt, (sm', d)) /\
    wf sm' /\ snapshots sm' = snapshots sm /\ n_cells sm' = n_cells sm /\
    (forall r, r <> SparseSet._max d -> value r sm' = value r sm) /\
    (0 < sz ->
     ss_below d sz (value (SparseSet._max d) sm') /\
     forall u, ss_below d sz u -> u <= value (SparseSet._max d) sm').
Proof.
  intros sz mn mx Hwf Hrefs Hperm Hsz Hval Hbnd Hmx.
  set (s := (sm, d)) in *.
  rewrite ss_update_max_eq. subst s. simpl snd. simpl fst. fold sz mx mn.
  set (s := (sm, d)) in *.
  destruct (sz =? 0) eqn:Ez; simpl negb; simpl andb.
  { apply Z.eqb_eq in Ez. exists sm. repeat split; try done; lia. }
  apply Z.eqb_neq in Ez. assert (Hpos : 0 < sz) by lia.
  destruct (mx =? val) eqn:Em.
  2:{ apply Z.eqb_neq in Em. exists sm. split; [done|].
      do 4 (split; [done|]). intros _. split; [by apply Hmx|].
      intros u Hu. by apply Hbnd. }
  apply Z.eqb_eq in Em.
  destruct (ss_internal_contains_run val s Hperm) as (b & E & Hb).
  assert (b = false) as ->.
  { destruct b; [|done]. exfalso. apply Hval. by apply Hb. }
  assert (Ea : assert_ (c <- SparseSet.internal_contains val;; ret (negb c)) s
               = (Ret tt, s)).
  { unfold assert_. unfold bind at 1. by rewrite (bind_run _ _ _ _ _ E). }
  rewrite (bind_run _ _ _ _ _ Ea).
  destruct (ss_nonempty_member d sz Hperm ltac:(lia)) as [u0 Hu0].
  assert (Hu0r : u0 ∈ range_down (val - 1) (mn - 1)).
  { apply elem_of_range_down. specialize (Hbnd _ Hu0).
    assert (u0 <> val) by (intros ->; done). lia. }
  destruct (ss_scan_run SparseSet._max (range_down (val - 1) (mn - 1)) s
              Hperm Hwf)
    as [[Hall _]|(l1 & v & l2 & sm' & Hsplit & Hall & Hv & E' & Hwf' & Hs' & Hv')].
  { exfalso. rewrite Forall_forall in Hall. by apply (Hall u0). }
  exists sm'. split; [done|]. split; [done|]. split; [done|].
  split; [by eapply n_cells_after_set|]. split.
  { intros r Hr. by apply (value_after_set_other _ _ _ _ _ (not_eq_sym Hr) Hv'). }
  intros _.
  assert (Hnew : value (SparseSet._max d) sm' = v).
  { destruct Hrefs as (_ & _ & Hr & _). apply (value_after_set _ _ _ _ Hr Hv'). }
  rewrite Hnew. split; [done|].
  intros u Hu. destruct (decide (u <= v)) as [|Hgt]; [done|]. exfalso.
  rewrite Forall_forall in Hall. apply (Hall u); [|done].
  apply (range_down_split _ _ _ _ _ Hsplit).
  specialize (Hbnd _ Hu). assert (u <> val) by (intros ->; done). lia.
Qed.

Lemma ss_update_min_run (val : Z) sm d :
  let sz := ss_size (sm, d) in
  let mn := value (SparseSet._min d) sm in
  let mx := value (SparseSet._max d) sm in
  wf sm -> ss_refs (sm, d) -> ss_perm d -> 0 <= sz <= SparseSet._n d ->
  ~ ss_below d sz val ->
  (forall u, ss_below d sz u -> mn <= u <= mx) ->
  (0 < sz -> mn <> val -> ss_below d sz mn) ->
  exists sm',
    SparseSet.update_min_val_removed val (sm, d) = (Ret tt, (sm', d)) /\
    wf sm' /\ snapshots sm' = snapshots sm /\ n_cells sm' = n_cells sm /\
    (forall r, r <> SparseSet._min d -> value r sm' = value r sm) /\
    (0 < sz ->
     ss_below d sz (value (SparseSet._min d) sm') /\
     forall u, ss_below d sz u -> value (SparseSet._min d) sm' <= u).
Proof.
  intros sz mn mx Hwf Hrefs Hperm Hsz Hval Hbnd Hmn.
  set (s := (sm, d)) in *.
  rewrite ss_update_min_eq. subst s. simpl snd. simpl fst. fold sz mx mn.
  set (s := (sm, d)) in *.
  destruct (sz =? 0) eqn:Ez; simpl negb; simpl andb.
  { apply Z.eqb_eq in Ez. exists sm. repeat split; try done; lia. }
  apply Z.eqb_neq in Ez. assert (Hpos : 0 < sz) by lia.
  destruct (mn =? val) eqn:Em.
  2:{ apply Z.eqb_neq in Em. exists sm. split; [done|].
      do 4 (split; [done|]). intros _. split; [by apply Hmn|].
      intros u Hu. by apply Hbnd. }
  apply Z.eqb_eq in Em.
  destruct (ss_internal_contains_run val s Hperm) as (b & E & Hb).
  assert (b = false) as ->.
  { destruct b; [|done]. exfalso. apply Hval. by apply Hb. }
  assert (Ea : assert_ (c <- SparseSet.internal_contains val;; ret (negb c)) s
               = (Ret tt, s)).
  { unfold assert_. unfold bind at 1. by rewrite (bind_run _ _ _ _ _ E). }
  rewrite (bind_run _ _ _ _ _ Ea).
  destruct (ss_nonempty_member d sz Hperm ltac:(lia)) as [u0 Hu0].
  assert (Hu0r : u0 ∈ range (val + 1) (mx + 1)).
  { apply elem_of_range. specialize (Hbnd _ Hu0).
    assert (u0 <> val) by (intros ->; done). lia. }
  destruct (ss_scan_run SparseSet._min (range (val + 1) (mx + 1)) s
              Hperm Hwf)
    as [[Hall _]|(l1 & v & l2 & sm' & Hsplit & Hall & Hv & E' & Hwf' & Hs' & Hv')].
  { exfalso. rewrite Forall_forall in Hall. by apply (Hall u0). }
  exists sm'. split; [done|]. split; [done|]. split; [done|].
  split; [by eapply n_cells_after_set|]. split.
  { intros r Hr. by apply (value_after_set_other _ _ _ _ _ (not_eq_sym Hr) Hv'). }
  intros _.
  assert (Hnew : value (SparseSet._min d) sm' = v).
  { destruct Hrefs as (_ & Hr & _). apply (value_after_set _ _ _ _ Hr Hv'). }
  rewrite Hnew. split; [done|].
  intros u Hu. destruct (decide (v <= u)) as [|Hgt]; [done|]. exfalso.
  rewrite Forall_forall in Hall. apply (Hall u); [|done].
  apply (range_split _ _ _ _ _ Hsplit).
  specialize (Hbnd _ Hu). assert (u <> val) by (intros ->; done). lia.
Qed.

Lemma ss_step_refl (s : SparseSet.St) : ss_step s s.
Proof.
  unfold ss_step. do 7 (split; [done|]). split; [lia|]. by split.
Qed.

Lemma ss_step_trans (s1 s2 s3 : SparseSet.St) :
  ss_step s1 s2 -> ss_step s2 s3 -> ss_step s1 s3.
Proof.
  intros (A1 & A2 & A3 & A4 & A5 & A6 & A7 & A8 & A9 & A10)
         (B1 & B2 & B3 & B4 & B5 & B6 & B7 & B8 & B9 & B10).
  unfold ss_step. do 7 (split; [congruence|]). split; [lia|]. split.
  - intros k u Hk. rewrite B9 by lia. by apply A9.
  - intros r H1 H2 H3. rewrite B10 by congruence. by apply A10.
Qed.

Lemma ss_field_run {A} (f : SparseSet.StateSparseSet -> A) (s : SparseSet.St) :
  SparseSet.field f s = (Ret (f (snd s)), s).
Proof. reflexivity. Qed.

Lemma ss_decrement_run sm d :
  wf sm ->
  exists sm',
    (r <- SparseSet.field SparseSet._size ;; lift_sm (decrement r)) (sm, d)
    = (Ret (value (SparseSet._size d) sm - 1), (sm', d)) /\
    wf sm' /\ snapshots sm' = snapshots sm /\
    cell_values sm'
    = <[SparseSet._size d := value (SparseSet._size d) sm - 1]> (cell_values sm).
Proof.
  intros Hwf.
  destruct (set_value_run (SparseSet._size d) (value (SparseSet._size d) sm - 1)
              sm Hwf) as (sm' & E & H).
  exists sm'. split; [|done].
  unfold SparseSet.field, decrement, lift_sm, bind, gets. simpl. by rewrite E.
Qed.

(** Where the values sit after the value [val] at position [i] has been
    exchanged with the value [last] at position [k - 1]. *)
Lemma ss_exchange_below d (val last i k : Z) :
  ss_perm d -> 0 <= val -> 0 <= last ->
  SparseSet._indices d !! Z.to_nat val = Some i ->
  SparseSet._indices d !! Z.to_nat last = Some (k - 1) ->
  i < k ->
  let d1 := ss_exchange d val last i (k - 1) in
  (forall u, ss_below d1 (k - 1) u <-> ss_below d k u /\ u <> val) /\
  (forall j u, k <= j -> ss_below d1 j u <-> ss_below d j u).
Proof.
  intros Hperm Hval Hlast Hi Hk Hlt d1.
  pose proof Hperm as (Hn & Hlv & Hli & Hvi & Hiv).
  assert (Hinj : forall u, 0 <= u ->
            SparseSet._indices d !! Z.to_nat u = Some (k - 1) -> u = last).
  { intros u Hu Hx. destruct (Hiv _ _ Hx) as [_ H1], (Hiv _ _ Hk) as [_ H2].
    rewrite H1 in H2. injection H2. lia. }
  assert (Hidx : forall u, 0 <= u ->
            SparseSet._indices d1 !! Z.to_nat u =
            if decide (u = last) then Some i
            else if decide (u = val) then Some (k - 1)
            else SparseSet._indices d !! Z.to_nat u).
  { intros u Hu. by apply ss_exchange_index. }
  split.
  - intros u. unfold ss_below. split.
    + intros (Hu & j & Hj & Hjk). rewrite (Hidx u Hu) in Hj.
      destruct (decide (u = last)) as [->|Hne1].
      * injection Hj as <-. split; [|intros ->; rewrite Hi in Hk;
                                      injection Hk; lia].
        split; [done|]. exists (k - 1). split; [done|lia].
      * destruct (decide (u = val)) as [->|Hne2]; [injection Hj; lia|].
        split; [|done]. split; [done|]. exists j. split; [done|lia].
    + intros [(Hu & j & Hj & Hjk) Hne]. split; [done|].
      rewrite (Hidx u Hu).
      destruct (decide (u = last)) as [->|Hne1]; [exists i; split; [done|]|].
      * assert (i <> k - 1); [|lia]. intros ->. apply Hne.
        symmetry. by apply Hinj.
      * destruct (decide (u = val)) as [->|_]; [done|].
        exists j. split; [done|]. assert (j <> k - 1); [|lia].
        intros ->. apply Hne1. by apply Hinj.
  - intros j u Hj. unfold ss_below. split.
    + intros (Hu & p & Hp & Hpj). split; [done|]. rewrite (Hidx u Hu) in Hp.
      destruct (decide (u = last)) as [->|Hne1];
        [exists (k - 1); split; [done|lia]|].
      destruct (decide (u = val)) as [->|Hne2];
        [exists i; split; [done|lia]|].
      by exists p.
    + intros (Hu & p & Hp & Hpj). split; [done|]. rewrite (Hidx u Hu).
      destruct (decide (u = last)) as [->|Hne1];
        [exists i; split; [done|lia]|].
      destruct (decide (u = val)) as [->|Hne2];
        [exists (k - 1); split; [done|lia]|].
      by exists p.
Qed.

Lemma ss_remove_run (v : Z) (s : SparseSet.St) :
  ss_ok s ->
  exists b s',
    SparseSet.remove v s = (Ret b, s') /\ ss_ok s' /\ ss_step s s' /\
    (b = true <-> v ∈ ss_elems s) /\
    (forall u, u ∈ ss_elems s' <-> u ∈ ss_elems s /\ u <> v) /\
    ss_size s' = ss_size s - (if b then 1 else 0).
Proof.
  intros Hok. pose proof Hok as (Hwf & Hrefs & Hperm & Hsz & Hbnd).
  destruct (ss_contains_run v s Hperm ltac:(lia)) as (b & Ec & Hb).
  unfold SparseSet.remove. rewrite (bind_run _ _ _ _ _ Ec).
  destruct b; cbn [negb].
  2:{ exists false, s. split; [done|]. split; [done|].
      split; [apply ss_step_refl|]. split; [done|]. split; [|lia].
      intros u. split; [|by intros [? _]]. intros Hu. split; [done|].
      intros ->. apply Hb in Hu. done. }
  assert (Hv : v ∈ ss_elems s) by (by apply Hb).
  destruct s as [sm d]. unfold ss_size in Hsz, Hbnd.
  simpl in Hwf, Hperm, Hsz, Hbnd.
  set (ofs := SparseSet._ofs d) in *. set (val := v - ofs).
  set (sz := value (SparseSet._size d) sm) in *.
  set (mn := value (SparseSet._min d) sm) in *.
  set (mx := value (SparseSet._max d) sm) in *.
  assert (Hsz' : 0 <= ss_size (sm, d)) by (unfold ss_size; simpl; lia).
  apply (ss_elems_below (sm, d) v Hperm Hsz') in Hv as Hval.
  unfold ss_size in Hval. simpl in Hval. fold ofs val sz in Hval.
  pose proof (ss_below_range _ _ _ Hperm Hval) as Hvr.
  destruct Hval as (_ & i & Hi & Hisz).
  pose proof Hperm as (Hn & Hlv & Hli & Hvi & Hiv).
  destruct (Hiv _ _ Hi) as [Hi0 _].
  destruct (ss_perm_value d (sz - 1) Hperm ltac:(lia))
    as (last & Hlast & Hlr & Hlidx).
  rewrite (bind_run _ _ _ _ _ (ss_field_run _ _)). simpl snd. fold ofs val.
  erewrite bind_run by (apply ss_check_val_run; simpl; lia).
  unfold SparseSet.size at 1.
  rewrite (bind_run _ _ _ _ _ (ss_get_run _ _)). simpl snd. simpl fst.
  change (value (SparseSet._size d) sm) with sz.
  erewrite bind_run by (apply ss_values_get_run; [lia|exact Hlast]).
  erewrite bind_run
    by (apply (ss_exchange_run sm d val last i (sz - 1)); done || lia).
  set (d1 := ss_exchange d val last i (sz - 1)).
  destruct (ss_decrement_run sm d1 Hwf) as (sm1 & E1 & Hwf1 & Hs1 & Hv1).
  rewrite (bind_run _ _ _ _ _ E1).
  change (SparseSet._size d1) with (SparseSet._size d) in Hv1.
  change (value (SparseSet._size d) sm) with sz in Hv1.
  destruct Hrefs as (Hr1 & Hr2 & Hr3 & Hd1 & Hd2 & Hd3). simpl in *.
  assert (Hperm1 : ss_perm d1) by (apply ss_exchange_perm; done || lia).
  destruct (ss_exchange_below d val last i sz Hperm ltac:(lia) ltac:(lia)
              Hi Hlidx Hisz) as [Hmem1 Hstab].
  fold d1 in Hmem1, Hstab.
  assert (Hn1 : n_cells sm1 = n_cells sm) by (by eapply n_cells_after_set).
  assert (Hsz1 : value (SparseSet._size d) sm1 = sz - 1)
    by (by eapply value_after_set).
  assert (Hmn1 : value (SparseSet._min d) sm1 = mn)
    by (apply (value_after_set_other _ _ _ _ _ Hd1 Hv1)).
  assert (Hmx1 : value (SparseSet._max d) sm1 = mx)
    by (apply (value_after_set_other _ _ _ _ _ Hd2 Hv1)).
  assert (Hrefs1 : ss_refs (sm1, d1)).
  { unfold ss_refs. simpl. rewrite Hn1. done. }
  assert (Hbnd0 : 0 < sz) by lia. destruct (Hbnd Hbnd0) as (Hmnm & Hmxm & Hall).
  unfold SparseSet.update_bounds_val_removed.
  destruct (ss_update_max_run val sm1 d1 Hwf1 Hrefs1 Hperm1)
    as (sm2 & E2 & Hwf2 & Hs2 & Hn2 & Hfr2 & Hmax2).
  { unfold ss_size. simpl. rewrite Hsz1. lia. }
  { unfold ss_size. simpl. rewrite Hsz1. intros H. apply Hmem1 in H. tauto. }
  { unfold ss_size. simpl. rewrite Hsz1, Hmn1, Hmx1.
    intros u Hu. apply Hmem1 in Hu as [Hu _]. by apply Hall. }
  { unfold ss_size. simpl. rewrite Hsz1, Hmx1. intros _ Hne.
    apply Hmem1. by split. }
  unfold ss_size in Hmax2. simpl in Hmax2. rewrite Hsz1 in Hmax2.
  assert (Hrefs2 : ss_refs (sm2, d1)).
  { unfold ss_refs. simpl. rewrite Hn2, Hn1. done. }
  assert (Hsz2 : value (SparseSet._size d) sm2 = sz - 1)
    by (rewrite Hfr2 by done; done).
  assert (Hmn2 : value (SparseSet._min d) sm2 = mn)
    by (rewrite Hfr2 by done; done).
  destruct (ss_update_min_run val sm2 d1 Hwf2 Hrefs2 Hperm1)
    as (sm3 & E3 & Hwf3 & Hs3 & Hn3 & Hfr3 & Hmin3).
  { unfold ss_size. simpl. rewrite Hsz2. lia. }
  { unfold ss_size. simpl. rewrite Hsz2. intros H. apply Hmem1 in H. tauto. }
  { unfold ss_size. simpl. rewrite Hsz2, Hmn2.
    intros u Hu. split.
    - apply Hmem1 in Hu as [Hu _]. by apply Hall.
    - destruct (decide (0 < sz - 1)) as [Hp|Hp].
      + by apply (proj2 (Hmax2 Hp)).
      + destruct Hu as (_ & j & Hj & Hjlt).
        destruct (proj2 (proj2 (proj2 Hperm1)) ) as [_ Hiv1].
        destruct (Hiv1 _ _ Hj) as [? _]. lia. }
  { unfold ss_size. simpl. rewrite Hsz2, Hmn2. intros _ Hne.
    apply Hmem1. by split. }
  unfold ss_size in Hmin3. simpl in Hmin3. rewrite Hsz2 in Hmin3.
  assert (Hsz3 : value (SparseSet._size d) sm3 = sz - 1)
    by (rewrite Hfr3 by done; done).
  assert (Hmx3 : value (SparseSet._max d) sm3 = value (SparseSet._max d) sm2)
    by (by rewrite Hfr3 by done).
  unfold bind at 1. unfold bind at 1. rewrite E2. rewrite E3.
  exists true, (sm3, d1). split; [done|].
  assert (Helems : forall u, u ∈ ss_elems (sm3, d1) <->
                             u ∈ ss_elems (sm, d) /\ u <> v).
  { intros u.
    rewrite (ss_elems_below (sm3, d1) u Hperm1)
      by (unfold ss_size; simpl; lia).
    rewrite (ss_elems_below (sm, d) u Hperm Hsz').
    unfold ss_size. simpl. rewrite Hsz3. fold sz ofs.
    rewrite Hmem1. unfold val. split; intros [? ?]; (split; [done|lia]). }
  split; [|split; [|split; [done|split; [done|]]]].
  - unfold ss_ok, ss_size. simpl. rewrite Hsz3, Hmx3.
    split; [done|]. split; [unfold ss_refs; simpl; by rewrite Hn3, Hn2, Hn1|].
    split; [done|]. split; [lia|]. intros Hp.
    destruct (Hmax2 Hp) as [Hm1 Hm2], (Hmin3 Hp) as [Hm3 Hm4].
    split; [done|]. split; [done|]. intros u Hu. split; [by apply Hm4|by apply Hm2].
  - unfold ss_step, ss_size. simpl. rewrite Hsz3.
    do 5 (split; [done|]). split; [congruence|]. split; [congruence|].
    split; [fold sz; lia|]. split.
    + intros k u Hk. by apply Hstab.
    + intros r H1 H2 H3. rewrite Hfr3, Hfr2 by done.
      apply (value_after_set_other _ _ _ _ _ (not_eq_sym H1) Hv1).
  - unfold ss_size at 1. simpl. rewrite Hsz3. done.
Qed.

(** *** The constructor *)

Lemma ss_perm_init (n ofs : Z) (r1 r2 r3 : nat) :
  0 <= n -> ss_perm (SparseSet.mk n ofs r1 r2 r3 (range 0 n) (range 0 n)).
Proof.
  intros Hn. unfold ss_perm, range. simpl. rewrite Z.sub_0_r, length_seqZ.
  split; [done|]. split; [done|]. split; [done|]. split.
  - intros i v Hl. apply lookup_seqZ in Hl as [-> Hi].
    rewrite Z.add_0_l, Nat2Z.id. split; [lia|]. apply lookup_seqZ. lia.
  - intros v i Hl. apply lookup_seqZ in Hl as [-> Hi].
    rewrite Z.add_0_l, Nat2Z.id. split; [lia|]. apply lookup_seqZ. lia.
Qed.

Lemma ss_init_run (n ofs : Z) sm :
  wf sm -> 0 <= n ->
  exists sm' d,
    SparseSet.init n ofs sm = (Ret d, sm') /\ ss_ok (sm', d) /\
    ss_elems (sm', d) = range ofs (ofs + n) /\
    SparseSet._n d = n /\ SparseSet._ofs d = ofs /\
    Forall2 prefix (snapshots sm) (snapshots sm') /\
    length (snapshots sm') = length (snapshots sm) /\
    cell_values sm' = cell_values sm ++ [n; 0; n - 1].
Proof.
  intros Hwf Hn.
  destruct (make_state_ref_spec n sm Hwf) as (s1 & E1 & W1 & P1 & L1 & V1).
  destruct (make_state_ref_spec 0 s1 W1) as (s2 & E2 & W2 & P2 & L2 & V2).
  destruct (make_state_ref_spec (n - 1) s2 W2) as (s3 & E3 & W3 & P3 & L3 & V3).
  unfold SparseSet.init, make_state_int, bind. rewrite E1, E2, E3. simpl.
  eexists _, _. split; [reflexivity|].
  assert (N1 : n_cells s1 = S (n_cells sm)).
  { rewrite !n_cells_cell_values, V1, length_app. simpl. lia. }
  assert (N2 : n_cells s2 = S (S (n_cells sm))).
  { rewrite (n_cells_cell_values s2), V2, length_app, <- n_cells_cell_values.
    simpl. lia. }
  assert (N3 : n_cells s3 = S (S (S (n_cells sm)))).
  { rewrite (n_cells_cell_values s3), V3, length_app, <- n_cells_cell_values.
    simpl. lia. }
  assert (V : cell_values s3 = cell_values sm ++ [n; 0; n - 1]).
  { rewrite V3, V2, V1, <- !app_assoc. done. }
  assert (Hsize : value (n_cells sm) s3 = n).
  { rewrite value_cell_values, V, n_cells_cell_values.
    by rewrite list_lookup_middle. }
  assert (Hmin : value (n_cells s1) s3 = 0).
  { rewrite value_cell_values, V, N1, n_cells_cell_values.
    rewrite lookup_app_r by lia.
    by replace (S (length (cell_values sm)) - length (cell_values sm))%nat
      with 1%nat by lia. }
  assert (Hmax : value (n_cells s2) s3 = n - 1).
  { rewrite value_cell_values, V, N2, n_cells_cell_values.
    rewrite lookup_app_r by lia.
    by replace (S (S (length (cell_values sm))) - length (cell_values sm))%nat
      with 2%nat by lia. }
  split; [|split; [|split; [done|split; [done|split; [|split; [|done]]]]]].
  - unfold ss_ok, ss_size. simpl. rewrite Hsize, Hmin, Hmax.
    split; [done|].
    split; [unfold ss_refs; simpl; rewrite N3, N2, N1; repeat split; lia|].
    split; [by apply ss_perm_init|]. split; [lia|]. intros Hp.
    assert (Hb : forall v, ss_below
                   (SparseSet.mk n ofs (n_cells sm) (n_cells s1) (n_cells s2)
                      (range 0 n) (range 0 n)) n v <-> 0 <= v < n).
    { intros v. unfold ss_below, range. simpl. rewrite Z.sub_0_r. split.
      - intros (Hv & i & Hi & Hlt). apply lookup_seqZ in Hi. lia.
      - intros Hv. split; [lia|]. exists v. split; [|lia].
        rewrite lookup_seqZ. lia. }
    split; [apply Hb; lia|]. split; [apply Hb; lia|].
    intros v Hv. apply Hb in Hv. lia.
  - unfold ss_elems, ss_size, range. simpl. rewrite Hsize, Z.sub_0_r.
    rewrite take_ge by (rewrite length_seqZ; lia).
    replace (ofs + n - ofs) with n by lia.
    transitivity (Z.add ofs <$> seqZ 0 n);
      [apply list_fmap_ext; intros i x _; lia|].
    rewrite fmap_add_seqZ. f_equal. lia.
  - assert (P12 : Forall2 prefix (snapshots sm) (snapshots s2)).
    { eapply Forall2_trans; [|exact P1|exact P2]. intros x y z ? ?. by etrans. }
    eapply Forall2_trans; [|exact P12|exact P3]. intros x y z ? ?. by etrans.
  - congruence.
Qed.

(** *** [remove_all] and [remove_all_but] *)

Lemma ss_remove_all_run (s : SparseSet.St) :
  ss_ok s ->
  exists s', SparseSet.remove_all s = (Ret tt, s') /\ ss_ok s' /\
             ss_step s s' /\ ss_elems s' = [].
Proof.
  intros (Hwf & Hrefs & Hperm & Hsz & Hbnd). destruct s as [sm d].
  destruct (ss_set_run SparseSet._size 0 (sm, d) Hwf)
    as (sm' & E & Hwf' & Hs' & Hv').
  simpl in *. destruct Hrefs as (Hr1 & Hr2 & Hr3 & Hd1 & Hd2 & Hd3).
  simpl in *.
  assert (Hsize : value (SparseSet._size d) sm' = 0)
    by (by eapply value_after_set).
  exists (sm', d). unfold SparseSet.remove_all.
  rewrite (bind_run _ _ _ _ _ E). split; [done|].
  split; [|split].
  - unfold ss_ok, ss_size. simpl. rewrite Hsize.
    split; [done|]. split.
    { unfold ss_refs. simpl. rewrite (n_cells_after_set _ _ _ _ Hv'). done. }
    split; [done|]. split; [unfold ss_perm in Hperm; lia|]. lia.
  - unfold ss_step, ss_size. simpl. rewrite Hsize.
    do 5 (split; [done|]). split; [done|].
    split; [by eapply n_cells_after_set|].
    split; [unfold ss_size in Hsz; simpl in Hsz; lia|]. split; [done|].
    intros r H1 _ _.
    apply (value_after_set_other _ _ _ _ _ (not_eq_sym H1) Hv').
  - unfold ss_elems, ss_size. simpl. by rewrite Hsize.
Qed.

Lemma ss_min_run (s : SparseSet.St) :
  SparseSet.min s =
  (if ss_size s =? 0 then Raise ValueError
   else Ret (value (SparseSet._min (snd s)) (fst s) + SparseSet._ofs (snd s)),
   s).
Proof.
  destruct s as [sm d].
  unfold SparseSet.min, SparseSet.is_empty, SparseSet.get, SparseSet.field,
    bind, gets, lift_sm, ss_size. simpl.
  by destruct (value (SparseSet._size d) sm =? 0).
Qed.

Lemma ss_max_run (s : SparseSet.St) :
  SparseSet.max s =
  (if ss_size s =? 0 then Raise ValueError
   else Ret (value (SparseSet._max (snd s)) (fst s) + SparseSet._ofs (snd s)),
   s).
Proof.
  destruct s as [sm d].
  unfold SparseSet.max, SparseSet.is_empty, SparseSet.get, SparseSet.field,
    bind, gets, lift_sm, ss_size. simpl.
  by destruct (value (SparseSet._size d) sm =? 0).
Qed.

(** The recorded bounds are the least and the greatest value. *)
Lemma ss_bounds (s : SparseSet.St) :
  ss_ok s -> 0 < ss_size s ->
  let mn := value (SparseSet._min (snd s)) (fst s) + SparseSet._ofs (snd s) in
  let mx := value (SparseSet._max (snd s)) (fst s) + SparseSet._ofs (snd s) in
  mn ∈ ss_elems s /\ mx ∈ ss_elems s /\
  forall u, u ∈ ss_elems s -> mn <= u <= mx.
Proof.
  intros (Hwf & Hrefs & Hperm & Hsz & Hbnd) Hp mn mx.
  destruct (Hbnd Hp) as (H1 & H2 & H3).
  rewrite !(ss_elems_below s _ Hperm) by lia.
  unfold mn, mx.
  replace (value (SparseSet._min s.2) s.1 + SparseSet._ofs s.2
           - SparseSet._ofs s.2) with (value (SparseSet._min s.2) s.1) by lia.
  replace (value (SparseSet._max s.2) s.1 + SparseSet._ofs s.2
           - SparseSet._ofs s.2) with (value (SparseSet._max s.2) s.1) by lia.
  split; [done|]. split; [done|]. intros u Hu.
  apply (ss_elems_below s _ Hperm) in Hu; [|lia]. apply H3 in Hu. lia.
Qed.

Lemma ss_remove_all_but_run (v : Z) (s : SparseSet.St) :
  ss_ok s ->
  (v ∉ ss_elems s -> SparseSet.remove_all_but v s = (Raise AssertionError, s)) /\
  (v ∈ ss_elems s ->
   exists s', SparseSet.remove_all_but v s = (Ret tt, s') /\ ss_ok s' /\
              ss_step s s' /\ ss_elems s' = [v]).
Proof.
  intros Hok. pose proof Hok as (Hwf & Hrefs & Hperm & Hsz & Hbnd).
  destruct (ss_contains_run v s Hperm ltac:(lia)) as (b & Ec & Hb).
  unfold SparseSet.remove_all_but.
  assert (Ea : assert_ (SparseSet.contains v) s
               = (if b then Ret tt else Raise AssertionError, s)).
  { unfold assert_. rewrite (bind_run _ _ _ _ _ Ec). by destruct b. }
  split.
  { intros Hv. assert (b = false) as ->.
    { destruct b; [|done]. exfalso. by apply Hv, Hb. }
    unfold bind at 1. by rewrite Ea. }
  intros Hv. assert (b = true) as -> by (by apply Hb).
  rewrite (bind_run _ _ _ _ _ Ea).
  destruct s as [sm d]. unfold ss_size in Hsz, Hbnd.
  simpl in Hwf, Hperm, Hsz, Hbnd.
  set (ofs := SparseSet._ofs d) in *. set (val := v - ofs).
  set (sz := value (SparseSet._size d) sm) in *.
  assert (Hsz' : 0 <= ss_size (sm, d)) by (unfold ss_size; simpl; lia).
  apply (ss_elems_below (sm, d) v Hperm Hsz') in Hv as Hval.
  unfold ss_size in Hval. simpl in Hval. fold ofs val sz in Hval.
  pose proof (ss_below_range _ _ _ Hperm Hval) as Hvr.
  destruct Hval as (_ & i & Hi & Hisz).
  pose proof Hperm as (Hn & Hlv & Hli & Hvi & Hiv).
  destruct (Hiv _ _ Hi) as [Hi0 Hvali]. rewrite Z2Nat.id in Hvali by lia.
  destruct (ss_perm_value d 0 Hperm ltac:(lia)) as (v0 & Hv0 & Hv0r & Hv0i).
  rewrite (bind_run _ _ _ _ _ (ss_field_run _ _)). simpl snd. fold ofs val.
  erewrite bind_run by (apply ss_check_val_run; simpl; lia).
  erewrite bind_run by (apply ss_values_get_run; [lia|exact Hv0]).
  erewrite bind_run by (apply ss_indices_get_run; [lia|exact Hi]).
  erewrite bind_run by (apply ss_indices_set_run; lia).
  erewrite bind_run by (apply ss_values_set_run; simpl; lia).
  erewrite bind_run
    by (apply ss_indices_set_run; simpl; rewrite length_insert; lia).
  erewrite bind_run
    by (apply ss_values_set_run; simpl; rewrite length_insert; lia).
  unfold ss_with_values, ss_with_indices. simpl.
  set (d1 := SparseSet.mk _ _ _ _ _ _ _).
  assert (Hd1 : d1 = ss_exchange d val v0 i 0).
  { unfold d1, ss_exchange. f_equal. simpl.
    destruct (decide (i = 0)) as [->|Hne].
    - assert (v0 = val) as -> by congruence. done.
    - apply list_insert_insert_ne. lia. }
  clearbody d1. subst d1.
  set (d1 := ss_exchange d val v0 i 0).
  assert (Hperm1 : ss_perm d1) by (apply ss_exchange_perm; done || lia).
  assert (Hidx : forall u, 0 <= u ->
            SparseSet._indices d1 !! Z.to_nat u =
            if decide (u = v0) then Some i
            else if decide (u = val) then Some 0
            else SparseSet._indices d !! Z.to_nat u).
  { intros u Hu. apply ss_exchange_index; done || lia. }
  assert (Hone : forall u, ss_below d1 1 u <-> u = val).
  { intros u. split.
    - intros (Hu & j & Hj & Hj1).
      destruct (proj2 (proj2 (proj2 (proj2 Hperm1))) _ _ Hj) as [Hj0 Hvj].
      assert (j = 0) as -> by lia. simpl in Hvj.
      rewrite list_lookup_insert_eq in Hvj
        by (rewrite length_insert; lia).
      injection Hvj. lia.
    - intros ->. split; [lia|]. exists 0. split; [|lia].
      rewrite Hidx by lia. destruct (decide (val = v0)) as [->|_].
      + congruence.
      + by rewrite decide_True. }
  assert (Hstab : forall k u, sz <= k -> ss_below d1 k u <-> ss_below d k u).
  { intros k u Hk. unfold ss_below. split.
    - intros (Hu & p & Hp & Hpk). split; [done|]. rewrite Hidx in Hp by done.
      destruct (decide (u = v0)) as [->|?]; [exists 0; split; [done|lia]|].
      destruct (decide (u = val)) as [->|?]; [exists i; split; [done|lia]|].
      by exists p.
    - intros (Hu & p & Hp & Hpk). split; [done|]. rewrite Hidx by done.
      destruct (decide (u = v0)) as [->|?]; [exists i; split; [done|lia]|].
      destruct (decide (u = val)) as [->|?]; [exists 0; split; [done|lia]|].
      by exists p. }
  destruct Hrefs as (Hr1 & Hr2 & Hr3 & Hne1 & Hne2 & Hne3). simpl in *.
  destruct (ss_set_run SparseSet._min val (sm, d1) Hwf)
    as (sm1 & E1 & Hwf1 & Hs1 & Hv1).
  rewrite (bind_run _ _ _ _ _ E1).
  destruct (ss_set_run SparseSet._max val (sm1, d1) Hwf1)
    as (sm2 & E2 & Hwf2 & Hs2 & Hv2).
  rewrite (bind_run _ _ _ _ _ E2).
  destruct (ss_set_run SparseSet._size 1 (sm2, d1) Hwf2)
    as (sm3 & E3 & Hwf3 & Hs3 & Hv3).
  rewrite (bind_run _ _ _ _ _ E3). simpl in *.
  pose proof (n_cells_after_set _ _ _ _ Hv1) as N1.
  pose proof (n_cells_after_set _ _ _ _ Hv2) as N2.
  pose proof (n_cells_after_set _ _ _ _ Hv3) as N3.
  assert (Hsize : value (SparseSet._size d) sm3 = 1).
  { apply (value_after_set _ _ _ _ ltac:(rewrite N2, N1; exact Hr1) Hv3). }
  assert (Hmax : value (SparseSet._max d) sm3 = val).
  { rewrite (value_after_set_other _ _ _ _ _ Hne2 Hv3).
    apply (value_after_set _ _ _ _ ltac:(rewrite N1; exact Hr3) Hv2). }
  assert (Hmin : value (SparseSet._min d) sm3 = val).
  { rewrite (value_after_set_other _ _ _ _ _ Hne1 Hv3).
    rewrite (value_after_set_other _ _ _ _ _ (not_eq_sym Hne3) Hv2).
    apply (value_after_set _ _ _ _ Hr2 Hv1). }
  exists (sm3, d1). split; [done|]. split; [|split].
  - unfold ss_ok, ss_size. simpl. rewrite Hsize, Hmin, Hmax.
    split; [done|].
    split; [unfold ss_refs; simpl; by rewrite N3, N2, N1|].
    split; [done|]. split; [lia|]. intros _.
    split; [by apply Hone|]. split; [by apply Hone|].
    intros u Hu. apply Hone in Hu. lia.
  - unfold ss_step, ss_size. simpl. rewrite Hsize.
    do 5 (split; [done|]). split; [congruence|]. split; [congruence|].
    split; [fold sz; lia|]. split; [by apply Hstab|].
    intros r H1 H2 H3.
    rewrite (value_after_set_other _ _ _ _ _ (not_eq_sym H1) Hv3).
    rewrite (value_after_set_other _ _ _ _ _ (not_eq_sym H3) Hv2).
    apply (value_after_set_other _ _ _ _ _ (not_eq_sym H2) Hv1).
  - unfold ss_elems, ss_size. simpl. rewrite Hsize.
    change (Z.to_nat 1) with 1%nat.
    destruct (<[Z.to_nat 0:=val]> (<[Z.to_nat i:=v0]> (SparseSet._values d)))
      as [|x l] eqn:El.
    { exfalso. apply (f_equal length) in El.
      rewrite !length_insert in El. simpl in El. lia. }
    simpl. rewrite ?take_0. simpl.
    assert (x = val) as ->.
    { pose proof (f_equal (fun l => l !! 0%nat) El) as H. simpl in H.
      rewrite list_lookup_insert_eq in H by (rewrite length_insert; lia).
      by injection H. }
    f_equal. unfold val, ofs. lia.
Qed.

(** *** [remove_below] and [remove_above] *)

Lemma ss_remove_each_run (l : list Z) : forall s : SparseSet.St,
  ss_ok s ->
  exists s',
    for_each l (fun v => SparseSet.remove v ;; ret tt) s = (Ret tt, s') /\
    ss_ok s' /\ ss_step s s' /\
    forall u, u ∈ ss_elems s' <-> u ∈ ss_elems s /\ u ∉ l.
Proof.
  induction l as [|v l IH]; intros s Hok; simpl.
  - exists s. split; [done|]. split; [done|]. split; [apply ss_step_refl|].
    intros u. split; [|by intros [? _]]. intros Hu. split; [done|].
    apply not_elem_of_nil.
  - destruct (ss_remove_run v s Hok) as (b & s1 & E1 & Hok1 & Hst1 & _ & He1 & _).
    destruct (IH s1 Hok1) as (s2 & E2 & Hok2 & Hst2 & He2).
    exists s2. unfold bind at 1. rewrite (bind_run _ _ _ _ _ E1).
    simpl. rewrite E2. split; [done|]. split; [done|].
    split; [by eapply ss_step_trans|].
    intros u. rewrite He2, He1, not_elem_of_cons. tauto.
Qed.

Lemma ss_remove_below_run (bound : Z) (s : SparseSet.St) :
  ss_ok s ->
  (ss_size s = 0 -> SparseSet.remove_below bound s = (Raise ValueError, s)) /\
  (0 < ss_size s ->
   exists s', SparseSet.remove_below bound s = (Ret tt, s') /\ ss_ok s' /\
     ss_step s s' /\
     forall u, u ∈ ss_elems s' <-> u ∈ ss_elems s /\ bound <= u).
Proof.
  intros Hok. unfold SparseSet.remove_below. split.
  { intros Hz. unfold bind. rewrite ss_max_run, Hz. done. }
  intros Hp. pose proof (ss_bounds s Hok Hp) as (Hmn & Hmx & Hall).
  cbv zeta in *.
  set (mn := value (SparseSet._min s.2) s.1 + SparseSet._ofs s.2) in *.
  set (mx := value (SparseSet._max s.2) s.1 + SparseSet._ofs s.2) in *.
  assert (Emax : SparseSet.max s = (Ret mx, s)).
  { rewrite ss_max_run. by replace (ss_size s =? 0) with false
      by (symmetry; apply Z.eqb_neq; lia). }
  assert (Emin : SparseSet.min s = (Ret mn, s)).
  { rewrite ss_min_run. by replace (ss_size s =? 0) with false
      by (symmetry; apply Z.eqb_neq; lia). }
  rewrite (bind_run _ _ _ _ _ Emax).
  destruct (mx <? bound) eqn:E.
  - apply Z.ltb_lt in E.
    destruct (ss_remove_all_run s Hok) as (s' & E' & Hok' & Hst & He).
    exists s'. split; [done|]. split; [done|]. split; [done|].
    intros u. rewrite He. split; [by intros ?%elem_of_nil|].
    intros [Hu ?]. apply Hall in Hu. lia.
  - apply Z.ltb_ge in E. rewrite (bind_run _ _ _ _ _ Emin).
    destruct (ss_remove_each_run (range mn bound) s Hok)
      as (s' & E' & Hok' & Hst & He).
    exists s'. split; [done|]. split; [done|]. split; [done|].
    intros u. rewrite He, elem_of_range. split.
    + intros [Hu Hr]. split; [done|]. apply Hall in Hu. lia.
    + intros [Hu Hr]. split; [done|]. lia.
Qed.

Lemma ss_remove_above_run (bound : Z) (s : SparseSet.St) :
  ss_ok s ->
  (ss_size s = 0 -> SparseSet.remove_above bound s = (Raise ValueError, s)) /\
  (0 < ss_size s ->
   exists s', SparseSet.remove_above bound s = (Ret tt, s') /\ ss_ok s' /\
     ss_step s s' /\
     forall u, u ∈ ss_elems s' <-> u ∈ ss_elems s /\ u <= bound).
Proof.
  intros Hok. unfold SparseSet.remove_above. split.
  { intros Hz. unfold bind. rewrite ss_min_run, Hz. done. }
  intros Hp. pose proof (ss_bounds s Hok Hp) as (Hmn & Hmx & Hall).
  cbv zeta in *.
  set (mn := value (SparseSet._min s.2) s.1 + SparseSet._ofs s.2) in *.
  set (mx := value (SparseSet._max s.2) s.1 + SparseSet._ofs s.2) in *.
  assert (Emax : SparseSet.max s = (Ret mx, s)).
  { rewrite ss_max_run. by replace (ss_size s =? 0) with false
      by (symmetry; apply Z.eqb_neq; lia). }
  assert (Emin : SparseSet.min s = (Ret mn, s)).
  { rewrite ss_min_run. by replace (ss_size s =? 0) with false
      by (symmetry; apply Z.eqb_neq; lia). }
  rewrite (bind_run _ _ _ _ _ Emin).
  destruct (mn >? bound) eqn:E; rewrite Z.gtb_ltb in E.
  - apply Z.ltb_lt in E.
    destruct (ss_remove_all_run s Hok) as (s' & E' & Hok' & Hst & He).
    exists s'. split; [done|]. split; [done|]. split; [done|].
    intros u. rewrite He. split; [by intros ?%elem_of_nil|].
    intros [Hu ?]. apply Hall in Hu. lia.
  - apply Z.ltb_ge in E. rewrite (bind_run _ _ _ _ _ Emax).
    destruct (ss_remove_each_run (range_down mx bound) s Hok)
      as (s' & E' & Hok' & Hst & He).
    exists s'. split; [done|]. split; [done|]. split; [done|].
    intros u. rewrite He, elem_of_range_down. split.
    + intros [Hu Hr]. split; [done|]. apply Hall in Hu. lia.
    + intros [Hu Hr]. split; [done|]. lia.
Qed.

(** *** Any method *)

Lemma ss_do_run (op : ss_op) (s : SparseSet.St) :
  ss_ok s ->
  ss_ok (snd (ss_do op s)) /\ ss_step s (snd (ss_do op s)) /\
  fst (ss_do op s) <> OutOfFuel /\
  (fst (ss_do op s) = Ret tt ->
   forall u, u ∈ ss_elems (snd (ss_do op s)) <->
             u ∈ ss_elems s /\ ss_op_keeps op u = true) /\
  (fst (ss_do op s) <> Ret tt -> snd (ss_do op s) = s).
Proof.
  intros Hok. destruct op as [v|v| |v|v]; simpl.
  - destruct (ss_remove_run v s Hok) as (b & s' & E & Hok' & Hst & _ & He & _).
    rewrite (bind_run _ _ _ _ _ E). simpl.
    split; [done|]. split; [done|]. split; [done|]. split; [|done].
    intros _ u. rewrite He, negb_true_iff, Z.eqb_neq. done.
  - destruct (ss_remove_all_but_run v s Hok) as [Hno Hyes].
    destruct (decide (v ∈ ss_elems s)) as [Hin|Hnin].
    + destruct (Hyes Hin) as (s' & E & Hok' & Hst & He). rewrite E. simpl.
      split; [done|]. split; [done|]. split; [done|]. split; [|done].
      intros _ u. rewrite He, list_elem_of_singleton, Z.eqb_eq.
      split; [by intros ->|by intros [_ ->]].
    + rewrite (Hno Hnin). simpl. split; [done|].
      split; [apply ss_step_refl|]. by split.
  - destruct (ss_remove_all_run s Hok) as (s' & E & Hok' & Hst & He).
    rewrite E. simpl. split; [done|]. split; [done|]. split; [done|].
    split; [|done]. intros _ u. rewrite He.
    split; [by intros ?%elem_of_nil|by intros [_ ?]].
  - destruct (ss_remove_below_run v s Hok) as [Hno Hyes].
    pose proof Hok as (_ & _ & _ & Hsz & _).
    destruct (decide (ss_size s = 0)) as [Hz|Hnz].
    + rewrite (Hno Hz). simpl. split; [done|].
      split; [apply ss_step_refl|]. by split.
    + destruct (Hyes ltac:(lia)) as (s' & E & Hok' & Hst & He). rewrite E.
      simpl. split; [done|]. split; [done|]. split; [done|]. split; [|done].
      intros _ u. by rewrite He, Z.leb_le.
  - destruct (ss_remove_above_run v s Hok) as [Hno Hyes].
    pose proof Hok as (_ & _ & _ & Hsz & _).
    destruct (decide (ss_size s = 0)) as [Hz|Hnz].
    + rewrite (Hno Hz). simpl. split; [done|].
      split; [apply ss_step_refl|]. by split.
    + destruct (Hyes ltac:(lia)) as (s' & E & Hok' & Hst & He). rewrite E.
      simpl. split; [done|]. split; [done|]. split; [done|]. split; [|done].
      intros _ u. by rewrite He, Z.leb_le.
Qed.

(** *** [fill_array] and [to_array] *)

Lemma ss_fill_loop_run (s : SparseSet.St) (n : nat) : forall (k : nat) dest,
  (k + n <= length (SparseSet._values (snd s)))%nat ->
  (k + n <= length dest)%nat ->
  SparseSet.fill_loop (seqZ (Z.of_nat k) (Z.of_nat n)) dest s =
  (Ret (take k dest
        ++ ((fun x => x + SparseSet._ofs (snd s))
              <$> take n (drop k (SparseSet._values (snd s))))
        ++ drop (k + n) dest), s).
Proof.
  induction n as [|n IH]; intros k dest Hv Hd.
  - simpl. rewrite Nat.add_0_r, take_drop. done.
  - rewrite seqZ_cons by lia. simpl SparseSet.fill_loop.
    destruct (lookup_lt_is_Some_2 (SparseSet._values s.2) k) as [x Hx]; [lia|].
    erewrite bind_run
      by (apply ss_values_get_run; [lia|by rewrite Nat2Z.id]).
    rewrite (bind_run _ _ _ _ _ (ss_field_run _ _)).
    erewrite bind_run by (apply setitem_run; lia).
    rewrite Nat2Z.id.
    replace (Z.succ (Z.of_nat k)) with (Z.of_nat (S k)) by lia.
    replace (Z.pred (Z.of_nat (S n))) with (Z.of_nat n) by lia.
    rewrite IH by (rewrite ?length_insert; lia).
    f_equal. 
    rewrite (take_S_r _ _ (x + SparseSet._ofs s.2))
      by (apply list_lookup_insert_eq; lia).
    rewrite take_insert_ge by lia.
    rewrite drop_insert_lt by lia.
    rewrite (drop_S _ x k Hx). simpl.
    rewrite <- app_assoc. simpl.
    by replace (k + S n)%nat with (S (k + n)) by lia.
Qed.

Lemma ss_fill_array_run (dest : list Z) (s : SparseSet.St) :
  ss_ok s -> ss_size s <= Z.of_nat (length dest) ->
  SparseSet.fill_array dest s
  = (Ret (ss_elems s ++ drop (Z.to_nat (ss_size s)) dest, ss_size s), s).
Proof.
  intros (_ & _ & (Hn & Hlv & _) & Hsz & _) Hd.
  unfold SparseSet.fill_array.
  rewrite (bind_run _ _ _ _ _ (ss_get_run _ s)). fold (ss_size s).
  unfold range. rewrite Z.sub_0_r.
  pose proof (ss_fill_loop_run s (Z.to_nat (ss_size s)) 0 dest) as H.
  rewrite Z2Nat.id in H by lia. simpl in H.
  erewrite bind_run by (apply H; lia). done.
Qed.

Lemma ss_to_array_run (s : SparseSet.St) :
  ss_ok s -> SparseSet.to_array s = (Ret (ss_elems s), s).
Proof.
  intros Hok. pose proof Hok as (_ & _ & _ & Hsz & _).
  unfold SparseSet.to_array, SparseSet.size.
  rewrite (bind_run _ _ _ _ _ (ss_get_run _ s)). fold (ss_size s).
  erewrite bind_run
    by (apply ss_fill_array_run; [done|rewrite length_replicate; lia]).
  simpl. rewrite drop_ge by (rewrite length_replicate; lia).
  by rewrite app_nil_r.
Qed.

(** *** Sets built by the constructor and changed by the methods *)

Lemma ss_new_ok (by_copy : bool) (n ofs : Z) :
  0 <= n ->
  ss_ok (ss_new by_copy n ofs) /\
  ss_elems (ss_new by_copy n ofs) = range ofs (ofs + n).
Proof.
  intros Hn. unfold ss_new.
  destruct (ss_init_run n ofs (new_manager by_copy) (wf_new_manager by_copy) Hn)
    as (sm & d & E & Hok & He & _).
  rewrite E. done.
Qed.

Lemma ss_after_ok (ops : list ss_op) : forall s : SparseSet.St,
  ss_ok s -> ss_ok (ss_after ops s) /\ ss_step s (ss_after ops s).
Proof.
  induction ops as [|op ops IH]; intros s Hok; simpl.
  - split; [done|apply ss_step_refl].
  - destruct (ss_do_run op s Hok) as (Hok1 & Hst1 & _).
    destruct (IH _ Hok1) as [Hok2 Hst2]. split; [done|].
    by eapply ss_step_trans.
Qed.

(** *** The sparse set against a list of values *)

Lemma ss_elems_nil (s : SparseSet.St) :
  ss_ok s -> ss_elems s = [] <-> ss_size s = 0.
Proof.
  intros Hok. pose proof (ss_elems_length s Hok) as H. split.
  - intros E. rewrite E in H. simpl in H. lia.
  - intros E. apply nil_length_inv. lia.
Qed.

Lemma same_elems_nil (l1 l2 : list Z) :
  (forall u, u ∈ l1 <-> u ∈ l2) -> l1 = [] <-> l2 = [].
Proof.
  intros H. split; intros ->.
  - destruct l2 as [|x l2]; [done|]. exfalso.
    apply (not_elem_of_nil x), H. by left.
  - destruct l1 as [|x l1]; [done|]. exfalso.
    apply (not_elem_of_nil x), H. by left.
Qed.

Lemma ss_do_model (op : ss_op) (s : SparseSet.St) (l : list Z) :
  ss_ok s -> (forall u, u ∈ ss_elems s <-> u ∈ l) ->
  fst (ss_do op s) = ss_outcome op l /\
  forall u, u ∈ ss_elems (snd (ss_do op s)) <-> u ∈ ss_model op l.
Proof.
  intros Hok Hl.
  destruct (ss_do_run op s Hok) as (_ & _ & _ & Hret & Hraise).
  assert (Hfilter : fst (ss_do op s) = Ret tt ->
            forall u, u ∈ ss_elems (snd (ss_do op s)) <->
                      u ∈ filter (fun u => ss_op_keeps op u = true) l).
  { intros E u. rewrite (Hret E), list_elem_of_filter, Hl. tauto. }
  destruct op as [v|v| |v|v]; simpl in *.
  - destruct (ss_remove_run v s Hok) as (b & s' & E & _).
    rewrite (bind_run _ _ _ _ _ E) in *. simpl in *. split; [done|].
    by apply Hfilter.
  - destruct (ss_remove_all_but_run v s Hok) as [Hno Hyes].
    destruct (decide (v ∈ ss_elems s)) as [Hin|Hnin].
    + destruct (Hyes Hin) as (s' & E & _ & _ & He). rewrite E in *. simpl.
      rewrite bool_decide_true by (by apply Hl). split; [done|].
      intros u. by rewrite He.
    + rewrite (Hno Hnin) in *. simpl.
      rewrite bool_decide_false by (by rewrite <- Hl). split; [done|].
      intros u. apply Hl.
  - destruct (ss_remove_all_run s Hok) as (s' & E & _). rewrite E in *.
    simpl in *. split; [done|]. by apply Hfilter.
  - destruct (ss_remove_below_run v s Hok) as [Hno Hyes].
    pose proof Hok as (_ & _ & _ & Hsz & _).
    destruct (decide (ss_size s = 0)) as [Hz|Hnz].
    + rewrite (Hno Hz) in *. simpl.
      apply (ss_elems_nil s Hok) in Hz as Hnil.
      apply (same_elems_nil _ _ Hl) in Hnil as ->. done.
    + destruct (Hyes ltac:(lia)) as (s' & E & _). rewrite E in *. simpl in *.
      rewrite bool_decide_false; [split; [done|by apply Hfilter]|].
      intros Hnil. apply (same_elems_nil _ _ Hl), (ss_elems_nil s Hok) in Hnil.
      done.
  - destruct (ss_remove_above_run v s Hok) as [Hno Hyes].
    pose proof Hok as (_ & _ & _ & Hsz & _).
    destruct (decide (ss_size s = 0)) as [Hz|Hnz].
    + rewrite (Hno Hz) in *. simpl.
      apply (ss_elems_nil s Hok) in Hz as Hnil.
      apply (same_elems_nil _ _ Hl) in Hnil as ->. done.
    + destruct (Hyes ltac:(lia)) as (s' & E & _). rewrite E in *. simpl in *.
      rewrite bool_decide_false; [split; [done|by apply Hfilter]|].
      intros Hnil. apply (same_elems_nil _ _ Hl), (ss_elems_nil s Hok) in Hnil.
      done.
Qed.

Lemma ss_after_model (ops : list ss_op) : forall (s : SparseSet.St) l,
  ss_ok s -> (forall u, u ∈ ss_elems s <-> u ∈ l) ->
  forall u, u ∈ ss_elems (ss_after ops s) <-> u ∈ ss_model_all ops l.
Proof.
  induction ops as [|op ops IH]; intros s l Hok Hl; simpl; [done|].
  destruct (ss_do_run op s Hok) as (Hok1 & _).
  apply IH; [done|]. by apply ss_do_model.
Qed.

Lemma ss_reachable_ok (by_copy : bool) (n ofs : Z) (ops : list ss_op) :
  0 <= n ->
  let s := ss_after ops (ss_new by_copy n ofs) in
  ss_ok s /\
  forall u, u ∈ ss_elems s <-> u ∈ ss_model_all ops (range ofs (ofs + n)).
Proof.
  intros Hn s. destruct (ss_new_ok by_copy n ofs Hn) as [Hok He].
  split; [by apply ss_after_ok|].
  apply ss_after_model; [done|]. intros u. by rewrite He.
Qed.

(** X7.  What one can observe of a sparse set agrees with a plain list
    of values.  Take the set [{ofs, ..., ofs + n - 1}] and call any
    methods on it, catching their exceptions.  Then [to_array()] returns
    a list without duplicates whose members are those the same methods
    leave of the list [ofs, ..., ofs + n - 1]; [size()] is its length,
    [is_empty()] tells whether it is empty, [contains(v)] whether [v] is
    in it, and when it is not empty [min()] and [max()] return its least
    and its greatest member. *)
Theorem sparse_set_observations (by_copy : bool) (n ofs : Z)
    (ops : list ss_op) :
  0 <= n ->
  let s := ss_after ops (ss_new by_copy n ofs) in
  exists l,
    SparseSet.to_array s = (Ret l, s) /\
    NoDup l /\
    (forall u, u ∈ l <-> u ∈ ss_model_all ops (range ofs (ofs + n))) /\
    SparseSet.size s = (Ret (Z.of_nat (length l)), s) /\
    SparseSet.is_empty s = (Ret (bool_decide (l = [])), s) /\
    (forall v, SparseSet.contains v s = (Ret (bool_decide (v ∈ l)), s)) /\
    (l <> [] ->
     exists mn mx,
       SparseSet.min s = (Ret mn, s) /\ SparseSet.max s = (Ret mx, s) /\
       mn ∈ l /\ mx ∈ l /\ forall u, u ∈ l -> mn <= u <= mx).
Proof.
  intros Hn s. destruct (ss_reachable_ok by_copy n ofs ops Hn) as [Hok Hmodel].
  fold s in Hok, Hmodel. exists (ss_elems s).
  pose proof Hok as (_ & _ & Hperm & Hsz & _).
  pose proof (ss_elems_length s Hok) as Hlen.
  split; [by apply ss_to_array_run|].
  split; [by apply ss_elems_NoDup|]. split; [done|].
  split; [unfold SparseSet.size; by rewrite ss_get_run, Hlen|].
  split.
  { rewrite ss_is_empty_run. do 2 f_equal.
    destruct (decide (ss_elems s = [])) as [E|E].
    - rewrite bool_decide_true by done. apply Z.eqb_eq.
      by apply ss_elems_nil.
    - rewrite bool_decide_false by done. apply Z.eqb_neq.
      by rewrite <- ss_elems_nil. }
  split.
  { intros v. destruct (ss_contains_run v s Hperm ltac:(lia)) as (b & E & Hb).
    rewrite E. do 2 f_equal. destruct b.
    - rewrite bool_decide_true; [done|]. by apply Hb.
    - rewrite bool_decide_false; [done|]. intros H. apply Hb in H. done. }
  intros Hne.
  assert (Hp : 0 < ss_size s).
  { destruct (decide (ss_size s = 0)) as [E|E]; [|lia].
    by apply ss_elems_nil in E. }
  destruct (ss_bounds s Hok Hp) as (H1 & H2 & H3).
  eexists _, _. rewrite ss_min_run, ss_max_run.
  replace (ss_size s =? 0) with false by (symmetry; apply Z.eqb_neq; lia).
  split; [reflexivity|]. split; [reflexivity|]. done.
Qed.

Lemma sparse_set_observations_witness :
  let ops := [SsRemove 7; SsRemoveBelow 5; SsRemove 12; SsRemoveAllBut 3;
              SsRemoveAbove 9] in
  let s := ss_after ops (ss_new false 8 3) in
  exists l,
    SparseSet.to_array s = (Ret l, s) /\
    NoDup l /\
    (forall u, u ∈ l <-> u ∈ ss_model_all ops (range 3 (3 + 8))) /\
    SparseSet.size s = (Ret (Z.of_nat (length l)), s) /\
    SparseSet.is_empty s = (Ret (bool_decide (l = [])), s) /\
    (forall v, SparseSet.contains v s = (Ret (bool_decide (v ∈ l)), s)) /\
    (l <> [] ->
     exists mn mx,
       SparseSet.min s = (Ret mn, s) /\ SparseSet.max s = (Ret mx, s) /\
       mn ∈ l /\ mx ∈ l /\ forall u, u ∈ l -> mn <= u <= mx).
Proof.
  apply (sparse_set_observations false 8 3). lia.
Defined.

(** The same set and methods, run: the values left are 5, 6, 8 and 9,
    listed in the order the exchanges have put them in. *)
Example sparse_set_sample (by_copy : bool) :
  let ops := [SsRemove 7; SsRemoveBelow 5; SsRemove 12; SsRemoveAllBut 3;
              SsRemoveAbove 9] in
  let s := ss_after ops (ss_new by_copy 8 3) in
  fst (SparseSet.to_array s) = Ret [9; 8; 5; 6] /\
  ss_model_all ops (range 3 (3 + 8)) = [5; 6; 8; 9] /\
  fst (SparseSet.min s) = Ret 5 /\ fst (SparseSet.max s) = Ret 9.
Proof. destruct by_copy; by vm_compute. Qed.

(** X8.  What each method that changes the set does, on a set built as
    above.  [remove_all_but(v)] raises [AssertionError] when [v] is not
    in the set; [remove_below] and [remove_above] raise [ValueError]
    when the set is empty; [remove] and [remove_all] always return.  A
    method that raises leaves the set as it was.  A method that returns
    leaves the values a list would keep: all but [v], only [v], none,
    those at least [v], those at most [v]. *)
Theorem sparse_set_methods (by_copy : bool) (n ofs : Z) (ops : list ss_op)
    (op : ss_op) :
  0 <= n ->
  let s := ss_after ops (ss_new by_copy n ofs) in
  exists l,
    SparseSet.to_array s = (Ret l, s) /\
    fst (ss_do op s) = ss_outcome op l /\
    (fst (ss_do op s) <> Ret tt -> snd (ss_do op s) = s) /\
    exists l',
      SparseSet.to_array (snd (ss_do op s)) = (Ret l', snd (ss_do op s)) /\
      forall u, u ∈ l' <-> u ∈ ss_model op l.
Proof.
  intros Hn s. destruct (ss_reachable_ok by_copy n ofs ops Hn) as [Hok _].
  fold s in Hok. exists (ss_elems s).
  split; [by apply ss_to_array_run|].
  destruct (ss_do_model op s (ss_elems s) Hok ltac:(done)) as [Ho He].
  destruct (ss_do_run op s Hok) as (Hok' & _ & _ & _ & Hraise).
  split; [done|]. split; [done|].
  exists (ss_elems (snd (ss_do op s))).
  split; [by apply ss_to_array_run|done].
Qed.

Lemma sparse_set_methods_witness :
  let s := ss_after [SsRemove 4] (ss_new true 5 2) in
  exists l,
    SparseSet.to_array s = (Ret l, s) /\
    fst (ss_do (SsRemoveAllBut 4) s) = ss_outcome (SsRemoveAllBut 4) l /\
    (fst (ss_do (SsRemoveAllBut 4) s) <> Ret tt ->
     snd (ss_do (SsRemoveAllBut 4) s) = s) /\
    exists l',
      SparseSet.to_array (snd (ss_do (SsRemoveAllBut 4) s))
      = (Ret l', snd (ss_do (SsRemoveAllBut 4) s)) /\
      forall u, u ∈ l' <-> u ∈ ss_model (SsRemoveAllBut 4) l.
Proof.
  apply (sparse_set_methods true 5 2 [SsRemove 4] (SsRemoveAllBut 4)). lia.
Defined.

(** X9.  [remove(v)] on a set built as above returns whether [v] was in
    the set, lowers [size()] by one exactly in that case, and afterwards
    [contains(v)] is false while [contains(u)] is unchanged for every
    other [u]. *)
Theorem sparse_set_remove (by_copy : bool) (n ofs : Z) (ops : list ss_op)
    (v : Z) :
  0 <= n ->
  let s := ss_after ops (ss_new by_copy n ofs) in
  exists (b : bool) s',
    SparseSet.remove v s = (Ret b, s') /\
    SparseSet.contains v s = (Ret b, s) /\
    fst (SparseSet.size s')
    = Ret (ss_size s - (if b then 1 else 0)) /\
    SparseSet.contains v s' = (Ret false, s') /\
    forall u, u <> v ->
              fst (SparseSet.contains u s') = fst (SparseSet.contains u s).
Proof.
  intros Hn s. destruct (ss_reachable_ok by_copy n ofs ops Hn) as [Hok _].
  fold s in Hok.
  destruct (ss_remove_run v s Hok) as (b & s' & E & Hok' & _ & Hb & He & Hsz).
  pose proof Hok as (_ & _ & Hperm & Hs & _).
  pose proof Hok' as (_ & _ & Hperm' & Hs' & _).
  exists b, s'. split; [done|]. split; [|split; [|split]].
  - destruct (ss_contains_run v s Hperm ltac:(lia)) as (c & Ec & Hc).
    rewrite Ec. do 2 f_equal. destruct b, c; try done; exfalso.
    + assert (false = true) by (apply Hc; by apply Hb). done.
    + assert (false = true) by (apply Hb; by apply Hc). done.
  - unfold SparseSet.size. rewrite ss_get_run. simpl. f_equal. exact Hsz.
  - destruct (ss_contains_run v s' Hperm' ltac:(lia)) as (c & Ec & Hc).
    rewrite Ec. destruct c; [|done]. exfalso.
    assert (Hin : v ∈ ss_elems s') by (by apply Hc). apply He in Hin. tauto.
  - intros u Hu.
    destruct (ss_contains_run u s' Hperm' ltac:(lia)) as (c' & Ec' & Hc').
    destruct (ss_contains_run u s Hperm ltac:(lia)) as (c & Ec & Hc).
    rewrite Ec', Ec. simpl. f_equal.
    destruct c, c'; try done; exfalso.
    + assert (false = true); [|done].
      apply Hc'. apply He. split; [by apply Hc|done].
    + assert (false = true); [|done].
      apply Hc. assert (Hin : u ∈ ss_elems s') by (by apply Hc').
      apply He in Hin. tauto.
Qed.

Lemma sparse_set_remove_witness :
  let s := ss_after [SsRemoveAbove 3] (ss_new false 6 0) in
  exists (b : bool) s',
    SparseSet.remove 2 s = (Ret b, s') /\
    SparseSet.contains 2 s = (Ret b, s) /\
    fst (SparseSet.size s') = Ret (ss_size s - (if b then 1 else 0)) /\
    SparseSet.contains 2 s' = (Ret false, s') /\
    forall u, u <> 2 ->
              fst (SparseSet.contains u s') = fst (SparseSet.contains u s).
Proof.
  apply (sparse_set_remove false 6 0 [SsRemoveAbove 3] 2). lia.
Defined.

(** X10.  Restoring the state brings back the values removed since the
    save, although [_values] and [_indices] are plain lists that no
    manager restores.  On a set built as above: after [save_state()],
    any methods (their exceptions caught) and [restore_state()], the set
    has the members, the size, the minimum and the maximum it had at the
    save; [to_array()] may list them in another order. *)
Theorem sparse_set_restored (by_copy : bool) (n ofs : Z)
    (ops ops' : list ss_op) :
  0 <= n ->
  let s := ss_after ops (ss_new by_copy n ofs) in
  let s1 := snd (lift_sm save_state s) in
  let s2 := ss_after ops' s1 in
  let r := lift_sm restore_state s2 in
  fst r = Ret tt /\
  get_level (fst (snd r)) = get_level (fst s) /\
  fst (SparseSet.size (snd r)) = fst (SparseSet.size s) /\
  fst (SparseSet.min (snd r)) = fst (SparseSet.min s) /\
  fst (SparseSet.max (snd r)) = fst (SparseSet.max s) /\
  exists l l',
    SparseSet.to_array s = (Ret l, s) /\
    SparseSet.to_array (snd r) = (Ret l', snd r) /\
    NoDup l' /\ forall u, u ∈ l' <-> u ∈ l.
Proof.
  intros Hn s s1 s2 r.
  destruct (ss_reachable_ok by_copy n ofs ops Hn) as [Hok _]. fold s in Hok.
  destruct s as [sm d] eqn:Es.
  pose proof Hok as (Hwf & Hrefs & Hperm & Hsz & Hbnd).
  simpl in Hwf, Hperm.
  destruct (save_state_spec sm Hwf) as (sm1 & E1 & Hwf1 & Hs1 & Hv1).
  assert (Hs1eq : s1 = (sm1, d)).
  { unfold s1, lift_sm. simpl. by rewrite E1. }
  assert (Hval1 : forall x, value x sm1 = value x sm).
  { intros x. by rewrite !value_cell_values, Hv1. }
  assert (Hok1 : ss_ok (sm1, d)).
  { unfold ss_ok, ss_size, ss_refs in *. simpl in *.
    rewrite !Hval1, n_cells_cell_values, Hv1, <- n_cells_cell_values. done. }
  destruct (ss_after_ok ops' (sm1, d) Hok1) as [Hok2 Hst2].
  rewrite <- Hs1eq in Hok2, Hst2. fold s2 in Hok2, Hst2.
  destruct s2 as [sm2 d2] eqn:Es2. rewrite Hs1eq in Hst2.
  destruct Hst2 as (T1 & T2 & T3 & T4 & T5 & T6 & T7 & T8 & T9 & T10).
  unfold ss_size in T8, T9. simpl in T1, T2, T3, T4, T5, T6, T7, T8, T9.
  rewrite Hs1 in T6.
  pose proof Hok2 as (Hwf2 & Hrefs2 & Hperm2 & Hsz2 & Hbnd2).
  simpl in Hwf2, Hperm2.
  destruct (restore_state_spec sm2 _ _ Hwf2 T6) as (sm3 & E3 & Hwf3 & Hs3 & Hv3).
  assert (Hdrop : drop (length (cell_values sm)) (cell_values sm2) = []).
  { apply drop_ge. rewrite <- !n_cells_cell_values, T7.
    rewrite !n_cells_cell_values, Hv1. done. }
  rewrite Hdrop, app_nil_r in Hv3.
  assert (Hval3 : forall x, value x sm3 = value x sm).
  { intros x. by rewrite !value_cell_values, Hv3. }
  assert (Hr : r = (Ret tt, (sm3, d2))).
  { unfold r, lift_sm. simpl. by rewrite E3. }
  rewrite Hr. cbn [fst snd].
  assert (Hbelow : forall u, ss_below d2 (value (SparseSet._size d) sm) u <->
                             ss_below d (value (SparseSet._size d) sm) u).
  { intros u. apply T9. rewrite Hval1. lia. }
  assert (Hok3 : ss_ok (sm3, d2)).
  { unfold ss_ok, ss_size, ss_refs in *. simpl in *.
    rewrite T1, T3, T4, T5, !Hval3, n_cells_cell_values, Hv3,
      <- n_cells_cell_values.
    split; [done|]. split; [done|]. split; [done|]. split; [done|].
    intros Hp. destruct (Hbnd Hp) as (B1 & B2 & B3).
    split; [by apply Hbelow|]. split; [by apply Hbelow|].
    intros u Hu. apply B3. by apply Hbelow. }
  split; [done|]. split; [by rewrite !get_level_snapshots, Hs3|].
  split.
  { unfold SparseSet.size. rewrite !ss_get_run. simpl. by rewrite T3, Hval3. }
  split.
  { rewrite !ss_min_run. unfold ss_size. simpl.
    by rewrite T2, T3, T4, !Hval3. }
  split.
  { rewrite !ss_max_run. unfold ss_size. simpl.
    by rewrite T2, T3, T5, !Hval3. }
  exists (ss_elems (sm, d)), (ss_elems (sm3, d2)).
  split; [by apply ss_to_array_run|]. split; [by apply ss_to_array_run|].
  split; [by apply ss_elems_NoDup|].
  intros u.
  rewrite (ss_elems_below (sm3, d2) u Hperm2)
    by (unfold ss_size; simpl; rewrite T3, Hval3; unfold ss_size in Hsz;
        simpl in Hsz; lia).
  rewrite (ss_elems_below (sm, d) u Hperm) by (by destruct Hsz).
  unfold ss_size. simpl. rewrite T2, T3, Hval3. apply Hbelow.
Qed.

Lemma sparse_set_restored_witness :
  let s := ss_after [SsRemove 1] (ss_new false 6 0) in
  let s1 := snd (lift_sm save_state s) in
  let s2 := ss_after [SsRemoveBelow 3; SsRemove 4; SsRemoveAllBut 5] s1 in
  let r := lift_sm restore_state s2 in
  fst (SparseSet.to_array s2) = Ret [5] /\
  fst r = Ret tt /\
  get_level (fst (snd r)) = get_level (fst s) /\
  fst (SparseSet.size (snd r)) = fst (SparseSet.size s) /\
  fst (SparseSet.min (snd r)) = fst (SparseSet.min s) /\
  fst (SparseSet.max (snd r)) = fst (SparseSet.max s) /\
  exists l l',
    SparseSet.to_array s = (Ret l, s) /\
    SparseSet.to_array (snd r) = (Ret l', snd r) /\
    NoDup l' /\ forall u, u ∈ l' <-> u ∈ l.
Proof.
  split; [by vm_compute|].
  apply (sparse_set_restored false 6 0 [SsRemove 1]
           [SsRemoveBelow 3; SsRemove 4; SsRemoveAllBut 5]).
  lia.
Defined.
(* ================================================================== *)
(** ** state.py: the reversible interval *)

Lemma interval_get_run (f : Interval.StateInterval -> nat) (s : Interval.St) :
  Interval.get f s = (Ret (value (f (snd s)) (fst s)), s).
Proof. reflexivity. Qed.

Lemma interval_set_run (f : Interval.StateInterval -> nat) (x : Z)
    (s : Interval.St) :
  wf (fst s) ->
  exists sm', Interval.set f x s = (Ret x, (sm', snd s)) /\ wf sm' /\
    cell_values sm' = <[f (snd s) := x]> (cell_values (fst s)).
Proof.
  destruct s as [sm d]. simpl. intros Hwf.
  destruct (set_value_run (f d) x sm Hwf) as (sm' & E & Hwf' & _ & Hv).
  exists sm'. unfold Interval.set. simpl. by rewrite E.
Qed.

Lemma interval_contains_run (u : Z) (s : Interval.St) :
  Interval.contains u s = (Ret (bool_decide (u ∈ interval_elems s)), s).
Proof.
  unfold Interval.contains, interval_elems.
  rewrite (bind_run _ _ _ _ _ (interval_get_run _ s)).
  set (a := value _ _). set (b := value _ _).
  destruct (a <=? u) eqn:Ha.
  - rewrite (bind_run _ _ _ _ _ (interval_get_run _ s)). fold b.
    unfold ret. do 2 f_equal. apply Z.leb_le in Ha.
    destruct (u <=? b) eqn:Hb; symmetry.
    + apply bool_decide_eq_true, elem_of_range. apply Z.leb_le in Hb. lia.
    + apply bool_decide_eq_false. rewrite elem_of_range.
      apply Z.leb_gt in Hb. lia.
  - unfold ret. do 2 f_equal. symmetry. apply bool_decide_eq_false.
    rewrite elem_of_range. apply Z.leb_gt in Ha. lia.
Qed.

Lemma interval_size_run (s : Interval.St) :
  Interval.size s = (Ret (Z.of_nat (length (interval_elems s))), s).
Proof.
  unfold Interval.size, interval_elems, range.
  rewrite (bind_run _ _ _ _ _ (interval_get_run _ s)).
  rewrite (bind_run _ _ _ _ _ (interval_get_run _ s)).
  unfold ret. rewrite length_seqZ. do 2 f_equal. lia.
Qed.

Lemma interval_fill_loop_run (from : Z) (s : Interval.St) (n : nat) :
  forall (k : nat) dest,
  (k + n <= length dest)%nat ->
  Interval.fill_loop (seqZ (Z.of_nat k) (Z.of_nat n)) from dest s =
  (Ret (take k dest ++ seqZ (from + Z.of_nat k) (Z.of_nat n)
        ++ drop (k + n) dest), s).
Proof.
  induction n as [|n IH]; intros k dest Hlen.
  - simpl. unfold ret. rewrite Nat.add_0_r. by rewrite take_drop.
  - rewrite seqZ_cons by lia. cbn [Interval.fill_loop].
    erewrite bind_run by (apply setitem_run; lia).
    replace (Z.succ (Z.of_nat k)) with (Z.of_nat (S k)) by lia.
    replace (Z.pred (Z.of_nat (S n))) with (Z.of_nat n) by lia.
    rewrite IH by (rewrite length_insert; lia).
    do 2 f_equal. rewrite Nat2Z.id.
    rewrite (seqZ_cons (from + Z.of_nat k)) by lia.
    replace (Z.succ (from + Z.of_nat k)) with (from + Z.of_nat (S k)) by lia.
    replace (Z.pred (Z.of_nat (S n))) with (Z.of_nat n) by lia.
    rewrite (take_S_r _ _ (from + Z.of_nat k))
      by (apply list_lookup_insert_eq; lia).
    rewrite take_insert_ge by lia.
    rewrite drop_insert_lt by lia.
    replace (S k + n)%nat with (k + S n)%nat by lia.
    by rewrite <- app_assoc.
Qed.

Lemma interval_fill_loop_short (from : Z) (s : Interval.St) (n : nat) :
  forall (k : nat) dest,
  (k <= length dest < k + n)%nat ->
  Interval.fill_loop (seqZ (Z.of_nat k) (Z.of_nat n)) from dest s =
  (Raise IndexError, s).
Proof.
  induction n as [|n IH]; intros k dest Hlen; [lia|].
  rewrite seqZ_cons by lia. cbn [Interval.fill_loop].
  destruct (decide (length dest = k)) as [Hk|Hk].
  - unfold bind, setitem.
    replace (Z.of_nat k <? 0) with false by (symmetry; apply Z.ltb_ge; lia).
    replace (Z.of_nat k <? Z.of_nat (length dest)) with false
      by (symmetry; apply Z.ltb_ge; lia).
    by rewrite andb_false_r.
  - erewrite bind_run by (apply setitem_run; lia).
    replace (Z.succ (Z.of_nat k)) with (Z.of_nat (S k)) by lia.
    replace (Z.pred (Z.of_nat (S n))) with (Z.of_nat n) by lia.
    apply IH. rewrite length_insert. lia.
Qed.

(** X11.  What an interval shows is what the list of the integers from its
    minimum to its maximum shows: [contains] is membership, [size] the
    length, [is_empty] emptiness, and [fill_array] writes the list in
    ascending order over the start of [dest], raising [IndexError] when
    [dest] is shorter than the list.  None of them changes the interval. *)
Theorem interval_observations (s : Interval.St) :
  let l := interval_elems s in
  (forall u, Interval.contains u s = (Ret (bool_decide (u ∈ l)), s)) /\
  Interval.size s = (Ret (Z.of_nat (length l)), s) /\
  Interval.is_empty s = (Ret (bool_decide (l = [])), s) /\
  (forall dest,
     Interval.fill_array dest s =
     if decide (length l <= length dest)%nat
     then (Ret (l ++ drop (length l) dest, Z.of_nat (length l)), s)
     else (Raise IndexError, s)).
Proof.
  intros l. split; [intros u; apply interval_contains_run|].
  split; [apply interval_size_run|]. split.
  - unfold Interval.is_empty.
    rewrite (bind_run _ _ _ _ _ (interval_get_run _ s)).
    rewrite (bind_run _ _ _ _ _ (interval_get_run _ s)).
    unfold ret. do 2 f_equal. subst l. unfold interval_elems, range.
    set (a := value _ _). set (b := value _ _).
    destruct (a >? b) eqn:Hab; symmetry.
    + apply bool_decide_eq_true. apply nil_length_inv. rewrite length_seqZ.
      rewrite Z.gtb_ltb in Hab. apply Z.ltb_lt in Hab. lia.
    + apply bool_decide_eq_false. intros Hnil.
      apply (f_equal length) in Hnil. rewrite length_seqZ in Hnil.
      rewrite Z.gtb_ltb in Hab. apply Z.ltb_ge in Hab. simpl in Hnil. lia.
  - intros dest. unfold Interval.fill_array.
    rewrite (bind_run _ _ _ _ _ (interval_size_run s)).
    unfold Interval.min.
    rewrite (bind_run _ _ _ _ _ (interval_get_run _ s)).
    fold l. unfold range. rewrite Z.sub_0_r.
    assert (Hl : l = seqZ (value (Interval._min (snd s)) (fst s) + Z.of_nat 0)
                       (Z.of_nat (length l))).
    { subst l. unfold interval_elems, range. rewrite length_seqZ.
      rewrite Z.add_0_r. set (n := _ + 1 - _).
      destruct (decide (0 <= n)) as [Hn|Hn]; [by rewrite Z2Nat.id|].
      replace (Z.to_nat n) with 0%nat by lia.
      destruct n; try lia; done. }
    destruct (decide (length l <= length dest)%nat) as [Hle|Hgt].
    + erewrite bind_run
        by (apply (interval_fill_loop_run _ s (length l) 0 dest); lia).
      unfold ret. by rewrite <- Hl.
    + unfold bind.
      by rewrite (interval_fill_loop_short _ s (length l) 0 dest) by lia.
Qed.

Lemma interval_set_min (x : Z) (s : Interval.St) :
  interval_ok s ->
  exists s', Interval.set Interval._min x s = (Ret x, s') /\
    interval_ok s' /\ snd s' = snd s /\
    value (Interval._min (snd s)) (fst s') = x /\
    value (Interval._max (snd s)) (fst s')
    = value (Interval._max (snd s)) (fst s).
Proof.
  intros (Hwf & Hmn & Hmx & Hne).
  destruct (interval_set_run Interval._min x s Hwf) as (sm' & E & Hwf' & Hv).
  exists (sm', snd s). split; [done|].
  pose proof (n_cells_after_set _ _ _ _ Hv) as Hn.
  split; [|split; [done|split]]; simpl.
  - unfold interval_ok. simpl. rewrite Hn. done.
  - by apply (value_after_set _ _ (fst s)).
  - by apply (value_after_set_other (Interval._min (snd s)) _ x (fst s)).
Qed.

Lemma interval_set_max (x : Z) (s : Interval.St) :
  interval_ok s ->
  exists s', Interval.set Interval._max x s = (Ret x, s') /\
    interval_ok s' /\ snd s' = snd s /\
    value (Interval._max (snd s)) (fst s') = x /\
    value (Interval._min (snd s)) (fst s')
    = value (Interval._min (snd s)) (fst s).
Proof.
  intros (Hwf & Hmn & Hmx & Hne).
  destruct (interval_set_run Interval._max x s Hwf) as (sm' & E & Hwf' & Hv).
  exists (sm', snd s). split; [done|].
  pose proof (n_cells_after_set _ _ _ _ Hv) as Hn.
  split; [|split; [done|split]]; simpl.
  - unfold interval_ok. simpl. rewrite Hn. done.
  - by apply (value_after_set _ _ (fst s)).
  - by apply (value_after_set_other (Interval._max (snd s)) _ x (fst s)).
Qed.

Lemma interval_init_run (a b : Z) sm :
  wf sm ->
  exists s, Interval.init a b sm = (Ret (snd s), fst s) /\ interval_ok s /\
    interval_elems s = range a (b + 1).
Proof.
  intros Hwf. unfold Interval.init, make_state_int.
  destruct (make_state_ref_spec a sm Hwf) as (sm1 & E1 & Hwf1 & _ & _ & Hv1).
  destruct (make_state_ref_spec b sm1 Hwf1) as (sm2 & E2 & Hwf2 & _ & _ & Hv2).
  exists (sm2, Interval.mk (n_cells sm) (n_cells sm1)).
  rewrite (bind_run _ _ _ _ _ E1), (bind_run _ _ _ _ _ E2).
  assert (Hn1 : n_cells sm1 = S (n_cells sm)).
  { rewrite !n_cells_cell_values, Hv1, length_app. simpl. lia. }
  assert (Hn2 : n_cells sm2 = S (n_cells sm1)).
  { rewrite !n_cells_cell_values, Hv2, length_app. simpl. lia. }
  split; [done|]. split.
  - unfold interval_ok. simpl. split; [done|]. lia.
  - unfold interval_elems. simpl. rewrite !value_cell_values, Hv2, Hv1.
    rewrite <- app_assoc. simpl.
    rewrite lookup_app_r by (rewrite n_cells_cell_values; lia).
    rewrite n_cells_cell_values, Nat.sub_diag. simpl.
    rewrite Hn1, n_cells_cell_values.
    rewrite lookup_app_r by lia.
    replace (S (length (cell_values sm)) - length (cell_values sm))%nat
      with 1%nat by lia.
    done.
Qed.

(** X12.  The updates of an interval, on the list of its values [lo..hi]:
    [remove_below v] and [remove_above v] set the bound to [v] whatever it
    was, so the values become [v..hi] and [lo..v] (more values than before
    when [v] lies outside); [remove_all] leaves none; [remove_all_but v]
    leaves [v] alone when [v] is a value, and raises [AssertionError]
    without a change when it is not. *)
Theorem interval_updates (s : Interval.St) (v : Z) :
  interval_ok s ->
  let lo := value (Interval._min (snd s)) (fst s) in
  let hi := value (Interval._max (snd s)) (fst s) in
  (exists s', Interval.remove_below v s = (Ret tt, s') /\ interval_ok s' /\
     snd s' = snd s /\ interval_elems s' = range v (hi + 1)) /\
  (exists s', Interval.remove_above v s = (Ret tt, s') /\ interval_ok s' /\
     snd s' = snd s /\ interval_elems s' = range lo (v + 1)) /\
  (exists s', Interval.remove_all s = (Ret tt, s') /\ interval_ok s' /\
     snd s' = snd s /\ interval_elems s' = []) /\
  (if decide (lo <= v <= hi)
   then exists s', Interval.remove_all_but v s = (Ret tt, s') /\
          interval_ok s' /\ snd s' = snd s /\ interval_elems s' = [v]
   else Interval.remove_all_but v s = (Raise AssertionError, s)).
Proof.
  intros Hok lo hi. split; [|split; [|split]].
  - destruct (interval_set_min v s Hok) as (s' & E & Hok' & Hd & Hmn & Hmx).
    exists s'. unfold Interval.remove_below. rewrite (bind_run _ _ _ _ _ E).
    do 3 (split; [done|]).
    unfold interval_elems. by rewrite Hd, Hmn, Hmx.
  - destruct (interval_set_max v s Hok) as (s' & E & Hok' & Hd & Hmx & Hmn).
    exists s'. unfold Interval.remove_above. rewrite (bind_run _ _ _ _ _ E).
    do 3 (split; [done|]).
    unfold interval_elems. by rewrite Hd, Hmn, Hmx.
  - destruct (interval_set_min (hi + 1) s Hok)
      as (s' & E & Hok' & Hd & Hmn & Hmx).
    exists s'. unfold Interval.remove_all.
    rewrite (bind_run _ _ _ _ _ (interval_get_run _ s)). fold hi.
    rewrite (bind_run _ _ _ _ _ E).
    do 3 (split; [done|]).
    unfold interval_elems, range. rewrite Hd, Hmn, Hmx. fold hi.
    by rewrite Z.sub_diag.
  - destruct (decide (lo <= v <= hi)) as [Hin|Hout];
      unfold Interval.remove_all_but, assert_, bind at 1 2;
      rewrite interval_contains_run.
    + rewrite bool_decide_eq_true_2 by (apply elem_of_range; fold lo hi; lia).
      unfold ret at 1.
      destruct (interval_set_min v s Hok) as (s1 & E1 & Hok1 & Hd1 & Hmn1 & Hmx1).
      destruct (interval_set_max v s1 Hok1)
        as (s2 & E2 & Hok2 & Hd2 & Hmx2 & Hmn2).
      exists s2. rewrite (bind_run _ _ _ _ _ E1), (bind_run _ _ _ _ _ E2).
      split; [done|]. split; [done|]. split; [congruence|].
      unfold interval_elems, range. rewrite Hd2, Hmx2, Hmn2, Hd1, Hmn1.
      replace (v + 1 - v) with 1 by lia. done.
    + rewrite bool_decide_eq_false_2; [done|].
      unfold interval_elems. rewrite elem_of_range. fold lo hi. lia.
Qed.

Lemma interval_updates_witness :
  interval_ok (interval_new false 3 7) /\
  (exists s', Interval.remove_below 0 (interval_new false 3 7) = (Ret tt, s')
     /\ interval_elems s' = [0; 1; 2; 3; 4; 5; 6; 7]).
Proof.
  assert (Hok : interval_ok (interval_new false 3 7)).
  { destruct (interval_init_run 3 7 (new_manager false) (wf_new_manager false))
      as ([sm d] & E & Hok & _).
    unfold interval_new. by rewrite E. }
  split; [exact Hok|].
  destruct (interval_updates (interval_new false 3 7) 0 Hok)
    as ((s' & E & _ & _ & He) & _).
  exists s'. split; [exact E|]. rewrite He. reflexivity.
Defined.

(* ================================================================== *)
(** ** state.py: the bit sets *)

Lemma land_shift_one (w i : Z) :
  0 <= i -> (Z.land w (Z.shiftl 1 i) =? 0) = negb (Z.testbit w i).
Proof.
  intros Hi. rewrite Z.shiftl_1_l.
  assert (H : Z.land w (2 ^ i) = if Z.testbit w i then 2 ^ i else 0).
  { apply Z.bits_inj'. intros n Hn. rewrite Z.land_spec, Z.pow2_bits_eqb by done.
    destruct (Z.eqb_spec i n) as [->|Hne].
    - rewrite andb_true_r. destruct (Z.testbit w n); [|by rewrite Z.bits_0].
      rewrite Z.pow2_bits_eqb by done. by rewrite Z.eqb_refl.
    - rewrite andb_false_r. destruct (Z.testbit w i); [|by rewrite Z.bits_0].
      rewrite Z.pow2_bits_eqb by done. symmetry. by apply Z.eqb_neq. }
  rewrite H. destruct (Z.testbit w i); [|done].
  apply Z.eqb_neq. pose proof (Z.pow_pos_nonneg 2 i). lia.
Qed.

Lemma shift_one_run {S} (i : Z) (s : S) :
  0 <= i -> BitSet.shift_one i s = (Ret (Z.shiftl 1 i), s).
Proof.
  intros Hi. unfold BitSet.shift_one.
  by replace (i <? 0) with false by (symmetry; apply Z.ltb_ge; lia).
Qed.

Lemma word_index_nonneg (i : Z) : 0 <= BitSet.unsigned_right_bit_shift i 6.
Proof.
  unfold BitSet.unsigned_right_bit_shift. apply Z.shiftr_nonneg.
  apply Z.mod_pos_bound. lia.
Qed.

Lemma bits_hold_init (n_words : Z) : bits_hold (BitSet.init n_words) [].
Proof.
  split; [apply length_replicate|]. simpl. intros j w Hj Hw.
  apply lookup_replicate in Hw as [-> _]. by rewrite Z.bits_0.
Qed.

Lemma bits_get_run (b : BitSet.Bits) (l : list Z) (j : Z) :
  bits_hold b l -> 0 <= j ->
  BitSet.get j b =
  (Ret (bool_decide (j ∈ l /\ bit_in_range (BitSet._n_words b) j)), b).
Proof.
  intros [Hlen Hbits] Hj. unfold BitSet.get, gets, bind at 1.
  pose proof (word_index_nonneg j) as Hk.
  set (k := BitSet.unsigned_right_bit_shift j 6) in *.
  destruct (k <? BitSet._n_words b) eqn:Hlt.
  - apply Z.ltb_lt in Hlt.
    destruct (lookup_lt_is_Some_2 (BitSet._words b) (Z.to_nat k))
      as [w Hw]; [lia|].
    erewrite bind_run by (by apply getitem_run).
    erewrite bind_run by (by apply shift_one_run).
    unfold ret. rewrite land_shift_one, negb_involutive by done.
    rewrite (Hbits j w Hj Hw). do 2 f_equal. apply bool_decide_ext.
    unfold bit_in_range. fold k. tauto.
  - apply Z.ltb_ge in Hlt. unfold ret. do 2 f_equal. symmetry.
    apply bool_decide_eq_false. unfold bit_in_range. fold k. lia.
Qed.

Lemma bits_set_run (b : BitSet.Bits) (l : list Z) (i : Z) :
  bits_hold b l -> bit_in_range (BitSet._n_words b) i ->
  exists b', BitSet.set i b = (Ret tt, b') /\ bits_hold b' (i :: l) /\
    BitSet._n_words b' = BitSet._n_words b.
Proof.
  intros [Hlen Hbits] [Hi Hlt]. unfold BitSet.set.
  pose proof (word_index_nonneg i) as Hk.
  set (k := BitSet.unsigned_right_bit_shift i 6) in *.
  destruct (lookup_lt_is_Some_2 (BitSet._words b) (Z.to_nat k))
    as [w Hw]; [lia|].
  erewrite bind_run by (by apply shift_one_run).
  unfold gets, bind at 1.
  erewrite bind_run by (by apply getitem_run).
  erewrite bind_run by (apply setitem_run; lia).
  unfold modify. eexists. split; [done|]. split; [|done]. split; simpl.
  - by rewrite length_insert.
  - intros j w' Hj Hw'.
    destruct (decide (Z.to_nat (BitSet.unsigned_right_bit_shift j 6)
                      = Z.to_nat k)) as [Heq|Hne].
    + rewrite Heq, list_lookup_insert_eq in Hw' by lia.
      injection Hw' as <-. rewrite Z.lor_spec, Z.shiftl_1_l.
      rewrite Z.pow2_bits_eqb by done.
      rewrite (Hbits j w Hj) by (by rewrite Heq).
      destruct (Z.eqb_spec i j) as [->|Hij].
      * rewrite orb_true_r. symmetry. apply bool_decide_eq_true. left.
      * rewrite orb_false_r. apply bool_decide_ext.
        rewrite elem_of_cons. intuition congruence.
    + rewrite list_lookup_insert_ne in Hw' by done.
      rewrite (Hbits j w' Hj Hw'). apply bool_decide_ext.
      rewrite elem_of_cons. split; [tauto|]. intros [->|?]; [|done].
      by destruct Hne.
Qed.

Lemma bits_sets_run (l : list Z) : forall (b : BitSet.Bits) (l0 : list Z),
  bits_hold b l0 -> Forall (bit_in_range (BitSet._n_words b)) l ->
  exists b', for_each l BitSet.set b = (Ret tt, b') /\
    bits_hold b' (reverse l ++ l0) /\ BitSet._n_words b' = BitSet._n_words b.
Proof.
  induction l as [|i l IH]; intros b l0 Hb Hl.
  - exists b. done.
  - apply Forall_cons in Hl as [Hi Hl].
    destruct (bits_set_run b l0 i Hb Hi) as (b1 & E1 & Hb1 & Hn1).
    rewrite <- Hn1 in Hl.
    destruct (IH b1 (i :: l0) Hb1 Hl) as (b' & E & Hb' & Hn).
    exists b'. cbn [for_each]. rewrite (bind_run _ _ _ _ _ E1).
    split; [done|]. split; [|congruence].
    by rewrite reverse_cons, <- app_assoc.
Qed.



Lemma make_words_run (k : nat) : forall sm,
  wf sm ->
  exists sm', BitSet.make_words k sm = (Ret (seq (n_cells sm) k), sm') /\
    wf sm' /\
    cell_values sm'
    = cell_values sm ++ replicate k 18446744073709551615.
Proof.
  induction k as [|k IH]; intros sm Hwf.
  - exists sm. simpl. by rewrite app_nil_r.
  - destruct (make_state_ref_spec 18446744073709551615 sm Hwf)
      as (sm1 & E1 & Hwf1 & _ & _ & Hv1).
    destruct (IH sm1 Hwf1) as (sm' & E & Hwf' & Hv).
    exists sm'. cbn [BitSet.make_words].
    rewrite (bind_run _ _ _ _ _ E1), (bind_run _ _ _ _ _ E).
    assert (Hn1 : n_cells sm1 = S (n_cells sm)).
    { rewrite !n_cells_cell_values, Hv1, length_app. simpl. lia. }
    rewrite Hn1. split; [done|]. split; [done|].
    rewrite Hv, Hv1, <- app_assoc. done.
Qed.


(* ================================================================== *)
(** ** domain.py and int_var.py: the variables of a solver *)

Lemma world_eta (w : World) :
  with_sm (_sm w) (with_int_vars (int_vars w) w) = w.
Proof. by destruct w. Qed.

Lemma int_var_eta (x : IntVarObj) :
  mkIntVar (_domain x) (_on_domain x) (_on_fix x) (_on_bound x) = x.
Proof. by destruct x. Qed.

Lemma set_stack_eta (e : Event) (x : IntVarObj) : set_stack e (stack_of e x) x = x.
Proof. by destruct x, e. Qed.

Lemma int_var_run (id : nat) (x : IntVarObj) (w : World) :
  int_vars w !! id = Some x -> int_var id w = (Ret x, w).
Proof. intros H. unfold int_var. by rewrite H. Qed.

Lemma on_domain_run {A} (id : nat) (m : M SparseSet.St A) (w : World) x o s' :
  int_vars w !! id = Some x ->
  m (_sm w, _domain x) = (o, s') ->
  on_domain id m w =
  (o, with_sm (fst s')
        (with_int_vars
           (<[id := mkIntVar (snd s') (_on_domain x) (_on_fix x) (_on_bound x)]>
              (int_vars w)) w)).
Proof.
  intros Hx E. unfold on_domain. rewrite (bind_run _ _ _ _ _ (int_var_run _ _ _ Hx)).
  rewrite E. by destruct s'.
Qed.

Lemma on_domain_pure {A} (id : nat) (m : M SparseSet.St A) (w : World) x o :
  int_vars w !! id = Some x ->
  m (_sm w, _domain x) = (o, (_sm w, _domain x)) ->
  on_domain id m w = (o, w).
Proof.
  intros Hx E. rewrite (on_domain_run id m w x o _ Hx E). simpl.
  by rewrite int_var_eta, list_insert_id, world_eta.
Qed.

Lemma on_stack_pure {A} (id : nat) (e : Event) (m : M Stack.St A) (w : World)
    x o :
  int_vars w !! id = Some x ->
  m (_sm w, stack_of e x) = (o, (_sm w, stack_of e x)) ->
  on_stack id e m w = (o, w).
Proof.
  intros Hx E. unfold on_stack.
  rewrite (bind_run _ _ _ _ _ (int_var_run _ _ _ Hx)). rewrite E.
  by rewrite set_stack_eta, list_insert_id, world_eta.
Qed.

(** *** Cells of different variables *)

Ltac in_list :=
  repeat first [apply list_elem_of_here | apply list_elem_of_further].

Lemma NoDup_concat_lookup {A} (ls : list (list A)) i j a b r :
  NoDup (mjoin ls) -> ls !! i = Some a -> ls !! j = Some b ->
  r ∈ a -> r ∈ b -> i = j.
Proof.
  revert i j. induction ls as [|l ls IH]; intros i j Hnd Ha Hb Hra Hrb; [done|].
  simpl in Hnd. apply NoDup_app in Hnd as (Hl & Hdisj & Hls).
  destruct i as [|i], j as [|j]; simpl in *.
  - done.
  - injection Ha as ->. exfalso. apply (Hdisj r Hra).
    apply list_elem_of_join. exists b. split; [done|].
    by apply list_elem_of_lookup_2 in Hb.
  - injection Hb as ->. exfalso. apply (Hdisj r Hrb).
    apply list_elem_of_join. exists a. split; [done|].
    by apply list_elem_of_lookup_2 in Ha.
  - f_equal. by apply IH.
Qed.

Lemma NoDup_concat_elem {A} (ls : list (list A)) i a :
  NoDup (mjoin ls) -> ls !! i = Some a -> NoDup a.
Proof.
  revert i. induction ls as [|l ls IH]; intros i Hnd Ha; [done|].
  simpl in Hnd. apply NoDup_app in Hnd as (Hl & _ & Hls).
  destruct i as [|i]; simpl in *; [by injection Ha as ->|by eapply IH].
Qed.

Lemma domain_cells_var_cells x r : r ∈ domain_cells x -> r ∈ var_cells x.
Proof. intros H. unfold var_cells. apply elem_of_app. by left. Qed.

Lemma stack_cell_var_cells e x : Stack._size (stack_of e x) ∈ var_cells x.
Proof.
  unfold var_cells. apply elem_of_app. right. destruct e; simpl; in_list.
Qed.

Lemma stack_cell_not_domain e x :
  NoDup (var_cells x) -> Stack._size (stack_of e x) ∉ domain_cells x.
Proof.
  unfold var_cells. intros Hnd Hin. apply NoDup_app in Hnd as (_ & Hdisj & _).
  apply (Hdisj _ Hin). destruct e; simpl; in_list.
Qed.

Lemma world_ok_lookup w id x :
  world_ok w -> int_vars w !! id = Some x ->
  var_ok w x /\ NoDup (var_cells x).
Proof.
  intros (Hwf & Hnd & Hall) Hx. split.
  - by apply (proj1 (Forall_lookup _ _) Hall id x).
  - apply (NoDup_concat_elem _ id _ Hnd). by rewrite list_lookup_fmap, Hx.
Qed.

Lemma other_var_cells w id j x y r :
  world_ok w -> int_vars w !! id = Some x -> int_vars w !! j = Some y ->
  id <> j -> r ∈ var_cells y -> r ∉ domain_cells x.
Proof.
  intros (_ & Hnd & _) Hx Hy Hne Hr Hin. apply Hne.
  apply (NoDup_concat_lookup (var_cells <$> int_vars w) id j
           (var_cells x) (var_cells y) r Hnd).
  - by rewrite list_lookup_fmap, Hx.
  - by rewrite list_lookup_fmap, Hy.
  - by apply domain_cells_var_cells.
  - done.
Qed.

(** *** Objects whose cells were not written *)

Lemma ss_ok_frame sm sm' (d : SparseSet.StateSparseSet) :
  ss_ok (sm, d) -> wf sm' -> (n_cells sm <= n_cells sm')%nat ->
  (forall r, r ∈ [SparseSet._size d; SparseSet._min d; SparseSet._max d] ->
             value r sm' = value r sm) ->
  ss_ok (sm', d) /\ ss_elems (sm', d) = ss_elems (sm, d).
Proof.
  intros Hok Hwf Hn Hv.
  assert (H1 : value (SparseSet._size d) sm' = value (SparseSet._size d) sm)
    by (apply Hv; in_list).
  assert (H2 : value (SparseSet._min d) sm' = value (SparseSet._min d) sm)
    by (apply Hv; in_list).
  assert (H3 : value (SparseSet._max d) sm' = value (SparseSet._max d) sm)
    by (apply Hv; in_list).
  split.
  - unfold ss_ok, ss_refs, ss_size in *. simpl in *.
    rewrite H1, H2, H3. destruct Hok as (_ & Hrefs & Hok).
    split; [done|]. split; [|done]. lia.
  - unfold ss_elems, ss_size. simpl. by rewrite H1.
Qed.

Lemma stack_frame sm sm' (st : Stack.StateStack) :
  stack_ok (sm, st) -> wf sm' -> (n_cells sm <= n_cells sm')%nat ->
  value (Stack._size st) sm' = value (Stack._size st) sm ->
  stack_ok (sm', st) /\ stack_elems (sm', st) = stack_elems (sm, st).
Proof.
  intros (_ & Hr & Hsz) Hwf Hn Hv. simpl in *. split.
  - unfold stack_ok. simpl. rewrite Hv. split; [done|]. split; [lia|done].
  - unfold stack_elems. simpl. by rewrite Hv.
Qed.

Lemma var_step_refl sm sm' x :
  value (SparseSet._size (_domain x)) sm'
  = value (SparseSet._size (_domain x)) sm ->
  var_step sm sm' x x.
Proof.
  intros Hv. unfold var_step, ss_size. simpl. rewrite Hv.
  do 8 (split; [done|]). split; [lia|done].
Qed.

Lemma var_step_trans sm1 sm2 sm3 x1 x2 x3 :
  var_step sm1 sm2 x1 x2 -> var_step sm2 sm3 x2 x3 -> var_step sm1 sm3 x1 x3.
Proof.
  intros (A1 & A2 & A3 & A4 & A5 & A6 & A7 & A8 & A9 & A10)
         (B1 & B2 & B3 & B4 & B5 & B6 & B7 & B8 & B9 & B10).
  unfold var_step. cbv zeta in *.
  do 8 (split; [congruence|]). split; [lia|].
  intros k u Hk. rewrite B10 by lia. by apply A10.
Qed.

Lemma domain_cells_step sm sm' x x' :
  var_step sm sm' x x' -> domain_cells x' = domain_cells x.
Proof.
  intros (A1 & A2 & A3 & A4 & A5 & _). unfold domain_cells.
  cbv zeta in *. by rewrite A3, A4, A5.
Qed.

Lemma var_cells_step sm sm' x x' :
  var_step sm sm' x x' -> var_cells x' = var_cells x.
Proof.
  intros H. unfold var_cells. rewrite (domain_cells_step _ _ _ _ H).
  destruct H as (_ & _ & _ & _ & _ & A6 & A7 & A8 & _).
  by rewrite A6, A7, A8.
Qed.

Lemma Forall2_fmap_eq {A B} (P : A -> A -> Prop) (f : A -> B) l k :
  Forall2 P l k -> (forall x y, P x y -> f y = f x) -> f <$> k = f <$> l.
Proof.
  intros H Hf. induction H as [|x y l k Hxy _ IH]; [done|].
  rewrite !fmap_cons. by rewrite (Hf _ _ Hxy), IH.
Qed.

Lemma world_step_cells w w' :
  world_step w w' ->
  domain_cells <$> int_vars w' = domain_cells <$> int_vars w /\
  var_cells <$> int_vars w' = var_cells <$> int_vars w.
Proof.
  intros (_ & _ & _ & H & _). split.
  - apply (Forall2_fmap_eq _ _ _ _ H). intros x y. apply domain_cells_step.
  - apply (Forall2_fmap_eq _ _ _ _ H). intros x y. apply var_cells_step.
Qed.

Lemma world_step_trans w1 w2 w3 :
  world_step w1 w2 -> world_step w2 w3 -> world_step w1 w3.
Proof.
  intros H12 H23. destruct (world_step_cells _ _ H12) as [Hc _].
  destruct H12 as (A1 & A2 & A3 & A4 & A5), H23 as (B1 & B2 & B3 & B4 & B5).
  unfold world_step. split; [congruence|]. split; [congruence|].
  split; [congruence|]. split.
  - apply Forall2_same_length_lookup. split.
    + apply Forall2_length in A4, B4. congruence.
    + intros i x z Hx Hz.
      destruct (Forall2_lookup_l _ _ _ _ _ A4 Hx) as (y & Hy & Hxy).
      pose proof (Forall2_lookup_lr _ _ _ _ _ _ B4 Hy Hz) as Hyz.
      by eapply var_step_trans.
  - intros r Hr. rewrite B5 by (by rewrite Hc). by apply A5.
Qed.

Lemma world_step_same w w' : same_vars w w' -> world_step w w'.
Proof.
  intros (H1 & H2 & H3). unfold world_step. rewrite H1, H2.
  do 3 (split; [done|]). split; [|done].
  apply Forall2_same_length_lookup. split; [done|].
  intros i x y Hx Hy. assert (x = y) as -> by congruence.
  by apply var_step_refl.
Qed.

Lemma world_ok_same w w' : world_ok w -> same_vars w w' -> world_ok w'.
Proof.
  intros (Hwf & Hnd & Hall) (H1 & H2 & H3). unfold world_ok, var_ok.
  rewrite H1, H2, H3. done.
Qed.

Lemma same_vars_refl w : same_vars w w.
Proof. done. Qed.

Lemma same_vars_trans w1 w2 w3 :
  same_vars w1 w2 -> same_vars w2 w3 -> same_vars w1 w3.
Proof.
  intros (A1 & A2 & A3) (B1 & B2 & B3). unfold same_vars.
  split; [congruence|]. split; congruence.
Qed.

Lemma var_values_same w w' id : same_vars w w' -> var_values w' id = var_values w id.
Proof. intros (H1 & H2 & _). unfold var_values. by rewrite H1, H2. Qed.

(** *** A method of the sparse set, run on a variable of the solver *)

Lemma on_domain_step {A} (id : nat) (m : M SparseSet.St A) (w : World) x
    (o : outcome A) s' :
  world_ok w -> int_vars w !! id = Some x ->
  m (_sm w, _domain x) = (o, s') ->
  ss_ok s' -> ss_step (_sm w, _domain x) s' ->
  exists w', on_domain id m w = (o, w') /\ world_ok w' /\ world_step w w' /\
    var_values w' id = ss_elems s' /\
    (forall j, j <> id -> var_values w' j = var_values w j) /\
    (exists x', int_vars w' !! id = Some x' /\ (_sm w', _domain x') = s' /\
                constraints w' = constraints w).
Proof.
  intros Hok Hx E Hok' Hst.
  set (x' := mkIntVar (snd s') (_on_domain x) (_on_fix x) (_on_bound x)).
  set (w' := with_sm (fst s') (with_int_vars (<[id := x']> (int_vars w)) w)).
  exists w'. split; [by apply (on_domain_run id m w x o s')|].
  pose proof Hok as (Hwf & Hnd & Hall).
  destruct Hst as (T1 & T2 & T3 & T4 & T5 & T6 & T7 & T8 & T9 & T10).
  simpl in T1, T2, T3, T4, T5, T6, T7, T10.
  assert (Hid : (id < length (int_vars w))%nat) by (by eapply lookup_lt_Some).
  assert (Hx' : int_vars w' !! id = Some x').
  { simpl. by apply list_lookup_insert_eq. }
  assert (Hstep_x : var_step (_sm w) (fst s') x x').
  { unfold var_step. simpl. do 8 (split; [done|]). destruct s'. done. }
  assert (Hframe : forall r, r ∉ domain_cells x ->
                             value r (fst s') = value r (_sm w)).
  { intros r Hr. apply T10; intros ->; apply Hr; unfold domain_cells;
      in_list. }
  assert (Hcells : var_cells <$> int_vars w' = var_cells <$> int_vars w).
  { simpl. rewrite list_fmap_insert.
    rewrite (var_cells_step _ _ _ _ Hstep_x).
    apply list_insert_id. by rewrite list_lookup_fmap, Hx. }
  assert (Hwf' : wf (fst s')) by (by destruct Hok').
  assert (Hother : forall j y, j <> id -> int_vars w !! j = Some y ->
            ss_ok (fst s', _domain y) /\
            ss_elems (fst s', _domain y) = ss_elems (_sm w, _domain y)).
  { intros j y Hj Hy.
    destruct (world_ok_lookup w j y Hok Hy) as [[Hoky _] _].
    apply ss_ok_frame; [done|done|simpl in T7; lia|].
    intros r Hr. apply Hframe.
    apply (other_var_cells w id j x y r Hok Hx Hy); [done|].
    by apply domain_cells_var_cells. }
  assert (Hstacks : forall j y e, int_vars w !! j = Some y ->
            stack_ok (fst s', stack_of e y) /\
            stack_elems (fst s', stack_of e y)
            = stack_elems (_sm w, stack_of e y)).
  { intros j y e Hy.
    destruct (world_ok_lookup w j y Hok Hy) as [[_ Hs] Hndy].
    destruct (Hs e) as [Hse _].
    apply stack_frame; [done|done|simpl in T7; lia|]. apply Hframe.
    destruct (decide (j = id)) as [->|Hj].
    - assert (y = x) as -> by congruence. by apply stack_cell_not_domain.
    - apply (other_var_cells w id j x y _ Hok Hx Hy); [done|].
      apply stack_cell_var_cells. }
  split; [|split; [|split; [|split]]].
  - split; [done|]. split; [by rewrite Hcells|].
    apply Forall_lookup. intros j y Hy. simpl in Hy.
    destruct (decide (j = id)) as [->|Hj].
    + rewrite list_lookup_insert_eq in Hy by done. injection Hy as <-.
      split; [by destruct s'|]. intros e.
      destruct (Hstacks id x e Hx) as [Hs1 Hs2].
      replace (stack_of e x') with (stack_of e x) by (by destruct e).
      split; [done|]. simpl. rewrite Hs2.
      destruct (world_ok_lookup w id x Hok Hx) as [[_ Hs] _].
      by destruct (Hs e).
    + rewrite list_lookup_insert_ne in Hy by done.
      split; [by apply (Hother j y)|]. intros e.
      destruct (Hstacks j y e Hy) as [Hs1 Hs2]. split; [done|].
      simpl. rewrite Hs2.
      destruct (world_ok_lookup w j y Hok Hy) as [[_ Hs] _].
      by destruct (Hs e).
  - unfold world_step. simpl. do 3 (split; [done|]). split.
    + apply Forall2_same_length_lookup. split; [by rewrite length_insert|].
      intros j y y' Hy Hy'. destruct (decide (j = id)) as [->|Hj].
      * rewrite list_lookup_insert_eq in Hy' by done.
        assert (y = x) as -> by congruence. by injection Hy' as <-.
      * rewrite list_lookup_insert_ne in Hy' by done.
        assert (y' = y) as -> by congruence. apply var_step_refl.
        apply Hframe.
        apply (other_var_cells w id j x y _ Hok Hx Hy); [done|].
        apply domain_cells_var_cells. unfold domain_cells. in_list.
    + intros r Hr. apply Hframe. intros Hin. apply Hr.
      apply list_elem_of_join. exists (domain_cells x). split; [done|].
      apply list_elem_of_fmap. exists x. split; [done|].
      by apply list_elem_of_lookup_2 in Hx.
  - unfold var_values. rewrite Hx'. simpl. by destruct s'.
  - intros j Hj. unfold var_values. simpl.
    rewrite list_lookup_insert_ne by done.
    destruct (int_vars w !! j) as [y|] eqn:Hy; [|done].
    by apply (Hother j y).
  - exists x'. split; [done|]. simpl. split; [by destruct s'|done].
Qed.

(** *** The listener of a variable *)

Lemma flags_grow_refl w : flags_grow w w.
Proof. intros c k Hk. by exists k. Qed.

Lemma flags_grow_eq w w' : constraints w' = constraints w -> flags_grow w w'.
Proof. intros H c k Hk. exists k. by rewrite H. Qed.

Lemma flags_grow_trans w1 w2 w3 :
  flags_grow w1 w2 -> flags_grow w2 w3 -> flags_grow w1 w3.
Proof.
  intros H12 H23 c k Hk. destruct (H12 c k Hk) as (k2 & Hk2 & A2 & S2).
  destruct (H23 c k2 Hk2) as (k3 & Hk3 & A3 & S3).
  exists k3. split; [done|]. split; [congruence|]. auto.
Qed.

Lemma listening_back w w' id e c :
  same_vars w w' -> flags_grow w w' ->
  listening w' id e c -> listening w id e c.
Proof.
  intros (S1 & S2 & S3) Hfl (x & k' & Hx & Hc & Hk' & Ha).
  rewrite S1 in Hc, Ha. rewrite S2 in Hx.
  destruct (lookup_lt_is_Some_2 (constraints w) c) as [k Hk].
  { rewrite <- S3. by eapply lookup_lt_Some. }
  destruct (Hfl c k Hk) as (k2 & Hk2 & A2 & _).
  assert (k2 = k') as -> by congruence.
  exists x, k. rewrite <- A2. done.
Qed.

Lemma scheduled_step w w' c :
  flags_grow w w' -> is_scheduled_in w c -> is_scheduled_in w' c.
Proof.
  intros Hfl (k & Hk & Hs). destruct (Hfl c k Hk) as (k' & Hk' & _ & S).
  exists k'. auto.
Qed.

Lemma fired_step w w' id E :
  same_vars w w' -> flags_grow w w' -> fired w id E -> fired w' id E.
Proof.
  intros Hs Hfl Hf e c He Hl. apply (scheduled_step w w' c Hfl).
  apply (Hf e c He). by apply (listening_back w w').
Qed.

Lemma fired_app w id E1 E2 :
  fired w id E1 -> fired w id E2 -> fired w id (E1 ++ E2).
Proof.
  intros H1 H2 e c He. apply elem_of_app in He as [He|He]; eauto.
Qed.

Lemma fired_sub w id E E' :
  fired w id E -> (forall e, e ∈ E' -> e ∈ E) -> fired w id E'.
Proof. intros H Hsub e c He. apply (H e c). by apply Hsub. Qed.

Lemma fired_nil w id : fired w id [].
Proof. intros e c He. by apply elem_of_nil in He. Qed.

Lemma schedule_fired c w k :
  constraints w !! c = Some k ->
  exists w', schedule c w = (Ret tt, w') /\ same_vars w w' /\
    flags_grow w w' /\
    (value (_active k) (_sm w) <> 0 -> is_scheduled_in w' c).
Proof.
  intros Hk. rewrite schedule_run, Hk.
  destruct (negb (value (_active k) (_sm w) =? 0) && negb (_scheduled k))
    eqn:Hcond.
  - eexists. split; [done|]. split.
    { unfold same_vars. simpl. by rewrite length_insert. }
    split.
    + intros c0 k0 Hk0. simpl. destruct (decide (c0 = c)) as [->|Hne].
      * eexists. rewrite list_lookup_insert_eq by (by eapply lookup_lt_Some).
        split; [done|]. simpl. split; [congruence|done].
      * exists k0. by rewrite list_lookup_insert_ne.
    + intros _. eexists. simpl.
      rewrite list_lookup_insert_eq by (by eapply lookup_lt_Some). done.
  - exists w. split; [done|]. split; [apply same_vars_refl|].
    split; [apply flags_grow_refl|].
    intros Ha. exists k. split; [done|].
    apply andb_false_iff in Hcond as [Hc|Hc].
    + apply negb_false_iff, Z.eqb_eq in Hc. done.
    + by apply negb_false_iff in Hc.
Qed.

Lemma schedule_loop id e w x (l : list Z) :
  world_ok w -> int_vars w !! id = Some x ->
  Forall (fun i => 0 <= i < value (Stack._size (stack_of e x)) (_sm w)) l ->
  forall w1, same_vars w w1 -> flags_grow w w1 ->
  exists w', for_each l (fun i => c <- on_stack id e (Stack.get i) ;; schedule c) w1
             = (Ret tt, w') /\ same_vars w w' /\ flags_grow w1 w' /\
    forall i c k, i ∈ l ->
      stack_elems (_sm w, stack_of e x) !! Z.to_nat i = Some c ->
      constraints w !! c = Some k -> value (_active k) (_sm w) <> 0 ->
      is_scheduled_in w' c.
Proof.
  intros Hok Hx. induction l as [|i l IH]; intros Hl w1 Hs1 Hf1.
  - exists w1. split; [done|]. split; [done|]. split; [apply flags_grow_refl|].
    intros i c k Hi. by apply elem_of_nil in Hi.
  - apply Forall_cons in Hl as [Hi Hl].
    destruct (world_ok_lookup w id x Hok Hx) as [[_ Hst] _].
    destruct (Hst e) as [Hsok Hcs].
    pose proof Hs1 as (S1 & S2 & S3).
    pose proof Hsok as (_ & _ & Hsz). simpl in Hsz.
    destruct (lookup_lt_is_Some_2 (stack_elems (_sm w, stack_of e x))
                (Z.to_nat i)) as [c Hc].
    { unfold stack_elems. simpl. rewrite length_take. lia. }
    assert (Hget : on_stack id e (Stack.get i) w1 = (Ret c, w1)).
    { apply (on_stack_pure id e _ w1 x); [by rewrite S2|].
      rewrite S1. apply stack_get_spec; [done|lia|done]. }
    assert (Hclt : (c < length (constraints w))%nat).
    { by apply (proj1 (Forall_lookup _ _) Hcs (Z.to_nat i) c). }
    destruct (lookup_lt_is_Some_2 _ _ Hclt) as [k Hk].
    destruct (Hf1 c k Hk) as (k1 & Hk1 & A1 & _).
    destruct (schedule_fired c w1 k1 Hk1) as (w2 & E2 & Hs2 & Hf2 & Hsch).
    destruct (IH Hl w2 (same_vars_trans _ _ _ Hs1 Hs2)
                (flags_grow_trans _ _ _ Hf1 Hf2))
      as (w' & E & Hs & Hf & Hall).
    exists w'. split.
    { cbn [for_each]. unfold bind at 1.
      by rewrite (bind_run _ _ _ _ _ Hget), E2. }
    split; [done|]. split; [by eapply flags_grow_trans|].
    intros i0 c0 k0 Hi0 Hc0 Hk0 Ha0.
    apply elem_of_cons in Hi0 as [->|Hi0]; [|by eapply Hall].
    assert (c0 = c) as -> by congruence.
    assert (k0 = k) as -> by congruence.
    apply (scheduled_step w2 w' c Hf). apply Hsch.
    by rewrite A1, S1.
Qed.

Lemma fires_schedule_all id e : fires id (fun _ => [e]) (schedule_all id e).
Proof.
  intros w x Hok Hx. unfold schedule_all.
  assert (Hsize : on_stack id e Stack.size w
                  = (Ret (value (Stack._size (stack_of e x)) (_sm w)), w)).
  { by apply (on_stack_pure id e _ w x). }
  rewrite (bind_run _ _ _ _ _ Hsize).
  destruct (schedule_loop id e w x
              (range 0 (value (Stack._size (stack_of e x)) (_sm w))) Hok Hx)
    with (w1 := w) as (w' & E & Hs & Hf & Hall).
  - apply Forall_forall. intros i Hi. apply elem_of_range in Hi. lia.
  - apply same_vars_refl.
  - apply flags_grow_refl.
  - exists tt, w'. do 3 (split; [done|]). intros E0 H0.
    apply fired_app; [by apply (fired_step w w')|].
    intros e0 c He0 Hl. apply list_elem_of_singleton in He0 as ->.
    apply (listening_back w w' id e c Hs Hf) in Hl.
    destruct Hl as (x0 & k & Hx0 & Hc & Hk & Ha).
    assert (x0 = x) as -> by congruence.
    apply list_elem_of_lookup in Hc as (i & Hc).
    apply (Hall (Z.of_nat i) c k); [|by rewrite Nat2Z.id|done|done].
    apply elem_of_range. apply lookup_lt_Some in Hc.
    unfold stack_elems in Hc. simpl in Hc. rewrite length_take in Hc. lia.
Qed.

Lemma fires_ret {A} id (a : A) : fires id (fun _ => []) (ret a).
Proof.
  intros w x _ _. exists a, w. split; [done|].
  split; [apply same_vars_refl|]. split; [apply flags_grow_refl|].
  intros E0 H0. by rewrite app_nil_r.
Qed.

Lemma fires_bind {A B} id E1 E2 (m : M World A) (k : A -> M World B) :
  fires id E1 m -> (forall a, fires id E2 (k a)) ->
  fires id (fun s => E1 s ++ E2 s) (bind m k).
Proof.
  intros Hm Hk w x Hok Hx.
  destruct (Hm w x Hok Hx) as (a & w1 & E1' & S1 & F1 & Hf1).
  assert (Hok1 : world_ok w1) by (by eapply world_ok_same).
  assert (Hx1 : int_vars w1 !! id = Some x).
  { destruct S1 as (_ & -> & _). done. }
  destruct (Hk a w1 x Hok1 Hx1) as (b & w2 & E2' & S2 & F2 & Hf2).
  exists b, w2. rewrite (bind_run _ _ _ _ _ E1').
  split; [done|]. split; [by eapply same_vars_trans|].
  split; [by eapply flags_grow_trans|].
  intros E0 H0. rewrite app_assoc.
  replace (_sm w) with (_sm w1) by (by destruct S1).
  apply Hf2. replace (_sm w1) with (_sm w) by (by destruct S1). by apply Hf1.
Qed.

Lemma fires_when id E (b : bool) (m : M World unit) :
  fires id E m -> fires id (fun s => if b then E s else []) (when_ b m).
Proof. intros Hm. destruct b; [done|]. apply fires_ret. Qed.

Lemma fires_if {A} id E1 E2 (b : bool) (m1 m2 : M World A) :
  fires id E1 m1 -> fires id E2 m2 ->
  fires id (fun s => if b then E1 s else E2 s) (if b then m1 else m2).
Proof. intros H1 H2. by destruct b. Qed.

Lemma domain_size_run id w x :
  int_vars w !! id = Some x ->
  on_domain id SparseSet.size w = (Ret (ss_size (_sm w, _domain x)), w).
Proof.
  intros Hx. apply (on_domain_pure id _ w x); [done|].
  unfold SparseSet.size. by rewrite ss_get_run.
Qed.

Lemma fires_size_bind {B} id (E : Z -> Z -> list Event) (k : Z -> M World B) :
  (forall s, fires id (E s) (k s)) ->
  fires id (fun s => E s s) (bind (on_domain id SparseSet.size) k).
Proof.
  intros Hk w x Hok Hx.
  rewrite (bind_run _ _ _ _ _ (domain_size_run id w x Hx)).
  by apply Hk.
Qed.

Ltac fires_step :=
  lazymatch goal with
  | |- fires _ _ (schedule_all _ _) => eapply fires_schedule_all
  | |- fires _ _ (ret _) => eapply fires_ret
  | |- fires _ _ (when_ _ _) => eapply fires_when
  | |- fires _ _ (if _ then _ else _) => eapply fires_if
  | |- fires _ _ (bind (on_domain _ SparseSet.size) _) =>
      eapply fires_size_bind; intros ?
  | |- fires _ _ (bind _ _) => eapply fires_bind; [|intros ?]
  end.

Ltac fires_auto := repeat fires_step.

Ltac event_in :=
  cbv beta iota;
  first [ apply list_elem_of_here
        | apply elem_of_app; first [left; event_in | right; event_in] ].

Lemma when_false {S} (m : M S unit) : when_ false m = ret tt.
Proof. reflexivity. Qed.

Lemma domain_contains_run id w x v :
  world_ok w -> int_vars w !! id = Some x ->
  on_domain id (SparseSet.contains v) w
  = (Ret (bool_decide (v ∈ var_values w id)), w).
Proof.
  intros Hok Hx. destruct (world_ok_lookup w id x Hok Hx) as [[Hss _] _].
  pose proof Hss as (_ & _ & Hperm & Hsz & _).
  destruct (ss_contains_run v (_sm w, _domain x) Hperm) as (b & E & Hb);
    [lia|].
  rewrite (on_domain_pure id _ w x _ Hx E). do 2 f_equal.
  unfold var_values. rewrite Hx. destruct b.
  - symmetry. apply bool_decide_eq_true. by apply Hb.
  - symmetry. apply bool_decide_eq_false. intros Hin. by apply Hb in Hin.
Qed.

Lemma domain_min_run id w x :
  int_vars w !! id = Some x ->
  Domain.min id w
  = (if ss_size (_sm w, _domain x) =? 0 then Raise ValueError
     else Ret (value (SparseSet._min (_domain x)) (_sm w)
               + SparseSet._ofs (_domain x)), w).
Proof.
  intros Hx. apply (on_domain_pure id _ w x); [done|]. apply ss_min_run.
Qed.

Lemma domain_max_run id w x :
  int_vars w !! id = Some x ->
  Domain.max id w
  = (if ss_size (_sm w, _domain x) =? 0 then Raise ValueError
     else Ret (value (SparseSet._max (_domain x)) (_sm w)
               + SparseSet._ofs (_domain x)), w).
Proof.
  intros Hx. apply (on_domain_pure id _ w x); [done|]. apply ss_max_run.
Qed.

Lemma domain_min_some id w x :
  int_vars w !! id = Some x -> ss_size (_sm w, _domain x) <> 0 ->
  Domain.min id w
  = (Ret (value (SparseSet._min (_domain x)) (_sm w)
          + SparseSet._ofs (_domain x)), w).
Proof.
  intros Hx Hnz. rewrite (domain_min_run id w x Hx).
  by rewrite (proj2 (Z.eqb_neq _ _) Hnz).
Qed.

Lemma domain_max_some id w x :
  int_vars w !! id = Some x -> ss_size (_sm w, _domain x) <> 0 ->
  Domain.max id w
  = (Ret (value (SparseSet._max (_domain x)) (_sm w)
          + SparseSet._ofs (_domain x)), w).
Proof.
  intros Hx Hnz. rewrite (domain_max_run id w x Hx).
  by rewrite (proj2 (Z.eqb_neq _ _) Hnz).
Qed.

Lemma var_values_size w id x :
  world_ok w -> int_vars w !! id = Some x ->
  Z.of_nat (length (var_values w id)) = ss_size (_sm w, _domain x).
Proof.
  intros Hok Hx. destruct (world_ok_lookup w id x Hok Hx) as [[Hss _] _].
  unfold var_values. rewrite Hx. by apply ss_elems_length.
Qed.

Lemma var_values_NoDup w id : world_ok w -> NoDup (var_values w id).
Proof.
  intros Hok. unfold var_values.
  destruct (int_vars w !! id) as [x|] eqn:Hx; [|constructor].
  destruct (world_ok_lookup w id x Hok Hx) as [[Hss _] _].
  apply ss_elems_NoDup. by destruct Hss as (_ & _ & Hperm & _).
Qed.

(** *** The four updates of [SparseSetDomain] *)

Lemma var_values_nil_size w id x :
  world_ok w -> int_vars w !! id = Some x ->
  var_values w id = [] <-> ss_size (_sm w, _domain x) = 0.
Proof.
  intros Hok Hx. rewrite <- (var_values_size w id x Hok Hx).
  destruct (var_values w id); simpl; split; intros H; try done; lia.
Qed.

Lemma after_change id w x (k : Z -> M World unit) (E : Z -> Z -> list Event) :
  world_ok w -> int_vars w !! id = Some x ->
  (forall w, k 0 w = (Raise InconsistencyException, w)) ->
  (forall s, s <> 0 -> fires id (E s) (k s)) ->
  exists w',
    (s <- on_domain id SparseSet.size ;; k s) w
    = (if decide (var_values w' id = []) then Raise InconsistencyException
       else Ret tt, w') /\
    same_vars w w' /\ flags_grow w w' /\
    (var_values w' id <> [] ->
     fired w' id (E (ss_size (_sm w, _domain x))
                    (ss_size (_sm w, _domain x)))).
Proof.
  intros Hok Hx Hk0 Hk. rewrite (bind_run _ _ _ _ _ (domain_size_run id w x Hx)).
  destruct (decide (ss_size (_sm w, _domain x) = 0)) as [Hz|Hnz].
  - exists w. rewrite Hz, Hk0.
    assert (Hnil : var_values w id = [])
      by (by apply (var_values_nil_size w id x)).
    split; [by rewrite decide_True|]. split; [apply same_vars_refl|].
    split; [apply flags_grow_refl|done].
  - destruct (Hk _ Hnz w x Hok Hx) as ([] & w' & E' & Hs & Hf & Hfd).
    exists w'. rewrite E'.
    assert (Hnn : var_values w' id <> []).
    { rewrite (var_values_same _ _ _ Hs).
      by rewrite (var_values_nil_size w id x). }
    split; [by rewrite decide_False|]. split; [done|]. split; [done|].
    intros _. apply (Hfd []). apply fired_nil.
Qed.

Lemma change_then {A} id w x (m : M SparseSet.St A) (a : A) s'
    (k : Z -> M World unit) (E : Z -> Z -> list Event) :
  world_ok w -> int_vars w !! id = Some x ->
  m (_sm w, _domain x) = (Ret a, s') ->
  ss_ok s' -> ss_step (_sm w, _domain x) s' ->
  (forall w, k 0 w = (Raise InconsistencyException, w)) ->
  (forall s, s <> 0 -> fires id (E s) (k s)) ->
  exists w',
    (on_domain id m ;; s <- on_domain id SparseSet.size ;; k s) w
    = (if decide (var_values w' id = []) then Raise InconsistencyException
       else Ret tt, w') /\
    world_ok w' /\ world_step w w' /\
    var_values w' id = ss_elems s' /\
    (forall j, j <> id -> var_values w' j = var_values w j) /\
    flags_grow w w' /\
    (var_values w' id <> [] -> fired w' id (E (ss_size s') (ss_size s'))).
Proof.
  intros Hok Hx E' Hok' Hst Hk0 Hk.
  destruct (on_domain_step id m w x (Ret a) s' Hok Hx E' Hok' Hst)
    as (w1 & E1 & Hok1 & Hst1 & Hv1 & Hfr1 & x1 & Hx1 & Hs1 & Hc1).
  destruct (after_change id w1 x1 k E Hok1 Hx1 Hk0 Hk)
    as (w' & E2 & Hs & Hf & Hfd).
  exists w'. rewrite (bind_run _ _ _ _ _ E1). split; [done|].
  split; [by eapply world_ok_same|].
  split; [eapply world_step_trans; [done|by apply world_step_same]|].
  split; [by rewrite (var_values_same _ _ _ Hs)|].
  split; [intros j Hj; rewrite (var_values_same _ _ _ Hs); by apply Hfr1|].
  rewrite Hs1 in Hfd.
  split; [|done].
  eapply flags_grow_trans; [by apply flags_grow_eq|done].
Qed.

Lemma raise_bind {S A B} e (k : A -> M S B) s :
  bind (raise e) k s = (Raise e, s).
Proof. done. Qed.

Lemma lost_shorter (l l' : list Z) (m : Z) :
  NoDup l' -> (forall u, u ∈ l' -> u ∈ l) -> m ∈ l -> m ∉ l' ->
  (length l' < length l)%nat.
Proof.
  intros Hnd Hsub Hm Hn.
  assert (H : m :: l' ⊆+ l).
  { apply NoDup_submseteq; [by apply NoDup_cons|].
    intros u Hu. apply elem_of_cons in Hu as [->|Hu]; auto. }
  apply submseteq_length in H. simpl in H. lia.
Qed.

Lemma update_fired_same w id : update_fired w w id.
Proof.
  split; [apply flags_grow_refl|]. split; [done|]. intros H. by destruct H.
Qed.

Lemma update_fired_empty w w' id :
  flags_grow w w' -> var_values w id <> [] -> var_values w' id = [] ->
  update_fired w w' id.
Proof.
  intros Hfl Hne Hnil. split; [done|]. rewrite Hnil. split.
  - simpl. intros H. symmetry in H. by apply nil_length_inv in H.
  - intros _ H. by destruct H.
Qed.

Lemma impl_remove id v w x :
  world_ok w -> int_vars w !! id = Some x -> var_values w id <> [] ->
  exists w',
    Domain.remove id v (dom_listener id) w
    = (if decide (var_values w' id = []) then Raise InconsistencyException
       else Ret tt, w') /\
    world_ok w' /\ world_step w w' /\
    (forall u, u ∈ var_values w' id <-> u ∈ var_values w id /\ u <> v) /\
    (forall j, j <> id -> var_values w' j = var_values w j) /\
    update_fired w w' id.
Proof.
  intros Hok Hx Hne. unfold Domain.remove.
  rewrite (bind_run _ _ _ _ _ (domain_contains_run id w x v Hok Hx)).
  assert (Hnz : ss_size (_sm w, _domain x) <> 0).
  { by rewrite <- (var_values_nil_size w id x). }
  assert (Hl : var_values w id = ss_elems (_sm w, _domain x)).
  { unfold var_values. by rewrite Hx. }
  destruct (decide (v ∈ var_values w id)) as [Hin|Hout].
  - rewrite bool_decide_eq_true_2 by done.
    rewrite (bind_run _ _ _ _ _ (domain_max_some id w x Hx Hnz)).
    rewrite (bind_run _ _ _ _ _ (domain_min_some id w x Hx Hnz)).
    destruct (world_ok_lookup w id x Hok Hx) as [[Hss _] _].
    destruct (ss_remove_run v (_sm w, _domain x) Hss)
      as (b & s' & E & Hok' & Hst & _ & Hmem & _).
    evar (EE : Z -> Z -> list Event).
    match goal with
    | |- context [bind (on_domain id (SparseSet.remove v))
                    (fun _ => bind _ ?k)] =>
        destruct (change_then id w x (SparseSet.remove v) b s' k EE
                    Hok Hx E Hok' Hst)
          as (w' & E' & Hok1 & Hst1 & Hv & Hfr & Hfl & Hfd)
    end.
    + intros w0. done.
    + intros s Hs. rewrite (proj2 (Z.eqb_neq _ _) Hs), when_false.
      cbn [dom_listener empty_ fix_ change_ change_min_ change_max_].
      unfold EE. fires_auto.
    + exists w'. split; [exact E'|]. split; [done|]. split; [done|].
      split; [intros u; rewrite Hv, Hl; apply Hmem|]. split; [done|].
      assert (Hshort : (length (var_values w' id) < length (var_values w id))%nat).
      { apply (lost_shorter _ _ v); [by apply var_values_NoDup| |done|].
        - intros u Hu. rewrite Hv in Hu. apply Hmem in Hu. rewrite Hl. tauto.
        - rewrite Hv. intros Hu. apply Hmem in Hu. tauto. }
      split; [done|]. split; [lia|]. intros _ Hnn. specialize (Hfd Hnn).
      assert (Hpos : 0 < ss_size (_sm w, _domain x)).
      { destruct Hss as (_ & _ & _ & Hsz & _). lia. }
      destruct (ss_bounds (_sm w, _domain x) Hss Hpos) as (B1 & B2 & B3).
      simpl in B1, B2, B3.
      split; [|split].
      * apply (fired_sub _ _ _ _ Hfd). intros e He.
        apply list_elem_of_singleton in He as ->. unfold EE. event_in.
      * intros (m & Hm & Hm' & Hbd).
        assert (m = v) as ->.
        { destruct (decide (m = v)) as [|Hmv]; [done|]. exfalso. apply Hm'.
          rewrite Hv. apply Hmem. by rewrite <- Hl. }
        apply (fired_sub _ _ _ _ Hfd). intros e He.
        apply list_elem_of_singleton in He as ->. unfold EE.
        rewrite Hl in Hbd, Hin. destruct Hbd as [Hmin|Hmax].
        -- pose proof (Hmin _ B1). pose proof (proj1 (B3 _ Hin)).
           replace (value (SparseSet._min (_domain x)) (_sm w)
                    + SparseSet._ofs (_domain x) =? v) with true
             by (symmetry; apply Z.eqb_eq; lia).
           event_in.
        -- pose proof (Hmax _ B2). pose proof (proj2 (B3 _ Hin)).
           replace (value (SparseSet._max (_domain x)) (_sm w)
                    + SparseSet._ofs (_domain x) =? v) with true
             by (symmetry; apply Z.eqb_eq; lia).
           event_in.
      * intros H1.
        assert (H1' : ss_size s' = 1).
        { rewrite <- (ss_elems_length s' Hok'), <- Hv, H1. done. }
        apply (fired_sub _ _ _ _ Hfd). intros e He.
        apply list_elem_of_singleton in He as ->. unfold EE.
        rewrite H1', Z.eqb_refl. event_in.
  - rewrite bool_decide_eq_false_2 by done. exists w.
    rewrite decide_False by done. split; [done|]. split; [done|].
    split; [apply world_step_same, same_vars_refl|].
    split; [|split; [done|apply update_fired_same]].
    intros u. split; [|tauto]. intros Hu. split; [done|]. by intros ->.
Qed.

Lemma singleton_member (l : list Z) (v : Z) :
  NoDup l -> Z.of_nat (length l) = 1 -> v ∈ l ->
  forall u, u ∈ l <-> u ∈ l /\ u = v.
Proof.
  intros Hnd Hlen Hv u. destruct l as [|a [|b l]]; simpl in Hlen; try lia.
  apply list_elem_of_singleton in Hv as ->.
  rewrite list_elem_of_singleton. tauto.
Qed.

Lemma impl_fix id v w x :
  world_ok w -> int_vars w !! id = Some x -> var_values w id <> [] ->
  exists w',
    Domain.remove_all_but id v (dom_listener id) w
    = (if decide (var_values w' id = []) then Raise InconsistencyException
       else Ret tt, w') /\
    world_ok w' /\ world_step w w' /\
    (forall u, u ∈ var_values w' id <-> u ∈ var_values w id /\ u = v) /\
    (forall j, j <> id -> var_values w' j = var_values w j) /\
    update_fired w w' id.
Proof.
  intros Hok Hx Hne. unfold Domain.remove_all_but.
  rewrite (bind_run _ _ _ _ _ (domain_contains_run id w x v Hok Hx)).
  assert (Hnz : ss_size (_sm w, _domain x) <> 0).
  { by rewrite <- (var_values_nil_size w id x). }
  destruct (world_ok_lookup w id x Hok Hx) as [[Hss _] _].
  assert (Hvals : var_values w id = ss_elems (_sm w, _domain x)).
  { unfold var_values. by rewrite Hx. }
  pose proof (var_values_size w id x Hok Hx) as Hlen.
  destruct (decide (v ∈ var_values w id)) as [Hin|Hout].
  - rewrite bool_decide_eq_true_2 by done.
    rewrite (bind_run _ _ _ _ _ (domain_size_run id w x Hx)).
    destruct (Z.eqb_spec (ss_size (_sm w, _domain x)) 1) as [H1|H1];
      cbn [negb].
    + exists w. rewrite decide_False by done. split; [done|]. split; [done|].
      split; [apply world_step_same, same_vars_refl|].
      split; [|split; [done|apply update_fired_same]].
      apply singleton_member; [by apply var_values_NoDup| |done].
      by rewrite (var_values_size w id x).
    + rewrite (bind_run _ _ _ _ _ (domain_max_some id w x Hx Hnz)).
      rewrite (bind_run _ _ _ _ _ (domain_min_some id w x Hx Hnz)).
      destruct (ss_remove_all_but_run v (_sm w, _domain x) Hss) as [_ Hrun].
      pose proof Hin as Hin'. rewrite Hvals in Hin'.
      destruct (Hrun Hin') as (s' & E & Hok' & Hst & Hel).
      evar (EE : Z -> Z -> list Event).
      match goal with
      | |- context [bind (on_domain id (SparseSet.remove_all_but v))
                      (fun _ => bind _ ?k)] =>
          destruct (change_then id w x (SparseSet.remove_all_but v) tt s' k EE
                      Hok Hx E Hok' Hst)
            as (w' & E' & Hok1 & Hst1 & Hv & Hfr & Hfl & Hfd)
      end.
      * intros w0. done.
      * intros s Hs. rewrite (proj2 (Z.eqb_neq _ _) Hs), when_false.
        cbn [dom_listener empty_ fix_ change_ change_min_ change_max_].
        unfold EE. fires_auto.
      * exists w'. split; [exact E'|]. split; [done|]. split; [done|].
        split.
        { intros u. rewrite Hv, Hel, Hvals.
          rewrite list_elem_of_singleton. split; [by intros ->|tauto]. }
        split; [done|]. split; [done|].
        assert (Hpos : 0 < ss_size (_sm w, _domain x)).
        { destruct Hss as (_ & _ & _ & Hsz & _). lia. }
        destruct (ss_bounds (_sm w, _domain x) Hss Hpos) as (B1 & B2 & B3).
        simpl in B1, B2, B3.
        rewrite Hv, Hel. simpl. split; [lia|]. intros _ Hnn.
        rewrite Hv, Hel in Hfd. specialize (Hfd Hnn).
        split; [|split].
        -- apply (fired_sub _ _ _ _ Hfd). intros e He.
           apply list_elem_of_singleton in He as ->. unfold EE. event_in.
        -- intros (m & Hm & Hm' & Hbd).
           assert (Hmv : m <> v).
           { intros ->. apply Hm'. apply list_elem_of_here. }
           apply (fired_sub _ _ _ _ Hfd). intros e He.
           apply list_elem_of_singleton in He as ->. unfold EE.
           rewrite Hvals in Hbd, Hm. destruct Hbd as [Hmin|Hmax].
           ++ pose proof (Hmin _ B1). pose proof (proj1 (B3 _ Hm)).
              replace (value (SparseSet._min (_domain x)) (_sm w)
                       + SparseSet._ofs (_domain x) =? v) with false
                by (symmetry; apply Z.eqb_neq; lia).
              cbn [negb]. event_in.
           ++ pose proof (Hmax _ B2). pose proof (proj2 (B3 _ Hm)).
              replace (value (SparseSet._max (_domain x)) (_sm w)
                       + SparseSet._ofs (_domain x) =? v) with false
                by (symmetry; apply Z.eqb_neq; lia).
              cbn [negb]. event_in.
        -- intros _. apply (fired_sub _ _ _ _ Hfd). intros e He.
           apply list_elem_of_singleton in He as ->. unfold EE. event_in.
  - rewrite bool_decide_eq_false_2 by done.
    destruct (ss_remove_all_run (_sm w, _domain x) Hss)
      as (s' & E & Hok' & Hst & Hel).
    destruct (on_domain_step id SparseSet.remove_all w x (Ret tt) s'
                Hok Hx E Hok' Hst)
      as (w1 & E1 & Hok1 & Hst1 & Hv1 & Hfr1 & x1 & _ & _ & Hc1).
    exists w1. rewrite (bind_run _ _ _ _ _ E1). cbn [dom_listener empty_].
    assert (Hnil : var_values w1 id = []) by (by rewrite Hv1).
    rewrite decide_True by done.
    split; [done|]. split; [done|]. split; [done|]. split.
    { intros u. rewrite Hnil, elem_of_nil. split; [done|]. by intros [Hu ->]. }
    split; [done|]. apply update_fired_empty; [by apply flags_grow_eq|done..].
Qed.

Lemma impl_remove_below id v w x :
  world_ok w -> int_vars w !! id = Some x -> var_values w id <> [] ->
  exists w',
    Domain.remove_below id v (dom_listener id) w
    = (if decide (var_values w' id = []) then Raise InconsistencyException
       else Ret tt, w') /\
    world_ok w' /\ world_step w w' /\
    (forall u, u ∈ var_values w' id <-> u ∈ var_values w id /\ v <= u) /\
    (forall j, j <> id -> var_values w' j = var_values w j) /\
    update_fired w w' id.
Proof.
  intros Hok Hx Hne. unfold Domain.remove_below.
  assert (Hnz : ss_size (_sm w, _domain x) <> 0).
  { by rewrite <- (var_values_nil_size w id x). }
  destruct (world_ok_lookup w id x Hok Hx) as [[Hss _] _].
  assert (Hvals : var_values w id = ss_elems (_sm w, _domain x)).
  { unfold var_values. by rewrite Hx. }
  assert (Hpos : 0 < ss_size (_sm w, _domain x)).
  { destruct Hss as (_ & _ & _ & Hsz & _). lia. }
  pose proof (domain_min_some id w x Hx Hnz) as Emin.
  unfold Domain.min in Emin. rewrite (bind_run _ _ _ _ _ Emin).
  destruct (ss_bounds (_sm w, _domain x) Hss Hpos) as (B1 & B2 & B3).
  simpl in B1, B2, B3.
  destruct (Z.ltb_spec (value (SparseSet._min (_domain x)) (_sm w)
                        + SparseSet._ofs (_domain x)) v) as [Hlt|Hge].
  - destruct (ss_remove_below_run v (_sm w, _domain x) Hss) as [_ Hrun].
    destruct (Hrun Hpos) as (s' & E & Hok' & Hst & Hel).
    evar (EE : Z -> Z -> list Event).
    match goal with
    | |- context [bind (on_domain id (SparseSet.remove_below v))
                    (fun _ => bind _ ?k)] =>
        destruct (change_then id w x (SparseSet.remove_below v) tt s' k EE
                    Hok Hx E Hok' Hst)
          as (w' & E' & Hok1 & Hst1 & Hv & Hfr & Hfl & Hfd)
    end.
    + intros w0. done.
    + intros s Hs. rewrite (proj2 (Z.eqb_neq _ _) Hs). cbv iota.
      cbn [dom_listener empty_ fix_ change_ change_min_ change_max_].
      unfold EE. fires_auto.
    + exists w'. split; [exact E'|]. split; [done|]. split; [done|].
      split; [intros u; rewrite Hv, Hvals; apply Hel|]. split; [done|].
      assert (Hshort : (length (var_values w' id) < length (var_values w id))%nat).
      { apply (lost_shorter _ _ (value (SparseSet._min (_domain x)) (_sm w)
                                 + SparseSet._ofs (_domain x)));
          [by apply var_values_NoDup| |by rewrite Hvals|].
        - intros u Hu. rewrite Hv in Hu. apply Hel in Hu. rewrite Hvals. tauto.
        - rewrite Hv. intros Hu. apply Hel in Hu. lia. }
      split; [done|]. split; [lia|]. intros _ Hnn. specialize (Hfd Hnn).
      split; [|split].
      * apply (fired_sub _ _ _ _ Hfd). intros e He.
        apply list_elem_of_singleton in He as ->. unfold EE.
        destruct (ss_size s' =? 1); event_in.
      * intros _. apply (fired_sub _ _ _ _ Hfd). intros e He.
        apply list_elem_of_singleton in He as ->. unfold EE.
        destruct (ss_size s' =? 1); event_in.
      * intros H1.
        assert (H1' : ss_size s' = 1).
        { rewrite <- (ss_elems_length s' Hok'), <- Hv, H1. done. }
        apply (fired_sub _ _ _ _ Hfd). intros e He.
        apply list_elem_of_singleton in He as ->. unfold EE.
        rewrite H1', Z.eqb_refl. event_in.
  - exists w. rewrite decide_False by done. split; [done|]. split; [done|].
    split; [apply world_step_same, same_vars_refl|].
    split; [|split; [done|apply update_fired_same]].
    intros u. split; [|tauto]. intros Hu. split; [done|].
    rewrite Hvals in Hu. apply B3 in Hu. lia.
Qed.

Lemma impl_remove_above id v w x :
  world_ok w -> int_vars w !! id = Some x -> var_values w id <> [] ->
  exists w',
    Domain.remove_above id v (dom_listener id) w
    = (if decide (var_values w' id = []) then Raise InconsistencyException
       else Ret tt, w') /\
    world_ok w' /\ world_step w w' /\
    (forall u, u ∈ var_values w' id <-> u ∈ var_values w id /\ u <= v) /\
    (forall j, j <> id -> var_values w' j = var_values w j) /\
    update_fired w w' id.
Proof.
  intros Hok Hx Hne. unfold Domain.remove_above.
  assert (Hnz : ss_size (_sm w, _domain x) <> 0).
  { by rewrite <- (var_values_nil_size w id x). }
  destruct (world_ok_lookup w id x Hok Hx) as [[Hss _] _].
  assert (Hvals : var_values w id = ss_elems (_sm w, _domain x)).
  { unfold var_values. by rewrite Hx. }
  assert (Hpos : 0 < ss_size (_sm w, _domain x)).
  { destruct Hss as (_ & _ & _ & Hsz & _). lia. }
  pose proof (domain_max_some id w x Hx Hnz) as Emax.
  unfold Domain.max in Emax. rewrite (bind_run _ _ _ _ _ Emax).
  destruct (ss_bounds (_sm w, _domain x) Hss Hpos) as (B1 & B2 & B3).
  simpl in B1, B2, B3. rewrite Z.gtb_ltb.
  destruct (Z.ltb_spec v (value (SparseSet._max (_domain x)) (_sm w)
                          + SparseSet._ofs (_domain x))) as [Hlt|Hge].
  - destruct (ss_remove_above_run v (_sm w, _domain x) Hss) as [_ Hrun].
    destruct (Hrun Hpos) as (s' & E & Hok' & Hst & Hel).
    evar (EE : Z -> Z -> list Event).
    match goal with
    | |- context [bind (on_domain id (SparseSet.remove_above v))
                    (fun _ => bind _ ?k)] =>
        destruct (change_then id w x (SparseSet.remove_above v) tt s' k EE
                    Hok Hx E Hok' Hst)
          as (w' & E' & Hok1 & Hst1 & Hv & Hfr & Hfl & Hfd)
    end.
    + intros w0. done.
    + intros s Hs. rewrite (proj2 (Z.eqb_neq _ _) Hs). cbv iota.
      cbn [dom_listener empty_ fix_ change_ change_min_ change_max_].
      unfold EE. fires_auto.
    + exists w'. split; [exact E'|]. split; [done|]. split; [done|].
      split; [intros u; rewrite Hv, Hvals; apply Hel|]. split; [done|].
      assert (Hshort : (length (var_values w' id) < length (var_values w id))%nat).
      { apply (lost_shorter _ _ (value (SparseSet._max (_domain x)) (_sm w)
                                 + SparseSet._ofs (_domain x)));
          [by apply var_values_NoDup| |by rewrite Hvals|].
        - intros u Hu. rewrite Hv in Hu. apply Hel in Hu. rewrite Hvals. tauto.
        - rewrite Hv. intros Hu. apply Hel in Hu. lia. }
      split; [done|]. split; [lia|]. intros _ Hnn. specialize (Hfd Hnn).
      split; [|split].
      * apply (fired_sub _ _ _ _ Hfd). intros e He.
        apply list_elem_of_singleton in He as ->. unfold EE.
        destruct (ss_size s' =? 1); event_in.
      * intros _. apply (fired_sub _ _ _ _ Hfd). intros e He.
        apply list_elem_of_singleton in He as ->. unfold EE.
        destruct (ss_size s' =? 1); event_in.
      * intros H1.
        assert (H1' : ss_size s' = 1).
        { rewrite <- (ss_elems_length s' Hok'), <- Hv, H1. done. }
        apply (fired_sub _ _ _ _ Hfd). intros e He.
        apply list_elem_of_singleton in He as ->. unfold EE.
        rewrite H1', Z.eqb_refl. event_in.
  - exists w. rewrite decide_False by done. split; [done|]. split; [done|].
    split; [apply world_step_same, same_vars_refl|].
    split; [|split; [done|apply update_fired_same]].
    intros u. split; [|tauto]. intros Hu. split; [done|].
    rewrite Hvals in Hu. apply B3 in Hu. lia.
Qed.

(** The four updates on an [IntVarImpl] at once. *)
Lemma impl_update id op w :
  world_ok w -> var_values w id <> [] ->
  exists w',
    var_do (IntVarImpl id) op w
    = (if decide (var_values w' id = []) then Raise InconsistencyException
       else Ret tt, w') /\
    world_ok w' /\ world_step w w' /\
    (forall u, u ∈ var_values w' id <->
               u ∈ var_values w id /\ var_op_keeps op u = true) /\
    (forall j, j <> id -> var_values w' j = var_values w j) /\
    update_fired w w' id.
Proof.
  intros Hok Hne.
  destruct (int_vars w !! id) as [x|] eqn:Hx;
    [|by unfold var_values in Hne; rewrite Hx in Hne].
  destruct op as [v|v|v|v]; cbn [var_do Var.remove Var.fix_ Var.remove_below
                                 Var.remove_above var_op_keeps].
  - destruct (impl_remove id v w x Hok Hx Hne)
      as (w' & E & H1 & H2 & H3 & H4 & H5).
    exists w'. do 3 (split; [done|]). split; [|done].
    intros u. rewrite H3, negb_true_iff, Z.eqb_neq. done.
  - destruct (impl_fix id v w x Hok Hx Hne)
      as (w' & E & H1 & H2 & H3 & H4 & H5).
    exists w'. do 3 (split; [done|]). split; [|done].
    intros u. rewrite H3, Z.eqb_eq. done.
  - destruct (impl_remove_below id v w x Hok Hx Hne)
      as (w' & E & H1 & H2 & H3 & H4 & H5).
    exists w'. do 3 (split; [done|]). split; [|done].
    intros u. rewrite H3, Z.leb_le. done.
  - destruct (impl_remove_above id v w x Hok Hx Hne)
      as (w' & E & H1 & H2 & H3 & H4 & H5).
    exists w'. do 3 (split; [done|]). split; [|done].
    intros u. rewrite H3, Z.leb_le. done.
Qed.

(** *** Creating a variable *)

Lemma lift_sm_world {A} (m : M StateManager A) (w : World) o sm' :
  m (_sm w) = (o, sm') -> lift_sm m w = (o, with_sm sm' w).
Proof. intros E. unfold lift_sm. simpl. by rewrite E. Qed.

Lemma make_state_ref_run x sm :
  wf sm ->
  exists sm', make_state_ref x sm = (Ret (n_cells sm), sm') /\ wf sm' /\
    cell_values sm' = cell_values sm ++ [x] /\
    n_cells sm' = S (n_cells sm).
Proof.
  intros Hwf.
  destruct (make_state_ref_spec x sm Hwf) as (sm' & E & Hwf' & _ & _ & Hv).
  exists sm'. do 3 (split; [done|]).
  rewrite !n_cells_cell_values, Hv, length_app. simpl. lia.
Qed.

Lemma value_app_l r sm sm' l :
  cell_values sm' = cell_values sm ++ l -> (r < n_cells sm)%nat ->
  value r sm' = value r sm.
Proof.
  intros Hv Hr. rewrite !value_cell_values, Hv.
  by rewrite lookup_app_l by (by rewrite <- n_cells_cell_values).
Qed.

Lemma value_app_r r sm sm' l :
  cell_values sm' = cell_values sm ++ l -> (n_cells sm <= r)%nat ->
  value r sm' = default 0 (l !! (r - n_cells sm)%nat).
Proof.
  intros Hv Hr. rewrite !value_cell_values, Hv.
  rewrite lookup_app_r by (by rewrite <- n_cells_cell_values).
  by rewrite n_cells_cell_values.
Qed.

Lemma ss_init_cells (n ofs : Z) sm :
  wf sm -> 0 <= n ->
  exists sm' d,
    SparseSet.init n ofs sm = (Ret d, sm') /\ ss_ok (sm', d) /\
    ss_elems (sm', d) = range ofs (ofs + n) /\
    SparseSet._size d = n_cells sm /\
    SparseSet._min d = S (n_cells sm) /\
    SparseSet._max d = S (S (n_cells sm)) /\
    cell_values sm' = cell_values sm ++ [n; 0; n - 1].
Proof.
  intros Hwf Hn.
  destruct (ss_init_run n ofs sm Hwf Hn)
    as (sm' & d & E & Hok & Hel & _ & _ & _ & _ & Hv).
  exists sm', d. do 3 (split; [done|]).
  revert E. unfold SparseSet.init, make_state_int.
  destruct (make_state_ref_run n sm Hwf) as (sm1 & E1 & Hwf1 & _ & Hn1).
  destruct (make_state_ref_run 0 sm1 Hwf1) as (sm2 & E2 & Hwf2 & _ & Hn2).
  destruct (make_state_ref_run (n - 1) sm2 Hwf2) as (sm3 & E3 & _).
  rewrite (bind_run _ _ _ _ _ E1), (bind_run _ _ _ _ _ E2),
    (bind_run _ _ _ _ _ E3).
  unfold ret. intros [= <- <-]. simpl. rewrite Hn2, Hn1. done.
Qed.

Lemma stack_init_cells sm :
  wf sm ->
  exists sm', Stack.init sm = (Ret (Stack.mk (n_cells sm) []), sm') /\
    wf sm' /\ cell_values sm' = cell_values sm ++ [0] /\
    n_cells sm' = S (n_cells sm).
Proof.
  intros Hwf. unfold Stack.init, make_state_int.
  destruct (make_state_ref_run 0 sm Hwf) as (sm1 & E1 & Hwf1 & Hv1 & Hn1).
  exists sm1. by rewrite (bind_run _ _ _ _ _ E1).
Qed.

Lemma var_cells_bound w id x r :
  world_ok w -> int_vars w !! id = Some x -> r ∈ var_cells x ->
  (r < n_cells (_sm w))%nat.
Proof.
  intros Hok Hx Hr. destruct (world_ok_lookup w id x Hok Hx) as [[Hss Hst] _].
  destruct Hss as (_ & (R1 & R2 & R3 & _) & _). simpl in R1, R2, R3.
  destruct (Hst OnDomain) as [(_ & S1 & _) _].
  destruct (Hst OnFix) as [(_ & S2 & _) _].
  destruct (Hst OnBound) as [(_ & S3 & _) _]. simpl in S1, S2, S3.
  unfold var_cells, domain_cells in Hr. simpl in Hr.
  repeat (apply elem_of_cons in Hr as [->|Hr]; [done|]).
  by apply elem_of_nil in Hr.
Qed.

Lemma world_ok_extend w sm' l :
  world_ok w -> wf sm' -> cell_values sm' = cell_values (_sm w) ++ l ->
  Forall (var_ok (with_sm sm' w)) (int_vars w) /\
  forall j, var_values (with_sm sm' w) j = var_values w j.
Proof.
  intros Hok Hwf Hv.
  assert (Hn : (n_cells (_sm w) <= n_cells sm')%nat).
  { rewrite !n_cells_cell_values, Hv, length_app. lia. }
  assert (Hfr : forall j y r, int_vars w !! j = Some y -> r ∈ var_cells y ->
                              value r sm' = value r (_sm w)).
  { intros j y r Hy Hr. apply (value_app_l _ _ _ l Hv).
    by apply (var_cells_bound w j y r). }
  split.
  - apply Forall_lookup. intros j y Hy.
    destruct (world_ok_lookup w j y Hok Hy) as [[Hss Hst] _]. split.
    + apply (ss_ok_frame (_sm w)); [done|done|done|].
      intros r Hr. apply (Hfr j y r Hy). by apply domain_cells_var_cells.
    + intros e. destruct (Hst e) as [Hs1 Hs2].
      destruct (stack_frame (_sm w) sm' (stack_of e y) Hs1 Hwf Hn) as [F1 F2].
      { apply (Hfr j y _ Hy). apply stack_cell_var_cells. }
      split; [done|]. simpl. by rewrite F2.
  - intros j. unfold var_values. simpl.
    destruct (int_vars w !! j) as [y|] eqn:Hy; [|done].
    destruct (world_ok_lookup w j y Hok Hy) as [[Hss _] _].
    apply (ss_ok_frame (_sm w)); [done|done|done|].
    intros r Hr. apply (Hfr j y r Hy). by apply domain_cells_var_cells.
Qed.

Lemma IntVarImpl_init_ok (mn mx : Z) (w : World) :
  world_ok w -> mn <> MIN_VALUE -> mx <> MAX_VALUE -> mn <= mx ->
  exists w',
    IntVarImpl_init (Some mn) (Some mx) None None w
    = (Ret (length (int_vars w)), w') /\
    world_ok w' /\
    var_values w' (length (int_vars w)) = range mn (mx + 1) /\
    (forall j, (j < length (int_vars w))%nat ->
               var_values w' j = var_values w j) /\
    length (int_vars w') = S (length (int_vars w)) /\
    constraints w' = constraints w /\
    _propagation_queue w' = _propagation_queue w.
Proof.
  intros Hok H1 H2 H3. pose proof Hok as (Hwf & Hnd & Hall).
  unfold IntVarImpl_init. rewrite (bind_run _ _ w (mn, mx) w) by done.
  cbn [fst snd].
  rewrite (proj2 (Z.eqb_neq _ _) H1), (proj2 (Z.eqb_neq _ _) H2).
  cbn [orb]. replace (mn >? mx) with false
    by (symmetry; rewrite Z.gtb_ltb; apply Z.ltb_ge; lia).
  destruct (ss_init_cells (mx - mn + 1) mn (_sm w) Hwf)
    as (sm1 & d & E1 & Hok1 & Hel1 & C1 & C2 & C3 & Hv1); [lia|].
  pose proof Hok1 as (Hwf1 & _). simpl in Hwf1.
  destruct (stack_init_cells sm1 Hwf1) as (sm2 & E2 & Hwf2 & Hv2 & Hn2).
  destruct (stack_init_cells sm2 Hwf2) as (sm3 & E3 & Hwf3 & Hv3 & Hn3).
  destruct (stack_init_cells sm3 Hwf3) as (sm4 & E4 & Hwf4 & Hv4 & Hn4).
  rewrite (bind_run _ _ _ _ _ (lift_sm_world _ w _ _ E1)).
  rewrite (bind_run _ _ _ _ _ (lift_sm_world _ (with_sm sm1 w) _ _ E2)).
  rewrite (bind_run _ _ _ _ _
             (lift_sm_world _ (with_sm sm2 (with_sm sm1 w)) _ _ E3)).
  rewrite (bind_run _ _ _ _ _
             (lift_sm_world _ (with_sm sm3 (with_sm sm2 (with_sm sm1 w)))
                _ _ E4)).
  simpl.
  set (n0 := n_cells (_sm w)) in *.
  assert (Hn1 : n_cells sm1 = (n0 + 3)%nat).
  { rewrite !n_cells_cell_values, Hv1, length_app. simpl.
    unfold n0. rewrite n_cells_cell_values. lia. }
  set (x := mkIntVar d (Stack.mk (n_cells sm1) []) (Stack.mk (n_cells sm2) [])
              (Stack.mk (n_cells sm3) [])).
  assert (Hv14 : cell_values sm4 = cell_values sm1 ++ [0; 0; 0]).
  { rewrite Hv4, Hv3, Hv2, <- !app_assoc. done. }
  assert (Hv04 : cell_values sm4
                 = cell_values (_sm w) ++ [mx - mn + 1; 0; mx - mn + 1 - 1; 0; 0; 0]).
  { rewrite Hv14, Hv1, <- !app_assoc. done. }
  destruct (world_ok_extend w sm4 _ Hok Hwf4 Hv04) as [Hold Hvals].
  assert (Hn4' : n_cells sm4 = (n0 + 6)%nat) by lia.
  assert (Hssx : ss_ok (sm4, d) /\ ss_elems (sm4, d) = ss_elems (sm1, d)).
  { apply ss_ok_frame; [done|done|lia|].
    intros r Hr. apply (value_app_l _ _ _ _ Hv14).
    destruct Hok1 as (_ & (R1 & R2 & R3 & _) & _). simpl in R1, R2, R3.
    repeat (apply elem_of_cons in Hr as [->|Hr]; [done|]).
    by apply elem_of_nil in Hr. }
  assert (Hstk : forall r, (n_cells sm1 <= r < n_cells sm4)%nat ->
                           value r sm4 = 0).
  { intros r Hr. rewrite (value_app_r _ _ _ _ Hv14) by lia.
    by destruct (r - n_cells sm1)%nat as [|[|[|k]]]. }
  eexists. split; [reflexivity|]. simpl.
  split; [|split; [|split; [|split; [|done]]]].
  - split; [done|]. simpl. split.
    + rewrite fmap_app, join_app. simpl.
      apply NoDup_app. split; [done|]. split.
      * intros r Hr Hin. apply list_elem_of_join in Hr as (cs & Hr & Hcs).
        apply list_elem_of_fmap in Hcs as (y & -> & Hy).
        apply list_elem_of_lookup in Hy as (j & Hy).
        pose proof (var_cells_bound w j y r Hok Hy Hr) as Hlt. fold n0 in Hlt.
        unfold var_cells, domain_cells, x in Hin. simpl in Hin.
        rewrite C1, C2, C3, Hn2, Hn3, Hn1 in Hin.
        repeat (apply elem_of_cons in Hin as [->|Hin]; [lia|]).
        by apply elem_of_nil in Hin.
      * unfold var_cells, domain_cells, x. simpl.
        rewrite C1, C2, C3, Hn2, Hn3, Hn1. fold n0.
        repeat (apply NoDup_cons; split;
                [intros Hin;
                 repeat (apply elem_of_cons in Hin as [Hin|Hin]; [lia|]);
                 by apply elem_of_nil in Hin|]).
        apply NoDup_nil_2.
    + apply Forall_app. split.
      * eapply Forall_impl; [exact Hold|]. intros y [Hy1 Hy2]. done.
      * apply Forall_singleton. split; [by destruct Hssx|].
        intros e. simpl.
        assert (Hso : forall r, (n_cells sm1 <= r < n_cells sm4)%nat ->
                  stack_ok (sm4, Stack.mk r []) /\
                  stack_elems (sm4, Stack.mk r []) = []).
        { intros r Hr. unfold stack_ok, stack_elems. simpl.
          rewrite (Hstk r Hr). simpl. split; [|done].
          split; [done|]. split; [lia|]. lia. }
        destruct e; simpl.
        -- destruct (Hso (n_cells sm1)) as [So Se]; [lia|].
           split; [done|]. rewrite Se. constructor.
        -- destruct (Hso (n_cells sm2)) as [So Se]; [lia|].
           split; [done|]. rewrite Se. constructor.
        -- destruct (Hso (n_cells sm3)) as [So Se]; [lia|].
           split; [done|]. rewrite Se. constructor.
  - unfold var_values. simpl. rewrite lookup_app_r by lia.
    rewrite Nat.sub_diag. simpl. destruct Hssx as [_ ->]. rewrite Hel1.
    f_equal. lia.
  - intros j Hj. rewrite <- (Hvals j). unfold var_values. simpl.
    by rewrite lookup_app_l by done.
  - rewrite length_app. simpl. lia.
Qed.
(* ================================================================== *)
(** ** int_var.py: variables and their views *)

Lemma elem_of_offset (o u : Z) (l : list Z) :
  u ∈ (fun y => y + o) <$> l <-> u - o ∈ l.
Proof.
  rewrite list_elem_of_fmap. split.
  - intros (y & -> & Hy). by replace (y + o - o) with y by lia.
  - intros Hu. exists (u - o). split; [lia|done].
Qed.

Lemma elem_of_opposite (u : Z) (l : list Z) :
  u ∈ (fun y => - y) <$> l <-> - u ∈ l.
Proof.
  rewrite list_elem_of_fmap. split.
  - intros (y & -> & Hy). by rewrite Z.opp_involutive.
  - intros Hu. exists (- u). split; [lia|done].
Qed.

Lemma fmap_nil_iff {A B} (f : A -> B) (l : list A) : f <$> l = [] <-> l = [].
Proof. destruct l; split; intros H; done. Qed.

Lemma keeps_offset o op u :
  var_op_keeps (op_offset o op) (u - o) = var_op_keeps op u.
Proof.
  destruct op as [v|v|v|v]; simpl.
  - f_equal. destruct (Z.eqb_spec (u - o) (v - o)), (Z.eqb_spec u v);
      try done; lia.
  - destruct (Z.eqb_spec (u - o) (v - o)), (Z.eqb_spec u v); try done; lia.
  - destruct (Z.leb_spec (v - o) (u - o)), (Z.leb_spec v u); try done; lia.
  - destruct (Z.leb_spec (u - o) (v - o)), (Z.leb_spec u v); try done; lia.
Qed.

Lemma keeps_opposite op u :
  var_op_keeps (op_opposite op) (- u) = var_op_keeps op u.
Proof.
  destruct op as [v|v|v|v]; simpl.
  - f_equal. destruct (Z.eqb_spec (- u) (- v)), (Z.eqb_spec u v);
      try done; lia.
  - destruct (Z.eqb_spec (- u) (- v)), (Z.eqb_spec u v); try done; lia.
  - destruct (Z.leb_spec (- u) (- v)), (Z.leb_spec v u); try done; lia.
  - destruct (Z.leb_spec (- v) (- u)), (Z.leb_spec u v); try done; lia.
Qed.

Lemma var_do_offset x o op : var_do (IntVarViewOffset x o) op = var_do x (op_offset o op).
Proof. by destruct op. Qed.

Lemma var_do_opposite x op : var_do (IntVarViewOpposite x) op = var_do x (op_opposite op).
Proof. by destruct op. Qed.

Lemma view_values_nil w x :
  affine x = true -> view_values w x = [] <-> var_values w (var_id x) = [].
Proof.
  induction x as [id|x IH a|x IH o|x IH|x IH]; intros Haff;
    try discriminate; simpl; [done|by rewrite fmap_nil_iff, IH..].
Qed.

Lemma view_update_run (x : IntVar) (op : var_op) (w : World) :
  world_ok w -> affine x = true -> view_values w x <> [] ->
  exists w',
    var_do x op w
    = (if decide (view_values w' x = []) then Raise InconsistencyException
       else Ret tt, w') /\
    world_ok w' /\ world_step w w' /\
    (forall u, u ∈ view_values w' x <->
               u ∈ view_values w x /\ var_op_keeps op u = true) /\
    (forall j, j <> var_id x -> var_values w' j = var_values w j) /\
    update_fired w w' (var_id x).
Proof.
  intros Hok. revert op.
  induction x as [id|x IH a|x IH o|x IH|x IH]; intros op Haff Hne;
    try discriminate.
  - by apply impl_update.
  - simpl in Hne. rewrite fmap_nil_iff in Hne.
    destruct (IH (op_offset o op) Haff Hne)
      as (w' & E & H1 & H2 & H3 & H4 & H5).
    exists w'. rewrite var_do_offset, E. cbn [view_values var_id].
    split.
    { f_equal. destruct (decide (view_values w' x = [])) as [Hn|Hn].
      - rewrite decide_True; [done|]. by apply fmap_nil_iff.
      - rewrite decide_False; [done|]. by rewrite fmap_nil_iff. }
    split; [done|]. split; [done|]. split; [|done].
    intros u. rewrite !elem_of_offset, H3, keeps_offset. done.
  - simpl in Hne. rewrite fmap_nil_iff in Hne.
    destruct (IH (op_opposite op) Haff Hne)
      as (w' & E & H1 & H2 & H3 & H4 & H5).
    exists w'. rewrite var_do_opposite, E. cbn [view_values var_id].
    split.
    { f_equal. destruct (decide (view_values w' x = [])) as [Hn|Hn].
      - rewrite decide_True; [done|]. by apply fmap_nil_iff.
      - rewrite decide_False; [done|]. by rewrite fmap_nil_iff. }
    split; [done|]. split; [done|]. split; [|done].
    intros u. rewrite !elem_of_opposite, H3, keeps_opposite. done.
Qed.

(** X15.  [remove], [fix], [remove_below] and [remove_above] on a variable,
    or on a view of it made of offsets and opposites, whose domain is not
    empty: the values left are the values that were there and that the
    method keeps (all but [v]; only [v]; those not below [v]; those not
    above [v]).  The call raises [InconsistencyException] exactly when no
    value is left, and otherwise returns.  Every other variable of the
    solver keeps its values, and the solver stays sound. *)
Theorem view_update (x : IntVar) (op : var_op) (w : World) :
  world_ok w -> affine x = true -> view_values w x <> [] ->
  exists w',
    var_do x op w
    = (if decide (view_values w' x = []) then Raise InconsistencyException
       else Ret tt, w') /\
    world_ok w' /\
    (forall u, u ∈ view_values w' x <->
               u ∈ view_values w x /\ var_op_keeps op u = true) /\
    (forall j, j <> var_id x -> var_values w' j = var_values w j).
Proof.
  intros Hok Haff Hne.
  destruct (view_update_run x op w Hok Haff Hne)
    as (w' & E & H1 & _ & H3 & H4 & _).
  by exists w'.
Qed.

Lemma world_ok_make_solver (by_copy : bool) : world_ok (make_solver by_copy).
Proof.
  unfold make_solver, MiniCP.
  destruct (stack_init_cells (new_manager by_copy) (wf_new_manager by_copy))
    as (sm & E & Hwf & _). rewrite E.
  split; [done|]. split; [constructor|constructor].
Qed.

Lemma make_int_var_ok (mn mx : Z) (w : World) :
  world_ok w -> mn <> MIN_VALUE -> mx <> MAX_VALUE -> mn <= mx ->
  let id := length (int_vars w) in
  exists w',
    make_int_var (Some mn) (Some mx) None None w = (Ret (IntVarImpl id), w') /\
    world_ok w' /\
    var_values w' id = range mn (mx + 1) /\
    (forall j, (j < id)%nat -> var_values w' j = var_values w j) /\
    length (int_vars w') = S id.
Proof.
  intros Hok H1 H2 H3 id.
  destruct (IntVarImpl_init_ok mn mx w Hok H1 H2 H3)
    as (w' & E & Hok' & Hv & Hfr & Hlen & _).
  exists w'. unfold make_int_var. rewrite (bind_run _ _ _ _ _ E). done.
Qed.

Lemma view_update_witness :
  let w := snd (make_int_var (Some 0) (Some 5) None None (make_solver false)) in
  let x := IntVarViewOpposite (IntVarViewOffset (IntVarImpl 0) 10) in
  world_ok w /\ affine x = true /\ view_values w x <> [] /\
  exists w',
    var_do x (VRemoveBelow (-12)) w
    = (if decide (view_values w' x = []) then Raise InconsistencyException
       else Ret tt, w') /\
    world_ok w' /\
    (forall u, u ∈ view_values w' x <->
               u ∈ view_values w x /\ var_op_keeps (VRemoveBelow (-12)) u = true) /\
    (forall j, j <> var_id x -> var_values w' j = var_values w j).
Proof.
  intros w x.
  assert (Hok : world_ok w).
  { destruct (make_int_var_ok 0 5 (make_solver false)
                (world_ok_make_solver false)) as (w' & E & Hok & _);
      [done|done|lia|].
    unfold w. by rewrite E. }
  assert (Hne : view_values w x <> []) by (by vm_compute).
  split; [exact Hok|]. split; [reflexivity|]. split; [exact Hne|].
  exact (view_update x (VRemoveBelow (-12)) w Hok eq_refl Hne).
Defined.

(** *** What a variable or a view shows *)

Lemma update_each_run {T} (g : Z -> Z) (s : T) (n : nat) :
  forall (k : nat) dest,
  (k + n <= length dest)%nat ->
  update_each (seqZ (Z.of_nat k) (Z.of_nat n)) g dest s =
  (Ret (take k dest ++ (g <$> take n (drop k dest)) ++ drop (k + n) dest), s).
Proof.
  induction n as [|n IH]; intros k dest Hd.
  - simpl. rewrite Nat.add_0_r, take_drop. done.
  - rewrite seqZ_cons by lia. cbn [update_each].
    destruct (lookup_lt_is_Some_2 dest k) as [y Hy]; [lia|].
    erewrite bind_run by (apply getitem_run; [lia|by rewrite Nat2Z.id]).
    erewrite bind_run by (apply setitem_run; lia).
    rewrite Nat2Z.id.
    replace (Z.succ (Z.of_nat k)) with (Z.of_nat (S k)) by lia.
    replace (Z.pred (Z.of_nat (S n))) with (Z.of_nat n) by lia.
    rewrite IH by (rewrite ?length_insert; lia).
    f_equal.
    rewrite (take_S_r _ _ (g y)) by (apply list_lookup_insert_eq; lia).
    rewrite take_insert_ge by lia.
    rewrite drop_insert_lt by lia.
    rewrite (drop_S dest y k Hy). cbn [take fmap list_fmap].
    replace (S k + n)%nat with (k + S n)%nat by lia.
    rewrite <- !app_assoc. f_equal. f_equal.
    rewrite drop_insert_lt by lia. done.
Qed.

Lemma update_each_prefix {T} (g : Z -> Z) (s : T) (l rest : list Z) :
  update_each (range 0 (Z.of_nat (length l))) g (l ++ rest) s
  = (Ret ((g <$> l) ++ rest), s).
Proof.
  unfold range. rewrite Z.sub_0_r.
  pose proof (update_each_run g s (length l) 0 (l ++ rest)) as H.
  change (Z.of_nat 0) with 0 in H. rewrite H by (rewrite length_app; lia).
  rewrite Nat.add_0_l, take_0, drop_0, take_app_length, drop_app_length. done.
Qed.


Lemma impl_shows id w x :
  world_ok w -> int_vars w !! id = Some x ->
  shows w (IntVarImpl id) (var_values w id).
Proof.
  intros Hok Hx. destruct (world_ok_lookup w id x Hok Hx) as [[Hss _] _].
  pose proof (var_values_size w id x Hok Hx) as Hlen.
  assert (Hvals : var_values w id = ss_elems (_sm w, _domain x)).
  { unfold var_values. by rewrite Hx. }
  unfold shows. cbn [Var.contains Var.size Var.is_fixed Var.min Var.max
                     Var.fill_array].
  split; [intros v; by apply (domain_contains_run id w x)|].
  split; [unfold Domain.size; by rewrite (domain_size_run id w x Hx), Hlen|].
  split.
  { unfold Domain.is_singleton.
    rewrite (bind_run _ _ _ _ _ (domain_size_run id w x Hx)). by rewrite Hlen. }
  split.
  { intros Hnil. apply (var_values_nil_size w id x Hok Hx) in Hnil.
    rewrite (domain_min_run id w x Hx), (domain_max_run id w x Hx), Hnil.
    done. }
  split.
  { intros Hne.
    assert (Hnz : ss_size (_sm w, _domain x) <> 0)
      by (by rewrite <- (var_values_nil_size w id x)).
    assert (Hpos : 0 < ss_size (_sm w, _domain x)).
    { destruct Hss as (_ & _ & _ & Hsz & _). lia. }
    destruct (ss_bounds (_sm w, _domain x) Hss Hpos) as (B1 & B2 & B3).
    eexists _, _. rewrite (domain_min_some id w x Hx Hnz),
      (domain_max_some id w x Hx Hnz), Hvals. done. }
  intros dest Hd. unfold Domain.fill_array.
  rewrite (on_domain_pure id _ w x
             (Ret (ss_elems (_sm w, _domain x)
                   ++ drop (Z.to_nat (ss_size (_sm w, _domain x))) dest,
                   ss_size (_sm w, _domain x))) Hx).
  - rewrite Hvals. rewrite Hvals in Hlen. rewrite <- Hlen, Nat2Z.id. done.
  - apply ss_fill_array_run; [done|]. rewrite <- Hlen. lia.
Qed.

Lemma shows_offset w x o l :
  shows w x l -> shows w (IntVarViewOffset x o) ((fun u => u + o) <$> l).
Proof.
  intros (H1 & H2 & H3 & H4 & H5 & H6). unfold shows.
  cbn [Var.contains Var.size Var.is_fixed Var.min Var.max Var.fill_array].
  rewrite length_fmap.
  split.
  { intros v. rewrite H1. do 2 f_equal. apply bool_decide_ext.
    by rewrite elem_of_offset. }
  split; [done|]. split; [done|]. split.
  { intros Hnil. apply fmap_nil_iff in Hnil. destruct (H4 Hnil) as [E1 E2].
    unfold bind. by rewrite E1, E2. }
  split.
  { intros Hne. rewrite fmap_nil_iff in Hne.
    destruct (H5 Hne) as (mn & mx & E1 & E2 & B1 & B2 & B3).
    exists (mn + o), (mx + o).
    rewrite (bind_run _ _ _ _ _ E1), (bind_run _ _ _ _ _ E2).
    split; [done|]. split; [done|].
    split; [apply elem_of_offset; by replace (mn + o - o) with mn by lia|].
    split; [apply elem_of_offset; by replace (mx + o - o) with mx by lia|].
    intros u Hu. apply elem_of_offset, B3 in Hu. lia. }
  intros dest Hd. rewrite (bind_run _ _ _ _ _ (H6 dest Hd)). cbn [fst snd].
  by rewrite (bind_run _ _ _ _ _ (update_each_prefix _ w l _)).
Qed.

Lemma shows_opposite w x l :
  shows w x l -> shows w (IntVarViewOpposite x) ((fun u => - u) <$> l).
Proof.
  intros (H1 & H2 & H3 & H4 & H5 & H6). unfold shows.
  cbn [Var.contains Var.size Var.is_fixed Var.min Var.max Var.fill_array].
  rewrite length_fmap.
  split.
  { intros v. rewrite H1. do 2 f_equal. apply bool_decide_ext.
    by rewrite elem_of_opposite. }
  split; [done|]. split; [done|]. split.
  { intros Hnil. apply fmap_nil_iff in Hnil. destruct (H4 Hnil) as [E1 E2].
    unfold bind. by rewrite E1, E2. }
  split.
  { intros Hne. rewrite fmap_nil_iff in Hne.
    destruct (H5 Hne) as (mn & mx & E1 & E2 & B1 & B2 & B3).
    exists (- mx), (- mn).
    rewrite (bind_run _ _ _ _ _ E1), (bind_run _ _ _ _ _ E2).
    split; [done|]. split; [done|].
    split; [apply elem_of_opposite; by rewrite Z.opp_involutive|].
    split; [apply elem_of_opposite; by rewrite Z.opp_involutive|].
    intros u Hu. apply elem_of_opposite, B3 in Hu. lia. }
  intros dest Hd. rewrite (bind_run _ _ _ _ _ (H6 dest Hd)). cbn [fst snd].
  by rewrite (bind_run _ _ _ _ _ (update_each_prefix _ w l _)).
Qed.

(** X16.  What a variable, or a view of it made of offsets and opposites,
    shows is what the list of its values shows (the values of the variable
    under the view, each shifted or negated): [contains] is membership,
    [size] the length, [is_fixed] tells whether the length is 1, [min] and
    [max] are the least and the greatest value and raise [ValueError] on
    an empty domain, and [fill_array] writes the list over the start of
    [dest].  None of them changes the solver. *)
Theorem view_observations (x : IntVar) (w : World) :
  world_ok w -> affine x = true -> is_Some (int_vars w !! var_id x) ->
  shows w x (view_values w x).
Proof.
  intros Hok. induction x as [id|x IH a|x IH o|x IH|x IH]; intros Haff Hid;
    try discriminate.
  - destruct Hid as [y Hy]. by apply (impl_shows id w y).
  - apply shows_offset. by apply IH.
  - apply shows_opposite. by apply IH.
Qed.

Lemma view_observations_witness :
  let w := snd (make_int_var (Some 0) (Some 5) None None (make_solver true)) in
  let x := IntVarViewOpposite (IntVarViewOffset (IntVarImpl 0) 10) in
  world_ok w /\ affine x = true /\ is_Some (int_vars w !! var_id x) /\
  view_values w x = [-10; -11; -12; -13; -14; -15] /\
  shows w x (view_values w x).
Proof.
  intros w x.
  assert (Hok : world_ok w).
  { destruct (make_int_var_ok 0 5 (make_solver true)
                (world_ok_make_solver true)) as (w' & E & Hok & _);
      [done|done|lia|].
    unfold w. by rewrite E. }
  assert (Hid : is_Some (int_vars w !! var_id x)).
  { vm_compute. by eexists. }
  split; [exact Hok|]. split; [reflexivity|]. split; [exact Hid|].
  split; [by vm_compute|].
  exact (view_observations x w Hok eq_refl Hid).
Defined.
(* ================================================================== *)
(** ** Domains and backtracking *)

Lemma world_step_length w w' :
  world_step w w' -> length (int_vars w') = length (int_vars w).
Proof. intros (_ & _ & _ & H & _). symmetry. by eapply Forall2_length. Qed.

Lemma world_step_is_Some w w' id :
  world_step w w' -> is_Some (int_vars w !! id) <-> is_Some (int_vars w' !! id).
Proof.
  intros H. rewrite !lookup_lt_is_Some. by rewrite (world_step_length _ _ H).
Qed.

Lemma world_step_refl w : world_step w w.
Proof. apply world_step_same, same_vars_refl. Qed.

Lemma var_do_all_run (ops : list (IntVar * var_op)) : forall w,
  world_ok w -> live w -> updates_of w ops ->
  exists o w', var_do_all ops w = (o, w') /\
    (o = Ret tt \/ o = Raise InconsistencyException) /\
    world_ok w' /\ world_step w w'.
Proof.
  induction ops as [|[x op] ops IH]; intros w Hok Hlive Hops.
  - exists (Ret tt), w. split; [done|]. split; [by left|].
    split; [done|apply world_step_refl].
  - apply Forall_cons in Hops as [[Haff [y Hy]] Hops]. simpl in Haff, Hy.
    assert (Hne : view_values w x <> []).
    { rewrite (view_values_nil w x Haff). by apply (Hlive _ y). }
    destruct (view_update_run x op w Hok Haff Hne)
      as (w1 & E1 & Hok1 & Hst1 & Hmem & Hfr & _).
    unfold var_do_all. cbn [for_each fst snd].
    destruct (decide (view_values w1 x = [])) as [Hnil|Hnn].
    + exists (Raise InconsistencyException), w1. unfold bind. rewrite E1.
      split; [done|]. split; [by right|]. done.
    + assert (Hlive1 : live w1).
      { intros j z Hz. destruct (decide (j = var_id x)) as [->|Hj].
        - by rewrite <- (view_values_nil w1 x Haff).
        - rewrite (Hfr j Hj).
          destruct (proj2 (world_step_is_Some w w1 j Hst1)) as [z0 Hz0];
            [by eexists|].
          by apply (Hlive j z0). }
      assert (Hops1 : updates_of w1 ops).
      { eapply Forall_impl; [exact Hops|]. intros p [Hp1 Hp2].
        split; [done|]. by apply (world_step_is_Some w w1). }
      destruct (IH w1 Hok1 Hlive1 Hops1) as (o & w' & E & Ho & Hok' & Hst').
      exists o, w'. rewrite (bind_run _ _ _ _ _ E1).
      split; [exact E|]. split; [done|]. split; [done|].
      by eapply world_step_trans.
Qed.

Lemma restore_state_until_loop_S n level :
  restore_state_until_loop (S n) level
  = (l <- gets get_level ;;
     if l >? level then restore_state ;; restore_state_until_loop n level
     else ret tt).
Proof. reflexivity. Qed.

Lemma restore_state_until_one sm cv ss :
  wf sm -> snapshots sm = cv :: ss ->
  exists sm', restore_state_until (Z.of_nat (length ss) - 1) sm = (Ret tt, sm') /\
    wf sm' /\ snapshots sm' = ss /\
    cell_values sm' = cv ++ drop (length cv) (cell_values sm).
Proof.
  intros Hwf Hs. unfold restore_state_until.
  pose proof (get_level_snapshots sm) as Hl. rewrite Hs in Hl. simpl in Hl.
  destruct (restore_state_spec sm cv ss Hwf Hs) as (sm' & E & Hwf' & Hs' & Hv').
  exists sm'.
  replace (Z.to_nat (get_level sm + 2)) with (S (S (length ss))) by lia.
  rewrite restore_state_until_loop_S. unfold gets, bind at 1.
  replace (get_level sm >? Z.of_nat (length ss) - 1) with true
    by (symmetry; rewrite Z.gtb_ltb; apply Z.ltb_lt; lia).
  rewrite (bind_run _ _ _ _ _ E).
  destruct (restore_state_until_loop_level (Z.of_nat (length ss) - 1)
              (length ss) sm' (S (length ss)) Hwf' (f_equal length Hs')
              ltac:(lia)) as (_ & H2 & H3).
  destruct H2 as (H2 & _); [lia|].
  assert (H4 : get_level sm' <= Z.of_nat (length ss) - 1).
  { rewrite get_level_snapshots, Hs'. lia. }
  specialize (H3 H4).
  destruct (restore_state_until_loop (S (length ss))
              (Z.of_nat (length ss) - 1) sm') as [o r].
  simpl in H2, H3. by subst.
Qed.

Lemma var_values_below w id x u :
  world_ok w -> int_vars w !! id = Some x ->
  u ∈ var_values w id <->
  ss_below (_domain x) (ss_size (_sm w, _domain x))
           (u - SparseSet._ofs (_domain x)).
Proof.
  intros Hok Hx. destruct (world_ok_lookup w id x Hok Hx) as [[Hss _] _].
  unfold var_values. rewrite Hx.
  destruct Hss as (_ & _ & Hperm & Hsz & _).
  apply (ss_elems_below (_sm w, _domain x)); [done|lia].
Qed.

(** The solver [w2] reached from the sound solver [w] by updates of its
    variables, with the cells of the manager set back to their values in
    [w]. *)
Lemma world_ok_restored w w2 sm3 :
  world_ok w -> world_ok w2 -> world_step w w2 ->
  wf sm3 -> cell_values sm3 = cell_values (_sm w) ->
  world_ok (with_sm sm3 w2) /\
  forall id u, u ∈ var_values (with_sm sm3 w2) id <-> u ∈ var_values w id.
Proof.
  intros Hok Hok2 Hst Hwf3 Hv3.
  destruct (world_step_cells _ _ Hst) as [_ Hcells].
  pose proof Hst as (_ & _ & Hcs & Hvars & _).
  assert (Hval : forall r, value r sm3 = value r (_sm w)).
  { intros r. by rewrite !value_cell_values, Hv3. }
  assert (Hn : n_cells sm3 = n_cells (_sm w)).
  { by rewrite !n_cells_cell_values, Hv3. }
  assert (Hvar : forall id x x2,
            int_vars w !! id = Some x -> int_vars w2 !! id = Some x2 ->
            var_ok (with_sm sm3 w2) x2 /\
            forall u, u ∈ ss_elems (sm3, _domain x2)
                      <-> u ∈ ss_elems (_sm w, _domain x)).
  { intros id x x2 Hx Hx2.
    pose proof (Forall2_lookup_lr _ _ _ _ _ _ Hvars Hx Hx2) as Hxx.
    destruct Hxx as (A1 & A2 & A3 & A4 & A5 & A6 & A7 & A8 & A9 & A10).
    cbv zeta in *.
    destruct (world_ok_lookup w id x Hok Hx) as [[Hss Hstk] _].
    destruct (world_ok_lookup w2 id x2 Hok2 Hx2) as [[Hss2 _] _].
    pose proof Hss as (_ & Hrefs & Hperm & Hsz & Hbnd).
    pose proof Hss2 as (_ & _ & Hperm2 & _).
    simpl in Hperm, Hperm2.
    assert (Hbelow : forall u,
              ss_below (_domain x2) (ss_size (_sm w, _domain x)) u <->
              ss_below (_domain x) (ss_size (_sm w, _domain x)) u).
    { intros u. apply A10. lia. }
    assert (Hsize : ss_size (sm3, _domain x2) = ss_size (_sm w, _domain x)).
    { unfold ss_size. simpl. by rewrite A3, Hval. }
    assert (Hss3 : ss_ok (sm3, _domain x2)).
    { unfold ss_ok. cbv zeta. rewrite Hsize. simpl.
      unfold ss_refs in *. simpl in *. rewrite A1, A3, A4, A5, !Hval, Hn.
      split; [done|]. split; [done|]. split; [done|]. split; [done|].
      intros Hp. destruct (Hbnd Hp) as (B1 & B2 & B3).
      split; [by apply Hbelow|]. split; [by apply Hbelow|].
      intros u Hu. apply B3. by apply Hbelow. }
    split.
    - split; [done|]. intros e. destruct (Hstk e) as [S1 S2].
      replace (stack_of e x2) with (stack_of e x)
        by (destruct e; simpl; congruence).
      destruct (stack_frame (_sm w) sm3 (stack_of e x) S1 Hwf3) as [F1 F2];
        [lia|apply Hval|].
      split; [done|]. simpl. by rewrite F2, Hcs.
    - intros u.
      rewrite (ss_elems_below (sm3, _domain x2) u Hperm2)
        by (rewrite Hsize; lia).
      rewrite (ss_elems_below (_sm w, _domain x) u Hperm) by lia.
      rewrite Hsize. simpl. rewrite A2. apply Hbelow. }
  split.
  - split; [done|]. simpl. split.
    + rewrite Hcells. by destruct Hok as (_ & Hnd & _).
    + apply Forall_lookup. intros id x2 Hx2.
      destruct (Forall2_lookup_r _ _ _ _ _ Hvars Hx2) as (x & Hx & _).
      by destruct (Hvar id x x2 Hx Hx2).
  - intros id u. unfold var_values. simpl.
    destruct (int_vars w2 !! id) as [x2|] eqn:Hx2.
    + destruct (Forall2_lookup_r _ _ _ _ _ Hvars Hx2) as (x & Hx & _).
      rewrite Hx. by destruct (Hvar id x x2 Hx Hx2).
    + destruct (int_vars w !! id) as [x|] eqn:Hx; [|done].
      destruct (Forall2_lookup_l _ _ _ _ _ Hvars Hx) as (x2 & Hx2' & _).
      congruence.
Qed.

(** X17.  Backtracking restores the domains.  On a sound solver whose
    variables all have a value, [with_new_state] around any sequence of
    [remove], [fix], [remove_below] and [remove_above] on variables and
    views, run up to the first [InconsistencyException], which is caught,
    returns with every variable holding the values it had before, at the
    level it had before; the solver is sound again. *)
Theorem domains_restored (ops : list (IntVar * var_op)) (w : World) :
  world_ok w -> live w -> updates_of w ops ->
  exists w',
    with_new_state
      (try_except (var_do_all ops) InconsistencyException (ret tt)) w
    = (Ret tt, w') /\
    world_ok w' /\ live w' /\
    get_level (_sm w') = get_level (_sm w) /\
    forall id u, u ∈ var_values w' id <-> u ∈ var_values w id.
Proof.
  intros Hok Hlive Hops. pose proof Hok as (Hwf & Hnd & Hall).
  destruct (save_state_spec (_sm w) Hwf) as (sm1 & E1 & Hwf1 & Hs1 & Hv1).
  set (w1 := with_sm sm1 w).
  assert (Hv1' : cell_values sm1 = cell_values (_sm w) ++ [])
    by (by rewrite app_nil_r).
  destruct (world_ok_extend w sm1 [] Hok Hwf1 Hv1') as [Hold1 Hvals1].
  assert (Hok1 : world_ok w1) by (by split).
  assert (Hlive1 : live w1).
  { intros id x Hx. unfold w1. rewrite Hvals1. by apply (Hlive id x). }
  destruct (var_do_all_run ops w1 Hok1 Hlive1 Hops)
    as (o & w2 & E2 & Ho & Hok2 & Hst2).
  pose proof Hst2 as (Hsn2 & Hn2 & _). simpl in Hsn2, Hn2.
  rewrite Hs1 in Hsn2.
  pose proof Hok2 as (Hwf2 & _).
  destruct (restore_state_until_one (_sm w2) _ _ Hwf2 Hsn2)
    as (sm3 & E3 & Hwf3 & Hs3 & Hv3).
  assert (Hlevel : get_level (_sm w) = Z.of_nat (length (snapshots (_sm w))) - 1)
    by apply get_level_snapshots.
  assert (Hdrop : drop (length (cell_values (_sm w))) (cell_values (_sm w2)) = []).
  { apply drop_ge. rewrite <- !n_cells_cell_values, Hn2.
    rewrite !n_cells_cell_values, Hv1. done. }
  rewrite Hdrop, app_nil_r in Hv3.
  assert (Hv3' : cell_values sm3 = cell_values (_sm w1)) by (by rewrite Hv3).
  destruct (world_ok_restored w1 w2 sm3 Hok1 Hok2 Hst2 Hwf3 Hv3')
    as [Hok3 Hmem].
  assert (Hmem' : forall id u, u ∈ var_values (with_sm sm3 w2) id
                               <-> u ∈ var_values w id).
  { intros id u. rewrite Hmem. unfold w1. by rewrite Hvals1. }
  exists (with_sm sm3 w2).
  split.
  { unfold with_new_state.
    rewrite (bind_run _ _ w (get_level (_sm w)) w)
      by (unfold lift_sm, gets; simpl; by destruct w).
    rewrite (bind_run _ _ _ _ _ (lift_sm_world _ w _ _ E1)). fold w1.
    assert (Ebody : try_except (var_do_all ops) InconsistencyException (ret tt) w1
                    = (Ret tt, w2)).
    { unfold try_except. rewrite E2. destruct Ho as [->| ->]; [done|].
      by rewrite decide_True by done. }
    rewrite (bind_run _ _ _ _ _ Ebody).
    rewrite Hlevel. by apply lift_sm_world. }
  split; [done|]. split.
  { intros id x Hx Hnil. simpl in Hx.
    destruct (proj2 (world_step_is_Some w1 w2 id Hst2)) as [x0 Hx0];
      [by eexists|].
    apply (Hlive id x0 Hx0). apply elem_of_nil_inv. intros u Hu.
    apply Hmem' in Hu. rewrite Hnil in Hu. by apply elem_of_nil in Hu. }
  split; [simpl; by rewrite !get_level_snapshots, Hs3|].
  done.
Qed.

Lemma two_vars_world_ok (by_copy : bool) :
  world_ok (two_vars_world by_copy) /\ live (two_vars_world by_copy) /\
  length (int_vars (two_vars_world by_copy)) = 2%nat.
Proof.
  destruct (make_int_var_ok 0 5 (make_solver by_copy)
              (world_ok_make_solver by_copy))
    as (w1 & E1 & Hok1 & Hv1 & _ & Hl1); [done|done|lia|].
  destruct (make_int_var_ok 0 1 w1 Hok1)
    as (w2 & E2 & Hok2 & Hv2 & Hfr2 & Hl2); [done|done|lia|].
  assert (Hw : two_vars_world by_copy = w2).
  { unfold two_vars_world. by rewrite (bind_run _ _ _ _ _ E1), E2. }
  assert (Hl0 : length (int_vars (make_solver by_copy)) = 0%nat).
  { by destruct by_copy. }
  rewrite Hl0 in *. rewrite Hl1 in *.
  rewrite Hw. split; [done|]. split; [|done].
  intros id x Hx. apply lookup_lt_Some in Hx. rewrite Hl2 in Hx.
  destruct id as [|[|id]]; [| |lia].
  - rewrite (Hfr2 0%nat) by lia. by rewrite Hv1.
  - by rewrite Hv2.
Qed.

Lemma domains_restored_witness :
  let w := two_vars_world false in
  let ops := [(IntVarImpl 0, VRemoveBelow 2);
              (IntVarViewOffset (IntVarImpl 1) 3, VFix 4);
              (IntVarImpl 0, VRemoveAbove 1)] in
  world_ok w /\ live w /\ updates_of w ops /\
  fst (var_do_all ops w) = Raise InconsistencyException /\
  exists w',
    with_new_state
      (try_except (var_do_all ops) InconsistencyException (ret tt)) w
    = (Ret tt, w') /\
    world_ok w' /\ live w' /\
    get_level (_sm w') = get_level (_sm w) /\
    forall id u, u ∈ var_values w' id <-> u ∈ var_values w id.
Proof.
  intros w ops. destruct (two_vars_world_ok false) as (Hok & Hlive & Hlen).
  assert (Hops : updates_of w ops).
  { unfold ops. repeat constructor; vm_compute; by eexists. }
  split; [exact Hok|]. split; [exact Hlive|]. split; [exact Hops|].
  split; [by vm_compute|].
  exact (domains_restored ops w Hok Hlive Hops).
Defined.
(* ================================================================== *)
(** ** Registering constraints on a variable and scheduling them *)

Lemma keeps_var_do x op : keeps (var_do x op).
Proof.
  destruct op; simpl.
  - apply keeps_var_remove.
  - apply keeps_var_fix.
  - apply keeps_var_remove_below.
  - apply keeps_var_remove_above.
Qed.

Lemma scheduled_in_queue_elem w c :
  scheduled_in_queue w -> c ∈ _propagation_queue w <-> is_scheduled_in w c.
Proof. intros [_ H]. apply H. Qed.

(** *** Creating a constraint *)

Lemma new_constraint_ok (k : ConstraintClass) (w : World) :
  world_ok w ->
  exists w',
    new_constraint k w = (Ret (length (constraints w)), w') /\
    world_ok w' /\
    int_vars w' = int_vars w /\
    constraints w'
    = constraints w ++ [mkConstraint k (n_cells (_sm w)) false] /\
    _propagation_queue w' = _propagation_queue w /\
    value (n_cells (_sm w)) (_sm w') = 1 /\
    (forall r, (r < n_cells (_sm w))%nat ->
               value r (_sm w') = value r (_sm w)) /\
    (forall j, var_values w' j = var_values w j).
Proof.
  intros Hok. pose proof Hok as (Hwf & Hnd & Hall).
  destruct (make_state_ref_run 1 (_sm w) Hwf) as (sm' & E & Hwf' & Hv & Hn).
  destruct (world_ok_extend w sm' [1] Hok Hwf' Hv) as [Hold Hvals].
  unfold new_constraint.
  rewrite (bind_run _ _ _ _ _ (lift_sm_world _ w _ _ E)).
  eexists. split; [reflexivity|]. simpl.
  split; [|split; [done|split; [done|split; [done|split; [|split]]]]].
  - split; [done|]. split; [done|]. simpl.
    eapply Forall_impl; [exact Hold|]. intros y [Hy1 Hy2]. split; [done|].
    intros e. destruct (Hy2 e) as [S1 S2]. split; [done|]. simpl in *.
    eapply Forall_impl; [exact S2|]. intros c Hc. simpl in Hc.
    rewrite length_app. simpl. lia.
  - rewrite (value_app_r _ _ _ _ Hv) by lia. by rewrite Nat.sub_diag.
  - intros r Hr. by apply (value_app_l _ _ _ _ Hv).
  - intros j. apply (Hvals j).
Qed.

(** *** Pushing a constraint on a stack of a variable *)

Lemma var_cells_set_stack e st x :
  Stack._size st = Stack._size (stack_of e x) ->
  var_cells (set_stack e st x) = var_cells x.
Proof. intros H. destruct e; unfold var_cells; simpl in *; by rewrite H. Qed.

Lemma stack_of_set_stack e st x : stack_of e (set_stack e st x) = st.
Proof. by destruct e. Qed.

Lemma stack_of_set_stack_ne e e' st x :
  e' <> e -> stack_of e' (set_stack e st x) = stack_of e' x.
Proof. by destruct e, e'. Qed.

Lemma stack_cells_distinct e e' x :
  NoDup (var_cells x) -> e' <> e ->
  Stack._size (stack_of e' x) <> Stack._size (stack_of e x).
Proof.
  unfold var_cells, domain_cells. intros Hnd Hne Heq.
  apply NoDup_app in Hnd as (_ & _ & Hnd).
  apply NoDup_cons in Hnd as [H1 Hnd]. apply NoDup_cons in Hnd as [H2 _].
  rewrite !elem_of_cons, elem_of_nil in H1.
  rewrite elem_of_cons, elem_of_nil in H2.
  destruct e, e'; simpl in Heq; try done; intuition congruence.
Qed.

Lemma on_stack_push_ok id e c w x :
  world_ok w -> int_vars w !! id = Some x ->
  (c < length (constraints w))%nat ->
  exists w' x',
    on_stack id e (Stack.push c) w = (Ret tt, w') /\
    world_ok w' /\
    int_vars w' !! id = Some x' /\
    (forall j, j <> id -> int_vars w' !! j = int_vars w !! j) /\
    length (int_vars w') = length (int_vars w) /\
    constraints w' = constraints w /\
    _propagation_queue w' = _propagation_queue w /\
    stack_elems (_sm w', stack_of e x')
    = stack_elems (_sm w, stack_of e x) ++ [c] /\
    (forall e', e' <> e ->
       stack_elems (_sm w', stack_of e' x')
       = stack_elems (_sm w, stack_of e' x)) /\
    (forall r, r <> Stack._size (stack_of e x) ->
               value r (_sm w') = value r (_sm w)) /\
    (forall j, var_values w' j = var_values w j) /\
    (forall j y e', j <> id -> int_vars w !! j = Some y ->
       stack_elems (_sm w', stack_of e' y)
       = stack_elems (_sm w, stack_of e' y)).
Proof.
  intros Hok Hx Hc. pose proof Hok as (Hwf & Hnd & Hall).
  destruct (world_ok_lookup w id x Hok Hx) as [[Hss Hstk] Hndx].
  destruct (Hstk e) as [Hse Hsc].
  destruct (stack_push_spec c (_sm w, stack_of e x) Hse)
    as ([sm' st'] & E & Hse' & Hel & Hsz & _ & Hv).
  simpl in Hsz, Hv.
  set (x' := set_stack e st' x).
  set (w' := with_sm sm' (with_int_vars (<[id := x']> (int_vars w)) w)).
  assert (Hid : (id < length (int_vars w))%nat) by (by eapply lookup_lt_Some).
  assert (Hrun : on_stack id e (Stack.push c) w = (Ret tt, w')).
  { unfold on_stack. rewrite (bind_run _ _ _ _ _ (int_var_run _ _ _ Hx)).
    by rewrite E. }
  assert (Hwf' : wf sm') by (by destruct Hse').
  assert (Hn : n_cells sm' = n_cells (_sm w))
    by (by apply (n_cells_after_set _ _ _ _ Hv)).
  assert (Hframe : forall r, r <> Stack._size (stack_of e x) ->
                             value r sm' = value r (_sm w)).
  { intros r Hr. apply (value_after_set_other _ _ _ _ _ (not_eq_sym Hr) Hv). }
  assert (Hx' : int_vars w' !! id = Some x').
  { simpl. by apply list_lookup_insert_eq. }
  assert (Hcells : var_cells <$> int_vars w' = var_cells <$> int_vars w).
  { simpl. rewrite list_fmap_insert. unfold x'.
    rewrite (var_cells_set_stack e st' x Hsz).
    apply list_insert_id. by rewrite list_lookup_fmap, Hx. }
  assert (Hdom : forall j y, int_vars w !! j = Some y ->
            ss_ok (sm', _domain y) /\
            ss_elems (sm', _domain y) = ss_elems (_sm w, _domain y)).
  { intros j y Hy.
    destruct (world_ok_lookup w j y Hok Hy) as [[Hssy _] Hndy].
    apply ss_ok_frame; [done|done|lia|].
    intros r Hr. apply Hframe. intros ->.
    destruct (decide (j = id)) as [->|Hj].
    - assert (y = x) as -> by congruence.
      by apply (stack_cell_not_domain e x Hndx).
    - apply (other_var_cells w j id y x _ Hok Hy Hx Hj
               (stack_cell_var_cells e x)).
      done. }
  assert (Hother : forall j y e', int_vars w !! j = Some y ->
            (j <> id \/ e' <> e) ->
            stack_ok (sm', stack_of e' y) /\
            stack_elems (sm', stack_of e' y)
            = stack_elems (_sm w, stack_of e' y)).
  { intros j y e' Hy Hje.
    destruct (world_ok_lookup w j y Hok Hy) as [[_ Hsy] Hndy].
    destruct (Hsy e') as [Hsy1 _].
    apply stack_frame; [done|done|lia|]. apply Hframe.
    destruct (decide (j = id)) as [->|Hj].
    - assert (y = x) as -> by congruence. destruct Hje as [|He']; [done|].
      by apply stack_cells_distinct.
    - intros Heq.
      apply (NoDup_concat_lookup (var_cells <$> int_vars w) j id
               (var_cells y) (var_cells x)
               (Stack._size (stack_of e' y))) in Hnd; [done| | | |].
      + by rewrite list_lookup_fmap, Hy.
      + by rewrite list_lookup_fmap, Hx.
      + apply stack_cell_var_cells.
      + rewrite Heq. apply stack_cell_var_cells. }
  exists w', x'. split; [done|]. split.
  { split; [done|]. split; [by rewrite Hcells|].
    apply Forall_lookup. intros j y Hy. simpl in Hy.
    destruct (decide (j = id)) as [->|Hj].
    - rewrite list_lookup_insert_eq in Hy by done. injection Hy as <-.
      split.
      + replace (_domain x') with (_domain x) by (by destruct e).
        by apply (Hdom id x).
      + intros e'. destruct (decide (e' = e)) as [->|He'].
        * unfold x'. rewrite stack_of_set_stack. split; [done|].
          simpl. rewrite Hel. apply Forall_app. split; [done|].
          by apply Forall_singleton.
        * unfold x'. rewrite stack_of_set_stack_ne by done.
          destruct (Hother id x e' Hx) as [O1 O2]; [by right|].
          split; [done|]. simpl. rewrite O2.
          by destruct (Hstk e').
    - rewrite list_lookup_insert_ne in Hy by done.
      split; [by apply (Hdom j y)|]. intros e'.
      destruct (Hother j y e' Hy) as [O1 O2]; [by left|].
      split; [done|]. simpl. rewrite O2.
      destruct (world_ok_lookup w j y Hok Hy) as [[_ Hsy] _].
      by destruct (Hsy e'). }
  split; [done|]. split.
  { intros j Hj. simpl. by rewrite list_lookup_insert_ne. }
  split; [simpl; by rewrite length_insert|].
  split; [done|]. split; [done|]. split.
  { unfold x'. by rewrite stack_of_set_stack. }
  split.
  { intros e' He'. unfold x'. rewrite stack_of_set_stack_ne by done.
    by apply (Hother id x e' Hx); right. }
  split; [done|]. split.
  { intros j. unfold var_values. simpl.
    destruct (decide (j = id)) as [->|Hj].
    - rewrite list_lookup_insert_eq by done. rewrite Hx.
      replace (_domain x') with (_domain x) by (by destruct e).
      by apply (Hdom id x).
    - rewrite list_lookup_insert_ne by done.
      destruct (int_vars w !! j) as [y|] eqn:Hy; [|done].
      by apply (Hdom j y). }
  intros j y e' Hj Hy. by apply (Hother j y e' Hy); left.
Qed.

Lemma propagate_on_var e x c :
  Var.propagate_on e x c = on_stack (var_id x) e (Stack.push c).
Proof. induction x; simpl; done. Qed.

Lemma registered_after_push id e c w w' x x' :
  int_vars w !! id = Some x -> int_vars w' !! id = Some x' ->
  (forall j, j <> id -> int_vars w' !! j = int_vars w !! j) ->
  stack_elems (_sm w', stack_of e x')
  = stack_elems (_sm w, stack_of e x) ++ [c] ->
  (forall e', e' <> e ->
     stack_elems (_sm w', stack_of e' x')
     = stack_elems (_sm w, stack_of e' x)) ->
  (forall j y e', j <> id -> int_vars w !! j = Some y ->
     stack_elems (_sm w', stack_of e' y)
     = stack_elems (_sm w, stack_of e' y)) ->
  (forall e' c', registered w' id e' c' <->
                 registered w id e' c' \/ (e' = e /\ c' = c)) /\
  (forall j e' c', j <> id ->
                   registered w' j e' c' <-> registered w j e' c').
Proof.
  intros Hx Hx' Hoth Hel Hel' Hst. split.
  - intros e' c'. unfold registered. split.
    + intros (y & Hy & Hc'). assert (y = x') as -> by congruence.
      destruct (decide (e' = e)) as [->|He'].
      * rewrite Hel in Hc'. apply elem_of_app in Hc' as [Hc'|Hc'].
        -- left. by exists x.
        -- right. apply list_elem_of_singleton in Hc'. done.
      * left. exists x. split; [done|]. by rewrite <- (Hel' e' He').
    + intros [(y & Hy & Hc')|(-> & ->)].
      * assert (y = x) as -> by congruence. exists x'. split; [done|].
        destruct (decide (e' = e)) as [->|He'].
        -- rewrite Hel. apply elem_of_app. by left.
        -- by rewrite (Hel' e' He').
      * exists x'. split; [done|]. rewrite Hel. apply elem_of_app. right.
        apply list_elem_of_here.
  - intros j e' c' Hj. unfold registered. rewrite (Hoth j Hj). split.
    + intros (y & Hy & Hc'). exists y. split; [done|].
      by rewrite <- (Hst j y e' Hj Hy).
    + intros (y & Hy & Hc'). exists y. split; [done|].
      by rewrite (Hst j y e' Hj Hy).
Qed.

(** X19.  [propagate_on_domain_change], [propagate_on_bound_change] and
    [propagate_on_fix], on a variable or on any view of it, put the
    constraint on the stack of that event of the variable under the view,
    and on no other stack of any variable.  They change no domain, no
    constraint and not the propagation queue. *)
Theorem propagate_on_registers (e : Event) (x : IntVar) (c : nat) (w : World) :
  world_ok w -> is_Some (int_vars w !! var_id x) ->
  (c < length (constraints w))%nat ->
  exists w',
    Var.propagate_on e x c w = (Ret tt, w') /\
    world_ok w' /\
    constraints w' = constraints w /\
    _propagation_queue w' = _propagation_queue w /\
    (forall j, var_values w' j = var_values w j) /\
    (forall e' c', registered w' (var_id x) e' c' <->
                   registered w (var_id x) e' c' \/ (e' = e /\ c' = c)) /\
    (forall j e' c', j <> var_id x ->
                     registered w' j e' c' <-> registered w j e' c').
Proof.
  intros Hok [y Hy] Hc. rewrite propagate_on_var.
  destruct (on_stack_push_ok (var_id x) e c w y Hok Hy Hc)
    as (w' & y' & E & Hok' & Hy' & Hoth & _ & Hcs & Hq & Hel & Hel' & _
        & Hvals & Hst).
  exists w'. do 5 (split; [done|]).
  by apply (registered_after_push (var_id x) e c w w' y y').
Qed.

Lemma propagate_on_registers_witness :
  let w := snd (equal (IntVarImpl 0) 3 (two_vars_world false)) in
  let x := IntVarViewMul (IntVarViewOpposite (IntVarImpl 1)) 3 in
  world_ok w /\ is_Some (int_vars w !! var_id x) /\
  (0 < length (constraints w))%nat /\
  exists w',
    Var.propagate_on OnBound x 0%nat w = (Ret tt, w') /\
    world_ok w' /\
    constraints w' = constraints w /\
    _propagation_queue w' = _propagation_queue w /\
    (forall j, var_values w' j = var_values w j) /\
    (forall e' c', registered w' (var_id x) e' c' <->
                   registered w (var_id x) e' c'
                   \/ (e' = OnBound /\ c' = 0%nat)) /\
    (forall j e' c', j <> var_id x ->
                     registered w' j e' c' <-> registered w j e' c').
Proof.
  intros w x. destruct (two_vars_world_ok false) as (Hok0 & _ & Hlen).
  destruct (new_constraint_ok (EqualConstraint (IntVarImpl 0) 3)
              (two_vars_world false) Hok0)
    as (w1 & E1 & Hok1 & Hv1 & Hc1 & _).
  assert (Hw : w = w1) by (unfold w, equal; by rewrite E1).
  assert (Hid : is_Some (int_vars w !! var_id x)).
  { rewrite Hw, Hv1. apply lookup_lt_is_Some. unfold x. cbn [var_id].
    rewrite Hlen. lia. }
  assert (Hc : (0 < length (constraints w))%nat).
  { rewrite Hw, Hc1, length_app. cbn [length]. lia. }
  assert (Hok : world_ok w) by (by rewrite Hw).
  split; [exact Hok|]. split; [exact Hid|]. split; [exact Hc|].
  exact (propagate_on_registers OnBound x 0%nat w Hok Hid Hc).
Defined.

(** *** Registering a closure *)

Lemma when_on_var e x f :
  Var.when_on e x f
  = (c <- constraint_closure f ;; on_stack (var_id x) e (Stack.push c)).
Proof. induction x; simpl; done. Qed.

Lemma registered_same w w1 j e c :
  world_ok w -> int_vars w1 = int_vars w ->
  (forall r, (r < n_cells (_sm w))%nat -> value r (_sm w1) = value r (_sm w)) ->
  registered w1 j e c <-> registered w j e c.
Proof.
  intros Hok Hv Hfr. unfold registered. rewrite Hv.
  assert (H : forall y, int_vars w !! j = Some y ->
            stack_elems (_sm w1, stack_of e y)
            = stack_elems (_sm w, stack_of e y)).
  { intros y Hy. unfold stack_elems. simpl. rewrite Hfr; [done|].
    apply (var_cells_bound w j y _ Hok Hy). apply stack_cell_var_cells. }
  split; intros (y & Hy & Hc); exists y; (split; [done|]).
  - by rewrite <- (H y Hy).
  - by rewrite (H y Hy).
Qed.

Lemma when_on_run (e : Event) (x : IntVar) (f : Filter) (w : World) :
  world_ok w -> is_Some (int_vars w !! var_id x) ->
  exists w',
    Var.when_on e x f w = (Ret tt, w') /\
    world_ok w' /\
    length (int_vars w') = length (int_vars w) /\
    constraints w'
    = constraints w
      ++ [mkConstraint (ConstraintClosure f) (n_cells (_sm w)) false] /\
    _propagation_queue w' = _propagation_queue w /\
    (forall j, var_values w' j = var_values w j) /\
    listening w' (var_id x) e (length (constraints w)) /\
    (forall e' c', registered w' (var_id x) e' c' <->
                   registered w (var_id x) e' c'
                   \/ (e' = e /\ c' = length (constraints w))) /\
    (forall j e' c', j <> var_id x ->
                     registered w' j e' c' <-> registered w j e' c').
Proof.
  intros Hok [y Hy]. rewrite when_on_var. unfold constraint_closure.
  destruct (new_constraint_ok (ConstraintClosure f) w Hok)
    as (w1 & E1 & Hok1 & Hv1 & Hc1 & Hq1 & Ha1 & Hfr1 & Hvals1).
  assert (Hy1 : int_vars w1 !! var_id x = Some y) by (by rewrite Hv1).
  assert (Hlt : (length (constraints w) < length (constraints w1))%nat).
  { rewrite Hc1, length_app. simpl. lia. }
  destruct (on_stack_push_ok (var_id x) e (length (constraints w)) w1 y
              Hok1 Hy1 Hlt)
    as (w' & y' & E & Hok' & Hy' & Hoth & Hlen & Hcs & Hq & Hel & Hel'
        & Hfr & Hvals & Hst).
  destruct (registered_after_push (var_id x) e (length (constraints w))
              w1 w' y y' Hy1 Hy' Hoth Hel Hel' Hst) as [R1 R2].
  exists w'. rewrite (bind_run _ _ _ _ _ E1).
  split; [done|]. split; [done|]. split; [by rewrite Hlen, Hv1|].
  split; [by rewrite Hcs|]. split; [by rewrite Hq|].
  split; [intros j; by rewrite Hvals|]. split.
  { exists y', (mkConstraint (ConstraintClosure f) (n_cells (_sm w)) false).
    split; [done|]. split.
    - rewrite Hel. apply elem_of_app. right. apply list_elem_of_here.
    - split.
      + rewrite Hcs, Hc1. rewrite lookup_app_r by lia.
        by rewrite Nat.sub_diag.
      + simpl. rewrite Hfr; [by rewrite Ha1|].
        pose proof (var_cells_bound w (var_id x) y _ Hok Hy
                      (stack_cell_var_cells e y)).
        lia. }
  split.
  - intros e' c'. rewrite R1.
    by rewrite (registered_same w w1 (var_id x) e' c' Hok Hv1 Hfr1).
  - intros j e' c' Hj. rewrite (R2 j e' c' Hj).
    by apply (registered_same w w1 j e' c' Hok Hv1 Hfr1).
Qed.

(** X20.  [when_domain_change], [when_bound_change] and [when_fixed], on a
    variable or on any view of it, create one constraint, a closure on
    the function given, active and not scheduled, and put it on the stack
    of that event of the variable under the view and on no other stack.
    They change no domain and not the propagation queue. *)
Theorem when_on_registers (e : Event) (x : IntVar) (f : Filter) (w : World) :
  world_ok w -> is_Some (int_vars w !! var_id x) ->
  exists w',
    Var.when_on e x f w = (Ret tt, w') /\
    world_ok w' /\
    constraints w'
    = constraints w
      ++ [mkConstraint (ConstraintClosure f) (n_cells (_sm w)) false] /\
    _propagation_queue w' = _propagation_queue w /\
    (forall j, var_values w' j = var_values w j) /\
    listening w' (var_id x) e (length (constraints w)) /\
    (forall e' c', registered w' (var_id x) e' c' <->
                   registered w (var_id x) e' c'
                   \/ (e' = e /\ c' = length (constraints w))) /\
    (forall j e' c', j <> var_id x ->
                     registered w' j e' c' <-> registered w j e' c').
Proof.
  intros Hok Hid.
  destruct (when_on_run e x f w Hok Hid)
    as (w' & E & H1 & _ & H2 & H3 & H4 & H5 & H6 & H7).
  by exists w'.
Qed.

Lemma when_on_registers_witness :
  let w := two_vars_world true in
  let x := BoolVarImpl (IntVarImpl 1) in
  world_ok w /\ is_Some (int_vars w !! var_id x) /\
  exists w',
    Var.when_on OnFix x (UserFilter 7) w = (Ret tt, w') /\
    world_ok w' /\
    constraints w'
    = constraints w
      ++ [mkConstraint (ConstraintClosure (UserFilter 7))
                       (n_cells (_sm w)) false] /\
    _propagation_queue w' = _propagation_queue w /\
    (forall j, var_values w' j = var_values w j) /\
    listening w' (var_id x) OnFix (length (constraints w)) /\
    (forall e' c', registered w' (var_id x) e' c' <->
                   registered w (var_id x) e' c'
                   \/ (e' = OnFix /\ c' = length (constraints w))) /\
    (forall j e' c', j <> var_id x ->
                     registered w' j e' c' <-> registered w j e' c').
Proof.
  intros w x. destruct (two_vars_world_ok true) as (Hok & _ & Hlen).
  assert (Hid : is_Some (int_vars w !! var_id x)).
  { apply lookup_lt_is_Some. unfold w, x. cbn [var_id]. rewrite Hlen. lia. }
  split; [exact Hok|]. split; [exact Hid|].
  exact (when_on_registers OnFix x (UserFilter 7) w Hok Hid).
Defined.

(** *** Scheduling *)

(** X18.  An update of a variable, or of a view of it made of offsets and
    opposites, whose domain is not empty, that returns schedules the
    constraints that listen, in a sound solver whose queue holds exactly
    the constraints marked scheduled.
    When no value was removed nothing changes.  Otherwise every active
    constraint registered for a change of the domain is in the queue
    afterwards; so is every active constraint registered for a change of
    the bounds when the least or the greatest value was removed, and
    every active constraint registered for the fixing when one value is
    left.  No constraint leaves the queue. *)
Theorem update_schedules (x : IntVar) (op : var_op) (w w' : World) :
  world_ok w -> scheduled_in_queue w -> affine x = true ->
  view_values w x <> [] ->
  var_do x op w = (Ret tt, w') ->
  let id := var_id x in
  let l := var_values w id in
  let l' := var_values w' id in
  scheduled_in_queue w' /\
  (forall c, c ∈ _propagation_queue w -> c ∈ _propagation_queue w') /\
  (length l' = length l -> w' = w) /\
  (length l' <> length l ->
   (forall c, listening w' id OnDomain c -> c ∈ _propagation_queue w') /\
   (bound_lost l l' ->
    forall c, listening w' id OnBound c -> c ∈ _propagation_queue w') /\
   (length l' = 1%nat ->
    forall c, listening w' id OnFix c -> c ∈ _propagation_queue w')).
Proof.
  intros Hok Hsiq Haff Hne Hrun id l l'.
  destruct (view_update_run x op w Hok Haff Hne)
    as (w1 & E & Hok1 & _ & _ & _ & Hfl & Hsame & Hfired).
  rewrite Hrun in E.
  assert (w1 = w') as -> by (by injection E).
  assert (Hnn : view_values w' x <> []).
  { intros Hnil. rewrite decide_True in E by done. discriminate. }
  assert (Hnn' : var_values w' (var_id x) <> []).
  { by rewrite <- (view_values_nil w' x Haff). }
  assert (Hsiq' : scheduled_in_queue w').
  { by apply (keeps_var_do x op w (Ret tt) w'). }
  split; [done|]. split.
  { intros c Hc. apply (scheduled_in_queue_elem w' c Hsiq').
    apply (scheduled_step w w' c Hfl).
    by apply (scheduled_in_queue_elem w c Hsiq). }
  split; [done|]. intros Hlen.
  destruct (Hfired Hlen Hnn') as (F1 & F2 & F3).
  split; [|split].
  - intros c Hc. apply (scheduled_in_queue_elem w' c Hsiq').
    apply (F1 OnDomain c); [apply list_elem_of_here|done].
  - intros Hb c Hc. apply (scheduled_in_queue_elem w' c Hsiq').
    apply (F2 Hb OnBound c); [apply list_elem_of_here|done].
  - intros H1 c Hc. apply (scheduled_in_queue_elem w' c Hsiq').
    apply (F3 H1 OnFix c); [apply list_elem_of_here|done].
Qed.

Lemma listening_world_ok (by_copy : bool) :
  world_ok (listening_world by_copy) /\
  scheduled_in_queue (listening_world by_copy) /\
  var_values (listening_world by_copy) 0 = [0; 1; 2; 3; 4; 5].
Proof.
  destruct (make_int_var_ok 0 5 (make_solver by_copy)
              (world_ok_make_solver by_copy))
    as (w1 & E1 & Hok1 & Hv1 & _ & Hl1); [done|done|lia|].
  assert (Hl0 : length (int_vars (make_solver by_copy)) = 0%nat).
  { by destruct by_copy. }
  rewrite Hl0 in *.
  assert (Hid : forall w, length (int_vars w) = 1%nat ->
                          is_Some (int_vars w !! var_id (IntVarImpl 0))).
  { intros w Hw. apply lookup_lt_is_Some. simpl. lia. }
  destruct (when_on_run OnDomain (IntVarImpl 0) (UserFilter 0) w1 Hok1
              (Hid w1 Hl1))
    as (w2 & E2 & Hok2 & Hl2 & _ & _ & Hv2 & _).
  rewrite Hl1 in Hl2.
  destruct (when_on_run OnBound (IntVarImpl 0) (UserFilter 1) w2 Hok2
              (Hid w2 Hl2))
    as (w3 & E3 & Hok3 & Hl3 & _ & _ & Hv3 & _).
  rewrite Hl2 in Hl3.
  destruct (when_on_run OnFix (IntVarImpl 0) (UserFilter 2) w3 Hok3
              (Hid w3 Hl3))
    as (w4 & E4 & Hok4 & Hl4 & _ & _ & Hv4 & _).
  assert (Hw : listening_world by_copy = w4).
  { unfold listening_world, Var.when_domain_change, Var.when_bound_change,
      Var.when_fixed.
    rewrite (bind_run _ _ _ _ _ E1), (bind_run _ _ _ _ _ E2),
      (bind_run _ _ _ _ _ E3), E4. done. }
  split; [by rewrite Hw|]. split.
  - unfold listening_world.
    match goal with
    | |- scheduled_in_queue (snd (?m ?w)) =>
        assert (Hk : keeps m); [|destruct (m w) as [o w'] eqn:Em;
          exact (Hk w o w' (scheduled_in_queue_make_solver by_copy) Em)]
    end.
    unfold Var.when_domain_change, Var.when_bound_change, Var.when_fixed.
    apply keeps_bind; [apply keeps_make_int_var|]. intros y.
    apply keeps_bind; [apply keeps_var_when_on|]. intros _.
    apply keeps_bind; [apply keeps_var_when_on|]. intros _.
    apply keeps_var_when_on.
  - rewrite Hw, Hv4, Hv3, Hv2, Hv1. reflexivity.
Qed.

Lemma update_schedules_witness :
  let w := listening_world false in
  let x := IntVarViewOffset (IntVarImpl 0) 10 in
  let w' := snd (var_do x (VRemoveBelow 12) w) in
  world_ok w /\ scheduled_in_queue w /\ affine x = true /\
  view_values w x <> [] /\
  var_do x (VRemoveBelow 12) w = (Ret tt, w') /\
  _propagation_queue w = [] /\
  _propagation_queue w' = [1; 0]%nat /\
  (forall c, listening w' 0%nat OnDomain c -> c ∈ _propagation_queue w').
Proof.
  intros w x w'. destruct (listening_world_ok false) as (Hok & Hsiq & Hv).
  assert (Hne : view_values w x <> []).
  { unfold x. cbn [view_values]. unfold w. rewrite Hv. done. }
  assert (Hrun : var_do x (VRemoveBelow 12) w = (Ret tt, w')) by (by vm_compute).
  split; [exact Hok|]. split; [exact Hsiq|]. split; [reflexivity|].
  split; [exact Hne|]. split; [exact Hrun|].
  split; [by vm_compute|]. split; [by vm_compute|].
  destruct (update_schedules x (VRemoveBelow 12) w w' Hok Hsiq eq_refl Hne Hrun)
    as (_ & _ & _ & H).
  apply H. by vm_compute.
Defined.
(* ================================================================== *)
(** ** branching_scheme.py: [select_min] and [first_fail] *)

Lemma shows_view (x : IntVar) (w : World) :
  world_ok w -> affine x = true -> is_Some (int_vars w !! var_id x) ->
  shows w x (view_values w x).
Proof.
  intros Hok. induction x as [id|x IH a|x IH o|x IH|x IH]; intros Haff Hid;
    try discriminate.
  - destruct Hid as [y Hy]. by apply (impl_shows id w y).
  - apply shows_offset. by apply IH.
  - apply shows_opposite. by apply IH.
Qed.

Lemma var_size_run w x :
  world_ok w -> affine x = true -> is_Some (int_vars w !! var_id x) ->
  Var.size x w = (Ret (var_size w x), w).
Proof.
  intros Hok Haff Hid.
  by destruct (shows_view x w Hok Haff Hid) as (_ & Hs & _).
Qed.

Lemma selected_snoc w pre sel x :
  selected w pre sel ->
  selected w (pre ++ [x])
    (if var_size w x >? 1
     then match sel with
          | None => Some x
          | Some y => if var_size w x - var_size w y <? 0 then Some x else sel
          end
     else sel).
Proof.
  intros Hsel. rewrite Z.gtb_ltb.
  destruct (Z.ltb_spec 1 (var_size w x)) as [Hx|Hx].
  - destruct sel as [y|].
    + destruct Hsel as (i & Hi & Hy & Hmin & Hfirst).
      assert (Hilt : (i < length pre)%nat) by (by eapply lookup_lt_Some).
      destruct (Z.ltb_spec (var_size w x - var_size w y) 0) as [Hlt|Hge].
      * exists (length pre). split; [|split; [done|split]].
        -- rewrite lookup_app_r by lia. by rewrite Nat.sub_diag.
        -- intros j z Hz Hz1.
           destruct (decide (j < length pre)%nat) as [Hj|Hj].
           ++ rewrite lookup_app_l in Hz by done.
              pose proof (Hmin j z Hz Hz1). lia.
           ++ rewrite lookup_app_r in Hz by lia.
              destruct (j - length pre)%nat; simpl in Hz; [|done].
              injection Hz as <-. lia.
        -- intros j z Hj Hz Hz1. rewrite lookup_app_l in Hz by done.
           pose proof (Hmin j z Hz Hz1). lia.
      * exists i. split; [|split; [done|split]].
        -- by rewrite lookup_app_l.
        -- intros j z Hz Hz1.
           destruct (decide (j < length pre)%nat) as [Hj|Hj].
           ++ rewrite lookup_app_l in Hz by done. by apply (Hmin j z).
           ++ rewrite lookup_app_r in Hz by lia.
              destruct (j - length pre)%nat; simpl in Hz; [|done].
              injection Hz as <-. lia.
        -- intros j z Hj Hz Hz1. rewrite lookup_app_l in Hz by lia.
           by apply (Hfirst j z).
    + simpl in Hsel. exists (length pre). split; [|split; [done|split]].
      * rewrite lookup_app_r by lia. by rewrite Nat.sub_diag.
      * intros j z Hz Hz1.
        destruct (decide (j < length pre)%nat) as [Hj|Hj].
        -- rewrite lookup_app_l in Hz by done.
           apply list_elem_of_lookup_2, Hsel in Hz. lia.
        -- rewrite lookup_app_r in Hz by lia.
           destruct (j - length pre)%nat; simpl in Hz; [|done].
           injection Hz as <-. lia.
      * intros j z Hj Hz Hz1. rewrite lookup_app_l in Hz by done.
        apply list_elem_of_lookup_2, Hsel in Hz. lia.
  - destruct sel as [y|].
    + destruct Hsel as (i & Hi & Hy & Hmin & Hfirst).
      assert (Hilt : (i < length pre)%nat) by (by eapply lookup_lt_Some).
      exists i. split; [|split; [done|split]].
      * by rewrite lookup_app_l.
      * intros j z Hz Hz1.
        destruct (decide (j < length pre)%nat) as [Hj|Hj].
        -- rewrite lookup_app_l in Hz by done. by apply (Hmin j z).
        -- rewrite lookup_app_r in Hz by lia.
           destruct (j - length pre)%nat; simpl in Hz; [|done].
           injection Hz as <-. lia.
      * intros j z Hj Hz Hz1. rewrite lookup_app_l in Hz by lia.
        by apply (Hfirst j z).
    + simpl in *. intros z Hz. apply elem_of_app in Hz as [Hz|Hz]; [auto|].
      apply list_elem_of_singleton in Hz as ->. done.
Qed.

Lemma select_min_loop w (suf : list IntVar) : forall pre sel,
  world_ok w -> vars_of w (pre ++ suf) -> selected w pre sel ->
  exists r,
    fold_m suf sel
      (fun sel xi =>
         s <- Var.size xi ;;
         if s >? 1 then
           match sel with
           | None => ret (Some xi)
           | Some y =>
               fxi <- Var.size xi ;;
               fy <- Var.size y ;;
               ret (if fxi - fy <? 0 then Some xi else sel)
           end
         else ret sel) w
    = (Ret r, w) /\ selected w (pre ++ suf) r.
Proof.
  induction suf as [|x suf IH]; intros pre sel Hok Hvars Hsel.
  - exists sel. rewrite app_nil_r. done.
  - assert (Hx : affine x = true /\ is_Some (int_vars w !! var_id x)).
    { apply (proj1 (Forall_forall _ _) Hvars). apply elem_of_app. right.
      apply list_elem_of_here. }
    destruct Hx as [Hxa Hxi].
    pose proof (var_size_run w x Hok Hxa Hxi) as Ex.
    pose proof (selected_snoc w pre sel x Hsel) as Hsel'.
    replace (pre ++ x :: suf) with ((pre ++ [x]) ++ suf) in *
      by (by rewrite <- app_assoc).
    cbn [fold_m]. unfold bind at 1. rewrite (bind_run _ _ _ _ _ Ex).
    destruct (var_size w x >? 1) eqn:Hgt.
    + destruct sel as [y|].
      * assert (Hy : affine y = true /\ is_Some (int_vars w !! var_id y)).
        { destruct Hsel as (i & Hi & _).
          apply (proj1 (Forall_forall _ _) Hvars). apply elem_of_app. left.
          apply elem_of_app. left. by apply list_elem_of_lookup_2 in Hi. }
        destruct Hy as [Hya Hyi].
        rewrite (bind_run _ _ _ _ _ Ex).
        rewrite (bind_run _ _ _ _ _ (var_size_run w y Hok Hya Hyi)).
        unfold ret at 1. by apply IH.
      * unfold ret at 1. by apply IH.
    + unfold ret at 1. by apply IH.
Qed.

Lemma select_min_size_run w (xs : list IntVar) :
  world_ok w -> vars_of w xs ->
  exists r, select_min_size xs w = (Ret r, w) /\ selected w xs r.
Proof.
  intros Hok Hvars. unfold select_min_size.
  destruct (select_min_loop w xs [] None Hok Hvars) as (r & E & Hr);
    [by intros x Hx%elem_of_nil|].
  by exists r.
Qed.

(** X21.  [first_fail(x)], called on variables of a sound solver (or
    offset and opposite views of them), changes nothing and returns no
    alternative when no variable has more than one value.  Otherwise it
    returns two alternatives on the variable [y] that has the fewest
    values among those with more than one, the first such in [x]:
    posting [y = m] and posting [y != m], where [m] is the least value of
    [y]. *)
Theorem first_fail_alternatives (user_filter : nat -> M World unit)
    (fp_fuel : nat) (xs : list IntVar) (w : World) :
  world_ok w -> vars_of w xs ->
  exists alts,
    first_fail user_filter fp_fuel xs w = (Ret alts, w) /\
    ((forall x, x ∈ xs -> var_size w x <= 1) -> alts = []) /\
    ((exists x, x ∈ xs /\ 1 < var_size w x) ->
     exists i y m,
       smallest_unfixed w xs i y /\
       m ∈ view_values w y /\ (forall u, u ∈ view_values w y -> m <= u) /\
       alts = [(c <- equal y m ;; post user_filter fp_fuel c true);
               (c <- not_equal y m ;; post user_filter fp_fuel c true)]).
Proof.
  intros Hok Hvars.
  destruct (select_min_size_run w xs Hok Hvars) as (r & E & Hr).
  unfold first_fail. rewrite (bind_run _ _ _ _ _ E).
  destruct r as [y|].
  - destruct Hr as (i & Hi & Hy1 & Hmin & Hfirst).
    assert (Hy : affine y = true /\ is_Some (int_vars w !! var_id y)).
    { apply (proj1 (Forall_forall _ _) Hvars).
      by apply list_elem_of_lookup_2 in Hi. }
    destruct Hy as [Hya Hyi].
    destruct (shows_view y w Hok Hya Hyi) as (_ & _ & _ & _ & Hmm & _).
    assert (Hne : view_values w y <> []).
    { unfold var_size in Hy1. destruct (view_values w y); [simpl in Hy1; lia|done]. }
    destruct (Hmm Hne) as (mn & mx & Emn & _ & Hin & _ & Hbnd).
    rewrite (bind_run _ _ _ _ _ Emn). eexists. split; [done|]. split.
    + intros Hall. apply list_elem_of_lookup_2, Hall in Hi. lia.
    + intros _. exists i, y, mn. split; [done|]. split; [done|].
      split; [|done]. intros u Hu. by apply Hbnd.
  - exists []. split; [done|]. split; [done|].
    intros (x & Hx & Hx1). apply Hr in Hx. lia.
Qed.

Lemma first_fail_alternatives_witness :
  let w := two_vars_world true in
  let xs := [IntVarImpl 0; IntVarViewOffset (IntVarImpl 1) 3] in
  let user_filter := fun _ : nat => ret tt : M World unit in
  world_ok w /\ vars_of w xs /\
  exists alts,
    first_fail user_filter 10 xs w = (Ret alts, w) /\
    ((forall x, x ∈ xs -> var_size w x <= 1) -> alts = []) /\
    ((exists x, x ∈ xs /\ 1 < var_size w x) ->
     exists i y m,
       smallest_unfixed w xs i y /\
       m ∈ view_values w y /\ (forall u, u ∈ view_values w y -> m <= u) /\
       alts = [(c <- equal y m ;; post user_filter 10 c true);
               (c <- not_equal y m ;; post user_filter 10 c true)]).
Proof.
  intros w xs user_filter.
  assert (Hok : world_ok w) by apply (two_vars_world_ok true).
  assert (Hvars : vars_of w xs).
  { repeat constructor; vm_compute; by eexists. }
  split; [exact Hok|]. split; [exact Hvars|].
  exact (first_fail_alternatives user_filter 10 xs w Hok Hvars).
Defined.

(* ================================================================== *)
(** ** search.py: [Minimize] *)

(** [remove_below] and [remove_above] read a bound first, so on a domain
    without values they raise [ValueError]. *)
Lemma bound_update_empty (x : IntVar) (w : World) :
  world_ok w -> affine x = true -> is_Some (int_vars w !! var_id x) ->
  view_values w x = [] ->
  forall v, Var.remove_below x v w = (Raise ValueError, w) /\
            Var.remove_above x v w = (Raise ValueError, w).
Proof.
  intros Hok. induction x as [id|x IH a|x IH o|x IH|x IH];
    intros Haff Hid Hnil v; try discriminate.
  - destruct Hid as [y Hy]. simpl in Hnil.
    assert (Hz : ss_size (_sm w, _domain y) = 0).
    { by apply (var_values_nil_size w id y Hok Hy). }
    pose proof (domain_min_run id w y Hy) as Emin.
    pose proof (domain_max_run id w y Hy) as Emax.
    rewrite Hz in Emin, Emax. simpl in Emin, Emax.
    unfold Domain.min in Emin. unfold Domain.max in Emax.
    cbn [Var.remove_below Var.remove_above].
    unfold Domain.remove_below, Domain.remove_above, bind.
    by rewrite Emin, Emax.
  - simpl in Hnil. rewrite fmap_nil_iff in Hnil.
    cbn [Var.remove_below Var.remove_above].
    split; by apply (IH Haff Hid Hnil).
  - simpl in Hnil. rewrite fmap_nil_iff in Hnil.
    cbn [Var.remove_below Var.remove_above].
    split; by apply (IH Haff Hid Hnil).
Qed.

(** X22.  [Minimize.tighten], for an objective on a variable of a sound
    solver (or an offset or opposite view of one): it raises
    [RuntimeError] and changes nothing unless the variable has exactly one
    value; when its one value is [m], it stores the bound [m - 1] and
    changes nothing else.  From then on, as long as the objective is not
    tightened again, the closure that [Minimize.__init__] gave to
    [on_fix_point] does this on any sound solver that still has the
    variable: when the variable has a value, it leaves exactly the values
    that are at most [m - 1], and raises [InconsistencyException] exactly
    when there is none of them; when the variable has no value at all, it
    raises [ValueError] and changes nothing. *)
Theorem tighten_cuts_off (user_filter : nat -> M World unit) (obj : nat)
    (o : Minimize) (w : World) :
  world_ok w -> objectives w !! obj = Some o ->
  affine (_x o) = true -> is_Some (int_vars w !! var_id (_x o)) ->
  (length (view_values w (_x o)) <> 1%nat ->
   tighten obj w = (Raise RuntimeError, w)) /\
  (forall m, view_values w (_x o) = [m] ->
     let w1 := with_objectives
                 (<[obj := mkMinimize (m - 1) (_x o)]> (objectives w)) w in
     tighten obj w = (Ret tt, w1) /\
     forall w2, world_ok w2 -> objectives w2 = objectives w1 ->
       is_Some (int_vars w2 !! var_id (_x o)) ->
       (view_values w2 (_x o) = [] ->
        call_filter user_filter (Minimize_cutoff obj) w2
        = (Raise ValueError, w2)) /\
       (view_values w2 (_x o) <> [] ->
        exists w3,
          call_filter user_filter (Minimize_cutoff obj) w2
          = (if decide (view_values w3 (_x o) = [])
             then Raise InconsistencyException else Ret tt, w3) /\
          world_ok w3 /\
          (forall u, u ∈ view_values w3 (_x o) <->
                     u ∈ view_values w2 (_x o) /\ u <= m - 1))).
Proof.
  intros Hok Hobj Haff Hid.
  destruct (shows_view (_x o) w Hok Haff Hid)
    as (_ & _ & Hfx & _ & Hmm & _).
  assert (Eo : objective obj w = (Ret o, w)).
  { unfold objective. by rewrite Hobj. }
  split.
  - intros Hlen. unfold tighten.
    rewrite (bind_run _ _ _ _ _ Eo), (bind_run _ _ _ _ _ Hfx).
    destruct (Z.eqb_spec (Z.of_nat (length (view_values w (_x o)))) 1);
      [lia|done].
  - intros m Hm w1. split.
    + unfold tighten.
      rewrite (bind_run _ _ _ _ _ Eo), (bind_run _ _ _ _ _ Hfx).
      destruct (Hmm ltac:(by rewrite Hm)) as (mn & mx & _ & Emx & _ & Hin & _).
      rewrite Hm in Hin. apply list_elem_of_singleton in Hin as ->.
      rewrite Hm. change (Z.of_nat (length [m]) =? 1) with true.
      cbn [negb]. cbv iota. by rewrite (bind_run _ _ _ _ _ Emx).
    + intros w2 Hok2 Hobj2 Hid2.
      assert (Eo2 : objective obj w2
                    = (Ret (mkMinimize (m - 1) (_x o)), w2)).
      { unfold objective. rewrite Hobj2. unfold w1. cbn.
        rewrite list_lookup_insert_eq; [done|]. by eapply lookup_lt_Some. }
      split.
      * intros Hnil. cbn [call_filter].
        rewrite (bind_run _ _ _ _ _ Eo2). cbn [_x _bound].
        by apply (bound_update_empty (_x o) w2 Hok2 Haff Hid2 Hnil).
      * intros Hne2.
        destruct (view_update_run (_x o) (VRemoveAbove (m - 1)) w2 Hok2 Haff
                    Hne2) as (w3 & E & Hok3 & Hst & Hval & _ & _).
        exists w3. cbn [call_filter].
        rewrite (bind_run _ _ _ _ _ Eo2). cbn [_x _bound].
        cbn [var_do] in E. rewrite E. split; [done|]. split; [done|].
        intros u. rewrite Hval. cbn [var_op_keeps]. by rewrite Z.leb_le.
Qed.

Lemma tighten_cuts_off_witness :
  let w0 := snd (make_int_var (Some 3) (Some 3) None None (make_solver true)) in
  let w := snd (minimize (IntVarImpl 0) w0) in
  let o := mkMinimize MAX_VALUE (IntVarImpl 0) in
  let user_filter := fun _ : nat => ret tt : M World unit in
  world_ok w /\ objectives w !! 0%nat = Some o /\
  affine (_x o) = true /\ is_Some (int_vars w !! var_id (_x o)) /\
  view_values w (_x o) = [3] /\
  (length (view_values w (_x o)) <> 1%nat ->
   tighten 0 w = (Raise RuntimeError, w)) /\
  (forall m, view_values w (_x o) = [m] ->
     let w1 := with_objectives
                 (<[0%nat := mkMinimize (m - 1) (_x o)]> (objectives w)) w in
     tighten 0 w = (Ret tt, w1) /\
     forall w2, world_ok w2 -> objectives w2 = objectives w1 ->
       is_Some (int_vars w2 !! var_id (_x o)) ->
       (view_values w2 (_x o) = [] ->
        call_filter user_filter (Minimize_cutoff 0) w2
        = (Raise ValueError, w2)) /\
       (view_values w2 (_x o) <> [] ->
        exists w3,
          call_filter user_filter (Minimize_cutoff 0) w2
          = (if decide (view_values w3 (_x o) = [])
             then Raise InconsistencyException else Ret tt, w3) /\
          world_ok w3 /\
          (forall u, u ∈ view_values w3 (_x o) <->
                     u ∈ view_values w2 (_x o) /\ u <= m - 1))).
Proof.
  intros w0 w o user_filter.
  assert (Hok0 : world_ok w0).
  { destruct (make_int_var_ok 3 3 (make_solver true)
                (world_ok_make_solver true)) as (w' & E & Hok & _);
      [done|done|lia|].
    unfold w0. by rewrite E. }
  assert (Hok : world_ok w) by exact Hok0.
  assert (Hobj : objectives w !! 0%nat = Some o) by reflexivity.
  assert (Hid : is_Some (int_vars w !! var_id (_x o))).
  { vm_compute. by eexists. }
  split; [exact Hok|]. split; [exact Hobj|]. split; [reflexivity|].
  split; [exact Hid|]. split; [by vm_compute|].
  exact (tighten_cuts_off user_filter 0 o w Hok Hobj eq_refl Hid).
Defined.

(** The run of the objective after a solution: on a solver whose
    objective variable is fixed to 3, [tighten] stores the bound 2, the
    cut-off closure then empties the domain and raises
    [InconsistencyException], and a second call of the closure, on the
    domain it has emptied, raises [ValueError]. *)
Example cutoff_after_tighten :
  let w0 := snd (make_int_var (Some 3) (Some 3) None None (make_solver true)) in
  let w := snd (minimize (IntVarImpl 0) w0) in
  let user_filter := fun _ : nat => ret tt : M World unit in
  let r1 := tighten 0 w in
  let r2 := call_filter user_filter (Minimize_cutoff 0) (snd r1) in
  let r3 := call_filter user_filter (Minimize_cutoff 0) (snd r2) in
  fst r1 = Ret tt /\ objectives (snd r1) = [mkMinimize 2 (IntVarImpl 0)] /\
  fst r2 = Raise InconsistencyException /\
  view_values (snd r2) (IntVarImpl 0) = [] /\
  r3 = (Raise ValueError, snd r2).
Proof. by vm_compute. Qed.

(* ================================================================== *)
(** ** constraint.py: [IsLessOrEqual] *)

Lemma view_values_same w w' x :
  var_values w' (var_id x) = var_values w (var_id x) ->
  view_values w' x = view_values w x.
Proof.
  intros H. induction x as [id|x IH a|x IH o|x IH|x IH]; simpl in *;
    [done|by rewrite IH..].
Qed.

Lemma nonempty_elem (l : list Z) : l <> [] -> exists u, u ∈ l.
Proof. destruct l as [|u l]; [done|]. intros _. exists u. apply list_elem_of_here. Qed.

Lemma elem_nonempty (l : list Z) u : u ∈ l -> l <> [].
Proof. intros Hu ->. by apply elem_of_nil in Hu. Qed.

(** X23.  [IsLessOrEqual.post] for [b <=> x <= v], on a boolean variable
    [b] and a variable [x] of a sound solver (variables, or offset and
    opposite views, of two different variables; neither domain empty; [b]
    within 0 and 1): it raises [InconsistencyException] exactly when no
    value of [b] and value of [x] satisfy the constraint, and otherwise
    returns.  When it returns, the domain of [b] holds exactly its values
    that some value of [x] supports, and the domain of [x] exactly its
    values that some value of [b] supports.  Every other variable keeps
    its values, and the solver stays sound. *)
Theorem is_less_or_equal_post (xb x : IntVar) (v : Z) (w : World) :
  world_ok w -> affine xb = true -> affine x = true ->
  is_Some (int_vars w !! var_id xb) -> is_Some (int_vars w !! var_id x) ->
  var_id xb <> var_id x ->
  view_values w xb <> [] -> view_values w x <> [] ->
  (forall u, u ∈ view_values w xb -> u = 0 \/ u = 1) ->
  exists o w',
    IsLessOrEqual_post (BoolVarImpl xb) x v w = (o, w') /\
    world_ok w' /\
    (o = Ret tt \/ o = Raise InconsistencyException) /\
    (o = Ret tt <->
     exists bv xv, bv ∈ view_values w xb /\ xv ∈ view_values w x /\
                   leq_pair v bv xv) /\
    (o = Ret tt ->
     leq_consistent v (view_values w xb) (view_values w x)
                      (view_values w' xb) (view_values w' x)) /\
    (forall j, j <> var_id xb -> j <> var_id x ->
               var_values w' j = var_values w j).
Proof.
  intros Hok Hab Hax Hib Hix Hne Hbne Hxne H01.
  destruct (shows_view xb w Hok Hab Hib) as (_ & _ & _ & _ & Hmmb & _).
  destruct (Hmmb Hbne) as (mnb & mxb & Emnb & Emxb & Hmnb & Hmxb & Hbb).
  destruct (shows_view x w Hok Hax Hix) as (_ & _ & _ & _ & Hmmx & _).
  destruct (Hmmx Hxne) as (mnx & mxx & Emnx & Emxx & Hmnx & Hmxx & Hxb).
  clear Hmmb Hmmx.
  assert (Et : Var.is_true (BoolVarImpl xb) w = (Ret (mnb =? 1), w)).
  { unfold Var.is_true. cbn [Var.min]. by rewrite (bind_run _ _ _ _ _ Emnb). }
  assert (Ef : Var.is_false (BoolVarImpl xb) w = (Ret (mxb =? 0), w)).
  { unfold Var.is_false. cbn [Var.max]. by rewrite (bind_run _ _ _ _ _ Emxb). }
  unfold IsLessOrEqual_post, leq_consistent, leq_pair.
  rewrite (bind_run _ _ _ _ _ Et).
  destruct (Z.eqb_spec mnb 1) as [Hm1|Hm1].
  { (* [b] is true *)
    assert (Hall : forall u, u ∈ view_values w xb -> u = 1).
    { intros u Hu. destruct (H01 u Hu); [|done]. specialize (Hbb u Hu). lia. }
    destruct (view_update_run x (VRemoveAbove v) w Hok Hax Hxne)
      as (w' & E & Hok' & _ & Hval & Hoth & _).
    cbn [var_do var_op_keeps] in E, Hval.
    assert (Hb' : view_values w' xb = view_values w xb).
    { apply view_values_same, Hoth. done. }
    eexists _, w'. split; [exact E|]. split; [done|].
    rewrite Hb'. destruct (decide (view_values w' x = [])) as [Hnil|Hnn].
    - split; [by right|]. split; [|split; [done|by intros; apply Hoth]].
      split; [done|]. intros (bv & xv & Hbv & Hxv & Hp). exfalso.
      assert (Hin : xv ∈ view_values w' x).
      { apply Hval. split; [done|]. apply Z.leb_le, Hp. by apply Hall. }
      by eapply elem_nonempty.
    - destruct (nonempty_elem _ Hnn) as (x0 & Hx0).
      apply Hval in Hx0 as [Hx0 Hle%Z.leb_le].
      split; [by left|]. split; [|split; [|by intros; apply Hoth]].
      + split; [|done]. intros _. exists 1, x0.
        rewrite <- Hm1 at 1. done.
      + intros _. split.
        * intros bv. split; [|by intros [? _]]. intros Hbv. split; [done|].
          exists x0. split; [done|]. by rewrite (Hall bv Hbv).
        * intros xv. rewrite Hval, Z.leb_le. split.
          -- intros [Hxv Hle']. split; [done|]. exists 1.
             rewrite <- Hm1 at 1. done.
          -- intros (Hxv & bv & Hbv & Hp). split; [done|].
             apply Hp. by apply Hall. }
  cbv iota. rewrite (bind_run _ _ _ _ _ Ef).
  destruct (Z.eqb_spec mxb 0) as [Hx0|Hx0].
  { (* [b] is false *)
    assert (Hall : forall u, u ∈ view_values w xb -> u = 0).
    { intros u Hu. destruct (H01 u Hu); [done|]. specialize (Hbb u Hu). lia. }
    destruct (view_update_run x (VRemoveBelow (v + 1)) w Hok Hax Hxne)
      as (w' & E & Hok' & _ & Hval & Hoth & _).
    cbn [var_do var_op_keeps] in E, Hval.
    assert (Hb' : view_values w' xb = view_values w xb).
    { apply view_values_same, Hoth. done. }
    eexists _, w'. split; [exact E|]. split; [done|].
    rewrite Hb'. destruct (decide (view_values w' x = [])) as [Hnil|Hnn].
    - split; [by right|]. split; [|split; [done|by intros; apply Hoth]].
      split; [done|]. intros (bv & xv & Hbv & Hxv & Hp). exfalso.
      assert (Hin : xv ∈ view_values w' x).
      { apply Hval. split; [done|]. apply Z.leb_le.
        pose proof (Hall bv Hbv). lia. }
      by eapply elem_nonempty.
    - destruct (nonempty_elem _ Hnn) as (x0 & Hx0').
      apply Hval in Hx0' as [Hx0' Hle%Z.leb_le].
      split; [by left|]. split; [|split; [|by intros; apply Hoth]].
      + split; [|done]. intros _. exists 0, x0.
        split; [by rewrite <- Hx0|]. split; [done|]. lia.
      + intros _. split.
        * intros bv. split; [|by intros [? _]]. intros Hbv. split; [done|].
          exists x0. split; [done|]. rewrite (Hall bv Hbv). lia.
        * intros xv. rewrite Hval, Z.leb_le. split.
          -- intros [Hxv Hle']. split; [done|]. exists 0.
             split; [by rewrite <- Hx0|]. lia.
          -- intros (Hxv & bv & Hbv & Hp). split; [done|].
             pose proof (Hall bv Hbv). lia. }
  cbv iota.
  assert (Hb0 : 0 ∈ view_values w xb).
  { destruct (H01 mnb Hmnb) as [E0|E1]; [by rewrite <- E0|done]. }
  assert (Hb1 : 1 ∈ view_values w xb).
  { destruct (H01 mxb Hmxb) as [E0|E1]; [done|by rewrite <- E1]. }
  rewrite (bind_run _ _ _ _ _ Emxx).
  destruct (Z.leb_spec mxx v) as [Hle|Hgt].
  { (* every value of [x] is at most [v] *)
    destruct (view_update_run xb (VFix 1) w Hok Hab Hbne)
      as (w' & E & Hok' & _ & Hval & Hoth & _).
    cbn [var_do var_op_keeps] in E, Hval.
    assert (Hx' : view_values w' x = view_values w x).
    { apply view_values_same, Hoth. done. }
    assert (Hnn : view_values w' xb <> []).
    { apply (elem_nonempty _ 1), Hval. done. }
    rewrite decide_False in E by done.
    eexists _, w'. cbn [Var.fix_v]. split; [exact E|]. split; [done|].
    rewrite Hx'. split; [by left|].
    split; [|split; [|by intros j Hj _; apply Hoth]].
    - split; [|done]. intros _. exists 1, mxx. done.
    - intros _. split.
      + intros bv. rewrite Hval, Z.eqb_eq. split.
        * intros [Hbv ->]. split; [done|]. exists mxx. done.
        * intros (Hbv & xv & Hxv & Hp). split; [done|]. apply Hp.
          specialize (Hxb xv Hxv). lia.
      + intros xv. split; [|by intros [? _]]. intros Hxv. split; [done|].
        exists 1. split; [done|]. specialize (Hxb xv Hxv). split; [lia|done]. }
  rewrite (bind_run _ _ _ _ _ Emnx).
  rewrite Z.gtb_ltb. destruct (Z.ltb_spec v mnx) as [Hlt|Hge].
  { (* every value of [x] is above [v] *)
    destruct (view_update_run xb (VFix 0) w Hok Hab Hbne)
      as (w' & E & Hok' & _ & Hval & Hoth & _).
    cbn [var_do var_op_keeps] in E, Hval.
    assert (Hx' : view_values w' x = view_values w x).
    { apply view_values_same, Hoth. done. }
    assert (Hnn : view_values w' xb <> []).
    { apply (elem_nonempty _ 0), Hval. done. }
    rewrite decide_False in E by done.
    eexists _, w'. cbn [Var.fix_v]. split; [exact E|]. split; [done|].
    rewrite Hx'. split; [by left|].
    split; [|split; [|by intros j Hj _; apply Hoth]].
    - split; [|done]. intros _. exists 0, mnx. split; [done|].
      split; [done|]. lia.
    - intros _. split.
      + intros bv. rewrite Hval, Z.eqb_eq. split.
        * intros [Hbv ->]. split; [done|]. exists mnx. split; [done|]. lia.
        * intros (Hbv & xv & Hxv & Hp). split; [done|].
          specialize (Hxb xv Hxv). destruct (H01 bv Hbv); [done|]. lia.
      + intros xv. split; [|by intros [? _]]. intros Hxv. split; [done|].
        exists 0. split; [done|]. specialize (Hxb xv Hxv). lia. }
  (* neither is decided: the two closures are registered *)
  destruct (when_on_run OnFix (BoolVarImpl xb)
              (IsLessOrEqual_callback (BoolVarImpl xb) x v) w Hok Hib)
    as (w1 & E1 & Hok1 & Hl1 & _ & _ & Hv1 & _).
  assert (Hix1 : is_Some (int_vars w1 !! var_id x)).
  { apply lookup_lt_is_Some. rewrite Hl1. by apply lookup_lt_is_Some. }
  destruct (when_on_run OnBound x
              (IsLessOrEqual_callback2 (BoolVarImpl xb) x v) w1 Hok1 Hix1)
    as (w2 & E2 & Hok2 & _ & _ & _ & Hv2 & _).
  exists (Ret tt), w2. unfold Var.when_fixed, Var.when_bound_change.
  rewrite (bind_run _ _ _ _ _ E1). split; [exact E2|]. split; [done|].
  assert (Hb' : view_values w2 xb = view_values w xb).
  { apply view_values_same. by rewrite Hv2, Hv1. }
  assert (Hx' : view_values w2 x = view_values w x).
  { apply view_values_same. by rewrite Hv2, Hv1. }
  rewrite Hb', Hx'. split; [by left|].
  split; [|split; [|by intros j _ _; rewrite Hv2, Hv1]].
  - split; [|done]. intros _. exists 1, mnx. done.
  - intros _. split.
    + intros bv. split; [|by intros [? _]]. intros Hbv. split; [done|].
      destruct (H01 bv Hbv) as [->| ->].
      * exists mxx. split; [done|]. lia.
      * exists mnx. done.
    + intros xv. split; [|by intros [? _]]. intros Hxv. split; [done|].
      destruct (Z.le_gt_cases xv v).
      * exists 1. done.
      * exists 0. split; [done|]. lia.
Qed.

Lemma is_less_or_equal_post_witness :
  let w := two_vars_world true in
  let xb := IntVarImpl 1 in
  let x := IntVarViewOffset (IntVarImpl 0) 10 in
  world_ok w /\ view_values w xb = [0; 1] /\
  view_values w x = [10; 11; 12; 13; 14; 15] /\
  exists o w',
    IsLessOrEqual_post (BoolVarImpl xb) x 12 w = (o, w') /\
    world_ok w' /\
    (o = Ret tt \/ o = Raise InconsistencyException) /\
    (o = Ret tt <->
     exists bv xv, bv ∈ view_values w xb /\ xv ∈ view_values w x /\
                   leq_pair 12 bv xv) /\
    (o = Ret tt ->
     leq_consistent 12 (view_values w xb) (view_values w x)
                       (view_values w' xb) (view_values w' x)) /\
    (forall j, j <> var_id xb -> j <> var_id x ->
               var_values w' j = var_values w j).
Proof.
  intros w xb x.
  assert (Hok : world_ok w) by apply (two_vars_world_ok true).
  assert (Hb : view_values w xb = [0; 1]) by (by vm_compute).
  assert (Hx : view_values w x = [10; 11; 12; 13; 14; 15]) by (by vm_compute).
  split; [exact Hok|]. split; [exact Hb|]. split; [exact Hx|].
  apply (is_less_or_equal_post xb x 12 w Hok eq_refl eq_refl).
  - vm_compute. by eexists.
  - vm_compute. by eexists.
  - cbn [var_id xb x]. lia.
  - by rewrite Hb.
  - by rewrite Hx.
  - intros u. rewrite Hb. intros Hu.
    apply elem_of_cons in Hu as [->|Hu]; [by left|].
    apply list_elem_of_singleton in Hu as ->. by right.
Defined.

(** X24.  The two closures that [IsLessOrEqual.post] registers for
    [b <=> x <= v], under the conditions of X23.  The closure on the
    fixing of [b], run when [b] has one value, leaves in the domain of
    [x] exactly the values that the value of [b] supports, and raises
    [InconsistencyException] exactly when there is none.  The closure on
    the bounds of [x] leaves in the domain of [b] exactly the values that
    some value of [x] supports, and raises [InconsistencyException]
    exactly when there is none.  Neither changes another variable, and
    the solver stays sound. *)
Theorem is_less_or_equal_callbacks (user_filter : nat -> M World unit)
    (xb x : IntVar) (v : Z) (w : World) :
  world_ok w -> affine xb = true -> affine x = true ->
  is_Some (int_vars w !! var_id xb) -> is_Some (int_vars w !! var_id x) ->
  var_id xb <> var_id x ->
  view_values w xb <> [] -> view_values w x <> [] ->
  (forall u, u ∈ view_values w xb -> u = 0 \/ u = 1) ->
  (length (view_values w xb) = 1%nat ->
   exists w',
     call_filter user_filter (IsLessOrEqual_callback (BoolVarImpl xb) x v) w
     = (if decide (view_values w' x = []) then Raise InconsistencyException
        else Ret tt, w') /\
     world_ok w' /\
     (forall xv, xv ∈ view_values w' x <->
        xv ∈ view_values w x /\
        exists bv, bv ∈ view_values w xb /\ leq_pair v bv xv) /\
     (forall j, j <> var_id x -> var_values w' j = var_values w j)) /\
  (exists w',
     call_filter user_filter (IsLessOrEqual_callback2 (BoolVarImpl xb) x v) w
     = (if decide (view_values w' xb = []) then Raise InconsistencyException
        else Ret tt, w') /\
     world_ok w' /\
     (forall bv, bv ∈ view_values w' xb <->
        bv ∈ view_values w xb /\
        exists xv, xv ∈ view_values w x /\ leq_pair v bv xv) /\
     (forall j, j <> var_id xb -> var_values w' j = var_values w j)).
Proof.
  intros Hok Hab Hax Hib Hix Hne Hbne Hxne H01.
  destruct (shows_view xb w Hok Hab Hib) as (_ & _ & _ & _ & Hmmb & _).
  destruct (Hmmb Hbne) as (mnb & mxb & Emnb & Emxb & Hmnb & Hmxb & Hbb).
  destruct (shows_view x w Hok Hax Hix) as (_ & _ & _ & _ & Hmmx & _).
  destruct (Hmmx Hxne) as (mnx & mxx & Emnx & Emxx & Hmnx & Hmxx & Hxb).
  clear Hmmb Hmmx. unfold leq_pair. split.
  - intros Hlen.
    assert (Hall : forall u, u ∈ view_values w xb -> u = mnb).
    { destruct (view_values w xb) as [|b0 [|b1 l]]; [done| |done].
      apply list_elem_of_singleton in Hmnb as ->.
      by intros u ->%list_elem_of_singleton. }
    assert (Et : Var.is_true (BoolVarImpl xb) w = (Ret (mnb =? 1), w)).
    { unfold Var.is_true. cbn [Var.min]. by rewrite (bind_run _ _ _ _ _ Emnb). }
    cbn [call_filter]. rewrite (bind_run _ _ _ _ _ Et).
    destruct (Z.eqb_spec mnb 1) as [Hm1|Hm1].
    + destruct (view_update_run x (VRemoveAbove v) w Hok Hax Hxne)
        as (w' & E & Hok' & _ & Hval & Hoth & _).
      cbn [var_do var_op_keeps] in E, Hval.
      exists w'. split; [exact E|]. split; [done|]. split; [|done].
      intros xv. rewrite Hval, Z.leb_le. split.
      * intros [Hxv Hle]. split; [done|]. exists mnb. done.
      * intros (Hxv & bv & Hbv & Hp). split; [done|]. apply Hp.
        by rewrite (Hall bv Hbv).
    + destruct (view_update_run x (VRemoveBelow (v + 1)) w Hok Hax Hxne)
        as (w' & E & Hok' & _ & Hval & Hoth & _).
      cbn [var_do var_op_keeps] in E, Hval.
      exists w'. split; [exact E|]. split; [done|]. split; [|done].
      intros xv. rewrite Hval, Z.leb_le. split.
      * intros [Hxv Hle]. split; [done|]. exists mnb. split; [done|]. lia.
      * intros (Hxv & bv & Hbv & Hp). split; [done|].
        rewrite (Hall bv Hbv) in Hp. lia.
  - cbn [call_filter]. rewrite (bind_run _ _ _ _ _ Emxx).
    destruct (Z.leb_spec mxx v) as [Hle|Hgt].
    { destruct (view_update_run xb (VFix 1) w Hok Hab Hbne)
        as (w' & E & Hok' & _ & Hval & Hoth & _).
      cbn [var_do var_op_keeps] in E, Hval.
      exists w'. cbn [Var.fix_v]. split; [exact E|]. split; [done|].
      split; [|done]. intros bv. rewrite Hval, Z.eqb_eq. split.
      - intros [Hbv ->]. split; [done|]. exists mxx. done.
      - intros (Hbv & xv & Hxv & Hp). split; [done|]. apply Hp.
        specialize (Hxb xv Hxv). lia. }
    rewrite (bind_run _ _ _ _ _ Emnx).
    rewrite Z.gtb_ltb. destruct (Z.ltb_spec v mnx) as [Hlt|Hge].
    { destruct (view_update_run xb (VFix 0) w Hok Hab Hbne)
        as (w' & E & Hok' & _ & Hval & Hoth & _).
      cbn [var_do var_op_keeps] in E, Hval.
      exists w'. cbn [Var.fix_v]. split; [exact E|]. split; [done|].
      split; [|done]. intros bv. rewrite Hval, Z.eqb_eq. split.
      - intros [Hbv ->]. split; [done|]. exists mnx. split; [done|]. lia.
      - intros (Hbv & xv & Hxv & Hp). split; [done|].
        specialize (Hxb xv Hxv). destruct (H01 bv Hbv); [done|]. lia. }
    exists w. rewrite decide_False by done. split; [done|].
    split; [done|]. split; [|done].
    intros bv. split; [|by intros [? _]]. intros Hbv. split; [done|].
    destruct (decide (bv = 1)) as [->|Hb1].
    + exists mnx. done.
    + exists mxx. split; [done|]. lia.
Qed.

Lemma is_less_or_equal_callbacks_witness :
  let w0 := two_vars_world true in
  let w := snd (var_do (IntVarImpl 1) (VFix 0) w0) in
  let xb := IntVarImpl 1 in
  let x := IntVarViewOffset (IntVarImpl 0) 10 in
  let user_filter := fun _ : nat => ret tt : M World unit in
  world_ok w /\ view_values w xb = [0] /\
  view_values w x = [10; 11; 12; 13; 14; 15] /\
  (length (view_values w xb) = 1%nat ->
   exists w',
     call_filter user_filter (IsLessOrEqual_callback (BoolVarImpl xb) x 12) w
     = (if decide (view_values w' x = []) then Raise InconsistencyException
        else Ret tt, w') /\
     world_ok w' /\
     (forall xv, xv ∈ view_values w' x <->
        xv ∈ view_values w x /\
        exists bv, bv ∈ view_values w xb /\ leq_pair 12 bv xv) /\
     (forall j, j <> var_id x -> var_values w' j = var_values w j)) /\
  (exists w',
     call_filter user_filter (IsLessOrEqual_callback2 (BoolVarImpl xb) x 12) w
     = (if decide (view_values w' xb = []) then Raise InconsistencyException
        else Ret tt, w') /\
     world_ok w' /\
     (forall bv, bv ∈ view_values w' xb <->
        bv ∈ view_values w xb /\
        exists xv, xv ∈ view_values w x /\ leq_pair 12 bv xv) /\
     (forall j, j <> var_id xb -> var_values w' j = var_values w j)).
Proof.
  intros w0 w xb x user_filter.
  assert (Hok : world_ok w).
  { destruct (two_vars_world_ok true) as (Hok0 & _ & _).
    destruct (view_update_run (IntVarImpl 1) (VFix 0) w0 Hok0 eq_refl)
      as (w' & E & Hok' & _); [by vm_compute|].
    unfold w. by rewrite E. }
  assert (Hb : view_values w xb = [0]) by (by vm_compute).
  assert (Hx : view_values w x = [10; 11; 12; 13; 14; 15]) by (by vm_compute).
  split; [exact Hok|]. split; [exact Hb|]. split; [exact Hx|].
  apply (is_less_or_equal_callbacks user_filter xb x 12 w Hok eq_refl eq_refl).
  - vm_compute. by eexists.
  - vm_compute. by eexists.
  - cbn [var_id xb x]. lia.
  - by rewrite Hb.
  - by rewrite Hx.
  - intros u. rewrite Hb. intros ->%list_elem_of_singleton. by left.
Defined.

(* ================================================================== *)
(** ** constraint.py: [IsEqual] *)

Lemma set_active_ok (c : nat) (a : bool) (w : World) :
  world_ok w -> own_flag w c ->
  exists w',
    set_active c a w = (Ret tt, w') /\ world_ok w' /\
    (forall j, var_values w' j = var_values w j) /\
    is_active c w' = (Ret a, w').
Proof.
  intros Hok (k & Hk & Hlt & Hnot). pose proof Hok as (Hwf & Hnd & Hall).
  destruct (set_value_run (_active k) (if a then 1 else 0) (_sm w) Hwf)
    as (sm' & E & Hwf' & _ & Hv).
  assert (Hn : n_cells sm' = n_cells (_sm w)).
  { by rewrite !n_cells_cell_values, Hv, length_insert. }
  assert (Hfr : forall j y r, int_vars w !! j = Some y -> r ∈ var_cells y ->
                              value r sm' = value r (_sm w)).
  { intros j y r Hy Hr. rewrite !value_cell_values, Hv.
    rewrite list_lookup_insert_ne; [done|]. intros <-. apply Hnot.
    apply list_elem_of_join. exists (var_cells y). split; [done|].
    apply list_elem_of_fmap. exists y. split; [done|].
    by apply list_elem_of_lookup_2 in Hy. }
  assert (Ec : constraint c w = (Ret k, w)).
  { unfold constraint. by rewrite Hk. }
  exists (with_sm sm' w). unfold set_active.
  rewrite (bind_run _ _ _ _ _ Ec).
  rewrite (bind_run _ _ _ _ _ (lift_sm_world _ w _ _ E)).
  split; [done|]. split; [|split].
  - split; [done|]. split; [done|]. simpl.
    apply Forall_lookup. intros j y Hy.
    destruct (world_ok_lookup w j y Hok Hy) as [[Hss Hst] _]. split.
    + apply (ss_ok_frame (_sm w)); [done|done|simpl; lia|].
      intros r Hr. apply (Hfr j y r Hy). by apply domain_cells_var_cells.
    + intros e. destruct (Hst e) as [Hs1 Hs2].
      destruct (stack_frame (_sm w) sm' (stack_of e y) Hs1 Hwf') as [F1 F2];
        [lia| |].
      { apply (Hfr j y _ Hy). apply stack_cell_var_cells. }
      split; [done|]. simpl. by rewrite F2.
  - intros j. unfold var_values. simpl.
    destruct (int_vars w !! j) as [y|] eqn:Hy; [|done].
    destruct (world_ok_lookup w j y Hok Hy) as [[Hss _] _].
    apply (ss_ok_frame (_sm w)); [done|done|lia|].
    intros r Hr. apply (Hfr j y r Hy). by apply domain_cells_var_cells.
  - unfold is_active.
    assert (Ec' : constraint c (with_sm sm' w) = (Ret k, with_sm sm' w)).
    { unfold constraint. simpl. by rewrite Hk. }
    rewrite (bind_run _ _ _ _ _ Ec').
    assert (Eg : lift_sm (gets (value (_active k))) (with_sm sm' w)
                 = (Ret (if a then 1 else 0), with_sm sm' w)).
    { unfold lift_sm, gets. simpl. rewrite value_cell_values, Hv.
      rewrite list_lookup_insert_eq by (by rewrite <- n_cells_cell_values).
      simpl. by destruct w. }
    rewrite (bind_run _ _ _ _ _ Eg). by destruct a.
Qed.

Lemma own_flag_step w w' c :
  world_step w w' -> flags_grow w w' -> own_flag w c -> own_flag w' c.
Proof.
  intros Hst Hfl (k & Hk & Hlt & Hnot).
  destruct (Hfl c k Hk) as (k' & Hk' & Ha & _).
  destruct (world_step_cells w w' Hst) as [_ Hc].
  destruct Hst as (_ & Hn & _).
  exists k'. rewrite Ha, Hn, Hc. done.
Qed.

Lemma view_values_NoDup w x :
  world_ok w -> affine x = true -> NoDup (view_values w x).
Proof.
  intros Hok. induction x as [id|x IH a|x IH o|x IH|x IH]; intros Haff;
    try discriminate; simpl.
  - by apply var_values_NoDup.
  - apply NoDup_fmap_2; [intros a b H; lia|by apply IH].
  - apply NoDup_fmap_2; [intros a b H; lia|by apply IH].
Qed.

Lemma other_member (l : list Z) (v : Z) :
  NoDup l -> v ∈ l -> length l <> 1%nat -> exists u, u ∈ l /\ u <> v.
Proof.
  intros Hnd Hv Hlen. destruct l as [|a [|b l]]; [by apply elem_of_nil in Hv|done|].
  apply NoDup_cons in Hnd as [Hab _].
  destruct (decide (a = v)) as [->|Ha].
  - exists b. split; [in_list|]. intros ->. apply Hab. in_list.
  - exists a. split; [in_list|done].
Qed.

(** X25.  [IsEqual.propagate] for [b <=> x == v], on a boolean variable
    [b] and a variable [x] of a sound solver (variables, or offset and
    opposite views, of two different variables; neither domain empty; [b]
    within 0 and 1), for a constraint whose [_active] cell is its own: it
    raises [InconsistencyException] exactly when no value of [b] and
    value of [x] satisfy the constraint, and otherwise returns.  When it
    returns, the domain of [b] holds exactly its values that some value of
    [x] supports, the domain of [x] exactly its values that some value of
    [b] supports, and the constraint is no longer active if [b] has one
    value.  Every other variable keeps its values, and the solver stays
    sound. *)
Theorem is_equal_propagate (c : nat) (xb x : IntVar) (v : Z) (w : World) :
  world_ok w -> affine xb = true -> affine x = true ->
  is_Some (int_vars w !! var_id xb) -> is_Some (int_vars w !! var_id x) ->
  var_id xb <> var_id x ->
  view_values w xb <> [] -> view_values w x <> [] ->
  (forall u, u ∈ view_values w xb -> u = 0 \/ u = 1) ->
  own_flag w c ->
  exists o w',
    IsEqual_propagate c (BoolVarImpl xb) x v w = (o, w') /\
    world_ok w' /\
    (o = Ret tt \/ o = Raise InconsistencyException) /\
    (o = Ret tt <->
     exists bv xv, bv ∈ view_values w xb /\ xv ∈ view_values w x /\
                   eq_pair v bv xv) /\
    (o = Ret tt ->
     eq_consistent v (view_values w xb) (view_values w x)
                     (view_values w' xb) (view_values w' x) /\
     (length (view_values w' xb) = 1%nat ->
      is_active c w' = (Ret false, w'))) /\
    (forall j, j <> var_id xb -> j <> var_id x ->
               var_values w' j = var_values w j).
Proof.
  intros Hok Hab Hax Hib Hix Hne Hbne Hxne H01 Hown.
  destruct (shows_view xb w Hok Hab Hib) as (_ & _ & _ & _ & Hmmb & _).
  destruct (Hmmb Hbne) as (mnb & mxb & Emnb & Emxb & Hmnb & Hmxb & Hbb).
  destruct (shows_view x w Hok Hax Hix) as (Hct & _ & Hfx & _ & _ & _).
  clear Hmmb.
  assert (Et : Var.is_true (BoolVarImpl xb) w = (Ret (mnb =? 1), w)).
  { unfold Var.is_true. cbn [Var.min]. by rewrite (bind_run _ _ _ _ _ Emnb). }
  assert (Ef : Var.is_false (BoolVarImpl xb) w = (Ret (mxb =? 0), w)).
  { unfold Var.is_false. cbn [Var.max]. by rewrite (bind_run _ _ _ _ _ Emxb). }
  assert (Efb : forall value, Var.fix_bool (BoolVarImpl xb) value
                = var_do xb (VFix (if value then 1 else 0))).
  { by intros []. }
  (* an update of [y] that returns, followed by [set_active(False)] *)
  assert (Hrun : forall y op w1,
            var_do y op w = (Ret tt, w1) -> world_ok w1 ->
            world_step w w1 -> update_fired w w1 (var_id y) ->
            exists w2,
              (var_do y op ;; set_active c false) w = (Ret tt, w2) /\
              world_ok w2 /\
              (forall j, var_values w2 j = var_values w1 j) /\
              is_active c w2 = (Ret false, w2)).
  { intros y op w1 E Hok1 Hst [Hfl _].
    destruct (set_active_ok c false w1 Hok1
                (own_flag_step w w1 c Hst Hfl Hown))
      as (w2 & E2 & Hok2 & Hv2 & Ha2).
    exists w2. by rewrite (bind_run _ _ _ _ _ E). }
  unfold IsEqual_propagate, eq_consistent, eq_pair.
  rewrite (bind_run _ _ _ _ _ Et).
  destruct (Z.eqb_spec mnb 1) as [Hm1|Hm1].
  { (* [b] is true *)
    assert (Hall : forall u, u ∈ view_values w xb -> u = 1).
    { intros u Hu. destruct (H01 u Hu); [|done]. specialize (Hbb u Hu). lia. }
    destruct (view_update_run x (VFix v) w Hok Hax Hxne)
      as (w1 & E & Hok1 & Hst & Hval & Hoth & Hup).
    cbn [var_op_keeps] in Hval.
    destruct (decide (view_values w1 x = [])) as [Hnil|Hnn].
    - exists (Raise InconsistencyException), w1. split.
      { change (Var.fix_ x v) with (var_do x (VFix v)).
        unfold bind. by rewrite E. }
      split; [done|]. split; [by right|].
      split; [|split; [done|by intros; apply Hoth]].
      split; [done|]. intros (bv & xv & Hbv & Hxv & Hp). exfalso.
      assert (Hin : xv ∈ view_values w1 x).
      { apply Hval. split; [done|]. apply Z.eqb_eq, Hp. by apply Hall. }
      by eapply elem_nonempty.
    - destruct (Hrun x (VFix v) w1 E Hok1 Hst Hup)
        as (w2 & E2 & Hok2 & Hv2 & Ha2).
      assert (Hb' : view_values w2 xb = view_values w xb).
      { apply view_values_same. rewrite Hv2. by apply Hoth. }
      assert (Hx' : view_values w2 x = view_values w1 x).
      { by apply view_values_same. }
      destruct (nonempty_elem _ Hnn) as (x0 & Hx0).
      apply Hval in Hx0 as [Hx0 Hx0v%Z.eqb_eq].
      exists (Ret tt), w2. split; [exact E2|]. split; [done|].
      rewrite Hb', Hx'. split; [by left|].
      split; [|split; [|by intros; rewrite Hv2; apply Hoth]].
      + split; [|done]. intros _. exists 1, x0.
        rewrite <- Hm1 at 1. done.
      + intros _. split; [|done]. split.
        * intros bv. split; [|by intros [? _]]. intros Hbv. split; [done|].
          exists x0. split; [done|]. by rewrite (Hall bv Hbv).
        * intros xv. rewrite Hval, Z.eqb_eq. split.
          -- intros [Hxv ->]. split; [done|]. exists 1.
             rewrite <- Hm1 at 1. done.
          -- intros (Hxv & bv & Hbv & Hp). split; [done|].
             apply Hp. by apply Hall. }
  cbv iota. rewrite (bind_run _ _ _ _ _ Ef).
  destruct (Z.eqb_spec mxb 0) as [Hx0|Hx0].
  { (* [b] is false *)
    assert (Hall : forall u, u ∈ view_values w xb -> u = 0).
    { intros u Hu. destruct (H01 u Hu); [done|]. specialize (Hbb u Hu). lia. }
    destruct (view_update_run x (VRemove v) w Hok Hax Hxne)
      as (w1 & E & Hok1 & Hst & Hval & Hoth & Hup).
    cbn [var_op_keeps] in Hval.
    assert (Hval' : forall u, u ∈ view_values w1 x <->
                              u ∈ view_values w x /\ u <> v).
    { intros u. rewrite Hval, negb_true_iff, Z.eqb_neq. done. }
    destruct (decide (view_values w1 x = [])) as [Hnil|Hnn].
    - exists (Raise InconsistencyException), w1. split.
      { change (Var.remove x v) with (var_do x (VRemove v)).
        unfold bind. by rewrite E. }
      split; [done|]. split; [by right|].
      split; [|split; [done|by intros; apply Hoth]].
      split; [done|]. intros (bv & xv & Hbv & Hxv & Hp). exfalso.
      assert (Hin : xv ∈ view_values w1 x).
      { apply Hval'. split; [done|]. pose proof (Hall bv Hbv). lia. }
      by eapply elem_nonempty.
    - destruct (Hrun x (VRemove v) w1 E Hok1 Hst Hup)
        as (w2 & E2 & Hok2 & Hv2 & Ha2).
      assert (Hb' : view_values w2 xb = view_values w xb).
      { apply view_values_same. rewrite Hv2. by apply Hoth. }
      assert (Hx' : view_values w2 x = view_values w1 x).
      { by apply view_values_same. }
      destruct (nonempty_elem _ Hnn) as (x0 & Hx0').
      apply Hval' in Hx0' as [Hx0' Hxv].
      exists (Ret tt), w2. split; [exact E2|]. split; [done|].
      rewrite Hb', Hx'. split; [by left|].
      split; [|split; [|by intros; rewrite Hv2; apply Hoth]].
      + split; [|done]. intros _. exists 0, x0.
        split; [by rewrite <- Hx0|]. split; [done|]. lia.
      + intros _. split; [|done]. split.
        * intros bv. split; [|by intros [? _]]. intros Hbv. split; [done|].
          exists x0. split; [done|]. rewrite (Hall bv Hbv). lia.
        * intros xv. rewrite Hval'. split.
          -- intros [Hxv' Hn]. split; [done|]. exists 0.
             split; [by rewrite <- Hx0|]. lia.
          -- intros (Hxv' & bv & Hbv & Hp). split; [done|].
             pose proof (Hall bv Hbv). lia. }
  cbv iota.
  assert (Hb0 : 0 ∈ view_values w xb).
  { destruct (H01 mnb Hmnb) as [E0|E1]; [by rewrite <- E0|done]. }
  assert (Hb1 : 1 ∈ view_values w xb).
  { destruct (H01 mxb Hmxb) as [E0|E1]; [done|by rewrite <- E1]. }
  assert (Hlen2 : length (view_values w xb) <> 1%nat).
  { intros Hl. destruct (view_values w xb) as [|a [|a' l]]; [done| |done].
    apply list_elem_of_singleton in Hb0, Hb1. lia. }
  rewrite (bind_run _ _ _ _ _ (Hct v)).
  destruct (decide (v ∈ view_values w x)) as [Hin|Hnin].
  2:{ (* [v] is no value of [x] *)
    rewrite bool_decide_eq_false_2 by done. cbn [negb]. cbv iota.
    destruct (view_update_run xb (VFix 0) w Hok Hab Hbne)
      as (w1 & E & Hok1 & Hst & Hval & Hoth & Hup).
    cbn [var_op_keeps] in Hval.
    assert (Hnn : view_values w1 xb <> []).
    { apply (elem_nonempty _ 0), Hval. done. }
    rewrite decide_False in E by done.
    destruct (Hrun xb (VFix 0) w1 E Hok1 Hst Hup)
      as (w2 & E2 & Hok2 & Hv2 & Ha2).
    assert (Hx' : view_values w2 x = view_values w x).
    { apply view_values_same. rewrite Hv2. by apply Hoth. }
    assert (Hb' : view_values w2 xb = view_values w1 xb).
    { by apply view_values_same. }
    destruct (nonempty_elem _ Hxne) as (x0 & Hx0').
    exists (Ret tt), w2. rewrite (Efb false). split; [exact E2|].
    split; [done|]. rewrite Hb', Hx'. split; [by left|].
    split; [|split; [|by intros j Hj _; rewrite Hv2; apply Hoth]].
    - split; [|done]. intros _. exists 0, x0. split; [done|].
      split; [done|]. split; [lia|]. by intros ->.
    - intros _. split; [|done]. split.
      + intros bv. rewrite Hval, Z.eqb_eq. split.
        * intros [Hbv ->]. split; [done|]. exists x0. split; [done|].
          split; [lia|]. by intros ->.
        * intros (Hbv & xv & Hxv & Hp). split; [done|].
          destruct (H01 bv Hbv) as [|Hb]; [done|].
          apply Hp in Hb as ->. done.
      + intros xv. split; [|by intros [? _]]. intros Hxv. split; [done|].
        exists 0. split; [done|]. split; [lia|]. by intros ->. }
  rewrite bool_decide_eq_true_2 by done. cbn [negb]. cbv iota.
  rewrite (bind_run _ _ _ _ _ Hfx).
  destruct (Z.eqb_spec (Z.of_nat (length (view_values w x))) 1) as [Hl1|Hl1].
  { (* [x] is fixed to [v] *)
    assert (Hallx : forall u, u ∈ view_values w x -> u = v).
    { intros u Hu.
      by apply (singleton_member _ v (view_values_NoDup w x Hok Hax) Hl1 Hin)
        in Hu as [_ ->]. }
    destruct (view_update_run xb (VFix 1) w Hok Hab Hbne)
      as (w1 & E & Hok1 & Hst & Hval & Hoth & Hup).
    cbn [var_op_keeps] in Hval.
    assert (Hnn : view_values w1 xb <> []).
    { apply (elem_nonempty _ 1), Hval. done. }
    rewrite decide_False in E by done.
    destruct (Hrun xb (VFix 1) w1 E Hok1 Hst Hup)
      as (w2 & E2 & Hok2 & Hv2 & Ha2).
    assert (Hx' : view_values w2 x = view_values w x).
    { apply view_values_same. rewrite Hv2. by apply Hoth. }
    assert (Hb' : view_values w2 xb = view_values w1 xb).
    { by apply view_values_same. }
    exists (Ret tt), w2. rewrite (Efb true). split; [exact E2|].
    split; [done|]. rewrite Hb', Hx'. split; [by left|].
    split; [|split; [|by intros j Hj _; rewrite Hv2; apply Hoth]].
    - split; [|done]. intros _. exists 1, v. done.
    - intros _. split; [|done]. split.
      + intros bv. rewrite Hval, Z.eqb_eq. split.
        * intros [Hbv ->]. split; [done|]. exists v. done.
        * intros (Hbv & xv & Hxv & Hp). split; [done|].
          apply Hp. by apply Hallx.
      + intros xv. split; [|by intros [? _]]. intros Hxv. split; [done|].
        exists 1. split; [done|]. split; [|done]. intros _. by apply Hallx. }
  (* nothing is decided *)
  destruct (other_member _ v (view_values_NoDup w x Hok Hax) Hin)
    as (u & Hu & Hun); [lia|].
  exists (Ret tt), w. split; [done|]. split; [done|]. split; [by left|].
  split; [|split; [|done]].
  - split; [|done]. intros _. exists 1, v. done.
  - intros _. split; [|done]. split.
    + intros bv. split; [|by intros [? _]]. intros Hbv. split; [done|].
      destruct (H01 bv Hbv) as [->| ->].
      * exists u. split; [done|]. split; [lia|done].
      * exists v. done.
    + intros xv. split; [|by intros [? _]]. intros Hxv. split; [done|].
      destruct (decide (xv = v)) as [->|Hxn].
      * exists 1. done.
      * exists 0. split; [done|]. split; [lia|done].
Qed.


Lemma is_equal_propagate_witness :
  let xb := IntVarImpl 1 in
  let x := IntVarViewOffset (IntVarImpl 0) 10 in
  let w := snd (new_constraint (IsEqual (BoolVarImpl xb) x 12)
                  (two_vars_world true)) in
  world_ok w /\ own_flag w 0 /\ view_values w xb = [0; 1] /\
  view_values w x = [10; 11; 12; 13; 14; 15] /\
  exists o w',
    IsEqual_propagate 0 (BoolVarImpl xb) x 12 w = (o, w') /\
    world_ok w' /\
    (o = Ret tt \/ o = Raise InconsistencyException) /\
    (o = Ret tt <->
     exists bv xv, bv ∈ view_values w xb /\ xv ∈ view_values w x /\
                   eq_pair 12 bv xv) /\
    (o = Ret tt ->
     eq_consistent 12 (view_values w xb) (view_values w x)
                      (view_values w' xb) (view_values w' x) /\
     (length (view_values w' xb) = 1%nat ->
      is_active 0 w' = (Ret false, w'))) /\
    (forall j, j <> var_id xb -> j <> var_id x ->
               var_values w' j = var_values w j).
Proof.
  intros xb x w.
  assert (Hok : world_ok w).
  { destruct (two_vars_world_ok true) as (Hok0 & _ & _).
    destruct (new_constraint_ok (IsEqual (BoolVarImpl xb) x 12)
                (two_vars_world true) Hok0) as (w' & E & Hok' & _).
    unfold w. by rewrite E. }
  assert (Hown : own_flag w 0).
  { eexists. split; [by vm_compute|]. split.
    - vm_compute. lia.
    - apply (bool_decide_unpack _). by vm_compute. }
  assert (Hb : view_values w xb = [0; 1]) by (by vm_compute).
  assert (Hx : view_values w x = [10; 11; 12; 13; 14; 15]) by (by vm_compute).
  split; [exact Hok|]. split; [exact Hown|]. split; [exact Hb|].
  split; [exact Hx|].
  apply (is_equal_propagate 0 xb x 12 w Hok eq_refl eq_refl).
  - vm_compute. by eexists.
  - vm_compute. by eexists.
  - cbn [var_id xb x]. lia.
  - by rewrite Hb.
  - by rewrite Hx.
  - intros u. rewrite Hb. intros Hu.
    apply elem_of_cons in Hu as [->|Hu]; [by left|].
    apply list_elem_of_singleton in Hu as ->. by right.
  - exact Hown.
Defined.

(* ================================================================== *)
(** ** factory.py: [plus], [minus] and [Not] *)

Lemma shows_readable (x : IntVar) (w : World) :
  world_ok w -> readable x = true -> is_Some (int_vars w !! var_id x) ->
  shows w x (view_values w x).
Proof.
  intros Hok. induction x as [id|x IH a|x IH o|x IH|x IH]; intros Hr Hid;
    try discriminate.
  - destruct Hid as [y Hy]. by apply (impl_shows id w y).
  - apply shows_offset. by apply IH.
  - apply shows_opposite. by apply IH.
  - exact (IH Hr Hid).
Qed.

Lemma offset_init_run (x : IntVar) (o : Z) (w : World) :
  world_ok w -> readable x = true -> is_Some (int_vars w !! var_id x) ->
  view_values w x <> [] ->
  ((forall u, u ∈ view_values w x -> MIN_VALUE < u + o < MAX_VALUE) ->
   IntVarViewOffset_init x o w = (Ret (IntVarViewOffset x o), w)) /\
  ((exists u, u ∈ view_values w x /\
              (u + o <= MIN_VALUE \/ MAX_VALUE <= u + o)) ->
   IntVarViewOffset_init x o w = (Raise OverflowError, w)).
Proof.
  intros Hok Hr Hid Hne.
  destruct (shows_readable x w Hok Hr Hid) as (_ & _ & _ & _ & Hmm & _).
  destruct (Hmm Hne) as (mn & mx & Emn & Emx & Hmn & Hmx & Hb).
  unfold IntVarViewOffset_init. rewrite (bind_run _ _ _ _ _ Emn).
  split.
  - intros Hall. pose proof (Hall mn Hmn). pose proof (Hall mx Hmx).
    destruct (Z.leb_spec (0 + mn + o) MIN_VALUE); [lia|].
    rewrite (bind_run _ _ _ _ _ Emx), Z.geb_leb.
    destruct (Z.leb_spec MAX_VALUE (0 + mx + o)); [lia|done].
  - intros (u & Hu & Hout). specialize (Hb u Hu).
    destruct (Z.leb_spec (0 + mn + o) MIN_VALUE); [done|].
    rewrite (bind_run _ _ _ _ _ Emx), Z.geb_leb.
    destruct (Z.leb_spec MAX_VALUE (0 + mx + o)); [done|lia].
Qed.

(** X26.  [plus(x, v)] and [minus(x, v)] on a variable of a sound solver,
    or on a view of it made of offsets, opposites and boolean views,
    whose domain is not empty.  They change nothing.  [plus(x, 0)] is [x]
    itself; otherwise [plus(x, v)] is a view whose values are those of [x]
    shifted by [v] when every shifted value lies strictly between
    [MIN_VALUE] and [MAX_VALUE], and raises [OverflowError] when one does
    not.  [minus(x, v)] is [plus(x, -v)], and [minus(x)] is a view whose
    values are those of [x] negated, with no check of the bounds. *)
Theorem plus_minus_views (x : IntVar) (v : Z) (w : World) :
  world_ok w -> readable x = true -> is_Some (int_vars w !! var_id x) ->
  view_values w x <> [] ->
  let shifted := (fun u => u + v) <$> view_values w x in
  (v = 0 -> plus x v w = (Ret x, w)) /\
  (v <> 0 -> (forall u, u ∈ shifted -> MIN_VALUE < u < MAX_VALUE) ->
   exists y, plus x v w = (Ret y, w) /\ view_values w y = shifted /\
             var_id y = var_id x /\ readable y = true) /\
  (v <> 0 -> (exists u, u ∈ shifted /\ (u <= MIN_VALUE \/ MAX_VALUE <= u)) ->
   plus x v w = (Raise OverflowError, w)) /\
  minus x (Some (- v)) w = plus x v w /\
  exists y, minus x None w = (Ret y, w) /\
            view_values w y = (fun u => - u) <$> view_values w x /\
            var_id y = var_id x /\ readable y = true.
Proof.
  intros Hok Hr Hid Hne shifted.
  destruct (offset_init_run x v w Hok Hr Hid Hne) as [Hin Hout].
  split; [|split; [|split; [|split]]].
  - intros ->. done.
  - intros Hv Hall. exists (IntVarViewOffset x v). unfold plus.
    destruct (Z.eqb_spec v 0); [done|]. split; [|done].
    apply Hin. intros u Hu. apply Hall. unfold shifted.
    apply list_elem_of_fmap. by exists u.
  - intros Hv (u & Hu & Hbad). unfold plus.
    destruct (Z.eqb_spec v 0); [done|]. apply Hout.
    apply list_elem_of_fmap in Hu as (u0 & -> & Hu0). by exists u0.
  - unfold minus, plus. rewrite Z.opp_involutive.
    destruct (Z.eqb_spec (- v) 0), (Z.eqb_spec v 0); try lia; done.
  - exists (IntVarViewOpposite x). done.
Qed.

Lemma plus_minus_views_witness :
  let w := two_vars_world true in
  let x := IntVarViewOpposite (BoolVarImpl (IntVarImpl 1)) in
  let v := 1 in
  world_ok w /\ view_values w x = [0; -1] /\
  let shifted := (fun u => u + v) <$> view_values w x in
  (v = 0 -> plus x v w = (Ret x, w)) /\
  (v <> 0 -> (forall u, u ∈ shifted -> MIN_VALUE < u < MAX_VALUE) ->
   exists y, plus x v w = (Ret y, w) /\ view_values w y = shifted /\
             var_id y = var_id x /\ readable y = true) /\
  (v <> 0 -> (exists u, u ∈ shifted /\ (u <= MIN_VALUE \/ MAX_VALUE <= u)) ->
   plus x v w = (Raise OverflowError, w)) /\
  minus x (Some (- v)) w = plus x v w /\
  exists y, minus x None w = (Ret y, w) /\
            view_values w y = (fun u => - u) <$> view_values w x /\
            var_id y = var_id x /\ readable y = true.
Proof.
  intros w x v.
  assert (Hok : world_ok w) by apply (two_vars_world_ok true).
  assert (Hx : view_values w x = [0; -1]) by (by vm_compute).
  split; [exact Hok|]. split; [exact Hx|].
  apply (plus_minus_views x v w Hok eq_refl).
  - vm_compute. by eexists.
  - by rewrite Hx.
Defined.

(** X27.  [Not(b)] on a boolean view [b] of a variable of a sound solver
    (or of a view of it made of offsets, opposites and boolean views)
    whose domain is not empty and lies within 0 and 1: it changes nothing
    and returns a boolean view whose values are [1 - u] for the values
    [u] of [b].  The view is true exactly when [b] is false and false
    exactly when [b] is true, and fixing it to a truth value is fixing
    [b] to the other one. *)
Theorem not_view (xb : IntVar) (w : World) :
  world_ok w -> readable xb = true -> is_Some (int_vars w !! var_id xb) ->
  view_values w xb <> [] ->
  (forall u, u ∈ view_values w xb -> u = 0 \/ u = 1) ->
  let b := BoolVarImpl xb in
  exists nb,
    Not b w = (Ret nb, w) /\
    view_values w nb = (fun u => 1 - u) <$> view_values w b /\
    var_id nb = var_id b /\
    Var.is_true nb w = Var.is_false b w /\
    Var.is_false nb w = Var.is_true b w /\
    forall value, Var.fix_bool nb value = Var.fix_bool b (negb value).
Proof.
  intros Hok Hr Hid Hne H01 b.
  set (m := IntVarViewOpposite b).
  set (p := IntVarViewOffset m 1).
  assert (Hvp : view_values w p = (fun u => 1 - u) <$> view_values w b).
  { unfold p, m, b. cbn [view_values]. rewrite <- list_fmap_compose.
    apply list_fmap_ext. intros _ u _. simpl. lia. }
  assert (Hpne : view_values w p <> []).
  { rewrite Hvp. by rewrite fmap_nil_iff. }
  destruct (shows_readable b w Hok Hr Hid) as (_ & _ & _ & _ & Hmmb & _).
  destruct (Hmmb Hne) as (mnb & mxb & Emnb & Emxb & Hmnb & Hmxb & Hbb).
  destruct (shows_readable p w Hok Hr Hid) as (_ & _ & _ & _ & Hmmp & _).
  destruct (Hmmp Hpne) as (mnp & mxp & Emnp & Emxp & Hmnp & Hmxp & Hbp).
  assert (Hin : forall u, u ∈ view_values w p <->
                          exists u0, u = 1 - u0 /\ u0 ∈ view_values w b).
  { intros u. rewrite Hvp. apply list_elem_of_fmap. }
  assert (Hmn : mnp = 1 - mxb).
  { apply Hin in Hmnp as (u0 & -> & Hu0).
    assert (H1 : 1 - mxb ∈ view_values w p) by (apply Hin; by exists mxb).
    specialize (Hbp _ H1). specialize (Hbb _ Hu0). lia. }
  assert (Hmx : mxp = 1 - mnb).
  { apply Hin in Hmxp as (u0 & -> & Hu0).
    assert (H1 : 1 - mnb ∈ view_values w p) by (apply Hin; by exists mnb).
    specialize (Hbp _ H1). specialize (Hbb _ Hu0). lia. }
  assert (Hmnb01 : mnb = 0 \/ mnb = 1) by (by apply H01).
  assert (Hmxb01 : mxb = 0 \/ mxb = 1) by (by apply H01).
  assert (Em : minus b None w = (Ret m, w)) by done.
  assert (Ep : plus m 1 w = (Ret p, w)).
  { unfold plus. change (1 =? 0) with false. cbv iota.
    apply (offset_init_run m 1 w Hok Hr Hid).
    - unfold m. cbn [view_values]. by rewrite fmap_nil_iff.
    - intros u Hu. unfold m in Hu. cbn [view_values] in Hu.
      apply list_elem_of_fmap in Hu as (u0 & -> & Hu0).
      destruct (H01 u0 Hu0) as [-> | ->]; unfold MIN_VALUE, MAX_VALUE; lia. }
  exists (BoolVarImpl p). split; [|split; [done|split; [done|split; [|split]]]].
  - unfold Not. rewrite (bind_run _ _ _ _ _ Em), (bind_run _ _ _ _ _ Ep).
    unfold BoolVarImpl_init. rewrite (bind_run _ _ _ _ _ Emxp).
    rewrite Z.gtb_ltb. destruct (Z.ltb_spec 1 mxp); [lia|].
    rewrite (bind_run _ _ _ _ _ Emnp).
    destruct (Z.ltb_spec mnp 0); [lia|done].
  - unfold Var.is_true, Var.is_false. cbn [Var.min Var.max] in *.
    rewrite (bind_run _ _ _ _ _ Emnp), (bind_run _ _ _ _ _ Emxb).
    unfold ret. f_equal. f_equal.
    destruct (Z.eqb_spec mnp 1), (Z.eqb_spec mxb 0); (done || lia).
  - unfold Var.is_true, Var.is_false. cbn [Var.min Var.max] in *.
    rewrite (bind_run _ _ _ _ _ Emxp), (bind_run _ _ _ _ _ Emnb).
    unfold ret. f_equal. f_equal.
    destruct (Z.eqb_spec mxp 0), (Z.eqb_spec mnb 1); (done || lia).
  - by intros [].
Qed.

Lemma not_view_witness :
  let w := two_vars_world true in
  let xb := IntVarImpl 1 in
  world_ok w /\ view_values w xb = [0; 1] /\
  let b := BoolVarImpl xb in
  exists nb,
    Not b w = (Ret nb, w) /\
    view_values w nb = (fun u => 1 - u) <$> view_values w b /\
    var_id nb = var_id b /\
    Var.is_true nb w = Var.is_false b w /\
    Var.is_false nb w = Var.is_true b w /\
    forall value, Var.fix_bool nb value = Var.fix_bool b (negb value).
Proof.
  intros w xb.
  assert (Hok : world_ok w) by apply (two_vars_world_ok true).
  assert (Hb : view_values w xb = [0; 1]) by (by vm_compute).
  split; [exact Hok|]. split; [exact Hb|].
  apply (not_view xb w Hok eq_refl).
  - vm_compute. by eexists.
  - by rewrite Hb.
  - intros u. rewrite Hb. intros Hu.
    apply elem_of_cons in Hu as [->|Hu]; [by left|].
    apply list_elem_of_singleton in Hu as ->. by right.
Defined.

(* ================================================================== *)
(** ** factory.py: [make_int_var_array] *)

Lemma make_vars_ok (mn mx : Z) (k : nat) : forall w,
  world_ok w -> mn <> MIN_VALUE -> mx <> MAX_VALUE -> mn <= mx ->
  let id := length (int_vars w) in
  exists w',
    make_vars k (Some mn) (Some mx) None w
    = (Ret (IntVarImpl <$> seq id k), w') /\
    world_ok w' /\
    length (int_vars w') = (id + k)%nat /\
    (forall j, (j < id)%nat -> var_values w' j = var_values w j) /\
    (forall j, (id <= j < id + k)%nat -> var_values w' j = range mn (mx + 1)).
Proof.
  induction k as [|k IH]; intros w Hok H1 H2 H3 id.
  - exists w. split; [done|]. split; [done|]. split; [lia|].
    split; [done|]. intros j Hj. lia.
  - destruct (make_int_var_ok mn mx w Hok H1 H2 H3)
      as (w1 & E1 & Hok1 & Hnew & Hold & Hlen1).
    destruct (IH w1 Hok1 H1 H2 H3) as (w2 & E2 & Hok2 & Hlen2 & Hold2 & Hnew2).
    exists w2. cbn [make_vars]. rewrite (bind_run _ _ _ _ _ E1).
    rewrite (bind_run _ _ _ _ _ E2). rewrite Hlen1 in *. fold id in Hold, Hnew.
    split; [done|]. split; [done|]. split; [lia|]. split.
    + intros j Hj. rewrite Hold2 by lia. by apply Hold.
    + intros j Hj. destruct (decide (j = id)) as [->|Hne].
      * rewrite Hold2 by lia. done.
      * apply Hnew2. lia.
Qed.

(** X28.  [make_int_var_array(cp, n, min=min, max=max)] on a sound
    solver, with [min <= max], [min] not [MIN_VALUE] and [max] not
    [MAX_VALUE]: it returns [n] new variables, numbered after those of
    the solver, each with the values [min..max]; the variables the solver
    had keep their values, and the solver stays sound. *)
Theorem make_int_var_array_new (n mn mx : Z) (w : World) :
  world_ok w -> mn <> MIN_VALUE -> mx <> MAX_VALUE -> mn <= mx ->
  let id := length (int_vars w) in
  exists w',
    make_int_var_array n None (Some mn) (Some mx) w
    = (Ret (IntVarImpl <$> seq id (Z.to_nat n)), w') /\
    world_ok w' /\
    length (int_vars w') = (id + Z.to_nat n)%nat /\
    (forall j, (j < id)%nat -> var_values w' j = var_values w j) /\
    (forall j, (id <= j < id + Z.to_nat n)%nat ->
               var_values w' j = range mn (mx + 1)).
Proof.
  intros Hok H1 H2 H3 id. unfold make_int_var_array.
  by apply make_vars_ok.
Qed.

Lemma make_int_var_array_new_witness :
  let w := two_vars_world true in
  world_ok w /\
  let id := length (int_vars w) in
  exists w',
    make_int_var_array 3 None (Some (-1)) (Some 4) w
    = (Ret (IntVarImpl <$> seq id (Z.to_nat 3)), w') /\
    world_ok w' /\
    length (int_vars w') = (id + Z.to_nat 3)%nat /\
    (forall j, (j < id)%nat -> var_values w' j = var_values w j) /\
    (forall j, (id <= j < id + Z.to_nat 3)%nat ->
               var_values w' j = range (-1) (4 + 1)).
Proof.
  intros w.
  assert (Hok : world_ok w) by apply (two_vars_world_ok true).
  split; [exact Hok|].
  apply (make_int_var_array_new 3 (-1) 4 w Hok); [done|done|lia].
Defined.
